(** * ObMap: the hashed, ordered key/value map of LeechCore (ob_map.c)

    A shallow embedding of [src/leechcore/ob/ob_map.c] together with the
    proofs of its documented properties.

    Conventions of the embedding:
    - [DWORD] and [QWORD] values are integers of [Z]; every C operation that
      can wrap is written with its reduction modulo 2^32 or 2^64.
    - C arrays are total functions from the index to the cell contents; the
      length of the hash arrays is the field [cHashMax].
    - The three-level paged storage [Directory[d][t][s]] is a function of the
      three offsets; which pointers are not NULL is recorded in
      [TableAllocated] (for [Directory[d]]), [StoreAllocated] (for
      [Directory[d][t]]) and [HashMapKeyAllocated] (for [pHashMapKey]).
    - A [while(TRUE)] loop becomes a fixpoint over a fuel; [None] means that
      the fuel ran out.  The fuel handed to every probing loop is the length
      of the hash array.
    - Calls into the object manager and the heap made on behalf of stored
      values ([Ob_INCREF], [Ob_DECREF], [LocalFree]) are returned as a trace.
    - The reader/writer lock and the handle validation of the public entry
      points are not part of the model: a public function is the body that
      runs with a valid handle while the lock is held.
    - [LocalAlloc] and [Ob_AllocEx] may return NULL.  Whether a request is
      granted is an input of the operation that makes it ([heap]), one
      answer for each place of the code that allocates; no operation reaches
      such a place twice.
    - Reading an entry through a NULL table or store pointer has no defined
      result in C.  The model keeps the NULL pointers in the flags above, and
      its reads are meaningful for the logical indices whose table and store
      are allocated (the field [wf_alloc] of the invariant). *)

From Stdlib Require Import ZArith List Bool Lia Permutation Sorted.
Import ListNotations.
Local Open Scope Z_scope.

(** ** Machine integers *)

Abbreviation DWORD := Z.
Abbreviation QWORD := Z.
Abbreviation PVOID := Z.

Definition dw (x : Z) : DWORD := x mod 2 ^ 32.
Definition qw (x : Z) : QWORD := x mod 2 ^ 64.

(** The rotate intrinsics of the compiler, on 16, 32 and 64 bits. *)
Definition rotr (w x n : Z) : Z :=
  Z.lor (Z.shiftr (x mod 2 ^ w) n) (Z.shiftl (x mod 2 ^ w) (w - n)) mod 2 ^ w.

Definition _rotr16 (x n : Z) : Z := rotr 16 x n.
Definition _rotr (x n : Z) : Z := rotr 32 x n.
Definition _rotr64 (x n : Z) : Z := rotr 64 x n.

(** ** Constants and macros *)

Definition OB_MAP_ENTRIES_DIRECTORY : Z := 0x100.
Definition OB_MAP_ENTRIES_TABLE : Z := 0x200.
Definition OB_MAP_ENTRIES_STORE : Z := 0x100.

Definition OB_MAP_TABLE_MAX_CAPACITY : Z :=
  OB_MAP_ENTRIES_DIRECTORY * OB_MAP_ENTRIES_TABLE * OB_MAP_ENTRIES_STORE.

Definition OB_MAP_HASH_FUNCTION (v : QWORD) : QWORD :=
  qw (13 * (v + _rotr16 (v mod 2 ^ 16) 9 + _rotr (v mod 2 ^ 32) 17 + _rotr64 v 31)).

Definition OB_MAP_INDEX_DIRECTORY (i : DWORD) : Z :=
  Z.land (Z.shiftr i 17) (OB_MAP_ENTRIES_DIRECTORY - 1).
Definition OB_MAP_INDEX_TABLE (i : DWORD) : Z :=
  Z.land (Z.shiftr i 8) (OB_MAP_ENTRIES_TABLE - 1).
Definition OB_MAP_INDEX_STORE (i : DWORD) : Z :=
  Z.land i (OB_MAP_ENTRIES_STORE - 1).

(** ** Data model *)

Record OB_MAP_ENTRY := mkEntry { k : QWORD; v : PVOID }.

Record OB_MAP := mkMap {
  c : DWORD;
  cHashMax : DWORD;
  cHashGrowThreshold : DWORD;
  fLargeMode : bool;
  fKey : bool;
  fObjectsOb : bool;
  fObjectsLocalFree : bool;
  pHashMapKey : Z -> DWORD;
  pHashMapValue : Z -> DWORD;
  Directory : Z -> Z -> Z -> OB_MAP_ENTRY;
  HashMapKeyAllocated : bool;
  TableAllocated : Z -> bool;
  StoreAllocated : Z -> Z -> bool
}.

(** Calls made on behalf of the stored values. *)
Inductive ob_call :=
| Ob_INCREF (p : PVOID)
| Ob_DECREF (p : PVOID)
| LocalFree (p : PVOID).

(** Field updates. *)
Definition set_c (pm : OB_MAP) (x : DWORD) : OB_MAP :=
  mkMap x (cHashMax pm) (cHashGrowThreshold pm) (fLargeMode pm) (fKey pm)
        (fObjectsOb pm) (fObjectsLocalFree pm) (pHashMapKey pm)
        (pHashMapValue pm) (Directory pm) (HashMapKeyAllocated pm)
        (TableAllocated pm) (StoreAllocated pm).

Definition set_pHashMapKey (pm : OB_MAP) (t : Z -> DWORD) : OB_MAP :=
  mkMap (c pm) (cHashMax pm) (cHashGrowThreshold pm) (fLargeMode pm) (fKey pm)
        (fObjectsOb pm) (fObjectsLocalFree pm) t
        (pHashMapValue pm) (Directory pm) (HashMapKeyAllocated pm)
        (TableAllocated pm) (StoreAllocated pm).

Definition set_pHashMapValue (pm : OB_MAP) (t : Z -> DWORD) : OB_MAP :=
  mkMap (c pm) (cHashMax pm) (cHashGrowThreshold pm) (fLargeMode pm) (fKey pm)
        (fObjectsOb pm) (fObjectsLocalFree pm) (pHashMapKey pm)
        t (Directory pm) (HashMapKeyAllocated pm)
        (TableAllocated pm) (StoreAllocated pm).

Definition set_Directory (pm : OB_MAP) (d : Z -> Z -> Z -> OB_MAP_ENTRY) : OB_MAP :=
  mkMap (c pm) (cHashMax pm) (cHashGrowThreshold pm) (fLargeMode pm) (fKey pm)
        (fObjectsOb pm) (fObjectsLocalFree pm) (pHashMapKey pm)
        (pHashMapValue pm) d (HashMapKeyAllocated pm)
        (TableAllocated pm) (StoreAllocated pm).

(** Array cell update. *)
Definition upd {A} (t : Z -> A) (i : Z) (x : A) : Z -> A :=
  fun j => if j =? i then x else t j.

Definition upd3 {A} (t : Z -> Z -> Z -> A) (a b d : Z) (x : A) : Z -> Z -> Z -> A :=
  fun a' b' d' => if (a' =? a) && (b' =? b) && (d' =? d) then x else t a' b' d'.

(** [pm->Directory[OB_MAP_INDEX_DIRECTORY(i)][OB_MAP_INDEX_TABLE(i)][OB_MAP_INDEX_STORE(i)]] *)
Definition Entry (pm : OB_MAP) (i : DWORD) : OB_MAP_ENTRY :=
  Directory pm (OB_MAP_INDEX_DIRECTORY i) (OB_MAP_INDEX_TABLE i) (OB_MAP_INDEX_STORE i).

Definition set_Entry (pm : OB_MAP) (i : DWORD) (e : OB_MAP_ENTRY) : OB_MAP :=
  set_Directory pm
    (upd3 (Directory pm) (OB_MAP_INDEX_DIRECTORY i) (OB_MAP_INDEX_TABLE i)
          (OB_MAP_INDEX_STORE i) e).

(** Fuel monad. *)
Definition bind {A B} (x : option A) (f : A -> option B) : option B :=
  match x with Some a => f a | None => None end.

Notation "x <- e ;; f" := (bind e (fun x => f))
  (at level 61, e at next level, right associativity).

(** A counted [for] loop whose trip count is fixed on entry. *)
Fixpoint for_loop {St} (n : nat) (i : Z) (body : Z -> St -> option St) (s : St)
  : option St :=
  match n with
  | O => Some s
  | S n' => s' <- body i s ;; for_loop n' (dw (i + 1)) body s'
  end.

(** ** Internal accessors *)

Definition _ObMap_GetFromIndex (pm : OB_MAP) (iEntry : DWORD) : option OB_MAP_ENTRY :=
  if (iEntry =? 0) || (iEntry >=? c pm) then None
  else Some (Entry pm iEntry).

Definition _ObMap_GetFromEntryIndex (pm : OB_MAP) (fValueHash : bool) (iEntry : DWORD)
  : QWORD :=
  match _ObMap_GetFromIndex pm iEntry with
  | Some pe => if fValueHash then v pe else k pe
  | None => 0
  end.

(** [fValueHash ? pm->pHashMapValue[iHash] : pm->pHashMapKey[iHash]] *)
Definition HashMap (pm : OB_MAP) (fValueHash : bool) : Z -> DWORD :=
  if fValueHash then pHashMapValue pm else pHashMapKey pm.

Definition _ObMap_SetHashIndex (pm : OB_MAP) (fValueHash : bool) (iHash iEntry : DWORD)
  : OB_MAP :=
  if fValueHash then set_pHashMapValue pm (upd (pHashMapValue pm) iHash iEntry)
  else if fKey pm then set_pHashMapKey pm (upd (pHashMapKey pm) iHash iEntry)
  else pm.

Definition hash_fuel (pm : OB_MAP) : nat := Z.to_nat (cHashMax pm).

(** ** Hash index *)

Fixpoint InsertHash_probe (fuel : nat) (tbl : Z -> DWORD) (dwHashMask iHash : DWORD)
  : option DWORD :=
  match fuel with
  | O => None
  | S n =>
      if tbl iHash =? 0 then Some iHash
      else InsertHash_probe n tbl dwHashMask (Z.land (dw (iHash + 1)) dwHashMask)
  end.

Definition _ObMap_InsertHash (pm : OB_MAP) (fValueHash : bool) (iEntry : DWORD)
  : option OB_MAP :=
  let dwHashMask := dw (cHashMax pm - 1) in
  if negb fValueHash && negb (fKey pm) then Some pm
  else
    let qwValueToHash := _ObMap_GetFromEntryIndex pm fValueHash iEntry in
    let iHash := Z.land (OB_MAP_HASH_FUNCTION qwValueToHash) dwHashMask in
    iHash' <- InsertHash_probe (hash_fuel pm) (HashMap pm fValueHash) dwHashMask iHash ;;
    Some (_ObMap_SetHashIndex pm fValueHash iHash' iEntry).

Fixpoint RemoveHash_find (fuel : nat) (tbl : Z -> DWORD) (dwHashMask iEntry iHash : DWORD)
  : option DWORD :=
  match fuel with
  | O => None
  | S n =>
      if iEntry =? tbl iHash then Some iHash
      else RemoveHash_find n tbl dwHashMask iEntry (Z.land (dw (iHash + 1)) dwHashMask)
  end.

Fixpoint RemoveHash_rehash (fuel : nat) (pm : OB_MAP) (fValueHash : bool)
  (dwHashMask iNextHash : DWORD) : option OB_MAP :=
  match fuel with
  | O => None
  | S n =>
      let iNextHash := Z.land (dw (iNextHash + 1)) dwHashMask in
      let iNextEntry := HashMap pm fValueHash iNextHash in
      if iNextEntry =? 0 then Some pm
      else
        let qwNextEntry := _ObMap_GetFromEntryIndex pm fValueHash iNextEntry in
        let iNextHashPreferred := Z.land (OB_MAP_HASH_FUNCTION qwNextEntry) dwHashMask in
        if iNextHash =? iNextHashPreferred
        then RemoveHash_rehash n pm fValueHash dwHashMask iNextHash
        else
          pm' <- _ObMap_InsertHash (_ObMap_SetHashIndex pm fValueHash iNextHash 0)
                                   fValueHash iNextEntry ;;
          RemoveHash_rehash n pm' fValueHash dwHashMask iNextHash
  end.

Definition _ObMap_RemoveHash (pm : OB_MAP) (fValueHash : bool) (kv : QWORD) (iEntry : DWORD)
  : option OB_MAP :=
  let dwHashMask := dw (cHashMax pm - 1) in
  if negb fValueHash && negb (fKey pm) then Some pm
  else
    let iHash := Z.land (OB_MAP_HASH_FUNCTION kv) dwHashMask in
    iHash' <- RemoveHash_find (hash_fuel pm) (HashMap pm fValueHash) dwHashMask iEntry iHash ;;
    RemoveHash_rehash (hash_fuel pm) (_ObMap_SetHashIndex pm fValueHash iHash' 0)
                      fValueHash dwHashMask iHash'.

(** The result [Some i] is [TRUE] with [*piEntry = i]; [None] is [FALSE]. *)
Fixpoint GetEntryIndex_scan (fuel : nat) (pm : OB_MAP) (fValueHash : bool) (kv : QWORD)
  (dwHashMask iHash : DWORD) : option (option DWORD) :=
  match fuel with
  | O => None
  | S n =>
      let iEntry := HashMap pm fValueHash iHash in
      if iEntry =? 0 then Some None
      else if kv =? _ObMap_GetFromEntryIndex pm fValueHash iEntry then Some (Some iEntry)
      else GetEntryIndex_scan n pm fValueHash kv dwHashMask (Z.land (dw (iHash + 1)) dwHashMask)
  end.

Definition _ObMap_GetEntryIndexFromKeyOrValue (pm : OB_MAP) (fValueHash : bool) (kv : QWORD)
  : option (option DWORD) :=
  let dwHashMask := dw (cHashMax pm - 1) in
  let iHash := Z.land (OB_MAP_HASH_FUNCTION kv) dwHashMask in
  if negb fValueHash && negb (fKey pm) then Some None
  else GetEntryIndex_scan (hash_fuel pm) pm fValueHash kv dwHashMask iHash.

(** ** Retrieval *)

Definition _ObMap_Exists (pm : OB_MAP) (fValueHash : bool) (kv : QWORD) : option bool :=
  if (negb fValueHash && negb (fKey pm)) || (fValueHash && (kv =? 0)) then Some false
  else
    r <- _ObMap_GetEntryIndexFromKeyOrValue pm fValueHash kv ;;
    Some (match r with Some _ => true | None => false end).

Definition ObMap_Size (pm : OB_MAP) : DWORD := dw (c pm - 1).

Definition ObMap_Exists (pm : OB_MAP) (pvObject : PVOID) : option bool :=
  _ObMap_Exists pm true pvObject.

Definition ObMap_ExistsKey (pm : OB_MAP) (qwKey : QWORD) : option bool :=
  _ObMap_Exists pm false qwKey.

Definition _ObMap_GetByEntryIndex (pm : OB_MAP) (iEntry : DWORD) : PVOID * list ob_call :=
  let pvObObject := _ObMap_GetFromEntryIndex pm true iEntry in
  (pvObObject, if fObjectsOb pm then [Ob_INCREF pvObObject] else []).

Definition _ObMap_GetByKey (pm : OB_MAP) (qwKey : QWORD) : option (PVOID * list ob_call) :=
  r <- _ObMap_GetEntryIndexFromKeyOrValue pm false qwKey ;;
  Some (match r with
        | Some iEntry => _ObMap_GetByEntryIndex pm iEntry
        | None => (0, [])
        end).

Definition decref_if_ob (pm : OB_MAP) (pvObject : PVOID) : list ob_call :=
  if fObjectsOb pm then [Ob_DECREF pvObject] else [].

Definition with_calls (l : list ob_call) (r : PVOID * list ob_call) : PVOID * list ob_call :=
  (fst r, l ++ snd r).

Definition _ObMap_GetNext (pm : OB_MAP) (pvObject : PVOID) : option (PVOID * list ob_call) :=
  if pvObject =? 0 then Some (_ObMap_GetByEntryIndex pm 1)
  else
    r <- _ObMap_GetEntryIndexFromKeyOrValue pm true pvObject ;;
    Some (with_calls (decref_if_ob pm pvObject)
            (match r with
             | Some iEntry => _ObMap_GetByEntryIndex pm (dw (iEntry + 1))
             | None => (0, [])
             end)).

Definition _ObMap_GetNextByKey (pm : OB_MAP) (qwKey : QWORD) (pvObject : PVOID)
  : option (PVOID * list ob_call) :=
  if pvObject =? 0 then Some (_ObMap_GetByEntryIndex pm 1)
  else
    r <- _ObMap_GetEntryIndexFromKeyOrValue pm false qwKey ;;
    Some (with_calls (decref_if_ob pm pvObject)
            (match r with
             | Some iEntry => _ObMap_GetByEntryIndex pm (dw (iEntry + 1))
             | None => (0, [])
             end)).

(** Returns the updated cursor [*pdwIndex] with the object. *)
Definition _ObMap_GetNextByIndex (pm : OB_MAP) (dwIndex : DWORD) (pvObject : PVOID)
  : DWORD * (PVOID * list ob_call) :=
  let dwIndex := if negb (pvObject =? 0) then dw (c pm - 1) else dw (dwIndex - 1) in
  (dwIndex, with_calls (decref_if_ob pm pvObject) (_ObMap_GetByEntryIndex pm dwIndex)).

(** ** Sorted search *)

(** [for(i = 1; ((cMap - 1) >> i); i++);] *)
Fixpoint QFind_bits (fuel : nat) (x i : DWORD) : option DWORD :=
  match fuel with
  | O => None
  | S n => if Z.shiftr x i =? 0 then Some i else QFind_bits n x (dw (i + 1))
  end.

(** The halving phase: [inl i] is an exact match at [i], [inr i] hands the
    position [i] over to the final scan. *)
Fixpoint QFind_bisect (fuel : nat) (pm : OB_MAP) (qwKey : QWORD) (cMap i dwStep : DWORD)
  : option (DWORD + DWORD) :=
  match fuel with
  | O => None
  | S n =>
      if dwStep >? 1 then
        let pe := Entry pm i in
        if k pe <? qwKey then
          let i := if dw (i + dwStep) <=? cMap then dw (i + dwStep) else i in
          QFind_bisect n pm qwKey cMap i (Z.shiftr dwStep 1)
        else if k pe >? qwKey then
          QFind_bisect n pm qwKey cMap (dw (i - dwStep)) (Z.shiftr dwStep 1)
        else Some (inl i)
      else Some (inr i)
  end.

Fixpoint QFind_scan (fuel : nat) (pm : OB_MAP) (qwKey : QWORD) (cMap i : DWORD)
  : option (option DWORD) :=
  match fuel with
  | O => None
  | S n =>
      let pe := Entry pm i in
      if k pe <? qwKey then
        if i =? cMap then Some None
        else
          let i := dw (i + 1) in
          let pe := Entry pm i in
          if k pe >=? qwKey then Some (Some i)
          else QFind_scan n pm qwKey cMap i
      else if k pe >? qwKey then
        if i =? 1 then Some (Some 1)
        else
          let i := dw (i - 1) in
          let pe := Entry pm i in
          if k pe <? qwKey then Some (Some (dw (i + 1)))
          else QFind_scan n pm qwKey cMap i
      else Some (Some i)
  end.

Definition _ObMap_QFind (pm : OB_MAP) (qwKey : QWORD) : option (option DWORD) :=
  if c pm <=? 1 then Some None
  else
    let cMap := dw (c pm - 1) in
    i <- QFind_bits 32 (dw (cMap - 1)) 1 ;;
    let i := Z.min (dw (Z.shiftl 1 (dw (i - 1)))) (Z.shiftr (dw (cMap - 1)) 1) in
    let i := if i =? 0 then 1 else i in
    let dwStep := Z.shiftr i 1 in
    r <- QFind_bisect 32 pm qwKey cMap i dwStep ;;
    match r with
    | inl i => Some (Some i)
    | inr i => QFind_scan (Z.to_nat cMap) pm qwKey cMap i
    end.

Definition _ObMap_GetNextByKeySorted (pm : OB_MAP) (qwKey : QWORD) (pvObject : PVOID)
  : option (PVOID * list ob_call) :=
  let calls := decref_if_ob pm pvObject in
  if qwKey =? 0 then Some (with_calls calls (_ObMap_GetByEntryIndex pm 1))
  else
    r <- _ObMap_GetEntryIndexFromKeyOrValue pm false qwKey ;;
    match r with
    | Some iEntry => Some (with_calls calls (_ObMap_GetByEntryIndex pm (dw (iEntry + 1))))
    | None =>
        q <- _ObMap_QFind pm qwKey ;;
        match q with
        | Some iEntry => Some (with_calls calls (_ObMap_GetByEntryIndex pm iEntry))
        | None => Some (0, calls)
        end
    end.

Definition _ObMap_GetKey (pm : OB_MAP) (pvObject : PVOID) : option QWORD :=
  r <- _ObMap_GetEntryIndexFromKeyOrValue pm true pvObject ;;
  match r with
  | None => Some 0
  | Some iEntry =>
      match _ObMap_GetFromIndex pm iEntry with
      | Some pe => Some (k pe)
      | None => None
      end
  end.

(** The filter callback is observed through the list of the [(k, v)] pairs it
    is invoked on. *)
Fixpoint Filter_loop (n : nat) (pm : OB_MAP) (iEntry : DWORD) : list (QWORD * PVOID) :=
  match n with
  | O => []
  | S n' =>
      let pEntry := Entry pm iEntry in
      (k pEntry, v pEntry) :: Filter_loop n' pm (dw (iEntry + 1))
  end.

Definition _ObMap_Filter (pm : OB_MAP) : bool * list (QWORD * PVOID) :=
  (true, Filter_loop (Z.to_nat (c pm - 1)) pm 1).

(** ** Public retrieval functions *)

Definition ObMap_GetByIndex (pm : OB_MAP) (index : DWORD) : PVOID * list ob_call :=
  _ObMap_GetByEntryIndex pm (dw (index + 1)).

Definition ObMap_GetByKey (pm : OB_MAP) (qwKey : QWORD) := _ObMap_GetByKey pm qwKey.
Definition ObMap_GetNext (pm : OB_MAP) (pvObject : PVOID) := _ObMap_GetNext pm pvObject.
Definition ObMap_GetNextByKey (pm : OB_MAP) (qwKey : QWORD) (pvObject : PVOID) :=
  _ObMap_GetNextByKey pm qwKey pvObject.
Definition ObMap_GetNextByKeySorted (pm : OB_MAP) (qwKey : QWORD) (pvObject : PVOID) :=
  _ObMap_GetNextByKeySorted pm qwKey pvObject.
Definition ObMap_GetNextByIndex (pm : OB_MAP) (dwIndex : DWORD) (pvObject : PVOID) :=
  _ObMap_GetNextByIndex pm dwIndex pvObject.
Definition ObMap_GetKey (pm : OB_MAP) (pvObject : PVOID) := _ObMap_GetKey pm pvObject.
Definition ObMap_Peek (pm : OB_MAP) : PVOID * list ob_call :=
  _ObMap_GetByEntryIndex pm (dw (c pm - 1)).
Definition ObMap_PeekKey (pm : OB_MAP) : QWORD :=
  _ObMap_GetFromEntryIndex pm false (dw (c pm - 1)).
Definition ObMap_Filter (pm : OB_MAP) := _ObMap_Filter pm.

(** ** Removal *)

(** [Some (v, k)] is the removed object with its key ([*pKey]); [None] is
    the NULL return. *)
Definition _ObMap_RetrieveAndRemoveByEntryIndex (pm : OB_MAP) (iEntry : DWORD)
  : option (option (PVOID * QWORD) * OB_MAP) :=
  match _ObMap_GetFromIndex pm iEntry with
  | None => Some (None, pm)
  | Some pRemoveEntry =>
      let qwRemoveKey := k pRemoveEntry in
      let qwRemoveValue := v pRemoveEntry in
      pm <- _ObMap_RemoveHash pm false qwRemoveKey iEntry ;;
      pm <- _ObMap_RemoveHash pm true qwRemoveValue iEntry ;;
      pm <- (if iEntry <? dw (c pm - 1) then
               (* not last item removed -> move last item into empty bucket *)
               pLastEntry <- _ObMap_GetFromIndex pm (dw (c pm - 1)) ;;
               pm <- _ObMap_RemoveHash pm false (k pLastEntry) (dw (c pm - 1)) ;;
               pm <- _ObMap_RemoveHash pm true (v pLastEntry) (dw (c pm - 1)) ;;
               let pm := set_Entry pm iEntry (mkEntry (k pLastEntry) (v pLastEntry)) in
               pm <- _ObMap_InsertHash pm false iEntry ;;
               _ObMap_InsertHash pm true iEntry
             else Some pm) ;;
      Some (Some (qwRemoveValue, qwRemoveKey), set_c pm (dw (c pm - 1)))
  end.

Definition _ObMap_RemoveOrRemoveByKey (pm : OB_MAP) (fValueHash : bool) (kv : QWORD)
  : option (option (PVOID * QWORD) * OB_MAP) :=
  if fValueHash && (kv =? 0) then Some (None, pm)
  else
    r <- _ObMap_GetEntryIndexFromKeyOrValue pm fValueHash kv ;;
    match r with
    | None => Some (None, pm)
    | Some iEntry => _ObMap_RetrieveAndRemoveByEntryIndex pm iEntry
    end.

Definition removed_value (r : option (PVOID * QWORD)) : PVOID :=
  match r with Some (pv, _) => pv | None => 0 end.

(** The callback [pfnFilterRemoveCB(ctx, k, v)] is a function of the pair. *)
Fixpoint RemoveByFilter_loop (n : nat) (pm : OB_MAP) (pfnFilterRemoveCB : QWORD -> PVOID -> bool)
  (iEntry cRemove : DWORD) (calls : list ob_call) : option (DWORD * OB_MAP * list ob_call) :=
  match n with
  | O => Some (cRemove, pm, calls)
  | S n' =>
      let pEntry := Entry pm iEntry in
      if pfnFilterRemoveCB (k pEntry) (v pEntry) then
        r <- _ObMap_RetrieveAndRemoveByEntryIndex pm iEntry ;;
        let pv := removed_value (fst r) in
        let pm' := snd r in
        RemoveByFilter_loop n' pm' pfnFilterRemoveCB (dw (iEntry - 1)) (dw (cRemove + 1))
          (calls ++ (if fObjectsOb pm' then [Ob_DECREF pv] else [])
                 ++ (if fObjectsLocalFree pm' then [LocalFree pv] else []))
      else
        RemoveByFilter_loop n' pm pfnFilterRemoveCB (dw (iEntry - 1)) cRemove calls
  end.

Definition _ObMap_RemoveByFilter (pm : OB_MAP) (pfnFilterRemoveCB : QWORD -> PVOID -> bool)
  : option (DWORD * OB_MAP * list ob_call) :=
  RemoveByFilter_loop (Z.to_nat (dw (c pm - 1))) pm pfnFilterRemoveCB (dw (c pm - 1)) 0 [].

Definition ObMap_Pop (pm : OB_MAP) : option (PVOID * OB_MAP) :=
  r <- _ObMap_RetrieveAndRemoveByEntryIndex pm (dw (c pm - 1)) ;;
  Some (removed_value (fst r), snd r).

Definition ObMap_PopWithKey (pm : OB_MAP) : option (option (PVOID * QWORD) * OB_MAP) :=
  _ObMap_RetrieveAndRemoveByEntryIndex pm (dw (c pm - 1)).

Definition ObMap_Remove (pm : OB_MAP) (pvObject : PVOID) : option (PVOID * OB_MAP) :=
  r <- _ObMap_RemoveOrRemoveByKey pm true pvObject ;;
  Some (removed_value (fst r), snd r).

Definition ObMap_RemoveByKey (pm : OB_MAP) (qwKey : QWORD) : option (PVOID * OB_MAP) :=
  r <- _ObMap_RemoveOrRemoveByKey pm false qwKey ;;
  Some (removed_value (fst r), snd r).

Definition ObMap_RemoveByFilter (pm : OB_MAP) (pfnFilterRemoveCB : QWORD -> PVOID -> bool) :=
  _ObMap_RemoveByFilter pm pfnFilterRemoveCB.

(** ** Clear *)

Fixpoint FreeAllObjects_loop (n : nat) (pm : OB_MAP) (i : DWORD) (call : PVOID -> ob_call)
  : list ob_call :=
  match n with
  | O => []
  | S n' => call (v (Entry pm i)) :: FreeAllObjects_loop n' pm (dw (i + 1)) call
  end.

Definition _ObMap_ObFreeAllObjects (pm : OB_MAP) : list ob_call :=
  if fObjectsOb pm then FreeAllObjects_loop (Z.to_nat (c pm - 1)) pm 1 Ob_DECREF
  else if fObjectsLocalFree pm then FreeAllObjects_loop (Z.to_nat (c pm - 1)) pm 1 LocalFree
  else [].

(** [ZeroMemory(t, n * sizeof(DWORD))] *)
Definition ZeroMemory (t : Z -> DWORD) (n : Z) : Z -> DWORD :=
  fun i => if (0 <=? i) && (i <? n) then 0 else t i.

Definition ObMap_Clear (pm : OB_MAP) : bool * OB_MAP * list ob_call :=
  if c pm <=? 1 then (true, pm, [])
  else
    let calls := _ObMap_ObFreeAllObjects pm in
    let pm := set_pHashMapValue pm (ZeroMemory (pHashMapValue pm) (cHashMax pm)) in
    let pm := if HashMapKeyAllocated pm
              then set_pHashMapKey pm (ZeroMemory (pHashMapKey pm) (cHashMax pm))
              else pm in
    (true, set_c pm 1, calls).

(** ** The heap *)

(** The places at which the map requests memory: the object itself in
    [ObMap_New], the new hash arrays [pdwNewAllocHashMap] and the first table
    [Directory[0]] in [_ObMap_Grow], the table and the store of a new entry in
    [_ObMap_Push], and the scratch array [pSort] in [_ObMap_SortEntryIndex]. *)
Inductive alloc_site :=
| Alloc_pObMap
| Alloc_pdwNewAllocHashMap
| Alloc_Directory0
| Alloc_Table
| Alloc_Store
| Alloc_pSort.

(** The heap as an operation meets it: [true] where the request made at the
    place is granted, [false] where it returns NULL. *)
Definition heap := alloc_site -> bool.

(** The heap that grants every request. *)
Definition heap_ok : heap := fun _ => true.

(** ** Create and insert *)

(** The first growth leaves the small mode: [Directory[0]] becomes a table
    of its own whose first store is [Store00], the embedded hash array is
    zeroed (which clears [Directory[1..]], overlaid with it), and both hash
    pointers are reset. *)
Definition Grow_LargeMode (pm : OB_MAP) : OB_MAP :=
  if negb (fLargeMode pm) then
    mkMap (c pm) (cHashMax pm) (cHashGrowThreshold pm) true (fKey pm)
          (fObjectsOb pm) (fObjectsLocalFree pm) (pHashMapKey pm) (pHashMapValue pm)
          (Directory pm) false
          (fun d => d =? 0)
          (fun d t => if d =? 0 then t =? 0 else StoreAllocated pm d t)
  else pm.

(** The sizes double and the hash arrays become the fresh zeroed allocation
    [pdwNewAllocHashMap], the key array being its second half. *)
Definition Grow_NewHashMap (pm : OB_MAP) : OB_MAP :=
  let pdwNewAllocHashMap : Z -> DWORD := fun _ => 0 in
  mkMap (c pm) (dw (cHashMax pm * 2)) (dw (cHashGrowThreshold pm * 2)) (fLargeMode pm)
        (fKey pm) (fObjectsOb pm) (fObjectsLocalFree pm)
        (if fKey pm then pdwNewAllocHashMap else pHashMapKey pm)
        pdwNewAllocHashMap
        (Directory pm) (if fKey pm then true else HashMapKeyAllocated pm)
        (TableAllocated pm) (StoreAllocated pm).

(** [pm->Directory[0] = LocalAlloc(...)] when the request is refused: the
    pointer to the first table is overwritten with NULL. *)
Definition Grow_Directory0_NULL (pm : OB_MAP) : OB_MAP :=
  mkMap (c pm) (cHashMax pm) (cHashGrowThreshold pm) (fLargeMode pm) (fKey pm)
        (fObjectsOb pm) (fObjectsLocalFree pm) (pHashMapKey pm) (pHashMapValue pm)
        (Directory pm) (HashMapKeyAllocated pm)
        (upd (TableAllocated pm) 0 false)
        (StoreAllocated pm).

(** Grow the tables for hash lookups by a factor of 2.  The function returns
    FALSE when the new hash arrays are refused, and when the first table is
    refused in small mode; in the second case [Directory[0]] has been
    overwritten and the new hash arrays are not released. *)
Definition _ObMap_Grow (mem : heap) (pm : OB_MAP) : option (bool * OB_MAP) :=
  if negb (mem Alloc_pdwNewAllocHashMap) then Some (false, pm)
  else if negb (fLargeMode pm) && negb (mem Alloc_Directory0)
  then Some (false, Grow_Directory0_NULL pm)
  else
    let pm := Grow_LargeMode pm in
    let pm := Grow_NewHashMap pm in
    pm <- for_loop (Z.to_nat (c pm - 1)) 1
            (fun iEntry pm =>
               pm <- _ObMap_InsertHash pm true iEntry ;;
               _ObMap_InsertHash pm false iEntry) pm ;;
    Some (true, pm).

(** [LocalAlloc(LMEM_ZEROINIT, sizeof(POB_MAP_ENTRY) * OB_MAP_ENTRIES_TABLE)] into
    [Directory[d]]: a table whose stores are all NULL. *)
Definition alloc_table (pm : OB_MAP) (d : Z) : OB_MAP :=
  mkMap (c pm) (cHashMax pm) (cHashGrowThreshold pm) (fLargeMode pm) (fKey pm)
        (fObjectsOb pm) (fObjectsLocalFree pm) (pHashMapKey pm) (pHashMapValue pm)
        (Directory pm) (HashMapKeyAllocated pm)
        (upd (TableAllocated pm) d true)
        (fun d' t => if d' =? d then false else StoreAllocated pm d' t).

(** [LocalAlloc(LMEM_ZEROINIT, sizeof(OB_MAP_ENTRY) * OB_MAP_ENTRIES_STORE)] into
    [Directory[d][t]]: a store of zeroed entries. *)
Definition alloc_store (pm : OB_MAP) (d t : Z) : OB_MAP :=
  mkMap (c pm) (cHashMax pm) (cHashGrowThreshold pm) (fLargeMode pm) (fKey pm)
        (fObjectsOb pm) (fObjectsLocalFree pm) (pHashMapKey pm) (pHashMapValue pm)
        (fun d' t' s => if (d' =? d) && (t' =? t) then mkEntry 0 0 else Directory pm d' t' s)
        (HashMapKeyAllocated pm)
        (TableAllocated pm)
        (fun d' t' => if (d' =? d) && (t' =? t) then true else StoreAllocated pm d' t').

(** The two "allocate if required" steps of [_ObMap_Push]: the table of the
    new entry, then its store.  The result is [false] when a request is
    refused; the pointer that was NULL stays NULL then, and a table granted
    before its store was refused stays in the directory. *)
Definition Push_alloc (mem : heap) (pm : OB_MAP) (iEntry : DWORD) : bool * OB_MAP :=
  if negb (TableAllocated pm (OB_MAP_INDEX_DIRECTORY iEntry)) && negb (mem Alloc_Table)
  then (false, pm)
  else
    let pm := if negb (TableAllocated pm (OB_MAP_INDEX_DIRECTORY iEntry))
              then alloc_table pm (OB_MAP_INDEX_DIRECTORY iEntry) else pm in
    if negb (StoreAllocated pm (OB_MAP_INDEX_DIRECTORY iEntry) (OB_MAP_INDEX_TABLE iEntry))
    then
      if mem Alloc_Store
      then (true, alloc_store pm (OB_MAP_INDEX_DIRECTORY iEntry) (OB_MAP_INDEX_TABLE iEntry))
      else (false, pm)
    else (true, pm).

Definition _ObMap_Push (mem : heap) (pm : OB_MAP) (qwKey : QWORD) (pvObject : PVOID)
  : option (bool * OB_MAP * list ob_call) :=
  let iEntry := c pm in
  if pvObject =? 0 then Some (false, pm, [])
  else
    fValue <- _ObMap_Exists pm true pvObject ;;
    if (fValue : bool) then Some (false, pm, [])
    else
      fKeyExists <- _ObMap_Exists pm false qwKey ;;
      if (fKeyExists : bool) then Some (false, pm, [])
      else if iEntry =? OB_MAP_TABLE_MAX_CAPACITY then Some (false, pm, [])
      else
        r <- (if iEntry =? cHashGrowThreshold pm then _ObMap_Grow mem pm
              else Some (true, pm)) ;;
        if negb (fst r) then Some (false, snd r, [])
        else
          let a := Push_alloc mem (snd r) iEntry in
          if negb (fst a) then Some (false, snd a, [])
          else
            let pm := snd a in
            let calls := if fObjectsOb pm then [Ob_INCREF pvObject] else [] in
            let pm := set_c pm (dw (c pm + 1)) in
            pe <- _ObMap_GetFromIndex pm iEntry ;;
            let pm := set_Entry pm iEntry (mkEntry qwKey pvObject) in
            pm <- _ObMap_InsertHash pm true iEntry ;;
            pm <- _ObMap_InsertHash pm false iEntry ;;
            Some (true, pm, calls).

(** [pvObjectCopy] is the address that [LocalAlloc(0, cbObject)] returns for
    the copy, NULL when the allocation fails; the bytes copied into it are
    not part of the model. *)
Definition _ObMap_PushCopy (mem : heap) (pm : OB_MAP) (qwKey : QWORD) (pvObjectCopy : PVOID)
  : option (bool * OB_MAP * list ob_call) :=
  if negb (fObjectsLocalFree pm) then Some (false, pm, [])
  else if pvObjectCopy =? 0 then Some (false, pm, [])
  else
    r <- _ObMap_Push mem pm qwKey pvObjectCopy ;;
    let '(ok, pm', calls) := r in
    if (ok : bool) then Some (true, pm', calls)
    else Some (false, pm', calls ++ [LocalFree pvObjectCopy]).

Definition ObMap_Push (mem : heap) (pm : OB_MAP) (qwKey : QWORD) (pvObject : PVOID) :=
  _ObMap_Push mem pm qwKey pvObject.

Definition ObMap_PushCopy (mem : heap) (pm : OB_MAP) (qwKey : QWORD) (pvObjectCopy : PVOID) :=
  _ObMap_PushCopy mem pm qwKey pvObjectCopy.

(** The creation flags are declared in ob.h, which is not part of the
    sources at hand; they are three distinct bits. *)
Definition OB_MAP_FLAGS_OBJECT_OB : QWORD := 0x01.
Definition OB_MAP_FLAGS_OBJECT_LOCALFREE : QWORD := 0x02.
Definition OB_MAP_FLAGS_NOKEY : QWORD := 0x04.

Definition flag_set (flags bit : QWORD) : bool := negb (Z.land flags bit =? 0).

(** The zero-initialised object after the assignments of [ObMap_New]: the
    directory holds the embedded table with the embedded store, and both hash
    arrays lie in the embedded hash array. *)
Definition ObMap_New_init (flags : QWORD) : OB_MAP :=
  mkMap 1 0x100 0xc0 false
        (negb (flag_set flags OB_MAP_FLAGS_NOKEY))
        (flag_set flags OB_MAP_FLAGS_OBJECT_OB)
        (flag_set flags OB_MAP_FLAGS_OBJECT_LOCALFREE)
        (fun _ => 0) (fun _ => 0)
        (fun _ _ _ => mkEntry 0 0)
        true
        (fun d => d =? 0)
        (fun d t => (d =? 0) && (t =? 0)).

(** [None] is the NULL return: both ownership flags given, or the object
    refused by [Ob_AllocEx]. *)
Definition ObMap_New (mem : heap) (flags : QWORD) : option OB_MAP :=
  if flag_set flags OB_MAP_FLAGS_OBJECT_OB && flag_set flags OB_MAP_FLAGS_OBJECT_LOCALFREE
  then None
  else if negb (mem Alloc_pObMap) then None
  else Some (ObMap_New_init flags).

(** ** Sort *)

Fixpoint read_entries (n : nat) (pm : OB_MAP) (iEntry : DWORD) : list OB_MAP_ENTRY :=
  match n with
  | O => []
  | S n' => Entry pm iEntry :: read_entries n' pm (dw (iEntry + 1))
  end.

Fixpoint write_entries (pSort : list OB_MAP_ENTRY) (pm : OB_MAP) (iEntry : DWORD) : OB_MAP :=
  match pSort with
  | [] => pm
  | e :: rest => write_entries rest (set_Entry pm iEntry e) (dw (iEntry + 1))
  end.

Definition _ObMap_SortEntryIndexByKey_CmpSort (p1 p2 : OB_MAP_ENTRY) : Z :=
  if k p1 <? k p2 then -1 else if k p1 >? k p2 then 1 else 0.

(** The live entries in logical order: what a full forward iteration by
    index visits. *)
Definition entries (pm : OB_MAP) : list OB_MAP_ENTRY :=
  read_entries (Z.to_nat (c pm - 1)) pm 1.

Section Sort.

(** The C library's [qsort] over an array of entries with a comparison
    function; it permutes the array, and orders it when the comparison
    function is the one by key. *)
Variable qsort : (OB_MAP_ENTRY -> OB_MAP_ENTRY -> Z) -> list OB_MAP_ENTRY -> list OB_MAP_ENTRY.

Definition _ObMap_SortEntryIndex (mem : heap) (pm : OB_MAP)
  (pfnSort : OB_MAP_ENTRY -> OB_MAP_ENTRY -> Z) : option (bool * OB_MAP) :=
  if negb (mem Alloc_pSort) then Some (false, pm)
  else
    let pSort := read_entries (Z.to_nat (c pm - 1)) pm 1 in
    let pSort := qsort pfnSort pSort in
    let pm := write_entries pSort pm 1 in
    (* update hash maps *)
    pm <- (if fKey pm then
             for_loop (Z.to_nat (c pm - 1)) 1
               (fun iEntry pm => _ObMap_InsertHash pm false iEntry)
               (set_pHashMapKey pm (ZeroMemory (pHashMapKey pm) (cHashMax pm)))
           else Some pm) ;;
    pm <- for_loop (Z.to_nat (c pm - 1)) 1
            (fun iEntry pm => _ObMap_InsertHash pm true iEntry)
            (set_pHashMapValue pm (ZeroMemory (pHashMapValue pm) (cHashMax pm))) ;;
    Some (true, pm).

Definition ObMap_SortEntryIndex := _ObMap_SortEntryIndex.

Definition ObMap_SortEntryIndexByKey (mem : heap) (pm : OB_MAP) : option (bool * OB_MAP) :=
  ObMap_SortEntryIndex mem pm _ObMap_SortEntryIndexByKey_CmpSort.

End Sort.

(** * Specification

    ** Slots of a hash array as a ring *)

Definition adv (N a d : Z) : Z := (a + d) mod N.
Definition dist (N a b : Z) : Z := (b - a) mod N.

(** The number of occupied slots below [n]. *)
Fixpoint occ_upto (t : Z -> Z) (n : nat) : Z :=
  match n with
  | O => 0
  | S n' => occ_upto t n' + (if t (Z.of_nat n') =? 0 then 0 else 1)
  end.

Definition occ (N : Z) (t : Z -> Z) : Z := occ_upto t (Z.to_nat N).

(** ** Linear probing over a hash array

    [t] is the array, [pref i] the slot at which the probe sequence of the
    entry index [i] starts, [P] the set of the entry indices that the array
    is meant to hold. *)

Definition path_full (N : Z) (t : Z -> Z) (a n : Z) : Prop :=
  forall d, 0 <= d < n -> t (adv N a d) <> 0.

Record tbl_struct (N : Z) (t : Z -> Z) (P : Z -> Prop) : Prop := {
  ts_nz : forall i, P i -> i <> 0;
  ts_range : forall s, 0 <= s < N -> t s <> 0 -> P (t s);
  ts_compl : forall i, P i -> exists s, 0 <= s < N /\ t s = i;
  ts_inj : forall s s', 0 <= s < N -> 0 <= s' < N -> t s <> 0 -> t s = t s' -> s = s'
}.

(** Every occupied slot is reached from the preferred slot of its entry
    without crossing an empty slot. *)
Definition probe_ok (N : Z) (pref : Z -> Z) (t : Z -> Z) : Prop :=
  forall s, 0 <= s < N -> t s <> 0 ->
            path_full N t (pref (t s)) (dist N (pref (t s)) s).

Definition tbl_inv (N : Z) (pref : Z -> Z) (t : Z -> Z) (P : Z -> Prop) : Prop :=
  tbl_struct N t P /\ probe_ok N pref t.

(** The hash-array part of [_ObMap_InsertHash] and [_ObMap_RemoveHash]. *)
Definition t_insert (N mask : Z) (t : Z -> Z) (a i : Z) : option (Z -> Z) :=
  s <- InsertHash_probe (Z.to_nat N) t mask a ;; Some (upd t s i).

Fixpoint t_rehash (fuel : nat) (N mask : Z) (pref : Z -> Z) (t : Z -> Z) (j : Z)
  : option (Z -> Z) :=
  match fuel with
  | O => None
  | S n =>
      let j' := Z.land (dw (j + 1)) mask in
      let e := t j' in
      if e =? 0 then Some t
      else if j' =? pref e then t_rehash n N mask pref t j'
      else
        t' <- t_insert N mask (upd t j' 0) (pref e) e ;;
        t_rehash n N mask pref t' j'
  end.

Definition t_remove (N mask : Z) (pref : Z -> Z) (t : Z -> Z) (a i : Z) : option (Z -> Z) :=
  s <- RemoveHash_find (Z.to_nat N) t mask i a ;;
  t_rehash (Z.to_nat N) N mask pref (upd t s 0) s.

(** The state of the re-hash loop of [_ObMap_RemoveHash]: [h] is the slot
    that was emptied last, the cursor stands [d] slots after it, and [e0] is
    an empty slot ahead of the cursor. *)
Record rehash_inv (N : Z) (pref : Z -> Z) (t : Z -> Z) (h d e0 : Z) : Prop := {
  ri_h : 0 <= h < N;
  ri_e0 : 0 <= e0 < N;
  ri_d : 0 <= d < dist N h e0;
  ri_hole : t h = 0;
  ri_e0z : t e0 = 0;
  ri_done : forall m, 1 <= m <= d ->
      t (adv N h m) <> 0 /\
      path_full N t (pref (t (adv N h m))) (dist N (pref (t (adv N h m))) (adv N h m));
  ri_quasi : forall s, 0 <= s < N -> t s <> 0 ->
      forall x, 0 <= x < dist N (pref (t s)) s ->
                t (adv N (pref (t s)) x) = 0 -> adv N (pref (t s)) x = h
}.

(** ** The hash arrays of a map *)

(** The key or value by which the entry [i] is hashed. *)
Definition key_of (pm : OB_MAP) (fValueHash : bool) (i : DWORD) : QWORD :=
  _ObMap_GetFromEntryIndex pm fValueHash i.

(** [OB_MAP_HASH_FUNCTION(kv) & dwHashMask] *)
Definition slot_of (pm : OB_MAP) (kv : QWORD) : DWORD :=
  Z.land (OB_MAP_HASH_FUNCTION kv) (dw (cHashMax pm - 1)).

Definition pref_of (pm : OB_MAP) (fValueHash : bool) (i : DWORD) : DWORD :=
  slot_of pm (key_of pm fValueHash i).

Definition set_tbl (pm : OB_MAP) (fValueHash : bool) (t : Z -> DWORD) : OB_MAP :=
  if fValueHash then set_pHashMapValue pm t else set_pHashMapKey pm t.

(** The length of the hash arrays is a power of two. *)
Definition hmax_ok (pm : OB_MAP) : Prop :=
  exists p, 0 <= p <= 31 /\ cHashMax pm = 2 ^ p.

(** The hash array selected by [fValueHash] holds the entry indices of [P],
    [n] of them. *)
Definition hash_inv (pm : OB_MAP) (fValueHash : bool) (P : Z -> Prop) (n : Z) : Prop :=
  tbl_inv (cHashMax pm) (pref_of pm fValueHash) (HashMap pm fValueHash) P /\
  occ (cHashMax pm) (HashMap pm fValueHash) = n.

Definition live (pm : OB_MAP) (i : Z) : Prop := 1 <= i < c pm.

(** The value array is always maintained; the key array only in keyed mode,
    and holds no entry index otherwise. *)
Definition tbl_ok (pm : OB_MAP) (fValueHash : bool) (P : Z -> Prop) (n : Z) : Prop :=
  if fValueHash || fKey pm then hash_inv pm fValueHash P n
  else forall s, pHashMapKey pm s = 0.

(** [pm'] is [pm] up to the contents of the two hash arrays. *)
Record same_data (pm pm' : OB_MAP) : Prop := {
  sd_c : c pm' = c pm;
  sd_cHashMax : cHashMax pm' = cHashMax pm;
  sd_cHashGrowThreshold : cHashGrowThreshold pm' = cHashGrowThreshold pm;
  sd_fLargeMode : fLargeMode pm' = fLargeMode pm;
  sd_fKey : fKey pm' = fKey pm;
  sd_fObjectsOb : fObjectsOb pm' = fObjectsOb pm;
  sd_fObjectsLocalFree : fObjectsLocalFree pm' = fObjectsLocalFree pm;
  sd_Directory : Directory pm' = Directory pm;
  sd_HashMapKeyAllocated : HashMapKeyAllocated pm' = HashMapKeyAllocated pm;
  sd_TableAllocated : TableAllocated pm' = TableAllocated pm;
  sd_StoreAllocated : StoreAllocated pm' = StoreAllocated pm
}.

(** ** Well-formed maps

    The invariant that every operation maintains.  It contains the
    documented invariants of the data model ([data_model_inv] below) and
    what their preservation rests on: the sizes of the hash arrays, the
    probing discipline, and the allocation of the paging blocks. *)

Record WF (pm : OB_MAP) : Prop := {
  wf_c : 1 <= c pm <= OB_MAP_TABLE_MAX_CAPACITY;
  wf_grow : exists g, 0 <= g <= 18 /\ cHashMax pm = 0x100 * 2 ^ g /\
                      cHashGrowThreshold pm = 0xc0 * 2 ^ g;
  wf_thr : c pm <= cHashGrowThreshold pm;
  wf_small : fLargeMode pm = false -> cHashGrowThreshold pm = 0xc0;
  wf_value_nz : forall i, live pm i -> v (Entry pm i) <> 0;
  wf_value_uniq : forall i j, live pm i -> live pm j ->
                              v (Entry pm i) = v (Entry pm j) -> i = j;
  wf_key_uniq : fKey pm = true ->
                forall i j, live pm i -> live pm j ->
                            k (Entry pm i) = k (Entry pm j) -> i = j;
  wf_hash : forall f, tbl_ok pm f (live pm) (c pm - 1);
  wf_alloc : forall i, 0 <= i < c pm ->
      TableAllocated pm (OB_MAP_INDEX_DIRECTORY i) = true /\
      StoreAllocated pm (OB_MAP_INDEX_DIRECTORY i) (OB_MAP_INDEX_TABLE i) = true;
  wf_key_alloc : fKey pm = true -> HashMapKeyAllocated pm = true
}.

(** An entry index occurs in a hash array. *)
Definition in_hash (pm : OB_MAP) (fValueHash : bool) (i : Z) : Prop :=
  i <> 0 /\ exists s, 0 <= s < cHashMax pm /\ HashMap pm fValueHash s = i.

(** The invariants of the data model as the specification lists them.  That
    the live entries occupy the logical indices 1 to [c - 1] includes that
    each of these indices lies in an allocated store ([dm_stored]). *)
Record data_model_inv (pm : OB_MAP) : Prop := {
  dm_c : 1 <= c pm;
  dm_stored : forall i, 1 <= i <= c pm - 1 ->
      TableAllocated pm (OB_MAP_INDEX_DIRECTORY i) = true /\
      StoreAllocated pm (OB_MAP_INDEX_DIRECTORY i) (OB_MAP_INDEX_TABLE i) = true;
  dm_value_nz : forall i, 1 <= i <= c pm - 1 -> v (Entry pm i) <> 0;
  dm_key_uniq : fKey pm = true ->
                forall i j, 1 <= i <= c pm - 1 -> 1 <= j <= c pm - 1 ->
                            k (Entry pm i) = k (Entry pm j) -> i = j;
  dm_value_uniq : forall i j, 1 <= i <= c pm - 1 -> 1 <= j <= c pm - 1 ->
                              v (Entry pm i) = v (Entry pm j) -> i = j;
  dm_hash_value : forall i, in_hash pm true i <-> 1 <= i <= c pm - 1;
  dm_hash_key : forall i, in_hash pm false i <-> (1 <= i <= c pm - 1 /\ fKey pm = true)
}.

(** [pm'] has the mode flags, the hash sizes and the allocated blocks of [pm]. *)
Record same_shape (pm pm' : OB_MAP) : Prop := {
  ss_cHashMax : cHashMax pm' = cHashMax pm;
  ss_cHashGrowThreshold : cHashGrowThreshold pm' = cHashGrowThreshold pm;
  ss_fLargeMode : fLargeMode pm' = fLargeMode pm;
  ss_fKey : fKey pm' = fKey pm;
  ss_fObjectsOb : fObjectsOb pm' = fObjectsOb pm;
  ss_fObjectsLocalFree : fObjectsLocalFree pm' = fObjectsLocalFree pm;
  ss_HashMapKeyAllocated : HashMapKeyAllocated pm' = HashMapKeyAllocated pm;
  ss_TableAllocated : TableAllocated pm' = TableAllocated pm;
  ss_StoreAllocated : StoreAllocated pm' = StoreAllocated pm
}.

(** ** Sorted maps *)

Definition sorted_by_key (pm : OB_MAP) : Prop :=
  forall i j, 1 <= i -> i <= j -> j < c pm -> k (Entry pm i) <= k (Entry pm j).

(** What the sorted search answers for the key [K]: an exact match, or the
    first entry whose key is larger. *)
Definition QFind_hit (pm : OB_MAP) (K : QWORD) (j : DWORD) : Prop :=
  1 <= j < c pm /\
  (k (Entry pm j) = K \/
   (K < k (Entry pm j) /\ forall j', 1 <= j' < j -> k (Entry pm j') < K)).

Definition QFind_post (pm : OB_MAP) (K : QWORD) (r : option DWORD) : Prop :=
  match r with
  | Some j => QFind_hit pm K j
  | None => forall j, 1 <= j < c pm -> k (Entry pm j) < K
  end.

(** ** Sequences of operations *)

(** The operations that change a map, on a heap that grants every request
    of the map.  [OpPushCopy] carries the address that the allocation of the
    copy returns. *)
Inductive ObMap_op :=
| OpPush (qwKey : QWORD) (pvObject : PVOID)
| OpPushCopy (qwKey : QWORD) (pvObjectCopy : PVOID)
| OpPop
| OpPopWithKey
| OpRemove (pvObject : PVOID)
| OpRemoveByKey (qwKey : QWORD)
| OpRemoveByFilter (pfnFilterRemoveCB : QWORD -> PVOID -> bool)
| OpClear
| OpSortEntryIndex (pfnSort : OB_MAP_ENTRY -> OB_MAP_ENTRY -> Z)
| OpSortEntryIndexByKey.

Section Run.

Variable qsort : (OB_MAP_ENTRY -> OB_MAP_ENTRY -> Z) -> list OB_MAP_ENTRY -> list OB_MAP_ENTRY.

(** The map that an operation leaves behind. *)
Definition ObMap_step (pm : OB_MAP) (o : ObMap_op) : option OB_MAP :=
  match o with
  | OpPush qwKey pvObject =>
      r <- ObMap_Push heap_ok pm qwKey pvObject ;; Some (snd (fst r))
  | OpPushCopy qwKey pvObjectCopy =>
      r <- ObMap_PushCopy heap_ok pm qwKey pvObjectCopy ;; Some (snd (fst r))
  | OpPop => r <- ObMap_Pop pm ;; Some (snd r)
  | OpPopWithKey => r <- ObMap_PopWithKey pm ;; Some (snd r)
  | OpRemove pvObject => r <- ObMap_Remove pm pvObject ;; Some (snd r)
  | OpRemoveByKey qwKey => r <- ObMap_RemoveByKey pm qwKey ;; Some (snd r)
  | OpRemoveByFilter pfn => r <- ObMap_RemoveByFilter pm pfn ;; Some (snd (fst r))
  | OpClear => Some (snd (fst (ObMap_Clear pm)))
  | OpSortEntryIndex pfnSort =>
      r <- ObMap_SortEntryIndex qsort heap_ok pm pfnSort ;; Some (snd r)
  | OpSortEntryIndexByKey => r <- ObMap_SortEntryIndexByKey qsort heap_ok pm ;; Some (snd r)
  end.

Fixpoint ObMap_run (ops : list ObMap_op) (pm : OB_MAP) : option OB_MAP :=
  match ops with
  | [] => Some pm
  | o :: rest => pm' <- ObMap_step pm o ;; ObMap_run rest pm'
  end.

End Run.

(** ** What the lookups of the public interface report *)

(** The pair is retrievable: by its value, and in keyed mode by its key. *)
Definition pair_reachable (pm : OB_MAP) (key : QWORD) (val : PVOID) : Prop :=
  ObMap_Exists pm val = Some true /\
  ObMap_GetKey pm val = Some key /\
  (fKey pm = true ->
   ObMap_ExistsKey pm key = Some true /\
   option_map fst (ObMap_GetByKey pm key) = Some val).

Definition value_unreachable (pm : OB_MAP) (val : PVOID) : Prop :=
  ObMap_Exists pm val = Some false /\ ObMap_GetKey pm val = Some 0.

Definition key_unreachable (pm : OB_MAP) (key : QWORD) : Prop :=
  ObMap_ExistsKey pm key = Some false /\ ObMap_GetByKey pm key = Some (0, []).

(** The conditions under which [_ObMap_Push] refuses a pair. *)
Definition Push_blocked (pm : OB_MAP) (key : QWORD) (val : PVOID) : Prop :=
  val = 0 \/
  (exists i, live pm i /\ v (Entry pm i) = val) \/
  (fKey pm = true /\ exists i, live pm i /\ k (Entry pm i) = key) \/
  c pm = OB_MAP_TABLE_MAX_CAPACITY.

Definition Push_free (pm : OB_MAP) (key : QWORD) (val : PVOID) : Prop :=
  val <> 0 /\
  (forall i, live pm i -> v (Entry pm i) <> val) /\
  (fKey pm = true -> forall i, live pm i -> k (Entry pm i) <> key) /\
  c pm <> OB_MAP_TABLE_MAX_CAPACITY.

(** An allocation that the push of a new pair into [pm] requests is
    refused: the new hash arrays, or in small mode the first table, when the
    count stands at the grow threshold; the table of the new entry when the
    directory has none for it; the store of the new entry when the table has
    none for it. *)
Definition Push_refused (mem : heap) (pm : OB_MAP) : bool :=
  let d := OB_MAP_INDEX_DIRECTORY (c pm) in
  let t := OB_MAP_INDEX_TABLE (c pm) in
  (c pm =? cHashGrowThreshold pm)
  && (negb (mem Alloc_pdwNewAllocHashMap)
      || negb (fLargeMode pm) && negb (mem Alloc_Directory0))
  || negb (TableAllocated pm d) && negb (mem Alloc_Table)
  || (negb (TableAllocated pm d) || negb (StoreAllocated pm d t)) && negb (mem Alloc_Store).

(** The growth of a small-mode map at its threshold is refused the first
    table after the new hash arrays were granted: the return of FALSE from
    [_ObMap_Grow] that leaves [Directory[0]] overwritten with NULL. *)
Definition Grow_table_refused (mem : heap) (pm : OB_MAP) : bool :=
  (c pm =? cHashGrowThreshold pm) && negb (fLargeMode pm)
  && mem Alloc_pdwNewAllocHashMap && negb (mem Alloc_Directory0).

(** Heaps that refuse one request: the new hash arrays, and the first table. *)
Definition heap_no_hashmap : heap :=
  fun site => match site with Alloc_pdwNewAllocHashMap => false | _ => true end.

Definition heap_no_table0 : heap :=
  fun site => match site with Alloc_Directory0 => false | _ => true end.

(** ** Sequences of insertions *)

(** Pushes the pairs in order, every allocation being granted; returns the
    map and the pairs whose push succeeded. *)
Fixpoint Push_list (l : list (QWORD * PVOID)) (pm : OB_MAP)
  : option (OB_MAP * list (QWORD * PVOID)) :=
  match l with
  | [] => Some (pm, [])
  | (key, val) :: rest =>
      r <- ObMap_Push heap_ok pm key val ;;
      r' <- Push_list rest (snd (fst r)) ;;
      Some (fst r', if fst (fst r) then (key, val) :: snd r' else snd r')
  end.

(** The map created with [flags] after the pushes of [l]. *)
Definition map_of_list (flags : QWORD) (l : list (QWORD * PVOID)) : OB_MAP :=
  match Push_list l (ObMap_New_init flags) with
  | Some (pm, _) => pm
  | None => ObMap_New_init flags
  end.

(** Keys 10, 20, 30 with three distinct handles, in a keyed and in an
    unkeyed map. *)
Definition example_map : OB_MAP :=
  map_of_list 0 [(10, 0xA0); (20, 0xB0); (30, 0xC0)].

Definition example_nokey : OB_MAP :=
  map_of_list OB_MAP_FLAGS_NOKEY [(10, 0xA0); (20, 0xB0); (30, 0xC0)].

(** ** Popping until the map is empty *)

(** Calls [ObMap_Pop] until it returns NULL and collects the objects. *)
Fixpoint Pop_until_empty (fuel : nat) (pm : OB_MAP) : option (list PVOID) :=
  match fuel with
  | O => None
  | S n =>
      r <- ObMap_Pop pm ;;
      if fst r =? 0 then Some []
      else l <- Pop_until_empty n (snd r) ;; Some (fst r :: l)
  end.

(** ** Removal *)

(** What holds of the map [pm'] left by the removal of the entry [i] of
    [pm]. *)
Definition removal_post (pm pm' : OB_MAP) (i : Z) : Prop :=
  ObMap_Size pm' = ObMap_Size pm - 1 /\
  value_unreachable pm' (v (Entry pm i)) /\
  key_unreachable pm' (k (Entry pm i)) /\
  forall j, live pm j -> j <> i ->
            pair_reachable pm' (k (Entry pm j)) (v (Entry pm j)).

(** The pairs as entries. *)
Definition entry_of (p : QWORD * PVOID) : OB_MAP_ENTRY := mkEntry (fst p) (snd p).

(** Pushes the [n] pairs [(from, from)], [(from + 1, from + 1)], ..., every
    allocation being granted; [None] when one of the pushes fails. *)
Fixpoint Push_range (n : nat) (from : Z) (pm : OB_MAP) : option OB_MAP :=
  match n with
  | O => Some pm
  | S n' =>
      r <- ObMap_Push heap_ok pm from from ;;
      if fst (fst r) then Push_range n' (from + 1) (snd (fst r)) else None
  end.

(** The keyed map that holds the pairs [(i, i)] for every [i] from 1 to
    [2^25 - 1]. *)
Definition map_or (d : OB_MAP) (o : option OB_MAP) : OB_MAP :=
  match o with Some pm => pm | None => d end.

Definition full_map : OB_MAP :=
  map_or (ObMap_New_init 0) (Push_range (Z.to_nat (2 ^ 25 - 1)) 1 (ObMap_New_init 0)).

(** The conditions of a failing push with the capacity read as a bound on
    the number of live entries. *)
Definition Push_blocked_by_size (pm : OB_MAP) (key : QWORD) (val : PVOID) : Prop :=
  val = 0 \/
  (fKey pm = true /\ exists i, live pm i /\ k (Entry pm i) = key) \/
  (exists i, live pm i /\ v (Entry pm i) = val) \/
  2 ^ 25 <= ObMap_Size pm.

(** ** Growth *)

(** The pairs [(from, from)], [(from + 1, from + 1)], ..., [n] of them. *)
Fixpoint pairs_from (n : nat) (from : Z) : list (QWORD * PVOID) :=
  match n with
  | O => []
  | S n' => (from, from) :: pairs_from n' (from + 1)
  end.

(** A keyed map in small mode whose count stands at the grow threshold: it
    holds the 191 pairs [(1, 1)] to [(191, 191)]. *)
Definition example_threshold : OB_MAP := map_of_list 0 (pairs_from 191 1).

(** What the pushes of [ok] into [pm] leave: the earlier pairs and the new
    ones are retrievable, and the hash arrays have grown with the count. *)
Definition grown_from (pm pm' : OB_MAP) (ok : list (QWORD * PVOID)) : Prop :=
  ObMap_Size pm' = ObMap_Size pm + Z.of_nat (length ok) /\
  ObMap_Size pm' < cHashGrowThreshold pm' /\
  3 * cHashMax pm' = 4 * cHashGrowThreshold pm' /\
  cHashMax pm <= cHashMax pm' /\
  (forall i, live pm i -> pair_reachable pm' (k (Entry pm i)) (v (Entry pm i))) /\
  (forall key val, In (key, val) ok -> pair_reachable pm' key val).

(** ** The library sort *)

(** The order that a comparison function induces on an array: what [qsort]
    guarantees of its result. *)
Definition ordered_by (cmp : OB_MAP_ENTRY -> OB_MAP_ENTRY -> Z) (l : list OB_MAP_ENTRY) : Prop :=
  StronglySorted (fun a b => cmp a b <= 0) l.

(** The keys of a list of entries ascend. *)
Definition keys_ascend (l : list OB_MAP_ENTRY) : Prop :=
  StronglySorted (fun a b => k a <= k b) l.

(** An instance of the library sort: insertion sort. *)
Fixpoint sort_insert (cmp : OB_MAP_ENTRY -> OB_MAP_ENTRY -> Z) (e : OB_MAP_ENTRY)
  (l : list OB_MAP_ENTRY) : list OB_MAP_ENTRY :=
  match l with
  | [] => [e]
  | x :: r => if cmp e x <=? 0 then e :: l else x :: sort_insert cmp e r
  end.

Definition insertion_sort (cmp : OB_MAP_ENTRY -> OB_MAP_ENTRY -> Z) (l : list OB_MAP_ENTRY)
  : list OB_MAP_ENTRY :=
  fold_right (sort_insert cmp) [] l.

(** Keys 30, 10, 20 pushed in this order. *)
Definition example_unsorted : OB_MAP :=
  map_of_list 0 [(30, 0xC0); (10, 0xA0); (20, 0xB0)].

(** ** Sorted iteration *)

(** The value that [_ObMap_GetByEntryIndex] reads at a logical index: the
    value of a live entry, and null outside the live range. *)
Definition value_at (pm : OB_MAP) (i : DWORD) : PVOID := _ObMap_GetFromEntryIndex pm true i.

(** The object that [ObMap_GetNextByKeySorted] returns for the previous key
    [K]. *)
Definition sorted_next (pm : OB_MAP) (K : QWORD) (pvObject : PVOID) : option PVOID :=
  option_map fst (ObMap_GetNextByKeySorted pm K pvObject).

(** The reading of the sorted iteration in which a present key is followed
    by the entry after its index. *)
Definition next_after_present (pm : OB_MAP) (K : QWORD) : Prop :=
  K <> 0 ->
  forall i, live pm i -> k (Entry pm i) = K ->
            sorted_next pm K 0 = Some (value_at pm (i + 1)).

(** The answer of the sorted search for [K], read against the keys. *)
Definition QFind_answer (pm : OB_MAP) (K : QWORD) (r : option DWORD) : Prop :=
  (forall i, live pm i -> k (Entry pm i) = K ->
     exists j, r = Some j /\ live pm j /\ k (Entry pm j) = K) /\
  ((forall i, live pm i -> k (Entry pm i) <> K) ->
   forall j, r = Some j ->
     live pm j /\ K < k (Entry pm j) /\
     forall j', live pm j' -> K < k (Entry pm j') -> j <= j') /\
  (r = None <-> forall j, live pm j -> k (Entry pm j) < K).

(** ** Iteration by a caller *)

(** A caller's loop over [ObMap_GetNext]: it starts with [pvObject] and
    passes every returned object back until NULL is returned; the result is
    the list of the objects in the order of the visit. *)
Fixpoint GetNext_iterate (fuel : nat) (pm : OB_MAP) (pvObject : PVOID) : option (list PVOID) :=
  match fuel with
  | O => None
  | S n =>
      r <- ObMap_GetNext pm pvObject ;;
      if fst r =? 0 then Some []
      else l <- GetNext_iterate n pm (fst r) ;; Some (fst r :: l)
  end.

(** The calls that hand an object out to a caller. *)
Definition incref_if_ob (pm : OB_MAP) (pvObject : PVOID) : list ob_call :=
  if fObjectsOb pm then [Ob_INCREF pvObject] else [].

(** The pair that an entry holds. *)
Definition pair_of (e : OB_MAP_ENTRY) : QWORD * PVOID := (k e, v e).

(** The calls by which a map gives up an object it owns. *)
Definition release_call (pm : OB_MAP) : option (PVOID -> ob_call) :=
  if fObjectsOb pm then Some Ob_DECREF
  else if fObjectsLocalFree pm then Some LocalFree
  else None.

Definition release_all (pm : OB_MAP) (l : list PVOID) : list ob_call :=
  match release_call pm with
  | Some call => map call l
  | None => []
  end.

(** ** Removal by filter *)

(** The decision of the callback [pfnFilterRemoveCB] on an entry, and its
    negation. *)
Definition filter_match (pfn : QWORD -> PVOID -> bool) (e : OB_MAP_ENTRY) : bool :=
  pfn (k e) (v e).

Definition filter_keep (pfn : QWORD -> PVOID -> bool) (e : OB_MAP_ENTRY) : bool :=
  negb (pfn (k e) (v e)).

(** The calls that [_ObMap_RemoveByFilter] makes on a removed object. *)
Definition removed_calls (pm : OB_MAP) (pv : PVOID) : list ob_call :=
  (if fObjectsOb pm then [Ob_DECREF pv] else []) ++
  (if fObjectsLocalFree pm then [LocalFree pv] else []).

(** ** What no operation changes *)

(** [pm'] has the modes of [pm] and hash arrays at least as long. *)
Definition same_modes (pm pm' : OB_MAP) : Prop :=
  fKey pm' = fKey pm /\ fObjectsOb pm' = fObjectsOb pm /\
  fObjectsLocalFree pm' = fObjectsLocalFree pm /\
  cHashMax pm <= cHashMax pm'.

(** A caller's loop over [ObMap_GetNextByKeySorted]: it starts with the
    previous key [qwKey] and the previous object [pvObject], asks
    [ObMap_GetKey] for the key of every returned object and passes both
    back until NULL is returned; the result is the list of the pairs in the
    order of the visit. *)
Fixpoint Sorted_iterate (fuel : nat) (pm : OB_MAP) (qwKey : QWORD) (pvObject : PVOID)
  : option (list (QWORD * PVOID)) :=
  match fuel with
  | O => None
  | S n =>
      r <- ObMap_GetNextByKeySorted pm qwKey pvObject ;;
      if fst r =? 0 then Some []
      else
        key <- ObMap_GetKey pm (fst r) ;;
        l <- Sorted_iterate n pm key (fst r) ;;
        Some ((key, fst r) :: l)
  end.

(** ** Cleanup *)

(** The heap blocks of a map: the store [Directory[d][t]], the table
    [Directory[d]], and the allocation of the hash arrays
    [pHashMapValue]. *)
Inductive heap_block :=
| BlockStore (d t : Z)
| BlockTable (d : Z)
| BlockHashMap.

(** The inner loop of [_ObMap_ObCloseCallback] over the stores of the table
    [iDirectory], from [iTable] on; the result lists the blocks passed to
    [LocalFree]. *)
Fixpoint Close_tables (n : nat) (pm : OB_MAP) (iDirectory iTable : Z) : list heap_block :=
  match n with
  | O => []
  | S n' =>
      if negb (StoreAllocated pm iDirectory iTable) then []
      else
        (if negb (iDirectory =? 0) || negb (iTable =? 0)
         then [BlockStore iDirectory iTable] else [])
        ++ Close_tables n' pm iDirectory (iTable + 1)
  end.

(** The outer loop over the directory, from [iDirectory] on. *)
Fixpoint Close_directory (n : nat) (pm : OB_MAP) (iDirectory : Z) : list heap_block :=
  match n with
  | O => []
  | S n' =>
      if negb (TableAllocated pm iDirectory) then []
      else
        Close_tables (Z.to_nat OB_MAP_ENTRIES_TABLE) pm iDirectory 0
        ++ [BlockTable iDirectory]
        ++ Close_directory n' pm (iDirectory + 1)
  end.

(** Object Map object manager cleanup function: the calls made on the stored
    objects, and the blocks freed. *)
Definition _ObMap_ObCloseCallback (pObMap : OB_MAP) : list ob_call * list heap_block :=
  (_ObMap_ObFreeAllObjects pObMap,
   if fLargeMode pObMap
   then Close_directory (Z.to_nat OB_MAP_ENTRIES_DIRECTORY) pObMap 0 ++ [BlockHashMap]
   else []).

(** [pm'] has the allocated blocks and the storage mode of [pm]. *)
Definition same_alloc (pm pm' : OB_MAP) : Prop :=
  TableAllocated pm' = TableAllocated pm /\
  StoreAllocated pm' = StoreAllocated pm /\
  fLargeMode pm' = fLargeMode pm.

(** The allocated tables are a first part of the directory, and the
    allocated stores of an allocated table a first part of the table: the
    loops of the cleanup stop at the first NULL. *)
Definition alloc_prefix (pm : OB_MAP) : Prop :=
  (forall d d', 0 <= d' <= d -> TableAllocated pm d = true -> TableAllocated pm d' = true) /\
  (forall d t t', 0 <= t' <= t -> TableAllocated pm d = true ->
                  StoreAllocated pm d t = true -> StoreAllocated pm d t' = true).

(** The storage mode as the length of the hash arrays shows it: small with
    the embedded arrays of 256 slots, large with longer ones. *)
Definition mode_by_size (pm : OB_MAP) : Prop :=
  (fLargeMode pm = false /\ cHashMax pm = 0x100) \/
  (fLargeMode pm = true /\ 0x200 <= cHashMax pm).

(** [pm'] is not in an earlier storage mode than [pm]. *)
Definition mode_after (pm pm' : OB_MAP) : Prop :=
  (fLargeMode pm = true -> fLargeMode pm' = true) /\ cHashMax pm <= cHashMax pm'.

(** ** Maps with the same entries *)

(** Two maps hold the same entries in the same order, with the same key
    mode and the same reference counting; their hash arrays, their sizes
    and their blocks may differ. *)
Definition same_entries (pm1 pm2 : OB_MAP) : Prop :=
  entries pm1 = entries pm2 /\ fKey pm1 = fKey pm2 /\ fObjectsOb pm1 = fObjectsOb pm2.

(** The keys 10, 20, 30 again, in a map that held 200 more pairs for a
    while: they were pushed after the three and popped again. *)
Definition example_regrown : OB_MAP :=
  map_or (ObMap_New_init 0)
    (ObMap_run insertion_sort
       (map (fun p => OpPush (fst p) (snd p))
            ([(10, 0xA0); (20, 0xB0); (30, 0xC0)] ++ pairs_from 200 1000)
        ++ repeat OpPop 200)
       (ObMap_New_init 0)).

(** ** Iteration by index *)

(** The loop [while((pv = ObMap_GetNextByIndex(pm, &dwIndex, NULL))) { ... }]
    in which every call passes NULL for the previous object; it collects
    the objects until NULL comes back. *)
Fixpoint Index_iterate (fuel : nat) (pm : OB_MAP) (dwIndex : DWORD) : option (list PVOID) :=
  match fuel with
  | O => None
  | S n =>
      let r := ObMap_GetNextByIndex pm dwIndex 0 in
      if fst (snd r) =? 0 then Some []
      else l <- Index_iterate n pm (fst r) ;; Some (fst (snd r) :: l)
  end.

(** * Verification *)

(** ** Slots of a hash array as a ring *)

Section Ring.

Variable N : Z.
Hypothesis N_pos : 0 < N.

Lemma adv_range a d : 0 <= adv N a d < N.
Proof. unfold adv. apply Z.mod_pos_bound; lia. Qed.

Lemma dist_range a b : 0 <= dist N a b < N.
Proof. unfold dist. apply Z.mod_pos_bound; lia. Qed.

Lemma adv_0 a : 0 <= a < N -> adv N a 0 = a.
Proof. intros. unfold adv. rewrite Z.add_0_r. apply Z.mod_small; lia. Qed.

Lemma adv_adv a x y : adv N (adv N a x) y = adv N a (x + y).
Proof.
  unfold adv. rewrite Z.add_mod_idemp_l by lia. f_equal. lia.
Qed.

Lemma adv_dist a b : 0 <= b < N -> adv N a (dist N a b) = b.
Proof.
  intros. unfold adv, dist. rewrite Z.add_mod_idemp_r by lia.
  replace (a + (b - a)) with b by lia. apply Z.mod_small; lia.
Qed.

Lemma dist_adv a d : 0 <= d < N -> dist N a (adv N a d) = d.
Proof.
  intros. unfold adv, dist. rewrite Zminus_mod_idemp_l.
  replace (a + d - a) with d by lia. apply Z.mod_small; lia.
Qed.

Lemma adv_inj a d d' :
  0 <= d < N -> 0 <= d' < N -> adv N a d = adv N a d' -> d = d'.
Proof.
  intros Hd Hd' E. rewrite <- (dist_adv a d Hd), <- (dist_adv a d' Hd'). now rewrite E.
Qed.

Lemma dist_self a : dist N a a = 0.
Proof. unfold dist. rewrite Z.sub_diag. apply Z.mod_0_l. lia. Qed.

Lemma dist_0 a b : 0 <= a < N -> 0 <= b < N -> dist N a b = 0 -> a = b.
Proof.
  intros Ha Hb E. rewrite <- (adv_dist a b Hb), E. symmetry. now apply adv_0.
Qed.

Lemma dist_pos a b : 0 <= a < N -> 0 <= b < N -> a <> b -> 0 < dist N a b.
Proof.
  intros Ha Hb Hne. pose proof (dist_range a b).
  destruct (Z.eq_dec (dist N a b) 0) as [E|E]; [|lia].
  apply dist_0 in E; auto. contradiction.
Qed.

(** Walking [x] slots towards [b] shortens the distance by [x]. *)
Lemma dist_adv_l a b x :
  0 <= b < N -> 0 <= x <= dist N a b -> dist N (adv N a x) b = dist N a b - x.
Proof.
  intros Hb Hx. pose proof (dist_range a b).
  rewrite <- (adv_dist a b Hb) at 1.
  replace (dist N a b) with (x + (dist N a b - x)) at 1 by lia.
  rewrite <- adv_adv. apply dist_adv. lia.
Qed.

(** *** Counting occupied slots *)

Lemma occ_upto_ext t t' n :
  (forall s, 0 <= s < Z.of_nat n -> t s = t' s) -> occ_upto t n = occ_upto t' n.
Proof.
  induction n as [|n IH]; intros H; simpl; auto.
  rewrite IH, (H (Z.of_nat n)) by (intros; try apply H; lia). reflexivity.
Qed.

Lemma occ_upto_upd t n s x :
  0 <= s ->
  occ_upto (upd t s x) n =
  occ_upto t n +
  (if s <? Z.of_nat n
   then (if x =? 0 then 0 else 1) - (if t s =? 0 then 0 else 1) else 0).
Proof.
  intros Hs. induction n as [|n IH].
  - simpl. destruct (s <? 0) eqn:E; [lia|reflexivity].
  - cbn [occ_upto]. rewrite IH. unfold upd at 1.
    destruct (Z.eqb_spec (Z.of_nat n) s) as [E|E]; [rewrite E|];
      destruct (Z.ltb_spec s (Z.of_nat n)), (Z.ltb_spec s (Z.of_nat (S n)));
      try lia;
      destruct (x =? 0), (t s =? 0), (t (Z.of_nat n) =? 0);
      rewrite ?Z.ltb_irrefl; lia.
Qed.

Lemma occ_ext t t' :
  (forall s, 0 <= s < N -> t s = t' s) -> occ N t = occ N t'.
Proof. intros H. apply occ_upto_ext. intros. apply H. lia. Qed.

Lemma occ_upd t s x :
  0 <= s < N ->
  occ N (upd t s x) =
  occ N t + (if x =? 0 then 0 else 1) - (if t s =? 0 then 0 else 1).
Proof.
  intros Hs. unfold occ. rewrite occ_upto_upd by lia.
  replace (s <? Z.of_nat (Z.to_nat N)) with true by (symmetry; apply Z.ltb_lt; lia).
  lia.
Qed.

Lemma occ_upto_bound t n : 0 <= occ_upto t n <= Z.of_nat n.
Proof.
  induction n as [|n IH]; cbn [occ_upto]; [lia|].
  destruct (t (Z.of_nat n) =? 0); lia.
Qed.

Lemma occ_upto_free t n :
  occ_upto t n < Z.of_nat n -> exists s, 0 <= s < Z.of_nat n /\ t s = 0.
Proof.
  induction n as [|n IH]; cbn [occ_upto]; [lia|].
  destruct (Z.eqb_spec (t (Z.of_nat n)) 0) as [E|E]; intros H.
  - exists (Z.of_nat n). split; [lia|auto].
  - destruct IH as (s & Hs & Hz); [lia|]. exists s. split; [lia|auto].
Qed.

Lemma occ_free t : occ N t < N -> exists s, 0 <= s < N /\ t s = 0.
Proof.
  intros H. destruct (occ_upto_free t (Z.to_nat N)) as (s & Hs & Hz).
  - unfold occ in H. lia.
  - exists s. split; [lia|auto].
Qed.

Lemma occ_upto_zero t n :
  (forall s, 0 <= s < Z.of_nat n -> t s = 0) -> occ_upto t n = 0.
Proof.
  induction n as [|n IH]; intros H; cbn [occ_upto]; auto.
  rewrite IH, (H (Z.of_nat n)) by (intros; try apply H; lia). reflexivity.
Qed.

Lemma occ_zero t : (forall s, 0 <= s < N -> t s = 0) -> occ N t = 0.
Proof. intros H. apply occ_upto_zero. intros. apply H. lia. Qed.

(** Two free slots when two slots are not counted. *)
Lemma occ_free_other t h :
  0 <= h < N -> occ N t < N - 1 -> exists s, 0 <= s < N /\ s <> h /\ t s = 0.
Proof.
  intros Hh H.
  destruct (occ_free (upd t h 1)) as (s & Hs & Hz).
  - rewrite occ_upd by auto. simpl. destruct (t h =? 0); lia.
  - unfold upd in Hz. destruct (Z.eqb_spec s h); [discriminate|].
    exists s. auto.
Qed.

End Ring.

(** ** Linear probing *)

Lemma upd_same {A} (t : Z -> A) s x : upd t s x s = x.
Proof. unfold upd. now rewrite Z.eqb_refl. Qed.

Lemma upd_other {A} (t : Z -> A) s x q : q <> s -> upd t s x q = t q.
Proof. unfold upd. intros H. destruct (Z.eqb_spec q s); [contradiction|reflexivity]. Qed.

Lemma tbl_struct_iff N t (P Q : Z -> Prop) :
  (forall i, P i <-> Q i) -> tbl_struct N t P -> tbl_struct N t Q.
Proof.
  intros E [Hnz Hr Hc Hi]. constructor; auto.
  - intros i Hq. apply Hnz, E, Hq.
  - intros s Hs Hne. apply E. auto.
  - intros i Hq. apply Hc, E, Hq.
Qed.

Lemma tbl_struct_fill N t P s i :
  tbl_struct N t P -> 0 <= s < N -> t s = 0 -> ~ P i -> i <> 0 ->
  tbl_struct N (upd t s i) (fun j => P j \/ j = i).
Proof.
  intros [Hnz Hr Hc Hi] Hs Hz HnP Hi0. constructor.
  - intros j [Hj| ->]; auto.
  - intros q Hq. unfold upd. destruct (Z.eqb_spec q s); auto.
  - intros j [Hj| ->].
    + destruct (Hc j Hj) as (q & Hq & E). exists q. split; auto.
      rewrite upd_other; auto. intros ->. apply (Hnz j Hj). congruence.
    + exists s. split; auto. apply upd_same.
  - intros q q' Hq Hq'. unfold upd.
    destruct (Z.eqb_spec q s), (Z.eqb_spec q' s); subst; auto; intros Hne E.
    + exfalso. apply HnP. rewrite E. apply Hr; auto. congruence.
    + exfalso. apply HnP. rewrite <- E. apply Hr; auto.
Qed.

Lemma tbl_struct_clear N t P s :
  tbl_struct N t P -> 0 <= s < N -> t s <> 0 ->
  tbl_struct N (upd t s 0) (fun j => P j /\ j <> t s).
Proof.
  intros [Hnz Hr Hc Hi] Hs Hne. constructor.
  - intros j [Hj _]; auto.
  - intros q Hq. unfold upd. destruct (Z.eqb_spec q s); [congruence|].
    intros Hq0. split; auto.
  - intros j [Hj Hjs]. destruct (Hc j Hj) as (q & Hq & E). exists q. split; auto.
    rewrite upd_other; auto. congruence.
  - intros q q' Hq Hq'. unfold upd.
    destruct (Z.eqb_spec q s), (Z.eqb_spec q' s); subst; auto; try congruence.
Qed.

Lemma path_full_fill N t a n s x :
  path_full N t a n -> x <> 0 -> path_full N (upd t s x) a n.
Proof.
  intros H Hx d Hd. unfold upd. destruct (Z.eqb_spec (adv N a d) s); auto.
Qed.

Section Probing.

Variables N mask : Z.
Hypothesis N_pos : 0 < N.
Hypothesis next_slot : forall s, 0 <= s < N -> Z.land (dw (s + 1)) mask = adv N s 1.
Variable pref : Z -> Z.
Hypothesis pref_range : forall i, 0 <= pref i < N.

Lemma path_full_tail t a n :
  path_full N t a n -> path_full N t (adv N a 1) (n - 1).
Proof. intros H d Hd. rewrite adv_adv by auto. apply H. lia. Qed.

Lemma probe_first_empty t : forall fuel a n,
  0 <= a < N -> 0 <= n -> path_full N t a n -> t (adv N a n) = 0 ->
  (Z.to_nat n < fuel)%nat ->
  InsertHash_probe fuel t mask a = Some (adv N a n).
Proof.
  induction fuel as [|fuel IH]; intros a n Ha Hn Hp Hz Hf; [lia|].
  cbn [InsertHash_probe].
  destruct (Z.eq_dec n 0) as [->|Hn0].
  - rewrite adv_0 in * by auto. now rewrite Hz.
  - assert (Ht : t a <> 0).
    { specialize (Hp 0). rewrite adv_0 in Hp by auto. apply Hp. lia. }
    destruct (Z.eqb_spec (t a) 0); [contradiction|].
    rewrite next_slot by auto.
    replace (adv N a n) with (adv N (adv N a 1) (n - 1))
      by (rewrite adv_adv by auto; f_equal; lia).
    apply IH; try lia.
    + now apply adv_range.
    + now apply path_full_tail.
    + rewrite adv_adv by auto. now replace (1 + (n - 1)) with n by lia.
Qed.

Lemma find_slot t i : forall fuel a n,
  0 <= a < N -> 0 <= n -> (forall d, 0 <= d < n -> t (adv N a d) <> i) ->
  t (adv N a n) = i -> (Z.to_nat n < fuel)%nat ->
  RemoveHash_find fuel t mask i a = Some (adv N a n).
Proof.
  induction fuel as [|fuel IH]; intros a n Ha Hn Hp Hz Hf; [lia|].
  cbn [RemoveHash_find].
  destruct (Z.eq_dec n 0) as [->|Hn0].
  - rewrite adv_0 in * by auto. now rewrite Hz, Z.eqb_refl.
  - assert (Ht : t a <> i).
    { specialize (Hp 0). rewrite adv_0 in Hp by auto. apply Hp. lia. }
    destruct (Z.eqb_spec i (t a)); [congruence|].
    rewrite next_slot by auto.
    replace (adv N a n) with (adv N (adv N a 1) (n - 1))
      by (rewrite adv_adv by auto; f_equal; lia).
    apply IH; try lia.
    + now apply adv_range.
    + intros d Hd. rewrite adv_adv by auto. apply Hp. lia.
    + rewrite adv_adv by auto. now replace (1 + (n - 1)) with n by lia.
Qed.

Lemma first_empty_upto t a (m : nat) :
  path_full N t a (Z.of_nat m) \/
  exists n, 0 <= n < Z.of_nat m /\ path_full N t a n /\ t (adv N a n) = 0.
Proof.
  induction m as [|m [IH|(n & Hn & Hp & Hz)]].
  - left. intros d Hd. lia.
  - destruct (Z.eq_dec (t (adv N a (Z.of_nat m))) 0) as [E|E].
    + right. exists (Z.of_nat m). split; [lia|auto].
    + left. intros d Hd. destruct (Z.eq_dec d (Z.of_nat m)) as [->|]; auto.
      apply IH. lia.
  - right. exists n. split; [lia|auto].
Qed.

Lemma first_empty_exists t a :
  (exists s, 0 <= s < N /\ t s = 0) -> 0 <= a < N ->
  exists n, 0 <= n < N /\ path_full N t a n /\ t (adv N a n) = 0.
Proof.
  intros (e & He & Hz) Ha.
  pose proof (dist_range N N_pos a e) as Hd.
  destruct (first_empty_upto t a (Z.to_nat (dist N a e + 1))) as [H|(n & Hn & H)].
  - exfalso. apply (H (dist N a e)); [lia|]. now rewrite adv_dist.
  - exists n. split; [lia|auto].
Qed.

Lemma tbl_inv_insert t P i :
  tbl_inv N pref t P -> occ N t < N -> ~ P i -> i <> 0 ->
  exists s, 0 <= s < N /\ t s = 0 /\
            t_insert N mask t (pref i) i = Some (upd t s i) /\
            tbl_inv N pref (upd t s i) (fun j => P j \/ j = i) /\
            occ N (upd t s i) = occ N t + 1.
Proof.
  intros [Hs Hp] Hocc HnP Hi0.
  destruct (first_empty_exists t (pref i)) as (n & Hn & Hfull & Hz); auto.
  { now apply occ_free. }
  pose proof (adv_range N N_pos (pref i) n) as Hr.
  exists (adv N (pref i) n).
  split; [auto|]. split; [auto|]. split; [|split; [split|]].
  - unfold t_insert. rewrite (probe_first_empty t _ (pref i) n); auto; lia.
  - apply tbl_struct_fill; auto.
  - intros q Hq Hocc'.
    destruct (Z.eq_dec q (adv N (pref i) n)) as [->|Hne].
    + rewrite upd_same. rewrite dist_adv by auto. apply path_full_fill; auto.
    + rewrite upd_other in * by auto. apply path_full_fill; auto.
  - rewrite occ_upd by auto. rewrite Hz. simpl.
    destruct (Z.eqb_spec i 0); [contradiction|lia].
Qed.

End Probing.

Section Rehash.

Variables N mask : Z.
Hypothesis N_pos : 0 < N.
Hypothesis next_slot : forall s, 0 <= s < N -> Z.land (dw (s + 1)) mask = adv N s 1.
Variable pref : Z -> Z.
Hypothesis pref_range : forall i, 0 <= pref i < N.

Lemma rehash_inv_ext t t' h d e0 :
  (forall s, t' s = t s) ->
  rehash_inv N pref t h d e0 -> rehash_inv N pref t' h d e0.
Proof.
  intros E [H1 H2 H3 H4 H5 H6 H7]. constructor; auto; try (rewrite E; auto).
  - intros m Hm. rewrite !E. destruct (H6 m Hm) as [A B]. split; auto.
    intros x Hx. rewrite E. auto.
  - intros s Hs. rewrite !E. intros Hne x Hx. rewrite E. auto.
Qed.

(** Moving the entry of slot [j] into an empty slot, or back into [j]. *)
Lemma move_struct t P j h :
  tbl_struct N t P -> 0 <= j < N -> 0 <= h < N -> t j <> 0 ->
  (h = j \/ t h = 0) ->
  tbl_struct N (upd (upd t j 0) h (t j)) P /\
  occ N (upd (upd t j 0) h (t j)) = occ N t.
Proof.
  intros HS Hj Hh Hne Hhole.
  assert (Hz : upd t j 0 h = 0).
  { destruct Hhole as [->|Hz]; [apply upd_same|].
    unfold upd. destruct (Z.eqb_spec h j); auto. }
  split.
  - apply tbl_struct_iff with (P := fun i => (P i /\ i <> t j) \/ i = t j).
    + intros i. split; [intros [[H _]| ->]; auto|].
      * apply (ts_range _ _ _ HS); auto.
      * intros Hi. destruct (Z.eq_dec i (t j)); auto.
    + apply tbl_struct_fill; auto.
      * apply tbl_struct_clear; auto.
      * intros [_ H]. congruence.
  - rewrite !occ_upd by auto. rewrite Hz. simpl.
    destruct (Z.eqb_spec (t j) 0); [contradiction|lia].
Qed.

Lemma rehash_inv_next t h d e0 :
  rehash_inv N pref t h d e0 ->
  t (adv N h (d + 1)) <> 0 ->
  path_full N t (pref (t (adv N h (d + 1))))
            (dist N (pref (t (adv N h (d + 1)))) (adv N h (d + 1))) ->
  rehash_inv N pref t h (d + 1) e0.
Proof.
  intros [Hh He0 Hd Hhole He0z Hdone Hquasi] Hne Hfull.
  constructor; auto.
  - split; [lia|].
    destruct (Z.eq_dec (d + 1) (dist N h e0)) as [E|E]; [|lia].
    exfalso. apply Hne. rewrite E, adv_dist by auto. exact He0z.
  - intros m Hm. destruct (Z.eq_dec m (d + 1)) as [->|]; [split; auto|].
    apply Hdone. lia.
Qed.

Lemma rehash_ok P n : forall fuel t h d e0,
  rehash_inv N pref t h d e0 -> tbl_struct N t P -> occ N t = n ->
  (Z.to_nat (dist N h e0 - d) <= fuel)%nat ->
  exists t', t_rehash fuel N mask pref t (adv N h d) = Some t' /\
             tbl_inv N pref t' P /\ occ N t' = n.
Proof.
  induction fuel as [|fuel IH]; intros t h d e0 HI HS Hocc Hf.
  - destruct HI. lia.
  - pose proof HI as [Hh He0 Hd Hhole He0z Hdone Hquasi].
    cbn [t_rehash]. rewrite next_slot by (apply adv_range; auto).
    rewrite adv_adv by auto.
    pose proof (adv_range N N_pos h (d + 1)) as Hj.
    pose proof (dist_range N N_pos h e0) as Hde.
    destruct (Z.eqb_spec (t (adv N h (d + 1))) 0) as [Hz|Hnz].
    + (* the cluster ends *)
      exists t. split; [reflexivity|]. split; [split; auto|auto].
      intros s Hs Hne x Hx Hzero.
      pose proof (Hquasi s Hs Hne x Hx Hzero) as Hxh.
      pose proof (dist_range N N_pos (pref (t s)) s) as HD.
      assert (Es : s = adv N h (dist N (pref (t s)) s - x)).
      { rewrite <- Hxh, adv_adv by auto.
        replace (x + (dist N (pref (t s)) s - x)) with (dist N (pref (t s)) s) by lia.
        now rewrite adv_dist. }
      destruct (Z_le_gt_dec (dist N (pref (t s)) s - x) d) as [Hle|Hgt].
      * destruct (Hdone (dist N (pref (t s)) s - x)) as [_ Hfull]; [lia|].
        rewrite <- Es in Hfull. apply (Hfull x); auto.
      * destruct (Z.eq_dec (dist N (pref (t s)) s - x) (d + 1)) as [E|E].
        -- apply Hne. rewrite Es, E. exact Hz.
        -- assert (Hjp : adv N h (d + 1) = adv N (pref (t s)) (x + (d + 1))).
           { rewrite <- Hxh, adv_adv by auto. reflexivity. }
           assert (Hback : adv N (pref (t s)) (x + (d + 1)) = h).
           { apply Hquasi with (s := s); auto; [lia|]. rewrite <- Hjp. exact Hz. }
           rewrite <- Hjp in Hback.
           assert (d + 1 = 0); [|lia].
           apply (adv_inj N h); try lia.
           rewrite Hback. symmetry. now apply adv_0.
    + destruct (Z.eqb_spec (adv N h (d + 1)) (pref (t (adv N h (d + 1))))) as [Epref|Hnp].
      * (* the entry sits at its preferred slot *)
        apply IH with (e0 := e0); auto; [|lia].
        apply rehash_inv_next; auto.
        rewrite <- Epref, dist_self by auto. intros x Hx. lia.
      * (* the entry is displaced: take it out and insert it again *)
        remember (adv N h (d + 1)) as j eqn:Ej.
        remember (t j) as e eqn:Ee.
        pose proof (pref_range e) as Hp.
        pose proof (dist_range N N_pos (pref e) j) as HD.
        pose proof (dist_range N N_pos (pref e) h) as Hd0.
        assert (HDpos : 0 < dist N (pref e) j) by (apply dist_pos; auto).
        assert (Hjh : j <> h) by congruence.
        assert (Hje0 : j <> e0) by congruence.
        assert (He0h : e0 <> h).
        { intros ->. rewrite dist_self in Hd by auto. lia. }
        assert (Hpath : forall x, 0 <= x < dist N (pref e) j ->
                                  x <> dist N (pref e) h ->
                                  t (adv N (pref e) x) <> 0).
        { intros x Hx Hxh Hzero. apply Hxh.
          assert (Hq : adv N (pref e) x = h).
          { rewrite Ee. apply Hquasi with (s := j); rewrite <- ?Ee; auto. }
          rewrite <- Hq. rewrite dist_adv; auto. lia. }
        assert (Hnotj : forall x, 0 <= x < dist N (pref e) j ->
                                  adv N (pref e) x <> j).
        { intros x Hx Hq.
          assert (x = dist N (pref e) j); [|lia].
          apply (adv_inj N (pref e)); try lia.
          rewrite Hq. symmetry. now apply adv_dist. }
        destruct (Z_lt_ge_dec (dist N (pref e) h) (dist N (pref e) j)) as [Hin|Hout].
        -- (* the hole lies on its probe path: it moves into the hole *)
           assert (Hins : t_insert N mask (upd t j 0) (pref e) e
                          = Some (upd (upd t j 0) h e)).
           { unfold t_insert.
             rewrite (probe_first_empty N mask N_pos next_slot (upd t j 0) _ (pref e)
                        (dist N (pref e) h)); auto; try lia.
             - now rewrite adv_dist.
             - intros x Hx. rewrite upd_other by (apply Hnotj; lia).
               apply Hpath; lia.
             - rewrite adv_dist by auto. rewrite upd_other; auto. }
           rewrite Hins. cbn [bind].
           destruct (move_struct t P j h) as [HS' Hocc']; auto.
           { rewrite <- Ee. auto. }
           rewrite <- Ee in HS', Hocc'.
           assert (HI' : rehash_inv N pref (upd (upd t j 0) h e) j 0 e0).
           { constructor; auto.
              ** split; [lia|]. apply dist_pos; auto.
              ** rewrite upd_other, upd_same; auto.
              ** rewrite !upd_other; auto.
              ** intros m Hm. lia.
              ** intros s Hs. destruct (Z.eq_dec s h) as [->|Hsh].
                 --- rewrite upd_same. intros _ x Hx Hzero.
                     destruct (Z.eq_dec (adv N (pref e) x) j) as [|Hq]; auto.
                     exfalso.
                     rewrite upd_other, upd_other in Hzero; auto.
                     +++ revert Hzero. apply Hpath; lia.
                     +++ intros Hq'. assert (x = dist N (pref e) h); [|lia].
                         apply (adv_inj N (pref e)); try lia.
                         rewrite Hq'. symmetry. now apply adv_dist.
                 --- rewrite (upd_other _ h) by auto.
                     destruct (Z.eq_dec s j) as [->|Hsj].
                     { rewrite upd_same. congruence. }
                     rewrite upd_other by auto.
                     intros Hne x Hx Hzero.
                     destruct (Z.eq_dec (adv N (pref (t s)) x) j) as [|Hq]; auto.
                     exfalso.
                     destruct (Z.eq_dec (adv N (pref (t s)) x) h) as [Hq'|Hq'].
                     +++ rewrite Hq', upd_same in Hzero. congruence.
                     +++ rewrite !upd_other in Hzero by auto.
                         apply Hq'. eapply Hquasi; eauto. }
           destruct (IH _ j 0 e0 HI' HS' (eq_trans Hocc' Hocc)) as (t' & Hr & Hres).
           { rewrite Z.sub_0_r, Ej, dist_adv_l by (auto; lia). lia. }
           rewrite adv_0 in Hr by auto. exists t'. auto.
        -- (* the hole is not on its probe path: it returns to its slot *)
           assert (Hfull : path_full N t (pref e) (dist N (pref e) j)).
           { intros x Hx. apply Hpath; auto. lia. }
           assert (Hins : t_insert N mask (upd t j 0) (pref e) e
                          = Some (upd (upd t j 0) j e)).
           { unfold t_insert.
             rewrite (probe_first_empty N mask N_pos next_slot (upd t j 0) _ (pref e)
                        (dist N (pref e) j)); auto; try lia.
             - now rewrite adv_dist.
             - intros x Hx. rewrite upd_other by (apply Hnotj; lia). now apply Hfull.
             - rewrite adv_dist by auto. apply upd_same. }
           rewrite Hins. cbn [bind].
           destruct (move_struct t P j j) as [HS' Hocc']; auto.
           { rewrite <- Ee. auto. }
           rewrite <- Ee in HS', Hocc'.
           assert (HI' : rehash_inv N pref (upd (upd t j 0) j e) h (d + 1) e0).
           { apply rehash_inv_ext with (t := t).
             { intros s. unfold upd. destruct (Z.eqb_spec s j); subst; auto. }
             apply rehash_inv_next; auto; rewrite <- Ej, <- Ee; auto. }
           destruct (IH _ h (d + 1) e0 HI' HS' (eq_trans Hocc' Hocc)) as (t' & Hr & Hres).
           { lia. }
           rewrite <- Ej in Hr. exists t'. auto.
Qed.

End Rehash.

Section Remove.

Variables N mask : Z.
Hypothesis N_pos : 0 < N.
Hypothesis next_slot : forall s, 0 <= s < N -> Z.land (dw (s + 1)) mask = adv N s 1.
Variable pref : Z -> Z.
Hypothesis pref_range : forall i, 0 <= pref i < N.

Lemma tbl_inv_remove t P i :
  tbl_inv N pref t P -> occ N t < N -> P i ->
  exists t', t_remove N mask pref t (pref i) i = Some t' /\
             tbl_inv N pref t' (fun j => P j /\ j <> i) /\
             occ N t' = occ N t - 1.
Proof.
  intros [HS Hp] Hocc Hi.
  destruct (ts_compl _ _ _ HS i Hi) as (s & Hs & Es).
  assert (Hi0 : i <> 0) by (apply (ts_nz _ _ _ HS); auto).
  assert (Hts : t s <> 0) by congruence.
  pose proof (dist_range N N_pos (pref i) s) as Hd.
  assert (Hfind : RemoveHash_find (Z.to_nat N) t mask i (pref i) = Some s).
  { replace (Some s) with (Some (adv N (pref i) (dist N (pref i) s)))
      by (now rewrite adv_dist).
    apply find_slot; auto; try lia.
    - intros d Hdd E.
      assert (adv N (pref i) d = s).
      { apply (ts_inj _ _ _ HS); auto; try congruence. now apply adv_range. }
      assert (d = dist N (pref i) s); [|lia].
      apply (adv_inj N (pref i)); try lia. rewrite H. symmetry. now apply adv_dist.
    - now rewrite adv_dist. }
  unfold t_remove. rewrite Hfind. cbn [bind].
  destruct (occ_free N N_pos t Hocc) as (e0 & He0 & He0z).
  assert (Hse0 : s <> e0) by congruence.
  assert (HI : rehash_inv N pref (upd t s 0) s 0 e0).
  { constructor; auto.
    - split; [lia|]. apply dist_pos; auto.
    - apply upd_same.
    - rewrite upd_other; auto.
    - intros m Hm. lia.
    - intros q Hq. destruct (Z.eq_dec q s) as [->|Hqs].
      + rewrite upd_same. congruence.
      + rewrite upd_other by auto. intros Hne x Hx Hzero.
        destruct (Z.eq_dec (adv N (pref (t q)) x) s) as [|Hxs]; auto.
        rewrite upd_other in Hzero by auto.
        exfalso. revert Hzero. apply Hp; auto. }
  assert (HS' : tbl_struct N (upd t s 0) (fun j => P j /\ j <> i)).
  { rewrite <- Es. apply tbl_struct_clear; auto. }
  destruct (rehash_ok N mask N_pos next_slot pref pref_range _ (occ N t - 1)
              (Z.to_nat N) (upd t s 0) s 0 e0 HI HS') as (t' & Hr & Hres).
  - rewrite occ_upd by auto. simpl.
    destruct (Z.eqb_spec (t s) 0); [contradiction|lia].
  - pose proof (dist_range N N_pos s e0). lia.
  - rewrite adv_0 in Hr by auto. exists t'. auto.
Qed.

End Remove.

Lemma tbl_inv_iff N pref t (P Q : Z -> Prop) :
  (forall i, P i <-> Q i) -> tbl_inv N pref t P -> tbl_inv N pref t Q.
Proof. intros E [HS Hp]. split; auto. eapply tbl_struct_iff; eauto. Qed.

Lemma tbl_inv_pref N pref pref' t P :
  (forall i, P i -> pref' i = pref i) -> tbl_inv N pref t P -> tbl_inv N pref' t P.
Proof.
  intros E [HS Hp]. split; auto.
  intros s Hs Hne. rewrite E by (apply (ts_range _ _ _ HS); auto). auto.
Qed.

Lemma tbl_inv_ext N pref t t' P :
  (forall s, t' s = t s) -> tbl_inv N pref t P -> tbl_inv N pref t' P.
Proof.
  intros E [[H1 H2 H3 H4] Hp]. split; [constructor|]; auto.
  - intros s Hs. rewrite E. auto.
  - intros i Hi. destruct (H3 i Hi) as (s & Hs & Es). exists s. rewrite E. auto.
  - intros s s' Hs Hs'. rewrite !E. auto.
  - intros s Hs. rewrite !E. intros Hne x Hx. rewrite E. now apply Hp.
Qed.

Lemma tbl_inv_empty N pref t :
  (forall s, 0 <= s < N -> t s = 0) -> tbl_inv N pref t (fun _ => False).
Proof.
  intros Hz. split; [constructor|]; try tauto.
  - intros s Hs Hne. now apply Hne, Hz.
  - intros s s' Hs _ Hne. exfalso. now apply Hne, Hz.
  - intros s Hs Hne. exfalso. now apply Hne, Hz.
Qed.

(** ** Arithmetic of the masks *)

Lemma land_mask p x : 0 <= p -> Z.land x (2 ^ p - 1) = x mod 2 ^ p.
Proof.
  intros Hp. rewrite Z.sub_1_r, <- Z.ones_equiv. now apply Z.land_ones.
Qed.

Lemma pow2_le_31 p : 0 <= p <= 31 -> 0 < 2 ^ p <= 2 ^ 31.
Proof.
  intros Hp. split; [apply Z.pow_pos_nonneg; lia|apply Z.pow_le_mono_r; lia].
Qed.

Lemma hmax_pos pm : hmax_ok pm -> 0 < cHashMax pm.
Proof. intros (p & Hp & ->). now apply pow2_le_31. Qed.

Lemma hmax_mask pm x :
  hmax_ok pm -> Z.land x (dw (cHashMax pm - 1)) = x mod cHashMax pm.
Proof.
  intros (p & Hp & ->). pose proof (pow2_le_31 p Hp).
  unfold dw. rewrite Z.mod_small by lia. apply land_mask. lia.
Qed.

Lemma hmax_next pm s :
  hmax_ok pm -> 0 <= s < cHashMax pm ->
  Z.land (dw (s + 1)) (dw (cHashMax pm - 1)) = adv (cHashMax pm) s 1.
Proof.
  intros H Hs. rewrite hmax_mask by auto. unfold adv. f_equal.
  destruct H as (p & Hp & E). pose proof (pow2_le_31 p Hp).
  unfold dw. apply Z.mod_small. lia.
Qed.

Lemma slot_of_range pm kv : hmax_ok pm -> 0 <= slot_of pm kv < cHashMax pm.
Proof.
  intros H. unfold slot_of. rewrite hmax_mask by auto.
  apply Z.mod_pos_bound. now apply hmax_pos.
Qed.

Lemma pref_of_range pm f i : hmax_ok pm -> 0 <= pref_of pm f i < cHashMax pm.
Proof. intros. now apply slot_of_range. Qed.

(** ** The hash index of a map *)

Lemma set_tbl_fields pm f t :
  c (set_tbl pm f t) = c pm /\ cHashMax (set_tbl pm f t) = cHashMax pm /\
  cHashGrowThreshold (set_tbl pm f t) = cHashGrowThreshold pm /\
  fKey (set_tbl pm f t) = fKey pm /\ Directory (set_tbl pm f t) = Directory pm /\
  HashMap (set_tbl pm f t) f = t /\
  HashMap (set_tbl pm f t) (negb f) = HashMap pm (negb f).
Proof. destruct f; repeat split. Qed.

Lemma set_tbl_key_of pm f t f' i : key_of (set_tbl pm f t) f' i = key_of pm f' i.
Proof. destruct f; reflexivity. Qed.

Lemma set_tbl_pref_of pm f t f' : pref_of (set_tbl pm f t) f' = pref_of pm f'.
Proof. destruct f; reflexivity. Qed.

Lemma set_tbl_twice pm f t t' : set_tbl (set_tbl pm f t) f t' = set_tbl pm f t'.
Proof. destruct f; reflexivity. Qed.

Lemma set_tbl_hmax_ok pm f t : hmax_ok pm -> hmax_ok (set_tbl pm f t).
Proof. destruct f; auto. Qed.

Lemma SetHashIndex_set_tbl pm f s x :
  f = true \/ fKey pm = true ->
  _ObMap_SetHashIndex pm f s x = set_tbl pm f (upd (HashMap pm f) s x).
Proof.
  intros [->|H]; [reflexivity|]. unfold _ObMap_SetHashIndex. rewrite H.
  destruct f; reflexivity.
Qed.

Lemma hash_inv_set_tbl pm f t P n :
  hash_inv (set_tbl pm f t) f P n <->
  tbl_inv (cHashMax pm) (pref_of pm f) t P /\ occ (cHashMax pm) t = n.
Proof. destruct f; reflexivity. Qed.

Lemma hash_inv_set_tbl_other pm f t P n :
  hash_inv (set_tbl pm f t) (negb f) P n <-> hash_inv pm (negb f) P n.
Proof. destruct f; reflexivity. Qed.

(** A hash array stays valid when the map changes outside of it and outside
    of the entries it holds. *)
Lemma hash_inv_frame pm pm' f P Q n :
  cHashMax pm' = cHashMax pm -> HashMap pm' f = HashMap pm f ->
  (forall i, P i -> key_of pm' f i = key_of pm f i) ->
  (forall i, P i <-> Q i) ->
  hash_inv pm f P n -> hash_inv pm' f Q n.
Proof.
  intros E1 E2 E3 E4 [Hinv Hocc]. unfold hash_inv. rewrite E1, E2. split; auto.
  apply tbl_inv_iff with (P := P); auto.
  apply tbl_inv_pref with (pref := pref_of pm f); auto.
  intros i Hi. unfold pref_of, slot_of. now rewrite E1, E3.
Qed.

Lemma InsertHash_sim pm f i :
  f = true \/ fKey pm = true ->
  _ObMap_InsertHash pm f i =
  option_map (set_tbl pm f)
    (t_insert (cHashMax pm) (dw (cHashMax pm - 1)) (HashMap pm f) (pref_of pm f i) i).
Proof.
  intros H. unfold _ObMap_InsertHash, t_insert, hash_fuel, pref_of, slot_of, key_of.
  replace (negb f && negb (fKey pm)) with false
    by (destruct H as [-> | ->]; [reflexivity|now rewrite andb_false_r]).
  destruct (InsertHash_probe _ _ _ _); cbn [bind option_map]; [|reflexivity].
  now rewrite SetHashIndex_set_tbl.
Qed.

Lemma InsertHash_nokey pm i :
  fKey pm = false -> _ObMap_InsertHash pm false i = Some pm.
Proof. intros H. unfold _ObMap_InsertHash. now rewrite H. Qed.

Lemma RemoveHash_nokey pm kv i :
  fKey pm = false -> _ObMap_RemoveHash pm false kv i = Some pm.
Proof. intros H. unfold _ObMap_RemoveHash. now rewrite H. Qed.

Lemma rehash_sim f : forall fuel pm j,
  f = true \/ fKey pm = true ->
  RemoveHash_rehash fuel pm f (dw (cHashMax pm - 1)) j =
  option_map (set_tbl pm f)
    (t_rehash fuel (cHashMax pm) (dw (cHashMax pm - 1)) (pref_of pm f) (HashMap pm f) j).
Proof.
  induction fuel as [|fuel IH]; intros pm j H; [reflexivity|].
  cbn [RemoveHash_rehash t_rehash].
  destruct (HashMap pm f (Z.land (dw (j + 1)) (dw (cHashMax pm - 1))) =? 0) eqn:E0.
  - cbn [option_map]. f_equal. destruct f, pm; reflexivity.
  - fold (key_of pm f (HashMap pm f (Z.land (dw (j + 1)) (dw (cHashMax pm - 1))))).
    fold (slot_of pm (key_of pm f (HashMap pm f (Z.land (dw (j + 1)) (dw (cHashMax pm - 1)))))).
    fold (pref_of pm f (HashMap pm f (Z.land (dw (j + 1)) (dw (cHashMax pm - 1))))).
    destruct (_ =? pref_of pm f _); [now apply IH|].
    rewrite SetHashIndex_set_tbl by auto.
    rewrite InsertHash_sim by (destruct f; auto).
    destruct (set_tbl_fields pm f (upd (HashMap pm f) (Z.land (dw (j + 1)) (dw (cHashMax pm - 1))) 0))
      as (_ & Ec & _ & Ek & _ & Et & _).
    rewrite Ec, Et, set_tbl_pref_of.
    destruct (t_insert _ _ _ _ _) as [t'|]; cbn [bind option_map]; [|reflexivity].
    rewrite set_tbl_twice.
    specialize (IH (set_tbl pm f t') (Z.land (dw (j + 1)) (dw (cHashMax pm - 1)))).
    destruct f; apply IH; auto.
Qed.

Lemma RemoveHash_sim pm f kv i :
  f = true \/ fKey pm = true ->
  _ObMap_RemoveHash pm f kv i =
  option_map (set_tbl pm f)
    (t_remove (cHashMax pm) (dw (cHashMax pm - 1)) (pref_of pm f) (HashMap pm f)
              (slot_of pm kv) i).
Proof.
  intros H. unfold _ObMap_RemoveHash, t_remove, hash_fuel, slot_of.
  replace (negb f && negb (fKey pm)) with false
    by (destruct H as [-> | ->]; [reflexivity|now rewrite andb_false_r]).
  destruct (RemoveHash_find _ _ _ _) as [s|]; cbn [bind option_map]; [|reflexivity].
  rewrite SetHashIndex_set_tbl by auto.
  pose proof (rehash_sim f (Z.to_nat (cHashMax pm)) (set_tbl pm f (upd (HashMap pm f) s 0)) s) as R.
  destruct (set_tbl_fields pm f (upd (HashMap pm f) s 0)) as (_ & Ec & _ & Ek & _ & Et & _).
  rewrite Ec, Et, set_tbl_pref_of, Ek in R. rewrite R by auto.
  destruct (t_rehash _ _ _ _ _ _); cbn [option_map]; [|reflexivity].
  now rewrite set_tbl_twice.
Qed.

Lemma InsertHash_ok pm f P n i :
  hmax_ok pm -> f = true \/ fKey pm = true ->
  hash_inv pm f P n -> n < cHashMax pm -> ~ P i -> i <> 0 ->
  exists t', _ObMap_InsertHash pm f i = Some (set_tbl pm f t') /\
             hash_inv (set_tbl pm f t') f (fun j => P j \/ j = i) (n + 1).
Proof.
  intros Hm Hf [Hinv Hocc] Hn HnP Hi0.
  destruct (tbl_inv_insert (cHashMax pm) (dw (cHashMax pm - 1)) (hmax_pos pm Hm)
              (fun s => hmax_next pm s Hm) (pref_of pm f)
              (fun j => pref_of_range pm f j Hm) (HashMap pm f) P i)
    as (s & Hs & Hz & Hins & Hinv' & Hocc'); auto; [lia|].
  exists (upd (HashMap pm f) s i). split.
  - rewrite InsertHash_sim, Hins by auto. reflexivity.
  - apply (proj2 (hash_inv_set_tbl _ _ _ _ _)). split; [exact Hinv'|lia].
Qed.

Lemma RemoveHash_ok pm f P n i :
  hmax_ok pm -> f = true \/ fKey pm = true ->
  hash_inv pm f P n -> n < cHashMax pm -> P i ->
  exists t', _ObMap_RemoveHash pm f (key_of pm f i) i = Some (set_tbl pm f t') /\
             hash_inv (set_tbl pm f t') f (fun j => P j /\ j <> i) (n - 1).
Proof.
  intros Hm Hf [Hinv Hocc] Hn Hi.
  destruct (tbl_inv_remove (cHashMax pm) (dw (cHashMax pm - 1)) (hmax_pos pm Hm)
              (fun s => hmax_next pm s Hm) (pref_of pm f)
              (fun j => pref_of_range pm f j Hm) (HashMap pm f) P i)
    as (t' & Hrem & Hinv' & Hocc'); auto; [lia|].
  exists t'. split.
  - rewrite RemoveHash_sim by auto.
    change (slot_of pm (key_of pm f i)) with (pref_of pm f i). now rewrite Hrem.
  - apply (proj2 (hash_inv_set_tbl _ _ _ _ _)). split; [exact Hinv'|lia].
Qed.

Lemma scan_found pm f kv : forall fuel a n,
  hmax_ok pm -> 0 <= a < cHashMax pm -> 0 <= n ->
  (forall d, 0 <= d < n ->
             HashMap pm f (adv (cHashMax pm) a d) <> 0 /\
             key_of pm f (HashMap pm f (adv (cHashMax pm) a d)) <> kv) ->
  HashMap pm f (adv (cHashMax pm) a n) <> 0 ->
  key_of pm f (HashMap pm f (adv (cHashMax pm) a n)) = kv ->
  (Z.to_nat n < fuel)%nat ->
  GetEntryIndex_scan fuel pm f kv (dw (cHashMax pm - 1)) a
  = Some (Some (HashMap pm f (adv (cHashMax pm) a n))).
Proof.
  induction fuel as [|fuel IH]; intros a n Hm Ha Hn Hp Hne Hk Hf; [lia|].
  pose proof (hmax_pos pm Hm) as HN.
  cbn [GetEntryIndex_scan]. fold (key_of pm f (HashMap pm f a)).
  destruct (Z.eq_dec n 0) as [->|Hn0].
  - rewrite adv_0 in * by auto.
    destruct (Z.eqb_spec (HashMap pm f a) 0); [contradiction|].
    now rewrite Hk, Z.eqb_refl.
  - destruct (Hp 0) as [H0 H1]; [lia|]. rewrite adv_0 in H0, H1 by auto.
    destruct (Z.eqb_spec (HashMap pm f a) 0); [contradiction|].
    destruct (Z.eqb_spec kv (key_of pm f (HashMap pm f a))); [congruence|].
    rewrite hmax_next by auto.
    replace (adv (cHashMax pm) a n) with (adv (cHashMax pm) (adv (cHashMax pm) a 1) (n - 1))
      by (rewrite adv_adv by auto; f_equal; lia).
    apply IH; auto; try lia.
    + now apply adv_range.
    + intros d Hd. rewrite adv_adv by auto. apply Hp. lia.
    + rewrite adv_adv by auto. now replace (1 + (n - 1)) with n by lia.
    + rewrite adv_adv by auto. now replace (1 + (n - 1)) with n by lia.
Qed.

Lemma scan_notfound pm f kv : forall fuel a n,
  hmax_ok pm -> 0 <= a < cHashMax pm -> 0 <= n ->
  (forall d, 0 <= d < n ->
             HashMap pm f (adv (cHashMax pm) a d) <> 0 /\
             key_of pm f (HashMap pm f (adv (cHashMax pm) a d)) <> kv) ->
  HashMap pm f (adv (cHashMax pm) a n) = 0 ->
  (Z.to_nat n < fuel)%nat ->
  GetEntryIndex_scan fuel pm f kv (dw (cHashMax pm - 1)) a = Some None.
Proof.
  induction fuel as [|fuel IH]; intros a n Hm Ha Hn Hp Hz Hf; [lia|].
  pose proof (hmax_pos pm Hm) as HN.
  cbn [GetEntryIndex_scan]. fold (key_of pm f (HashMap pm f a)).
  destruct (Z.eq_dec n 0) as [->|Hn0].
  - rewrite adv_0 in * by auto. now rewrite Hz.
  - destruct (Hp 0) as [H0 H1]; [lia|]. rewrite adv_0 in H0, H1 by auto.
    destruct (Z.eqb_spec (HashMap pm f a) 0); [contradiction|].
    destruct (Z.eqb_spec kv (key_of pm f (HashMap pm f a))); [congruence|].
    rewrite hmax_next by auto.
    apply IH with (n := n - 1); auto; try lia.
    + now apply adv_range.
    + intros d Hd. rewrite adv_adv by auto. apply Hp. lia.
    + rewrite adv_adv by auto. now replace (1 + (n - 1)) with n by lia.
Qed.

Lemma lookup_found pm f P n kv i :
  hmax_ok pm -> f = true \/ fKey pm = true -> hash_inv pm f P n ->
  (forall i j, P i -> P j -> key_of pm f i = key_of pm f j -> i = j) ->
  P i -> key_of pm f i = kv ->
  _ObMap_GetEntryIndexFromKeyOrValue pm f kv = Some (Some i).
Proof.
  intros Hm Hf [[HS Hp] Hocc] Huniq Hi Hk.
  pose proof (hmax_pos pm Hm) as HN.
  unfold _ObMap_GetEntryIndexFromKeyOrValue.
  replace (negb f && negb (fKey pm)) with false
    by (destruct Hf as [-> | ->]; [reflexivity|now rewrite andb_false_r]).
  fold (slot_of pm kv).
  destruct (ts_compl _ _ _ HS i Hi) as (s & Hs & Es).
  assert (Hi0 : i <> 0) by (apply (ts_nz _ _ _ HS); auto).
  assert (Hts : HashMap pm f s <> 0) by congruence.
  assert (Epref : slot_of pm kv = pref_of pm f i) by (unfold pref_of; now rewrite Hk).
  pose proof (pref_of_range pm f i Hm) as Hpr.
  pose proof (dist_range _ HN (pref_of pm f i) s) as Hd.
  specialize (Hp s Hs Hts). rewrite Es in Hp.
  rewrite Epref.
  pose proof (scan_found pm f kv (hash_fuel pm) (pref_of pm f i)
                (dist (cHashMax pm) (pref_of pm f i) s) Hm Hpr (proj1 Hd)) as Hscan.
  rewrite adv_dist, Es in Hscan by auto.
  apply Hscan; auto; [|unfold hash_fuel; lia].
  intros d Hdd. split; [now apply Hp|].
  intros Hk'.
  assert (Hq : adv (cHashMax pm) (pref_of pm f i) d = s).
  { apply (ts_inj _ _ _ HS); [now apply adv_range|auto|now apply Hp|].
    rewrite Es. apply Huniq; auto; [|congruence].
    apply (ts_range _ _ _ HS); [now apply adv_range|now apply Hp]. }
  assert (d = dist (cHashMax pm) (pref_of pm f i) s); [|lia].
  apply (adv_inj (cHashMax pm) (pref_of pm f i)); try lia.
  rewrite Hq. symmetry. now apply adv_dist.
Qed.

Lemma lookup_notfound pm f P n kv :
  hmax_ok pm -> hash_inv pm f P n -> n < cHashMax pm ->
  (forall i, P i -> key_of pm f i <> kv) ->
  _ObMap_GetEntryIndexFromKeyOrValue pm f kv = Some None.
Proof.
  intros Hm [[HS Hp] Hocc] Hn Hno.
  pose proof (hmax_pos pm Hm) as HN.
  unfold _ObMap_GetEntryIndexFromKeyOrValue.
  destruct (negb f && negb (fKey pm)); [reflexivity|].
  fold (slot_of pm kv).
  pose proof (slot_of_range pm kv Hm) as Hsr.
  destruct (first_empty_exists (cHashMax pm) HN (HashMap pm f) (slot_of pm kv))
    as (m & Hmr & Hfull & Hz); auto.
  { apply occ_free; auto. lia. }
  unfold hash_fuel. apply scan_notfound with (n := m); auto; try lia.
  intros d Hd. split; [now apply Hfull|].
  apply Hno. apply (ts_range _ _ _ HS); [now apply adv_range|now apply Hfull].
Qed.

(** ** Consequences of well-formedness *)

Lemma WF_hmax_ok pm : WF pm -> hmax_ok pm.
Proof.
  intros W. destruct (wf_grow pm W) as (g & Hg & E & _).
  exists (8 + g). split; [lia|]. rewrite E, Z.pow_add_r by lia. reflexivity.
Qed.

Lemma WF_room pm : WF pm -> c pm - 1 < cHashMax pm /\ c pm <= cHashMax pm.
Proof.
  intros W. destruct (wf_grow pm W) as (g & Hg & E & E').
  pose proof (wf_thr pm W). assert (0 < 2 ^ g) by (apply Z.pow_pos_nonneg; lia). lia.
Qed.

Lemma key_of_live pm f i :
  live pm i -> key_of pm f i = if f then v (Entry pm i) else k (Entry pm i).
Proof.
  intros [H1 H2]. unfold key_of, _ObMap_GetFromEntryIndex, _ObMap_GetFromIndex.
  destruct (Z.eqb_spec i 0); [lia|]. destruct (Z.geb_spec i (c pm)); [lia|]. reflexivity.
Qed.

Lemma same_data_refl pm : same_data pm pm.
Proof. constructor; reflexivity. Qed.

Lemma same_data_trans pm1 pm2 pm3 :
  same_data pm1 pm2 -> same_data pm2 pm3 -> same_data pm1 pm3.
Proof. intros [] []. constructor; congruence. Qed.

Lemma same_data_set_tbl pm f t : same_data pm (set_tbl pm f t).
Proof. destruct f; constructor; reflexivity. Qed.

Lemma same_data_key_of pm pm' f i : same_data pm pm' -> key_of pm' f i = key_of pm f i.
Proof.
  intros H. unfold key_of, _ObMap_GetFromEntryIndex, _ObMap_GetFromIndex, Entry.
  now rewrite (sd_c _ _ H), (sd_Directory _ _ H).
Qed.

Lemma same_data_Entry pm pm' i : same_data pm pm' -> Entry pm' i = Entry pm i.
Proof. intros H. unfold Entry. now rewrite (sd_Directory _ _ H). Qed.

Lemma same_data_hmax_ok pm pm' : same_data pm pm' -> hmax_ok pm -> hmax_ok pm'.
Proof. intros [] (p & Hp & E). exists p. split; auto. congruence. Qed.

Lemma same_data_live pm pm' i : same_data pm pm' -> (live pm' i <-> live pm i).
Proof. intros H. unfold live. now rewrite (sd_c _ _ H). Qed.

Lemma tbl_ok_frame pm pm' f (P Q : Z -> Prop) n :
  cHashMax pm' = cHashMax pm -> fKey pm' = fKey pm ->
  HashMap pm' f = HashMap pm f ->
  (forall i, P i -> key_of pm' f i = key_of pm f i) ->
  (forall i, P i <-> Q i) ->
  tbl_ok pm f P n -> tbl_ok pm' f Q n.
Proof.
  intros E1 E2 E3 E4 E5. unfold tbl_ok. rewrite E2.
  destruct (f || fKey pm) eqn:Ef.
  - now apply hash_inv_frame.
  - destruct f; [discriminate|]. simpl in E3. now rewrite E3.
Qed.

Lemma tbl_ok_enabled pm f P n :
  f = true \/ fKey pm = true -> (tbl_ok pm f P n <-> hash_inv pm f P n).
Proof.
  intros H. unfold tbl_ok.
  replace (f || fKey pm) with true; [tauto|].
  destruct H as [-> | ->]; [reflexivity|now rewrite orb_true_r].
Qed.

Lemma InsertHash_step pm f P n i :
  hmax_ok pm -> tbl_ok pm f P n -> n < cHashMax pm -> ~ P i -> i <> 0 ->
  exists pm', _ObMap_InsertHash pm f i = Some pm' /\ same_data pm pm' /\
              HashMap pm' (negb f) = HashMap pm (negb f) /\
              tbl_ok pm' f (fun j => P j \/ j = i) (n + 1).
Proof.
  intros Hm Hok Hn HnP Hi0.
  destruct (f || fKey pm) eqn:Ef.
  - assert (Hf : f = true \/ fKey pm = true) by (destruct f; auto).
    apply tbl_ok_enabled in Hok; auto.
    destruct (InsertHash_ok pm f P n i) as (t' & Hins & Hinv); auto.
    exists (set_tbl pm f t'). split; [auto|]. split; [apply same_data_set_tbl|].
    split; [apply set_tbl_fields|].
    apply tbl_ok_enabled; auto. destruct f; auto.
  - destruct f; [discriminate|]. simpl in Ef.
    exists pm. split; [now apply InsertHash_nokey|]. split; [apply same_data_refl|].
    split; [reflexivity|]. unfold tbl_ok in *. now rewrite Ef in *.
Qed.

Lemma RemoveHash_step pm f P n i kv :
  hmax_ok pm -> tbl_ok pm f P n -> n < cHashMax pm -> P i -> kv = key_of pm f i ->
  exists pm', _ObMap_RemoveHash pm f kv i = Some pm' /\ same_data pm pm' /\
              HashMap pm' (negb f) = HashMap pm (negb f) /\
              tbl_ok pm' f (fun j => P j /\ j <> i) (n - 1).
Proof.
  intros Hm Hok Hn Hi ->.
  destruct (f || fKey pm) eqn:Ef.
  - assert (Hf : f = true \/ fKey pm = true) by (destruct f; auto).
    apply tbl_ok_enabled in Hok; auto.
    destruct (RemoveHash_ok pm f P n i) as (t' & Hrem & Hinv); auto.
    exists (set_tbl pm f t'). split; [auto|]. split; [apply same_data_set_tbl|].
    split; [apply set_tbl_fields|].
    apply tbl_ok_enabled; auto. destruct f; auto.
  - destruct f; [discriminate|]. simpl in Ef.
    exists pm. split; [now apply RemoveHash_nokey|]. split; [apply same_data_refl|].
    split; [reflexivity|]. unfold tbl_ok in *. now rewrite Ef in *.
Qed.

(** Transport of the array that an operation on the other array leaves alone. *)
Lemma tbl_ok_other pm pm' f (P : Z -> Prop) n :
  same_data pm pm' -> HashMap pm' f = HashMap pm f ->
  tbl_ok pm f P n -> tbl_ok pm' f P n.
Proof.
  intros Hsd E. apply tbl_ok_frame; auto; try apply Hsd; try tauto.
  intros i _. now apply same_data_key_of.
Qed.

(** ** Paged storage *)

Lemma index_split i :
  0 <= i < OB_MAP_TABLE_MAX_CAPACITY ->
  i = OB_MAP_INDEX_DIRECTORY i * 2 ^ 17 + OB_MAP_INDEX_TABLE i * 2 ^ 8 + OB_MAP_INDEX_STORE i.
Proof.
  unfold OB_MAP_TABLE_MAX_CAPACITY, OB_MAP_INDEX_DIRECTORY, OB_MAP_INDEX_TABLE,
    OB_MAP_INDEX_STORE, OB_MAP_ENTRIES_DIRECTORY, OB_MAP_ENTRIES_TABLE, OB_MAP_ENTRIES_STORE.
  intros Hi.
  change (256 - 1) with (Z.ones 8). change (512 - 1) with (Z.ones 9).
  rewrite !Z.land_ones, !Z.shiftr_div_pow2 by lia.
  change (2 ^ 17) with 131072. change (2 ^ 8) with 256. change (2 ^ 9) with 512.
  Z.div_mod_to_equations. lia.
Qed.

Lemma index_inj i j :
  0 <= i < OB_MAP_TABLE_MAX_CAPACITY -> 0 <= j < OB_MAP_TABLE_MAX_CAPACITY ->
  OB_MAP_INDEX_DIRECTORY i = OB_MAP_INDEX_DIRECTORY j ->
  OB_MAP_INDEX_TABLE i = OB_MAP_INDEX_TABLE j ->
  OB_MAP_INDEX_STORE i = OB_MAP_INDEX_STORE j -> i = j.
Proof.
  intros Hi Hj E1 E2 E3. rewrite (index_split i Hi), (index_split j Hj). congruence.
Qed.

Lemma Entry_set_Entry_same pm i e : Entry (set_Entry pm i e) i = e.
Proof. unfold Entry, set_Entry, upd3. cbn. now rewrite !Z.eqb_refl. Qed.

Lemma Entry_set_Entry_other pm i j e :
  0 <= i < OB_MAP_TABLE_MAX_CAPACITY -> 0 <= j < OB_MAP_TABLE_MAX_CAPACITY ->
  j <> i -> Entry (set_Entry pm i e) j = Entry pm j.
Proof.
  intros Hi Hj Hne. unfold Entry, set_Entry, upd3. cbn.
  destruct (Z.eqb_spec (OB_MAP_INDEX_DIRECTORY j) (OB_MAP_INDEX_DIRECTORY i)); auto.
  destruct (Z.eqb_spec (OB_MAP_INDEX_TABLE j) (OB_MAP_INDEX_TABLE i)); auto.
  destruct (Z.eqb_spec (OB_MAP_INDEX_STORE j) (OB_MAP_INDEX_STORE i)); auto.
  exfalso. apply Hne. now apply index_inj.
Qed.

(** ** Lookups in a well-formed map *)

Lemma dw_small x : 0 <= x < 2 ^ 32 -> dw x = x.
Proof. intros. unfold dw. now apply Z.mod_small. Qed.

Lemma bind_assoc {A B C} (x : option A) (f : A -> option B) (g : B -> option C) :
  bind x (fun a => bind (f a) g) = bind (bind x f) g.
Proof. destruct x; reflexivity. Qed.

Lemma entry_eta e : mkEntry (k e) (v e) = e.
Proof. destruct e; reflexivity. Qed.

Lemma WF_c_range pm : WF pm -> 1 <= c pm <= 2 ^ 25.
Proof. intros W. exact (wf_c pm W). Qed.

Lemma key_uniq_live pm f :
  WF pm -> f = true \/ fKey pm = true ->
  forall i j, live pm i -> live pm j -> key_of pm f i = key_of pm f j -> i = j.
Proof.
  intros W Hf i j Hi Hj. rewrite !key_of_live by auto.
  destruct f.
  - now apply wf_value_uniq.
  - destruct Hf as [?|Hk]; [discriminate|]. now apply wf_key_uniq.
Qed.

Lemma WF_lookup_found pm f i :
  WF pm -> f = true \/ fKey pm = true -> live pm i ->
  _ObMap_GetEntryIndexFromKeyOrValue pm f (key_of pm f i) = Some (Some i).
Proof.
  intros W Hf Hi.
  apply lookup_found with (P := live pm) (n := c pm - 1); auto.
  - now apply WF_hmax_ok.
  - apply tbl_ok_enabled; auto. now apply wf_hash.
  - now apply key_uniq_live.
Qed.

Lemma WF_lookup_none pm f kv :
  WF pm -> (forall i, live pm i -> key_of pm f i <> kv) ->
  _ObMap_GetEntryIndexFromKeyOrValue pm f kv = Some None.
Proof.
  intros W Hno.
  destruct (f || fKey pm) eqn:Ef.
  - apply lookup_notfound with (P := live pm) (n := c pm - 1); auto.
    + now apply WF_hmax_ok.
    + apply tbl_ok_enabled; [destruct f; auto|]. now apply wf_hash.
    + now apply WF_room.
  - destruct f; [discriminate|]. simpl in Ef.
    unfold _ObMap_GetEntryIndexFromKeyOrValue. now rewrite Ef.
Qed.

Lemma bounded_dec (Q : Z -> Prop) :
  (forall i, {Q i} + {~ Q i}) ->
  forall m : nat,
    (exists i, 1 <= i < 1 + Z.of_nat m /\ Q i) \/
    (forall i, 1 <= i < 1 + Z.of_nat m -> ~ Q i).
Proof.
  intros Qdec. induction m as [|m [(i & Hi & Hq)|IH]].
  - right. intros i Hi. lia.
  - left. exists i. split; [lia|auto].
  - destruct (Qdec (1 + Z.of_nat m)) as [Hq|Hq].
    + left. exists (1 + Z.of_nat m). split; [lia|auto].
    + right. intros i Hi. destruct (Z.eq_dec i (1 + Z.of_nat m)) as [->|]; auto.
      apply IH. lia.
Qed.

Lemma live_dec pm f kv :
  (exists i, live pm i /\ key_of pm f i = kv) \/
  (forall i, live pm i -> key_of pm f i <> kv).
Proof.
  destruct (bounded_dec (fun i => key_of pm f i = kv)
              (fun i => Z.eq_dec (key_of pm f i) kv) (Z.to_nat (c pm - 1)))
    as [(i & Hi & Hq)|H].
  - left. exists i. split; auto. unfold live. lia.
  - right. intros i Hi. apply H. unfold live in Hi. lia.
Qed.

(** The lookup always comes back, with an entry that carries the key or
    value when there is one, and with nothing otherwise. *)
Lemma WF_lookup_total pm f kv :
  WF pm -> f = true \/ fKey pm = true ->
  (exists i, live pm i /\ key_of pm f i = kv /\
             _ObMap_GetEntryIndexFromKeyOrValue pm f kv = Some (Some i)) \/
  ((forall i, live pm i -> key_of pm f i <> kv) /\
   _ObMap_GetEntryIndexFromKeyOrValue pm f kv = Some None).
Proof.
  intros W Hf. destruct (live_dec pm f kv) as [(i & Hi & Hk)|Hno].
  - left. exists i. split; [auto|]. split; [auto|]. rewrite <- Hk. now apply WF_lookup_found.
  - right. split; auto. now apply WF_lookup_none.
Qed.

Lemma same_data_shape pm pm' : same_data pm pm' -> same_shape pm pm'.
Proof. intros []. constructor; auto. Qed.

Lemma same_shape_refl pm : same_shape pm pm.
Proof. constructor; reflexivity. Qed.

Lemma same_shape_trans pm1 pm2 pm3 :
  same_shape pm1 pm2 -> same_shape pm2 pm3 -> same_shape pm1 pm3.
Proof. intros [] []. constructor; congruence. Qed.

(** ** Both hash arrays at once *)

Lemma remove_both pm P n i :
  hmax_ok pm -> (forall f, tbl_ok pm f P n) -> n < cHashMax pm -> P i ->
  exists pm',
    (pm1 <- _ObMap_RemoveHash pm false (key_of pm false i) i ;;
     _ObMap_RemoveHash pm1 true (key_of pm true i) i) = Some pm' /\
    same_data pm pm' /\
    forall f, tbl_ok pm' f (fun j => P j /\ j <> i) (n - 1).
Proof.
  intros Hm Hok Hn Hi.
  destruct (RemoveHash_step pm false P n i (key_of pm false i))
    as (pm1 & E1 & Hsd1 & Ho1 & Hk1); auto.
  assert (Hv1 : tbl_ok pm1 true P n) by (apply tbl_ok_other with (pm := pm); auto).
  destruct (RemoveHash_step pm1 true P n i (key_of pm true i))
    as (pm2 & E2 & Hsd2 & Ho2 & Hv2); auto.
  { now apply same_data_hmax_ok with (pm := pm). }
  { now rewrite (sd_cHashMax _ _ Hsd1). }
  { symmetry. now apply same_data_key_of. }
  exists pm2. rewrite E1. cbn [bind]. split; [auto|].
  split; [eapply same_data_trans; eauto|].
  intros [|]; auto. apply tbl_ok_other with (pm := pm1); auto.
Qed.

Lemma insert_both_kv pm P n i :
  hmax_ok pm -> (forall f, tbl_ok pm f P n) -> n < cHashMax pm -> ~ P i -> i <> 0 ->
  exists pm',
    (pm1 <- _ObMap_InsertHash pm false i ;; _ObMap_InsertHash pm1 true i) = Some pm' /\
    same_data pm pm' /\
    forall f, tbl_ok pm' f (fun j => P j \/ j = i) (n + 1).
Proof.
  intros Hm Hok Hn HnP Hi0.
  destruct (InsertHash_step pm false P n i) as (pm1 & E1 & Hsd1 & Ho1 & Hk1); auto.
  assert (Hv1 : tbl_ok pm1 true P n) by (apply tbl_ok_other with (pm := pm); auto).
  destruct (InsertHash_step pm1 true P n i) as (pm2 & E2 & Hsd2 & Ho2 & Hv2); auto.
  { now apply same_data_hmax_ok with (pm := pm). }
  { now rewrite (sd_cHashMax _ _ Hsd1). }
  exists pm2. rewrite E1. cbn [bind]. split; [auto|].
  split; [eapply same_data_trans; eauto|].
  intros [|]; auto. apply tbl_ok_other with (pm := pm1); auto.
Qed.

Lemma insert_both_vk pm P n i :
  hmax_ok pm -> (forall f, tbl_ok pm f P n) -> n < cHashMax pm -> ~ P i -> i <> 0 ->
  exists pm',
    (pm1 <- _ObMap_InsertHash pm true i ;; _ObMap_InsertHash pm1 false i) = Some pm' /\
    same_data pm pm' /\
    forall f, tbl_ok pm' f (fun j => P j \/ j = i) (n + 1).
Proof.
  intros Hm Hok Hn HnP Hi0.
  destruct (InsertHash_step pm true P n i) as (pm1 & E1 & Hsd1 & Ho1 & Hk1); auto.
  assert (Hv1 : tbl_ok pm1 false P n) by (apply tbl_ok_other with (pm := pm); auto).
  destruct (InsertHash_step pm1 false P n i) as (pm2 & E2 & Hsd2 & Ho2 & Hv2); auto.
  { now apply same_data_hmax_ok with (pm := pm). }
  { now rewrite (sd_cHashMax _ _ Hsd1). }
  exists pm2. rewrite E1. cbn [bind]. split; [auto|].
  split; [eapply same_data_trans; eauto|].
  intros [|]; auto. apply tbl_ok_other with (pm := pm1); auto.
Qed.

(** ** Removal of an entry *)

Lemma GetFromIndex_live pm i : live pm i -> _ObMap_GetFromIndex pm i = Some (Entry pm i).
Proof.
  intros [H1 H2]. unfold _ObMap_GetFromIndex.
  destruct (Z.eqb_spec i 0); [lia|]. destruct (Z.geb_spec i (c pm)); [lia|]. reflexivity.
Qed.

Lemma GetFromIndex_dead pm i : i = 0 \/ c pm <= i -> _ObMap_GetFromIndex pm i = None.
Proof.
  intros H. unfold _ObMap_GetFromIndex.
  destruct (Z.eqb_spec i 0); [reflexivity|]. destruct (Z.geb_spec i (c pm)); [reflexivity|lia].
Qed.

Lemma WF_after_remove pm pmX i (P : Z -> Prop) :
  WF pm -> live pm i -> same_shape pm pmX -> c pmX = c pm ->
  (forall j, 1 <= j < c pm - 1 ->
             Entry pmX j = if j =? i then Entry pm (c pm - 1) else Entry pm j) ->
  (forall j, P j <-> 1 <= j < c pm - 1) ->
  (forall f, tbl_ok pmX f P (c pm - 2)) ->
  WF (set_c pmX (c pm - 1)).
Proof.
  intros W Hi Hss Hc Hent HP Htbl.
  pose proof (WF_c_range pm W) as Hcr. destruct Hi as [Hi1 Hi2].
  assert (Hsel : forall j, 1 <= j < c pm - 1 ->
                           exists j', live pm j' /\ Entry pmX j = Entry pm j' /\
                                      (j' = if j =? i then c pm - 1 else j)).
  { intros j Hj. rewrite (Hent j Hj). destruct (Z.eqb_spec j i).
    - exists (c pm - 1). unfold live. repeat split; lia.
    - exists j. unfold live. repeat split; lia. }
  assert (Hinj : forall j1 j2 j1' j2',
             1 <= j1 < c pm - 1 -> 1 <= j2 < c pm - 1 ->
             j1' = (if j1 =? i then c pm - 1 else j1) ->
             j2' = (if j2 =? i then c pm - 1 else j2) -> j1' = j2' -> j1 = j2).
  { intros j1 j2 j1' j2' H1 H2 -> ->.
    destruct (Z.eqb_spec j1 i), (Z.eqb_spec j2 i); lia. }
  constructor; cbn [c set_c cHashMax cHashGrowThreshold fLargeMode fKey HashMapKeyAllocated
                      TableAllocated StoreAllocated].
  - unfold OB_MAP_TABLE_MAX_CAPACITY, OB_MAP_ENTRIES_DIRECTORY, OB_MAP_ENTRIES_TABLE,
      OB_MAP_ENTRIES_STORE in *. lia.
  - rewrite (ss_cHashMax _ _ Hss), (ss_cHashGrowThreshold _ _ Hss). apply (wf_grow pm W).
  - rewrite (ss_cHashGrowThreshold _ _ Hss). pose proof (wf_thr pm W). lia.
  - rewrite (ss_fLargeMode _ _ Hss), (ss_cHashGrowThreshold _ _ Hss). apply (wf_small pm W).
  - intros j Hj. unfold live in Hj. cbn in Hj.
    destruct (Hsel j Hj) as (j' & Hl & E & _).
    change (Entry (set_c pmX (c pm - 1)) j) with (Entry pmX j).
    rewrite E. now apply wf_value_nz.
  - intros j1 j2 Hj1 Hj2. unfold live in Hj1, Hj2. cbn in Hj1, Hj2.
    destruct (Hsel j1 Hj1) as (j1' & Hl1 & E1 & S1).
    destruct (Hsel j2 Hj2) as (j2' & Hl2 & E2 & S2).
    change (Entry (set_c pmX (c pm - 1)) j1) with (Entry pmX j1).
    change (Entry (set_c pmX (c pm - 1)) j2) with (Entry pmX j2).
    rewrite E1, E2. intros E. apply (Hinj j1 j2 j1' j2'); auto.
    now apply (wf_value_uniq pm W).
  - rewrite (ss_fKey _ _ Hss). intros Hk j1 j2 Hj1 Hj2.
    unfold live in Hj1, Hj2. cbn in Hj1, Hj2.
    destruct (Hsel j1 Hj1) as (j1' & Hl1 & E1 & S1).
    destruct (Hsel j2 Hj2) as (j2' & Hl2 & E2 & S2).
    change (Entry (set_c pmX (c pm - 1)) j1) with (Entry pmX j1).
    change (Entry (set_c pmX (c pm - 1)) j2) with (Entry pmX j2).
    rewrite E1, E2. intros E. apply (Hinj j1 j2 j1' j2'); auto.
    now apply (wf_key_uniq pm W).
  - intros f. replace (c pm - 1 - 1) with (c pm - 2) by lia.
    apply tbl_ok_frame with (pm := pmX) (P := P);
      [reflexivity|reflexivity|reflexivity| | |apply Htbl].
    + intros j Hj. apply HP in Hj.
      rewrite !key_of_live by (unfold live; cbn; lia). reflexivity.
    + intros j. rewrite HP. unfold live. cbn. lia.
  - intros j Hj. rewrite (ss_TableAllocated _ _ Hss), (ss_StoreAllocated _ _ Hss).
    apply (wf_alloc pm W). lia.
  - rewrite (ss_fKey _ _ Hss), (ss_HashMapKeyAllocated _ _ Hss). apply (wf_key_alloc pm W).
Qed.

Lemma set_Entry_shape pm i e : same_shape pm (set_Entry pm i e).
Proof. constructor; reflexivity. Qed.

Lemma RetrieveAndRemove_ok pm i :
  WF pm -> live pm i ->
  exists pm',
    _ObMap_RetrieveAndRemoveByEntryIndex pm i
    = Some (Some (v (Entry pm i), k (Entry pm i)), pm') /\
    WF pm' /\ c pm' = c pm - 1 /\ same_shape pm pm' /\
    (forall j, 1 <= j < c pm - 1 ->
               Entry pm' j = if j =? i then Entry pm (c pm - 1) else Entry pm j) /\
    (i = c pm - 1 -> Directory pm' = Directory pm).
Proof.
  intros W Hi.
  pose proof (WF_c_range pm W) as Hcr.
  pose proof (WF_hmax_ok pm W) as Hm.
  pose proof (WF_room pm W) as [Hroom _].
  pose proof Hi as [Hi1 Hi2].
  unfold _ObMap_RetrieveAndRemoveByEntryIndex.
  rewrite GetFromIndex_live by auto.
  rewrite bind_assoc.
  replace (k (Entry pm i)) with (key_of pm false i) by (now rewrite key_of_live).
  replace (v (Entry pm i)) with (key_of pm true i) by (now rewrite key_of_live).
  destruct (remove_both pm (live pm) (c pm - 1) i) as (pm2 & E2 & Hsd2 & Htbl2); auto.
  { intros f. now apply wf_hash. }
  rewrite E2. cbn [bind].
  rewrite (sd_c _ _ Hsd2). rewrite (dw_small (c pm - 1)) by lia.
  pose proof (same_data_hmax_ok _ _ Hsd2 Hm) as Hm2.
  destruct (Z.ltb_spec i (c pm - 1)) as [Hlt|Hge].
  - (* not the last entry: the last entry moves into its place *)
    assert (Hlast : live pm (c pm - 1)) by (unfold live; lia).
    rewrite GetFromIndex_live by (apply (same_data_live _ _ _ Hsd2); auto).
    cbn [bind]. rewrite (same_data_Entry _ _ _ Hsd2).
    destruct (RemoveHash_step pm2 false (fun j => live pm j /\ j <> i) (c pm - 1 - 1)
                (c pm - 1) (k (Entry pm (c pm - 1))))
      as (pm3 & E3 & Hsd3 & Ho3 & Hk3); auto.
    { rewrite (sd_cHashMax _ _ Hsd2). lia. }
    { split; auto. lia. }
    { rewrite (same_data_key_of _ _ _ _ Hsd2), key_of_live; auto. }
    rewrite E3. cbn [bind]. rewrite (sd_c _ _ Hsd3), (sd_c _ _ Hsd2).
    rewrite (dw_small (c pm - 1)) by lia.
    pose proof (same_data_hmax_ok _ _ Hsd3 Hm2) as Hm3.
    destruct (RemoveHash_step pm3 true (fun j => live pm j /\ j <> i) (c pm - 1 - 1)
                (c pm - 1) (v (Entry pm (c pm - 1))))
      as (pm4 & E4 & Hsd4 & Ho4 & Hv4); auto.
    { apply tbl_ok_other with (pm := pm2); auto. }
    { rewrite (sd_cHashMax _ _ Hsd3), (sd_cHashMax _ _ Hsd2). lia. }
    { split; auto. lia. }
    { rewrite (same_data_key_of _ _ _ _ Hsd3), (same_data_key_of _ _ _ _ Hsd2), key_of_live; auto. }
    rewrite E4. cbn [bind].
    pose proof (same_data_hmax_ok _ _ Hsd4 Hm3) as Hm4.
    assert (Hsd24 : same_data pm pm4).
    { eapply same_data_trans; [exact Hsd2|]. eapply same_data_trans; eauto. }
    rewrite entry_eta.
    set (pm5 := set_Entry pm4 i (Entry pm (c pm - 1))).
    set (P4 := fun j => (live pm j /\ j <> i) /\ j <> c pm - 1).
    assert (Hent5 : forall j, 1 <= j < c pm ->
                              Entry pm5 j = if j =? i then Entry pm (c pm - 1) else Entry pm j).
    { intros j Hj. unfold pm5. destruct (Z.eqb_spec j i) as [->|Hne].
      - apply Entry_set_Entry_same.
      - rewrite Entry_set_Entry_other; auto.
        + now apply same_data_Entry.
        + unfold OB_MAP_TABLE_MAX_CAPACITY, OB_MAP_ENTRIES_DIRECTORY, OB_MAP_ENTRIES_TABLE,
            OB_MAP_ENTRIES_STORE. lia.
        + unfold OB_MAP_TABLE_MAX_CAPACITY, OB_MAP_ENTRIES_DIRECTORY, OB_MAP_ENTRIES_TABLE,
            OB_MAP_ENTRIES_STORE. lia. }
    assert (Hc5 : c pm5 = c pm) by (unfold pm5; cbn; apply (sd_c _ _ Hsd24)).
    assert (Htbl5 : forall f, tbl_ok pm5 f P4 (c pm - 1 - 1 - 1)).
    { intros f.
      apply tbl_ok_frame with (pm := pm4) (P := P4); try reflexivity; try tauto.
      - intros j [[Hj Hji] Hjl].
        rewrite !key_of_live.
        + rewrite Hent5 by (unfold live in Hj; lia).
          destruct (Z.eqb_spec j i); [contradiction|].
          now rewrite (same_data_Entry _ _ _ Hsd24).
        + apply (same_data_live _ _ _ Hsd24); auto.
        + unfold live. rewrite Hc5. exact Hj.
      - destruct f; auto. apply tbl_ok_other with (pm := pm3); auto. }
    destruct (insert_both_kv pm5 P4 (c pm - 1 - 1 - 1) i) as (pm7 & E7 & Hsd7 & Htbl7).
    { unfold pm5. destruct Hm4 as (p & Hp & E). exists p. split; auto. }
    { exact Htbl5. }
    { unfold pm5. cbn. rewrite (sd_cHashMax _ _ Hsd24). lia. }
    { unfold P4. tauto. }
    { lia. }
    change (let pm0 := pm5 in
            pm1 <- _ObMap_InsertHash pm0 false i ;; _ObMap_InsertHash pm1 true i)
      with (pm1 <- _ObMap_InsertHash pm5 false i ;; _ObMap_InsertHash pm1 true i).
    rewrite E7. cbn [bind].
    rewrite (sd_c _ _ Hsd7), Hc5. rewrite (dw_small (c pm - 1)) by lia.
    exists (set_c pm7 (c pm - 1)). split; [reflexivity|].
    assert (Hss : same_shape pm pm7).
    { eapply same_shape_trans; [apply same_data_shape; exact Hsd24|].
      eapply same_shape_trans; [apply (set_Entry_shape pm4 i (Entry pm (c pm - 1)))|].
      apply same_data_shape. exact Hsd7. }
    assert (Hent7 : forall j, 1 <= j < c pm - 1 ->
                Entry pm7 j = if j =? i then Entry pm (c pm - 1) else Entry pm j).
    { intros j Hj. rewrite (same_data_Entry _ _ _ Hsd7). apply Hent5. lia. }
    split; [|split; [reflexivity|split; [|split; [exact Hent7|intros; lia]]]].
    + apply WF_after_remove with (i := i) (P := fun j => P4 j \/ j = i); auto.
      * rewrite (sd_c _ _ Hsd7). exact Hc5.
      * intros j. unfold P4, live. lia.
      * intros f. replace (c pm - 2) with (c pm - 1 - 1 - 1 + 1) by lia. apply Htbl7.
    + destruct Hss. constructor; auto.
  - (* the last entry *)
    cbn [bind]. rewrite (sd_c _ _ Hsd2), (dw_small (c pm - 1)) by lia.
    assert (Ei : i = c pm - 1) by lia.
    exists (set_c pm2 (c pm - 1)). split; [reflexivity|].
    assert (Hent2 : forall j, 1 <= j < c pm - 1 ->
                Entry pm2 j = if j =? i then Entry pm (c pm - 1) else Entry pm j).
    { intros j Hj. rewrite (same_data_Entry _ _ _ Hsd2).
      destruct (Z.eqb_spec j i); [lia|reflexivity]. }
    split; [|split; [reflexivity|split; [|split; [exact Hent2|]]]].
    + apply WF_after_remove with (i := i) (P := fun j => live pm j /\ j <> i); auto.
      * now apply same_data_shape.
      * apply (sd_c _ _ Hsd2).
      * intros j. unfold live. lia.
      * intros f. replace (c pm - 2) with (c pm - 1 - 1) by lia. apply Htbl2.
    + destruct (same_data_shape _ _ Hsd2). constructor; auto.
    + intros _. cbn. apply (sd_Directory _ _ Hsd2).
Qed.

(** ** Rebuilding the hash arrays *)

Lemma for_loop_inv {St} (I : Z -> St -> Prop) (body : Z -> St -> option St) :
  forall n i0 s,
    0 <= i0 -> i0 + Z.of_nat n < 2 ^ 32 -> I i0 s ->
    (forall i s, i0 <= i < i0 + Z.of_nat n -> I i s ->
                 exists s', body i s = Some s' /\ I (i + 1) s') ->
    exists s', for_loop n i0 body s = Some s' /\ I (i0 + Z.of_nat n) s'.
Proof.
  induction n as [|n IH]; intros i0 s Hi0 Hn HI Hstep.
  - exists s. split; [reflexivity|]. now replace (i0 + Z.of_nat 0) with i0 by lia.
  - cbn [for_loop].
    destruct (Hstep i0 s) as (s1 & E1 & HI1); auto; [lia|].
    rewrite E1. cbn [bind]. rewrite dw_small by lia.
    destruct (IH (i0 + 1) s1) as (s' & E' & HI'); auto; try lia.
    + intros i s2 Hi HI2. apply Hstep; auto. lia.
    + exists s'. split; auto.
      now replace (i0 + Z.of_nat (S n)) with (i0 + 1 + Z.of_nat n) by lia.
Qed.

Lemma tbl_ok_zero pm f :
  hmax_ok pm -> (forall s, 0 <= s < cHashMax pm -> HashMap pm f s = 0) ->
  (f = false -> fKey pm = false -> forall s, pHashMapKey pm s = 0) ->
  tbl_ok pm f (fun j => 1 <= j < 1) 0.
Proof.
  intros Hm Hz Hz'. unfold tbl_ok. destruct (f || fKey pm) eqn:Ef.
  - split.
    + apply tbl_inv_iff with (P := fun _ => False); [intros; lia|].
      apply tbl_inv_empty. intros. now apply Hz.
    + apply occ_zero; [now apply hmax_pos|intros; now apply Hz].
  - destruct f; [discriminate|]. now apply Hz'.
Qed.

Lemma rebuild_one pm0 f n :
  hmax_ok pm0 -> tbl_ok pm0 f (fun j => 1 <= j < 1) 0 -> 0 <= n <= cHashMax pm0 ->
  exists pm',
    for_loop (Z.to_nat n) 1 (fun iEntry pm => _ObMap_InsertHash pm f iEntry) pm0 = Some pm' /\
    same_data pm0 pm' /\ HashMap pm' (negb f) = HashMap pm0 (negb f) /\
    tbl_ok pm' f (fun j => 1 <= j < 1 + n) n.
Proof.
  intros Hm H0 Hn.
  assert (HN : cHashMax pm0 <= 2 ^ 31).
  { destruct Hm as (p & Hp & ->). now apply pow2_le_31. }
  destruct (for_loop_inv
              (fun i pm => same_data pm0 pm /\ HashMap pm (negb f) = HashMap pm0 (negb f) /\
                           tbl_ok pm f (fun j => 1 <= j < i) (i - 1))
              (fun iEntry pm => _ObMap_InsertHash pm f iEntry)
              (Z.to_nat n) 1 pm0) as (pm' & E & Hsd & Ho & Ht); try lia.
  - split; [apply same_data_refl|]. split; [reflexivity|exact H0].
  - intros i pm Hi (Hsd & Ho & Ht).
    destruct (InsertHash_step pm f (fun j => 1 <= j < i) (i - 1) i)
      as (pm1 & E1 & Hsd1 & Ho1 & Ht1); auto; try lia.
    + now apply same_data_hmax_ok with (pm := pm0).
    + rewrite (sd_cHashMax _ _ Hsd). lia.
    + exists pm1. split; [auto|]. split; [eapply same_data_trans; eauto|].
      split; [congruence|].
      apply tbl_ok_frame with (pm := pm1) (P := fun j => 1 <= j < i \/ j = i); auto.
      * intros j. lia.
      * now replace (i + 1 - 1) with (i - 1 + 1) by lia.
  - exists pm'. split; [auto|]. split; [auto|]. split; [auto|].
    rewrite Z2Nat.id in Ht by lia. now replace (1 + n - 1) with n in Ht by lia.
Qed.

Lemma rebuild_both pm0 n :
  hmax_ok pm0 -> (forall f, tbl_ok pm0 f (fun j => 1 <= j < 1) 0) -> 0 <= n <= cHashMax pm0 ->
  exists pm',
    for_loop (Z.to_nat n) 1
      (fun iEntry pm => pm <- _ObMap_InsertHash pm true iEntry ;;
                        _ObMap_InsertHash pm false iEntry) pm0 = Some pm' /\
    same_data pm0 pm' /\
    forall f, tbl_ok pm' f (fun j => 1 <= j < 1 + n) n.
Proof.
  intros Hm H0 Hn.
  assert (HN : cHashMax pm0 <= 2 ^ 31).
  { destruct Hm as (p & Hp & ->). now apply pow2_le_31. }
  destruct (for_loop_inv
              (fun i pm => same_data pm0 pm /\
                           forall f, tbl_ok pm f (fun j => 1 <= j < i) (i - 1))
              (fun iEntry pm => pm <- _ObMap_InsertHash pm true iEntry ;;
                                _ObMap_InsertHash pm false iEntry)
              (Z.to_nat n) 1 pm0) as (pm' & E & Hsd & Ht); try lia.
  - split; [apply same_data_refl|exact H0].
  - intros i pm Hi (Hsd & Ht).
    destruct (insert_both_vk pm (fun j => 1 <= j < i) (i - 1) i)
      as (pm1 & E1 & Hsd1 & Ht1); auto; try lia.
    + now apply same_data_hmax_ok with (pm := pm0).
    + rewrite (sd_cHashMax _ _ Hsd). lia.
    + exists pm1. split; [auto|]. split; [eapply same_data_trans; eauto|].
      intros f.
      apply tbl_ok_frame with (pm := pm1) (P := fun j => 1 <= j < i \/ j = i); auto.
      * intros j. lia.
      * replace (i + 1 - 1) with (i - 1 + 1) by lia. apply Ht1.
  - exists pm'. split; [auto|]. split; [auto|]. intros f.
    specialize (Ht f).
    rewrite Z2Nat.id in Ht by lia. now replace (1 + n - 1) with n in Ht by lia.
Qed.

(** ** Growth of the hash arrays *)

Lemma grow_bound g : 0 <= g -> 0xc0 * 2 ^ g < 2 ^ 25 -> g <= 17.
Proof.
  intros Hg H. destruct (Z_le_gt_dec g 17); auto. exfalso.
  assert (2 ^ 18 <= 2 ^ g) by (apply Z.pow_le_mono_r; lia).
  change (2 ^ 18) with 262144 in *. change (2 ^ 25) with 33554432 in *. lia.
Qed.

Lemma index_small i :
  0 <= i < 256 -> OB_MAP_INDEX_DIRECTORY i = 0 /\ OB_MAP_INDEX_TABLE i = 0.
Proof.
  intros Hi.
  unfold OB_MAP_INDEX_DIRECTORY, OB_MAP_INDEX_TABLE, OB_MAP_ENTRIES_DIRECTORY,
    OB_MAP_ENTRIES_TABLE.
  rewrite !Z.shiftr_div_pow2 by lia.
  rewrite !Z.div_small by (change (2 ^ 17) with 131072; change (2 ^ 8) with 256; lia).
  split; reflexivity.
Qed.

Lemma WF_tbl_zero_nokey pm : WF pm -> fKey pm = false -> forall s, pHashMapKey pm s = 0.
Proof.
  intros W Hk. pose proof (wf_hash pm W false) as H. unfold tbl_ok in H.
  now rewrite Hk in H.
Qed.

Lemma Grow_ok_mem mem pm :
  WF pm -> c pm = cHashGrowThreshold pm -> c pm < OB_MAP_TABLE_MAX_CAPACITY ->
  mem Alloc_pdwNewAllocHashMap = true ->
  (fLargeMode pm = false -> mem Alloc_Directory0 = true) ->
  exists pm',
    _ObMap_Grow mem pm = Some (true, pm') /\ WF pm' /\
    c pm' = c pm /\ Directory pm' = Directory pm /\
    cHashMax pm' = 2 * cHashMax pm /\
    cHashGrowThreshold pm' = 2 * cHashGrowThreshold pm /\
    fKey pm' = fKey pm /\ fObjectsOb pm' = fObjectsOb pm /\
    fObjectsLocalFree pm' = fObjectsLocalFree pm /\ fLargeMode pm' = true.
Proof.
  intros W Hthr Hcap Hmem1 Hmem2.
  pose proof (WF_c_range pm W) as Hcr.
  destruct (wf_grow pm W) as (g & Hg & EN & ET).
  assert (Hg17 : g <= 17).
  { apply grow_bound; [lia|]. rewrite <- ET, <- Hthr. exact Hcap. }
  assert (Hpow : 0 < 2 ^ g <= 2 ^ 17).
  { split; [apply Z.pow_pos_nonneg; lia|apply Z.pow_le_mono_r; lia]. }
  change (2 ^ 17) with 131072 in Hpow.
  set (pmg := Grow_NewHashMap (Grow_LargeMode pm)).
  assert (Fc : c pmg = c pm) by (unfold pmg, Grow_LargeMode; destruct (fLargeMode pm); reflexivity).
  assert (Fd : Directory pmg = Directory pm)
    by (unfold pmg, Grow_LargeMode; destruct (fLargeMode pm); reflexivity).
  assert (Fk : fKey pmg = fKey pm)
    by (unfold pmg, Grow_LargeMode; destruct (fLargeMode pm); reflexivity).
  assert (Fo : fObjectsOb pmg = fObjectsOb pm)
    by (unfold pmg, Grow_LargeMode; destruct (fLargeMode pm); reflexivity).
  assert (Fl : fObjectsLocalFree pmg = fObjectsLocalFree pm)
    by (unfold pmg, Grow_LargeMode; destruct (fLargeMode pm); reflexivity).
  assert (Fm : fLargeMode pmg = true)
    by (unfold pmg, Grow_LargeMode; destruct (fLargeMode pm) eqn:Hl; cbn; auto).
  assert (FN : cHashMax pmg = 2 * cHashMax pm).
  { unfold pmg, Grow_LargeMode, Grow_NewHashMap.
    destruct (fLargeMode pm); cbn [cHashMax negb];
      rewrite dw_small by (change (2 ^ 32) with 4294967296; lia); lia. }
  assert (FT : cHashGrowThreshold pmg = 2 * cHashGrowThreshold pm).
  { unfold pmg, Grow_LargeMode, Grow_NewHashMap.
    destruct (fLargeMode pm); cbn [cHashGrowThreshold negb];
      rewrite dw_small by (change (2 ^ 32) with 4294967296; lia); lia. }
  assert (Fz : forall f s, HashMap pmg f s = 0).
  { intros f s. destruct f; [unfold pmg, Grow_LargeMode; destruct (fLargeMode pm); reflexivity|].
    destruct (fKey pm) eqn:Hk.
    - unfold pmg, Grow_LargeMode. destruct (fLargeMode pm); cbn; rewrite Hk; reflexivity.
    - pose proof (WF_tbl_zero_nokey pm W Hk s) as Hz.
      unfold pmg, Grow_LargeMode. destruct (fLargeMode pm); cbn; rewrite Hk; exact Hz. }
  assert (Hmg : hmax_ok pmg).
  { exists (8 + (g + 1)). split; [lia|].
    rewrite FN, EN, !Z.pow_add_r by lia. change (2 ^ 8) with 256. change (2 ^ 1) with 2. lia. }
  assert (Fa : forall i, 0 <= i < c pm ->
      TableAllocated pmg (OB_MAP_INDEX_DIRECTORY i) = true /\
      StoreAllocated pmg (OB_MAP_INDEX_DIRECTORY i) (OB_MAP_INDEX_TABLE i) = true).
  { intros i Hi. unfold pmg, Grow_LargeMode. destruct (fLargeMode pm) eqn:Hl; cbn.
    - now apply (wf_alloc pm W).
    - pose proof (wf_small pm W Hl) as Hs.
      destruct (index_small i) as [-> ->]; [lia|]. split; reflexivity. }
  assert (Fka : fKey pm = true -> HashMapKeyAllocated pmg = true).
  { intros Hk. unfold pmg, Grow_LargeMode. destruct (fLargeMode pm); cbn; now rewrite Hk. }
  destruct (rebuild_both pmg (c pm - 1)) as (pm' & E & Hsd & Htbl); auto.
  { intros f. apply tbl_ok_zero; auto. intros _ _ s. apply (Fz false). }
  { rewrite FN, EN. lia. }
  exists pm'. unfold _ObMap_Grow. rewrite Hmem1. cbn [negb].
  replace (negb (fLargeMode pm) && negb (mem Alloc_Directory0)) with false
    by (destruct (fLargeMode pm); cbn [negb andb]; [reflexivity|now rewrite Hmem2]).
  fold pmg. cbv zeta. rewrite Fc, E. cbn [bind].
  split; [reflexivity|].
  split; [|repeat split; try (rewrite ?(sd_c _ _ Hsd), ?(sd_Directory _ _ Hsd),
     ?(sd_cHashMax _ _ Hsd), ?(sd_cHashGrowThreshold _ _ Hsd), ?(sd_fKey _ _ Hsd),
     ?(sd_fObjectsOb _ _ Hsd), ?(sd_fObjectsLocalFree _ _ Hsd), ?(sd_fLargeMode _ _ Hsd);
     assumption)].
  constructor.
  - rewrite (sd_c _ _ Hsd), Fc. apply (wf_c pm W).
  - exists (g + 1). rewrite (sd_cHashMax _ _ Hsd), (sd_cHashGrowThreshold _ _ Hsd), FN, FT, EN, ET.
    rewrite !Z.pow_add_r by lia. change (2 ^ 1) with 2. repeat split; lia.
  - rewrite (sd_c _ _ Hsd), (sd_cHashGrowThreshold _ _ Hsd), Fc, FT. lia.
  - rewrite (sd_fLargeMode _ _ Hsd), Fm. discriminate.
  - intros i Hi. apply (same_data_live _ _ _ Hsd) in Hi. unfold live in Hi. rewrite Fc in Hi.
    rewrite (same_data_Entry _ _ _ Hsd). unfold Entry. rewrite Fd.
    now apply (wf_value_nz pm W).
  - intros i j Hi Hj.
    apply (same_data_live _ _ _ Hsd) in Hi, Hj. unfold live in Hi, Hj. rewrite Fc in Hi, Hj.
    rewrite !(same_data_Entry _ _ _ Hsd). unfold Entry. rewrite Fd.
    now apply (wf_value_uniq pm W).
  - rewrite (sd_fKey _ _ Hsd), Fk. intros Hk i j Hi Hj.
    apply (same_data_live _ _ _ Hsd) in Hi, Hj. unfold live in Hi, Hj. rewrite Fc in Hi, Hj.
    rewrite !(same_data_Entry _ _ _ Hsd). unfold Entry. rewrite Fd.
    now apply (wf_key_uniq pm W).
  - intros f. rewrite (sd_c _ _ Hsd), Fc.
    apply tbl_ok_frame with (pm := pm') (P := fun j => 1 <= j < 1 + (c pm - 1)); auto.
    intros j. unfold live. rewrite (sd_c _ _ Hsd), Fc. lia.
  - intros i Hi. rewrite (sd_c _ _ Hsd), Fc in Hi.
    rewrite (sd_TableAllocated _ _ Hsd), (sd_StoreAllocated _ _ Hsd). now apply Fa.
  - rewrite (sd_fKey _ _ Hsd), (sd_HashMapKeyAllocated _ _ Hsd), Fk. exact Fka.
Qed.

Lemma Grow_ok pm :
  WF pm -> c pm = cHashGrowThreshold pm -> c pm < OB_MAP_TABLE_MAX_CAPACITY ->
  exists pm',
    _ObMap_Grow heap_ok pm = Some (true, pm') /\ WF pm' /\
    c pm' = c pm /\ Directory pm' = Directory pm /\
    cHashMax pm' = 2 * cHashMax pm /\
    cHashGrowThreshold pm' = 2 * cHashGrowThreshold pm /\
    fKey pm' = fKey pm /\ fObjectsOb pm' = fObjectsOb pm /\
    fObjectsLocalFree pm' = fObjectsLocalFree pm /\ fLargeMode pm' = true.
Proof. intros W Hthr Hcap. now apply Grow_ok_mem. Qed.

(** ** Existence tests *)

Lemma Exists_true pm f i :
  WF pm -> f = true \/ fKey pm = true -> live pm i ->
  _ObMap_Exists pm f (key_of pm f i) = Some true.
Proof.
  intros W Hf Hi. unfold _ObMap_Exists.
  replace (negb f && negb (fKey pm)) with false
    by (destruct Hf as [-> | ->]; [reflexivity|now rewrite andb_false_r]).
  replace (f && (key_of pm f i =? 0)) with false.
  - cbn [orb]. now rewrite WF_lookup_found.
  - destruct f; [|reflexivity]. cbn [andb]. rewrite key_of_live by auto.
    symmetry. apply Z.eqb_neq. now apply wf_value_nz.
Qed.

Lemma Exists_false pm f kv :
  WF pm -> (forall i, live pm i -> key_of pm f i <> kv) ->
  _ObMap_Exists pm f kv = Some false.
Proof.
  intros W Hno. unfold _ObMap_Exists.
  destruct (negb f && negb (fKey pm) || f && (kv =? 0)); [reflexivity|].
  now rewrite WF_lookup_none.
Qed.

Lemma Exists_nokey pm kv : fKey pm = false -> _ObMap_Exists pm false kv = Some false.
Proof. intros H. unfold _ObMap_Exists. now rewrite H. Qed.

(** ** What the growth allocates *)

Lemma same_alloc_refl pm : same_alloc pm pm.
Proof. unfold same_alloc. auto. Qed.

Lemma same_alloc_trans pm1 pm2 pm3 :
  same_alloc pm1 pm2 -> same_alloc pm2 pm3 -> same_alloc pm1 pm3.
Proof.
  intros (A1 & A2 & A3) (B1 & B2 & B3). unfold same_alloc. repeat split; congruence.
Qed.

Lemma InsertHash_alloc pm f i pm' :
  _ObMap_InsertHash pm f i = Some pm' -> same_alloc pm pm'.
Proof.
  unfold _ObMap_InsertHash. destruct (negb f && negb (fKey pm)).
  - intros E. inversion E; subst. apply same_alloc_refl.
  - destruct (InsertHash_probe _ _ _ _) as [s|]; cbn [bind]; [|discriminate].
    intros E. inversion E; subst. unfold _ObMap_SetHashIndex.
    destruct f; [|destruct (fKey pm)]; unfold same_alloc; auto.
Qed.

Lemma for_loop_alloc (body : Z -> OB_MAP -> option OB_MAP) :
  (forall i s s', body i s = Some s' -> same_alloc s s') ->
  forall n i0 s s', for_loop n i0 body s = Some s' -> same_alloc s s'.
Proof.
  intros Hbody. induction n as [|n IH]; intros i0 s s' E.
  - cbn in E. inversion E; subst. apply same_alloc_refl.
  - cbn [for_loop] in E. destruct (body i0 s) as [s1|] eqn:E1; cbn [bind] in E; [|discriminate].
    eapply same_alloc_trans; [apply (Hbody _ _ _ E1)|apply (IH _ _ _ E)].
Qed.

Lemma Grow_alloc mem pm b pm' :
  _ObMap_Grow mem pm = Some (b, pm') ->
  (b = false /\ mem Alloc_pdwNewAllocHashMap = false /\ pm' = pm) \/
  (b = false /\ mem Alloc_pdwNewAllocHashMap = true /\ fLargeMode pm = false /\
   mem Alloc_Directory0 = false /\ pm' = Grow_Directory0_NULL pm) \/
  (b = true /\ mem Alloc_pdwNewAllocHashMap = true /\
   (fLargeMode pm = false -> mem Alloc_Directory0 = true) /\
   fLargeMode pm' = true /\
   TableAllocated pm' = TableAllocated (Grow_LargeMode pm) /\
   StoreAllocated pm' = StoreAllocated (Grow_LargeMode pm)).
Proof.
  unfold _ObMap_Grow.
  destruct (mem Alloc_pdwNewAllocHashMap) eqn:Eh; cbn [negb];
    [|intros E; inversion E; auto].
  destruct (fLargeMode pm) eqn:El; cbn [negb andb].
  2: destruct (mem Alloc_Directory0) eqn:Ed; cbn [negb];
       [|intros E; inversion E; right; left; auto].
  all: cbv zeta;
    destruct (for_loop _ _ _ _) as [pm1|] eqn:E1; cbn [bind]; [|discriminate];
    intros E; inversion E; subst b pm1; clear E;
    apply for_loop_alloc in E1;
    [ destruct E1 as (A1 & A2 & A3); right; right;
      split; [reflexivity|]; split; [reflexivity|]; split; [congruence || auto|];
      split; [rewrite A3; unfold Grow_LargeMode; rewrite El; cbn; rewrite ?El; reflexivity|];
      split; [rewrite A1|rewrite A2]; reflexivity
    | intros i s s' Eb;
      destruct (_ObMap_InsertHash s true i) as [s1|] eqn:Ei; cbn [bind] in Eb;
        [|discriminate];
      eapply same_alloc_trans; eapply InsertHash_alloc; eauto ].
Qed.

Lemma Grow_alloc_ok pm b pm' :
  _ObMap_Grow heap_ok pm = Some (b, pm') ->
  b = true /\ fLargeMode pm' = true /\
  TableAllocated pm' = TableAllocated (Grow_LargeMode pm) /\
  StoreAllocated pm' = StoreAllocated (Grow_LargeMode pm).
Proof.
  intros E. apply Grow_alloc in E.
  destruct E as [(_ & H & _)|[(_ & _ & _ & H & _)|(-> & _ & _ & H)]];
    [discriminate|discriminate|auto].
Qed.

(** The flags of the next entry's table and store are the same before and
    after the growth. *)
Lemma Grow_next_flags mem pm pm' :
  WF pm -> c pm = cHashGrowThreshold pm -> _ObMap_Grow mem pm = Some (true, pm') ->
  TableAllocated pm' (OB_MAP_INDEX_DIRECTORY (c pm))
  = TableAllocated pm (OB_MAP_INDEX_DIRECTORY (c pm)) /\
  StoreAllocated pm' (OB_MAP_INDEX_DIRECTORY (c pm)) (OB_MAP_INDEX_TABLE (c pm))
  = StoreAllocated pm (OB_MAP_INDEX_DIRECTORY (c pm)) (OB_MAP_INDEX_TABLE (c pm)).
Proof.
  intros W Hthr E. apply Grow_alloc in E.
  destruct E as [(H & _)|[(H & _)|(_ & _ & _ & _ & -> & ->)]]; try discriminate.
  unfold Grow_LargeMode. destruct (fLargeMode pm) eqn:El; cbn; [auto|].
  pose proof (wf_small pm W El) as Hs.
  destruct (index_small (c pm)) as [-> ->]; [pose proof (wf_c pm W); lia|].
  destruct (wf_alloc pm W 0) as [H1 H2]; [pose proof (wf_c pm W); lia|].
  destruct (index_small 0) as [E1 E2]; [lia|]. rewrite E1 in H1. rewrite E1, E2 in H2.
  rewrite H1, H2. split; reflexivity.
Qed.

(** ** Insertion *)

Lemma Push_alloc_fields mem pm i :
  c (snd (Push_alloc mem pm i)) = c pm /\
  cHashMax (snd (Push_alloc mem pm i)) = cHashMax pm /\
  cHashGrowThreshold (snd (Push_alloc mem pm i)) = cHashGrowThreshold pm /\
  fLargeMode (snd (Push_alloc mem pm i)) = fLargeMode pm /\
  fKey (snd (Push_alloc mem pm i)) = fKey pm /\
  fObjectsOb (snd (Push_alloc mem pm i)) = fObjectsOb pm /\
  fObjectsLocalFree (snd (Push_alloc mem pm i)) = fObjectsLocalFree pm /\
  pHashMapKey (snd (Push_alloc mem pm i)) = pHashMapKey pm /\
  pHashMapValue (snd (Push_alloc mem pm i)) = pHashMapValue pm /\
  HashMapKeyAllocated (snd (Push_alloc mem pm i)) = HashMapKeyAllocated pm.
Proof.
  unfold Push_alloc.
  destruct (negb (TableAllocated pm (OB_MAP_INDEX_DIRECTORY i)) && negb (mem Alloc_Table));
    [repeat split; reflexivity|].
  destruct (negb (TableAllocated pm (OB_MAP_INDEX_DIRECTORY i))); cbv zeta;
    match goal with |- context [if negb ?b then _ else _] => destruct b end;
    cbn [negb]; try destruct (mem Alloc_Store);
    repeat split; reflexivity.
Qed.

(** Whether the two steps go through, read off the flags and the heap. *)
Lemma Push_alloc_result mem pm i :
  fst (Push_alloc mem pm i) =
  negb (negb (TableAllocated pm (OB_MAP_INDEX_DIRECTORY i)) && negb (mem Alloc_Table)
        || (negb (TableAllocated pm (OB_MAP_INDEX_DIRECTORY i))
            || negb (StoreAllocated pm (OB_MAP_INDEX_DIRECTORY i) (OB_MAP_INDEX_TABLE i)))
           && negb (mem Alloc_Store)).
Proof.
  unfold Push_alloc.
  destruct (TableAllocated pm (OB_MAP_INDEX_DIRECTORY i)) eqn:Et; cbn [negb andb orb]; cbv zeta.
  - destruct (StoreAllocated pm (OB_MAP_INDEX_DIRECTORY i) (OB_MAP_INDEX_TABLE i));
      cbn [negb andb orb]; [reflexivity|].
    destruct (mem Alloc_Store); reflexivity.
  - destruct (mem Alloc_Table); cbn [negb andb orb].
    + assert (Hs : StoreAllocated (alloc_table pm (OB_MAP_INDEX_DIRECTORY i))
                                  (OB_MAP_INDEX_DIRECTORY i) (OB_MAP_INDEX_TABLE i) = false).
      { unfold alloc_table. cbn. now rewrite Z.eqb_refl. }
      rewrite Hs. cbn [negb]. destruct (mem Alloc_Store); reflexivity.
    + reflexivity.
Qed.

(** Both steps on a heap that grants. *)
Lemma Push_alloc_granted pm i :
  Push_alloc heap_ok pm i =
  (true,
   let pm1 := if negb (TableAllocated pm (OB_MAP_INDEX_DIRECTORY i))
              then alloc_table pm (OB_MAP_INDEX_DIRECTORY i) else pm in
   if negb (StoreAllocated pm1 (OB_MAP_INDEX_DIRECTORY i) (OB_MAP_INDEX_TABLE i))
   then alloc_store pm1 (OB_MAP_INDEX_DIRECTORY i) (OB_MAP_INDEX_TABLE i)
   else pm1).
Proof.
  unfold Push_alloc, heap_ok. cbn [negb]. rewrite andb_false_r. cbv zeta.
  now destruct (negb (StoreAllocated _ _ _)).
Qed.

Lemma Push_alloc_storage mem pm i :
  (forall j, 0 <= j < i ->
             TableAllocated pm (OB_MAP_INDEX_DIRECTORY j) = true /\
             StoreAllocated pm (OB_MAP_INDEX_DIRECTORY j) (OB_MAP_INDEX_TABLE j) = true) ->
  (forall j, 0 <= j < i -> Entry (snd (Push_alloc mem pm i)) j = Entry pm j) /\
  (forall j, 0 <= j < i \/ (j = i /\ fst (Push_alloc mem pm i) = true) ->
             TableAllocated (snd (Push_alloc mem pm i)) (OB_MAP_INDEX_DIRECTORY j) = true /\
             StoreAllocated (snd (Push_alloc mem pm i)) (OB_MAP_INDEX_DIRECTORY j)
                            (OB_MAP_INDEX_TABLE j) = true).
Proof.
  intros Ha.
  assert (Htab : forall j, 0 <= j < i ->
            TableAllocated (alloc_table pm (OB_MAP_INDEX_DIRECTORY i))
                           (OB_MAP_INDEX_DIRECTORY j) = true /\
            (TableAllocated pm (OB_MAP_INDEX_DIRECTORY i) = false ->
             StoreAllocated (alloc_table pm (OB_MAP_INDEX_DIRECTORY i))
                            (OB_MAP_INDEX_DIRECTORY j) (OB_MAP_INDEX_TABLE j) = true)).
  { intros j Hj. destruct (Ha j Hj) as [H1 H2]. unfold alloc_table, upd. cbn.
    destruct (Z.eqb_spec (OB_MAP_INDEX_DIRECTORY j) (OB_MAP_INDEX_DIRECTORY i)) as [E1|];
      [|auto].
    split; [reflexivity|]. intros Et. rewrite E1 in H1. congruence. }
  unfold Push_alloc.
  destruct (TableAllocated pm (OB_MAP_INDEX_DIRECTORY i)) eqn:Et; cbn [negb andb]; cbv zeta.
  - destruct (StoreAllocated pm (OB_MAP_INDEX_DIRECTORY i) (OB_MAP_INDEX_TABLE i)) eqn:Es;
      cbn [negb].
    + cbn [fst snd]. split; [reflexivity|]. intros j [Hj|[-> _]]; [now apply Ha|auto].
    + destruct (mem Alloc_Store); cbn [fst snd].
      * split.
        -- intros j Hj. destruct (Ha j Hj) as [_ Hs]. unfold Entry, alloc_store. cbn.
           destruct (Z.eqb_spec (OB_MAP_INDEX_DIRECTORY j) (OB_MAP_INDEX_DIRECTORY i))
             as [E1|]; auto.
           destruct (Z.eqb_spec (OB_MAP_INDEX_TABLE j) (OB_MAP_INDEX_TABLE i)) as [E2|]; auto.
           rewrite E1, E2 in Hs. congruence.
        -- intros j Hj. unfold alloc_store. cbn.
           destruct Hj as [Hj|[-> _]].
           ++ destruct (Ha j Hj) as [H1 H2]. rewrite H1, H2.
              split; [reflexivity|]. now destruct (_ && _).
           ++ rewrite !Z.eqb_refl. cbn. auto.
      * split; [reflexivity|]. intros j [Hj|[_ Hf]]; [now apply Ha|discriminate].
  - destruct (mem Alloc_Table); cbn [negb].
    + assert (Hs : StoreAllocated (alloc_table pm (OB_MAP_INDEX_DIRECTORY i))
                                  (OB_MAP_INDEX_DIRECTORY i) (OB_MAP_INDEX_TABLE i) = false).
      { unfold alloc_table. cbn. now rewrite Z.eqb_refl. }
      rewrite Hs. cbn [negb]. destruct (mem Alloc_Store); cbn [fst snd].
      * split.
        -- intros j Hj. destruct (Ha j Hj) as [Ht _].
           unfold Entry, alloc_store, alloc_table. cbn.
           destruct (Z.eqb_spec (OB_MAP_INDEX_DIRECTORY j) (OB_MAP_INDEX_DIRECTORY i))
             as [E1|]; auto.
           rewrite E1 in Ht. congruence.
        -- intros j Hj. unfold alloc_store, alloc_table, upd. cbn.
           destruct Hj as [Hj|[-> _]].
           ++ destruct (Ha j Hj) as [H1 H2].
              destruct (Z.eqb_spec (OB_MAP_INDEX_DIRECTORY j) (OB_MAP_INDEX_DIRECTORY i))
                as [E1|].
              { rewrite E1 in H1. congruence. }
              cbn. auto.
           ++ rewrite !Z.eqb_refl. cbn. auto.
      * split; [reflexivity|]. intros j [Hj|[_ Hf]]; [|discriminate].
        destruct (Htab j Hj) as [H1 H2]. split; [exact H1|now apply H2].
    + cbn [fst snd]. split; [reflexivity|]. intros j [Hj|[_ Hf]]; [now apply Ha|discriminate].
Qed.

Lemma Push_fail {mem} pm key val :
  WF pm ->
  val = 0 \/ (exists i, live pm i /\ v (Entry pm i) = val) \/
  (fKey pm = true /\ exists i, live pm i /\ k (Entry pm i) = key) \/
  c pm = OB_MAP_TABLE_MAX_CAPACITY ->
  _ObMap_Push mem pm key val = Some (false, pm, []).
Proof.
  intros W H. unfold _ObMap_Push.
  destruct (Z.eqb_spec val 0) as [|Hv]; [reflexivity|].
  destruct (live_dec pm true val) as [(i & Hi & Hk)|Hno].
  { rewrite <- Hk, Exists_true by auto. reflexivity. }
  rewrite Exists_false by auto. cbn [bind].
  destruct (fKey pm) eqn:Ek.
  - destruct (live_dec pm false key) as [(i & Hi & Hk)|Hnok].
    { rewrite <- Hk, Exists_true by auto. reflexivity. }
    rewrite Exists_false by auto. cbn [bind].
    destruct (Z.eqb_spec (c pm) OB_MAP_TABLE_MAX_CAPACITY) as [|Hc]; [reflexivity|].
    exfalso. destruct H as [H|[(i & Hi & E)|[(_ & i & Hi & E)|H]]]; auto.
    + apply (Hno i Hi). now rewrite key_of_live.
    + apply (Hnok i Hi). now rewrite key_of_live.
  - rewrite Exists_nokey by auto. cbn [bind].
    destruct (Z.eqb_spec (c pm) OB_MAP_TABLE_MAX_CAPACITY) as [|Hc]; [reflexivity|].
    exfalso. destruct H as [H|[(i & Hi & E)|[(Hk & _)|H]]]; auto; try discriminate.
    apply (Hno i Hi). now rewrite key_of_live.
Qed.

Lemma Push_ok_mem mem pm key val :
  WF pm -> val <> 0 ->
  (forall i, live pm i -> v (Entry pm i) <> val) ->
  (fKey pm = true -> forall i, live pm i -> k (Entry pm i) <> key) ->
  c pm <> OB_MAP_TABLE_MAX_CAPACITY ->
  Push_refused mem pm = false ->
  exists pm',
    _ObMap_Push mem pm key val
    = Some (true, pm', if fObjectsOb pm then [Ob_INCREF val] else []) /\
    WF pm' /\ c pm' = c pm + 1 /\
    Entry pm' (c pm) = mkEntry key val /\
    (forall j, live pm j -> Entry pm' j = Entry pm j) /\
    fKey pm' = fKey pm /\ fObjectsOb pm' = fObjectsOb pm /\
    fObjectsLocalFree pm' = fObjectsLocalFree pm /\
    (c pm = cHashGrowThreshold pm ->
     cHashMax pm' = 2 * cHashMax pm /\
     cHashGrowThreshold pm' = 2 * cHashGrowThreshold pm) /\
    (c pm <> cHashGrowThreshold pm ->
     cHashMax pm' = cHashMax pm /\ cHashGrowThreshold pm' = cHashGrowThreshold pm).
Proof.
  intros W Hv Hnov Hnok Hcap Hmem.
  pose proof (WF_c_range pm W) as Hcr.
  assert (Hcap' : c pm < OB_MAP_TABLE_MAX_CAPACITY).
  { pose proof (wf_c pm W). lia. }
  assert (HMAX : OB_MAP_TABLE_MAX_CAPACITY = 2 ^ 25) by reflexivity.
  unfold Push_refused in Hmem. cbv zeta in Hmem.
  apply orb_false_iff in Hmem. destruct Hmem as [Hmem Hmem3].
  apply orb_false_iff in Hmem. destruct Hmem as [Hmem1 Hmem2].
  unfold _ObMap_Push.
  destruct (Z.eqb_spec val 0) as [|_]; [contradiction|].
  assert (Ev : _ObMap_Exists pm true val = Some false).
  { apply Exists_false; auto. intros i Hi. rewrite key_of_live by auto. auto. }
  rewrite Ev. cbn [bind].
  assert (Ek : _ObMap_Exists pm false key = Some false).
  { destruct (fKey pm) eqn:Ek; [|now apply Exists_nokey].
    apply Exists_false; auto. intros i Hi. rewrite key_of_live by auto. auto. }
  rewrite Ek. cbn [bind].
  destruct (Z.eqb_spec (c pm) OB_MAP_TABLE_MAX_CAPACITY) as [|_]; [contradiction|].
  (* the growth step *)
  assert (Hgrow : exists pm1,
    (if c pm =? cHashGrowThreshold pm then _ObMap_Grow mem pm else Some (true, pm))
    = Some (true, pm1) /\ WF pm1 /\ c pm1 = c pm /\ Directory pm1 = Directory pm /\
    fKey pm1 = fKey pm /\ fObjectsOb pm1 = fObjectsOb pm /\
    fObjectsLocalFree pm1 = fObjectsLocalFree pm /\
    c pm1 < cHashGrowThreshold pm1 /\
    (c pm = cHashGrowThreshold pm ->
     cHashMax pm1 = 2 * cHashMax pm /\
     cHashGrowThreshold pm1 = 2 * cHashGrowThreshold pm) /\
    (c pm <> cHashGrowThreshold pm ->
     cHashMax pm1 = cHashMax pm /\ cHashGrowThreshold pm1 = cHashGrowThreshold pm) /\
    fst (Push_alloc mem pm1 (c pm)) = true).
  { destruct (Z.eqb_spec (c pm) (cHashGrowThreshold pm)) as [E|E].
    - cbn [andb] in Hmem1. apply orb_false_iff in Hmem1. destruct Hmem1 as [Hh Hd].
      apply negb_false_iff in Hh.
      destruct (Grow_ok_mem mem pm W E Hcap' Hh)
        as (pm1 & Eg & W1 & F1 & F2 & F3 & F4 & F5 & F6 & F7 & F8).
      { intros El. rewrite El in Hd. cbn [negb andb] in Hd. now apply negb_false_iff. }
      exists pm1. repeat (split; [assumption|]).
      split; [lia|]. split; [auto|]. split; [intros; contradiction|].
      destruct (Grow_next_flags mem pm pm1 W E Eg) as [Gt Gs].
      rewrite Push_alloc_result, Gt, Gs, Hmem2, Hmem3. reflexivity.
    - exists pm. pose proof (wf_thr pm W).
      repeat (split; [reflexivity || assumption|]).
      split; [lia|]. split; [intros; contradiction|]. split; [auto|].
      rewrite Push_alloc_result, Hmem2, Hmem3. reflexivity. }
  destruct Hgrow as (pm1 & Eg & W1 & Fc & Fd & Fk & Fo & Fl & Hthr & Hg1 & Hg2 & Hal).
  rewrite Eg. cbn [bind fst snd negb]. cbv zeta. rewrite Hal. cbn [negb].
  destruct (Push_alloc_fields mem pm1 (c pm))
    as (Ac & AN & AT & Am & Ak & Ao & Al & Ahk & Ahv & Aka).
  destruct (Push_alloc_storage mem pm1 (c pm)) as [Aent Aalloc0].
  { intros j Hj. apply (wf_alloc pm1 W1). lia. }
  assert (Aalloc : forall j, 0 <= j <= c pm ->
            TableAllocated (snd (Push_alloc mem pm1 (c pm))) (OB_MAP_INDEX_DIRECTORY j) = true /\
            StoreAllocated (snd (Push_alloc mem pm1 (c pm))) (OB_MAP_INDEX_DIRECTORY j)
                           (OB_MAP_INDEX_TABLE j) = true).
  { intros j Hj. apply Aalloc0. destruct (Z.eq_dec j (c pm)); [right; auto|left; lia]. }
  clear Aalloc0.
  set (pm2 := snd (Push_alloc mem pm1 (c pm))) in *.
  rewrite Ac, Fc, Ao, Fo.
  rewrite (dw_small (c pm + 1)) by lia.
  rewrite GetFromIndex_live by (unfold live; cbn; lia).
  cbn [bind].
  set (pm5 := set_Entry (set_c pm2 (c pm + 1)) (c pm) (mkEntry key val)).
  assert (Hent5 : forall j, live pm j -> Entry pm5 j = Entry pm j).
  { intros j [Hj1 Hj2]. unfold pm5. rewrite Entry_set_Entry_other by lia.
    change (Entry (set_c pm2 (c pm + 1)) j) with (Entry pm2 j).
    rewrite Aent by lia. unfold Entry. now rewrite Fd. }
  assert (Hnew5 : Entry pm5 (c pm) = mkEntry key val) by apply Entry_set_Entry_same.
  assert (Hm1 : hmax_ok pm1) by now apply WF_hmax_ok.
  assert (Hm5 : hmax_ok pm5).
  { destruct Hm1 as (p & Hp & E). exists p. split; auto. unfold pm5. cbn. congruence. }
  assert (Htbl5 : forall f, tbl_ok pm5 f (live pm) (c pm - 1)).
  { intros f.
    apply tbl_ok_frame with (pm := pm1) (P := live pm1).
    - unfold pm5. cbn. exact AN.
    - unfold pm5. cbn. exact Ak.
    - unfold pm5. destruct f; cbn; [exact Ahv|exact Ahk].
    - intros j Hj. assert (Hj' : live pm j) by (unfold live in *; lia).
      rewrite !key_of_live; auto.
      + rewrite Hent5 by auto. unfold Entry. now rewrite Fd.
      + unfold live, pm5 in *. cbn. lia.
    - intros j. unfold live. now rewrite Fc.
    - rewrite <- Fc. apply (wf_hash pm1 W1). }
  destruct (insert_both_vk pm5 (live pm) (c pm - 1) (c pm)) as (pm7 & E7 & Hsd7 & Htbl7); auto.
  { unfold pm5. cbn. rewrite AN. pose proof (WF_room pm1 W1). lia. }
  { unfold live. lia. }
  { lia. }
  rewrite bind_assoc, E7. cbn [bind].
  exists pm7. split; [reflexivity|].
  assert (Hc7 : c pm7 = c pm + 1) by (rewrite (sd_c _ _ Hsd7); reflexivity).
  assert (Hent7 : forall j, live pm j -> Entry pm7 j = Entry pm j).
  { intros j Hj. rewrite (same_data_Entry _ _ _ Hsd7). auto. }
  assert (Hnew7 : Entry pm7 (c pm) = mkEntry key val).
  { now rewrite (same_data_Entry _ _ _ Hsd7). }
  assert (HN7 : cHashMax pm7 = cHashMax pm1) by (rewrite (sd_cHashMax _ _ Hsd7); exact AN).
  assert (HT7 : cHashGrowThreshold pm7 = cHashGrowThreshold pm1)
    by (rewrite (sd_cHashGrowThreshold _ _ Hsd7); exact AT).
  assert (Hk7 : fKey pm7 = fKey pm) by (rewrite (sd_fKey _ _ Hsd7); cbn; congruence).
  split; [|repeat split; auto; try (rewrite ?HN7, ?HT7; apply Hg1 || apply Hg2; assumption)].
  - (* the new map is well formed *)
    assert (Hsel : forall j, live pm7 j ->
              (live pm j /\ Entry pm7 j = Entry pm j) \/
              (j = c pm /\ Entry pm7 j = mkEntry key val)).
    { intros j Hj. unfold live in Hj. rewrite Hc7 in Hj.
      destruct (Z.eq_dec j (c pm)) as [->|]; [right; auto|].
      left. assert (live pm j) by (unfold live; lia). auto. }
    constructor.
    + rewrite Hc7. lia.
    + rewrite HN7, HT7. apply (wf_grow pm1 W1).
    + rewrite Hc7, HT7. lia.
    + rewrite (sd_fLargeMode _ _ Hsd7), HT7. unfold pm5. cbn. rewrite Am.
      apply (wf_small pm1 W1).
    + intros j Hj. destruct (Hsel j Hj) as [[Hl E]|[-> E]]; rewrite E; cbn; auto.
      now apply (wf_value_nz pm W).
    + intros j1 j2 Hj1 Hj2.
      destruct (Hsel j1 Hj1) as [[Hl1 E1]|[-> E1]], (Hsel j2 Hj2) as [[Hl2 E2]|[-> E2]];
        rewrite ?E1, ?E2; cbn; intros E; auto.
      * now apply (wf_value_uniq pm W).
      * exfalso. now apply (Hnov j1).
      * exfalso. apply (Hnov j2); auto.
    + rewrite Hk7. intros Hkey j1 j2 Hj1 Hj2.
      destruct (Hsel j1 Hj1) as [[Hl1 E1]|[-> E1]], (Hsel j2 Hj2) as [[Hl2 E2]|[-> E2]];
        rewrite ?E1, ?E2; cbn; intros E; auto.
      * now apply (wf_key_uniq pm W).
      * exfalso. now apply (Hnok Hkey j1).
      * exfalso. apply (Hnok Hkey j2); auto.
    + intros f. rewrite Hc7.
      apply tbl_ok_frame with (pm := pm7) (P := fun j => live pm j \/ j = c pm); auto.
      * intros j. unfold live. rewrite Hc7. lia.
      * replace (c pm + 1 - 1) with (c pm - 1 + 1) by lia. apply Htbl7.
    + intros j Hj. rewrite Hc7 in Hj.
      rewrite (sd_TableAllocated _ _ Hsd7), (sd_StoreAllocated _ _ Hsd7).
      unfold pm5. cbn. apply Aalloc. lia.
    + rewrite Hk7, (sd_HashMapKeyAllocated _ _ Hsd7). unfold pm5. cbn. rewrite Aka.
      rewrite <- Fk. apply (wf_key_alloc pm1 W1).
  - rewrite (sd_fObjectsOb _ _ Hsd7). unfold pm5. cbn. congruence.
  - rewrite (sd_fObjectsLocalFree _ _ Hsd7). unfold pm5. cbn. congruence.
Qed.

Lemma Push_refused_heap_ok pm : Push_refused heap_ok pm = false.
Proof.
  unfold Push_refused, heap_ok. cbn [negb]. now rewrite !andb_false_r.
Qed.

(** A push into a map with fewer than 191 entries requests no memory. *)
Lemma Push_refused_small mem pm : WF pm -> c pm < 0xc0 -> Push_refused mem pm = false.
Proof.
  intros W Hc. pose proof (WF_c_range pm W) as Hcr.
  destruct (wf_grow pm W) as (g & Hg & _ & ET).
  assert (Hp : 0 < 2 ^ g) by (apply Z.pow_pos_nonneg; lia).
  unfold Push_refused. cbv zeta.
  destruct (index_small (c pm)) as [-> ->]; [lia|].
  destruct (wf_alloc pm W 0) as [H1 H2]; [lia|].
  destruct (index_small 0) as [E1 E2]; [lia|]. rewrite E1 in H1. rewrite E1, E2 in H2.
  rewrite H1, H2.
  destruct (Z.eqb_spec (c pm) (cHashGrowThreshold pm)) as [E|_]; [nia|]. reflexivity.
Qed.

Lemma Push_ok pm key val :
  WF pm -> val <> 0 ->
  (forall i, live pm i -> v (Entry pm i) <> val) ->
  (fKey pm = true -> forall i, live pm i -> k (Entry pm i) <> key) ->
  c pm <> OB_MAP_TABLE_MAX_CAPACITY ->
  exists pm',
    _ObMap_Push heap_ok pm key val
    = Some (true, pm', if fObjectsOb pm then [Ob_INCREF val] else []) /\
    WF pm' /\ c pm' = c pm + 1 /\
    Entry pm' (c pm) = mkEntry key val /\
    (forall j, live pm j -> Entry pm' j = Entry pm j) /\
    fKey pm' = fKey pm /\ fObjectsOb pm' = fObjectsOb pm /\
    fObjectsLocalFree pm' = fObjectsLocalFree pm /\
    (c pm = cHashGrowThreshold pm ->
     cHashMax pm' = 2 * cHashMax pm /\
     cHashGrowThreshold pm' = 2 * cHashGrowThreshold pm) /\
    (c pm <> cHashGrowThreshold pm ->
     cHashMax pm' = cHashMax pm /\ cHashGrowThreshold pm' = cHashGrowThreshold pm).
Proof.
  intros W Hv Hnov Hnok Hcap.
  apply Push_ok_mem; auto using Push_refused_heap_ok.
Qed.

(** ** Sorted search *)

Lemma shiftr_zero_iff x i : 0 <= x -> 0 <= i -> (Z.shiftr x i = 0 <-> x < 2 ^ i).
Proof.
  intros Hx Hi. rewrite Z.shiftr_div_pow2 by lia.
  assert (0 < 2 ^ i) by (apply Z.pow_pos_nonneg; lia).
  split; intros H0.
  - apply Z.div_small_iff in H0; lia.
  - apply Z.div_small. lia.
Qed.

Lemma QFind_bits_total x : forall fuel i,
  0 <= x -> 0 <= i -> (1 <= fuel)%nat -> x < 2 ^ (i + Z.of_nat fuel - 1) ->
  i + Z.of_nat fuel < 2 ^ 32 ->
  exists i', QFind_bits fuel x i = Some i' /\ i <= i'.
Proof.
  induction fuel as [|fuel IH]; intros i Hx Hi Hf Hb Hw; [lia|].
  cbn [QFind_bits].
  destruct (Z.eqb_spec (Z.shiftr x i) 0) as [E|E].
  - exists i. split; [reflexivity|lia].
  - rewrite shiftr_zero_iff in E by lia.
    destruct fuel as [|fuel'].
    + exfalso. apply E. now replace (i + Z.of_nat 1 - 1) with i in Hb by lia.
    + rewrite dw_small by lia.
      destruct (IH (i + 1)) as (i' & E' & Hi'); auto; try lia.
      * now replace (i + 1 + Z.of_nat (S fuel') - 1) with (i + Z.of_nat (S (S fuel')) - 1) by lia.
      * exists i'. split; [auto|lia].
Qed.

Lemma QFind_bisect_ok pm K cMap : forall fuel i dwStep,
  1 <= i <= cMap -> cMap < 2 ^ 31 -> 0 <= dwStep -> 2 * dwStep <= i ->
  (1 <= fuel)%nat -> dwStep < 2 ^ Z.of_nat fuel ->
  exists r, QFind_bisect fuel pm K cMap i dwStep = Some r /\
            match r with
            | inl j => 1 <= j <= cMap /\ k (Entry pm j) = K
            | inr j => 1 <= j <= cMap
            end.
Proof.
  induction fuel as [|fuel IH]; intros i dwStep Hi Hc Hs Hs2 Hf1 Hf; [lia|].
  - cbn [QFind_bisect].
    destruct (Z.gtb_spec dwStep 1) as [Hgt|Hle].
    + assert (Hhalf : 0 <= Z.shiftr dwStep 1 /\ 2 * Z.shiftr dwStep 1 <= dwStep /\
                      Z.shiftr dwStep 1 < 2 ^ Z.of_nat fuel).
      { rewrite Z.shiftr_div_pow2 by lia. change (2 ^ 1) with 2.
        rewrite Nat2Z.inj_succ, Z.pow_succ_r in Hf by lia.
        pose proof (Z.div_mod dwStep 2). pose proof (Z.mod_pos_bound dwStep 2). lia. }
      destruct Hhalf as (Hh0 & Hh1 & Hh2).
      assert (Hfuel : (1 <= fuel)%nat).
      { destruct fuel; [|lia]. change (2 ^ Z.of_nat 1) with 2 in Hf. lia. }
      destruct (Z.ltb_spec (k (Entry pm i)) K).
      * rewrite (dw_small (i + dwStep)) by lia.
        destruct (Z.leb_spec (i + dwStep) cMap); apply IH; auto; lia.
      * destruct (Z.gtb_spec (k (Entry pm i)) K).
        -- rewrite (dw_small (i - dwStep)) by lia. apply IH; auto; lia.
        -- exists (inl i). split; [reflexivity|]. split; [lia|lia].
    + exists (inr i). split; [reflexivity|lia].
Qed.

Lemma QFind_scan_right pm K :
  c pm - 1 < 2 ^ 31 -> sorted_by_key pm ->
  forall fuel i,
    1 <= i <= c pm - 1 -> k (Entry pm i) < K -> (Z.to_nat (c pm - 1 - i) < fuel)%nat ->
    exists r, QFind_scan fuel pm K (c pm - 1) i = Some r /\ QFind_post pm K r.
Proof.
  intros Hc Hsorted. induction fuel as [|fuel IH]; intros i Hi Hk Hf; [lia|].
  cbn [QFind_scan].
  destruct (Z.ltb_spec (k (Entry pm i)) K); [|lia].
  destruct (Z.eqb_spec i (c pm - 1)) as [E|E].
  - exists None. split; [reflexivity|]. intros j Hj.
    pose proof (Hsorted j i). lia.
  - rewrite (dw_small (i + 1)) by lia.
    destruct (Z.geb_spec (k (Entry pm (i + 1))) K).
    + exists (Some (i + 1)). split; [reflexivity|]. split; [lia|].
      destruct (Z.eq_dec (k (Entry pm (i + 1))) K); [left; auto|right].
      split; [lia|]. intros j' Hj'. pose proof (Hsorted j' i). lia.
    + apply IH; auto; lia.
Qed.

Lemma QFind_scan_left pm K :
  c pm - 1 < 2 ^ 31 -> sorted_by_key pm ->
  forall fuel i,
    1 <= i <= c pm - 1 -> K <= k (Entry pm i) -> (Z.to_nat (i - 1) < fuel)%nat ->
    exists r, QFind_scan fuel pm K (c pm - 1) i = Some r /\ QFind_post pm K r.
Proof.
  intros Hc Hsorted. induction fuel as [|fuel IH]; intros i Hi Hk Hf; [lia|].
  cbn [QFind_scan].
  destruct (Z.ltb_spec (k (Entry pm i)) K); [lia|].
  destruct (Z.gtb_spec (k (Entry pm i)) K).
  - destruct (Z.eqb_spec i 1) as [E|E].
    + exists (Some 1). split; [reflexivity|]. subst i. split; [lia|].
      right. split; [lia|]. intros j' Hj'. lia.
    + rewrite (dw_small (i - 1)) by lia.
      destruct (Z.ltb_spec (k (Entry pm (i - 1))) K).
      * rewrite (dw_small (i - 1 + 1)) by lia. replace (i - 1 + 1) with i by lia.
        exists (Some i). split; [reflexivity|]. split; [lia|].
        right. split; [lia|]. intros j' Hj'. pose proof (Hsorted j' (i - 1)). lia.
      * apply IH; auto; lia.
  - exists (Some i). split; [reflexivity|]. split; [lia|]. left. lia.
Qed.

Lemma QFind_ok pm K :
  1 <= c pm <= 2 ^ 25 -> sorted_by_key pm ->
  exists r, _ObMap_QFind pm K = Some r /\ QFind_post pm K r.
Proof.
  intros Hc Hsorted. unfold _ObMap_QFind.
  destruct (Z.leb_spec (c pm) 1).
  - exists None. split; [reflexivity|]. intros j Hj. lia.
  - rewrite (dw_small (c pm - 1)) by lia. rewrite (dw_small (c pm - 1 - 1)) by lia.
    destruct (QFind_bits_total (c pm - 1 - 1) 32 1) as (b & Eb & Hb); try lia.
    rewrite Eb. cbn [bind].
    set (x := Z.min (dw (Z.shiftl 1 (dw (b - 1)))) (Z.shiftr (c pm - 1 - 1) 1)).
    assert (Hx : 0 <= x <= c pm - 1).
    { unfold x.
      assert (0 <= dw (Z.shiftl 1 (dw (b - 1)))) by (unfold dw; apply Z.mod_pos_bound; lia).
      assert (0 <= Z.shiftr (c pm - 1 - 1) 1 <= c pm - 1).
      { rewrite Z.shiftr_div_pow2 by lia. change (2 ^ 1) with 2.
        pose proof (Z.div_mod (c pm - 1 - 1) 2). pose proof (Z.mod_pos_bound (c pm - 1 - 1) 2).
        lia. }
      lia. }
    set (i := if x =? 0 then 1 else x).
    assert (Hi : 1 <= i <= c pm - 1).
    { unfold i. destruct (Z.eqb_spec x 0); lia. }
    assert (Hstep : 0 <= Z.shiftr i 1 /\ 2 * Z.shiftr i 1 <= i).
    { rewrite Z.shiftr_div_pow2 by lia. change (2 ^ 1) with 2.
      pose proof (Z.div_mod i 2). pose proof (Z.mod_pos_bound i 2). lia. }
    destruct (QFind_bisect_ok pm K (c pm - 1) 32 i (Z.shiftr i 1)) as (r & Er & Hr);
      try lia.
    rewrite Er. cbn [bind]. destruct r as [j|j].
    + exists (Some j). split; [reflexivity|]. split; [lia|]. left. tauto.
    + destruct (Z_lt_ge_dec (k (Entry pm j)) K).
      * apply QFind_scan_right; auto; lia.
      * apply QFind_scan_left; auto; lia.
Qed.

(** The answer of the sorted search, read against the keys of the map. *)
Lemma QFind_hit_present pm K j i :
  sorted_by_key pm -> QFind_hit pm K j -> 1 <= i < c pm -> k (Entry pm i) = K ->
  k (Entry pm j) = K.
Proof.
  intros Hsorted [Hj [E|[Hgt Hbefore]]] Hi Hk; auto.
  exfalso. destruct (Z_lt_ge_dec i j).
  - specialize (Hbefore i). lia.
  - pose proof (Hsorted j i). lia.
Qed.

Lemma QFind_hit_absent pm K j :
  sorted_by_key pm -> QFind_hit pm K j ->
  (forall i, 1 <= i < c pm -> k (Entry pm i) <> K) ->
  K < k (Entry pm j) /\
  (forall j', 1 <= j' < c pm -> K < k (Entry pm j') -> j <= j') /\
  (forall j', 1 <= j' < j -> k (Entry pm j') < K).
Proof.
  intros Hsorted [Hj [E|[Hgt Hbefore]]] Hno.
  - exfalso. now apply (Hno j).
  - split; [auto|]. split; [|auto]. intros j' Hj' Hk.
    destruct (Z_lt_ge_dec j' j); [|lia]. specialize (Hbefore j'). lia.
Qed.

(** ** Creation and clearing *)

Lemma ObMap_New_init_WF flags : WF (ObMap_New_init flags).
Proof.
  assert (Hm : hmax_ok (ObMap_New_init flags)).
  { exists 8. split; [lia|reflexivity]. }
  unfold ObMap_New_init in *.
  constructor;
    cbn [c cHashMax cHashGrowThreshold fLargeMode fKey HashMapKeyAllocated
           TableAllocated StoreAllocated];
    unfold live; cbn [c].
  - unfold OB_MAP_TABLE_MAX_CAPACITY, OB_MAP_ENTRIES_DIRECTORY, OB_MAP_ENTRIES_TABLE,
      OB_MAP_ENTRIES_STORE. lia.
  - exists 0. split; [lia|split; reflexivity].
  - lia.
  - reflexivity.
  - intros; lia.
  - intros; lia.
  - intros; lia.
  - intros f. apply tbl_ok_zero; auto. intros; destruct f; reflexivity.
  - intros i Hi. assert (i = 0) by lia. subst. split; reflexivity.
  - reflexivity.
Qed.

Lemma ObMap_New_WF {mem} flags pm : ObMap_New mem flags = Some pm -> WF pm.
Proof.
  unfold ObMap_New. destruct (_ && _); [discriminate|].
  destruct (mem Alloc_pObMap); cbn [negb]; [|discriminate].
  intros E. inversion E. apply ObMap_New_init_WF.
Qed.

Lemma ObMap_New_Some {mem} flags pm :
  ObMap_New mem flags = Some pm ->
  pm = ObMap_New_init flags /\
  flag_set flags OB_MAP_FLAGS_OBJECT_OB && flag_set flags OB_MAP_FLAGS_OBJECT_LOCALFREE = false.
Proof.
  unfold ObMap_New. destruct (_ && _); [discriminate|].
  destruct (mem Alloc_pObMap); cbn [negb]; [|discriminate].
  intros E. inversion E. auto.
Qed.

Lemma ZeroMemory_in t n s : 0 <= s < n -> ZeroMemory t n s = 0.
Proof.
  intros Hs. unfold ZeroMemory.
  destruct (Z.leb_spec 0 s); [|lia]. destruct (Z.ltb_spec s n); [reflexivity|lia].
Qed.

Lemma ZeroMemory_zero t n s : t s = 0 -> ZeroMemory t n s = 0.
Proof. intros H. unfold ZeroMemory. now destruct (_ && _). Qed.

Lemma Clear_ok pm :
  WF pm ->
  exists pm', ObMap_Clear pm = (true, pm',
                if c pm <=? 1 then [] else _ObMap_ObFreeAllObjects pm) /\
    WF pm' /\ c pm' = 1 /\ same_shape pm pm' /\ Directory pm' = Directory pm /\
    (forall f s, 0 <= s < cHashMax pm' -> HashMap pm' f s = 0).
Proof.
  intros W. pose proof (WF_c_range pm W) as Hcr. pose proof (WF_hmax_ok pm W) as Hm.
  unfold ObMap_Clear. destruct (Z.leb_spec (c pm) 1) as [Hle|Hgt].
  - exists pm. split; [reflexivity|]. split; [auto|]. split; [lia|].
    split; [apply same_shape_refl|]. split; [reflexivity|].
    intros f s Hs.
    destruct (Z.eq_dec (HashMap pm f s) 0) as [|Hne]; auto. exfalso.
    pose proof (wf_hash pm W f) as Hok. unfold tbl_ok in Hok.
    destruct (f || fKey pm) eqn:Ef.
    + destruct Hok as [[HS _] _]. pose proof (ts_range _ _ _ HS s Hs Hne) as Hl.
      unfold live in Hl. lia.
    + destruct f; [discriminate|]. apply Hne. apply Hok.
  - set (pm1 := set_pHashMapValue pm (ZeroMemory (pHashMapValue pm) (cHashMax pm))).
    set (pm2 := if HashMapKeyAllocated pm1
                then set_pHashMapKey pm1 (ZeroMemory (pHashMapKey pm1) (cHashMax pm1))
                else pm1).
    assert (Hsd : same_data pm pm2).
    { unfold pm2, pm1. destruct (HashMapKeyAllocated _); constructor; reflexivity. }
    assert (Hzero : forall f s, 0 <= s < cHashMax pm -> HashMap pm2 f s = 0).
    { intros f s Hs. destruct f.
      - unfold pm2, pm1. destruct (HashMapKeyAllocated _); cbn; now apply ZeroMemory_in.
      - destruct (fKey pm) eqn:Ek.
        + unfold pm2, pm1. cbn [HashMapKeyAllocated set_pHashMapValue].
          rewrite (wf_key_alloc pm W Ek). cbn. now apply ZeroMemory_in.
        + pose proof (WF_tbl_zero_nokey pm W Ek s).
          unfold pm2, pm1. destruct (HashMapKeyAllocated _); cbn; auto.
          now apply ZeroMemory_zero. }
    assert (Hzero' : fKey pm = false -> forall s, pHashMapKey pm2 s = 0).
    { intros Ek s. pose proof (WF_tbl_zero_nokey pm W Ek s).
      unfold pm2, pm1. destruct (HashMapKeyAllocated _); cbn; auto.
      now apply ZeroMemory_zero. }
    exists (set_c pm2 1). split; [reflexivity|].
    split; [|split; [reflexivity|split; [|split]]].
    + constructor; cbn [c set_c cHashMax cHashGrowThreshold fLargeMode fKey
                         HashMapKeyAllocated TableAllocated StoreAllocated];
        unfold live; cbn [c set_c]; try (intros; lia).
      * unfold OB_MAP_TABLE_MAX_CAPACITY. cbn. lia.
      * rewrite (sd_cHashMax _ _ Hsd), (sd_cHashGrowThreshold _ _ Hsd). apply (wf_grow pm W).
      * rewrite (sd_cHashGrowThreshold _ _ Hsd). pose proof (wf_thr pm W). lia.
      * rewrite (sd_fLargeMode _ _ Hsd), (sd_cHashGrowThreshold _ _ Hsd). apply (wf_small pm W).
      * intros f. apply tbl_ok_zero.
        -- destruct Hm as (p & Hp & E). exists p. split; auto. cbn.
           now rewrite (sd_cHashMax _ _ Hsd).
        -- intros s Hs. cbn in Hs. rewrite (sd_cHashMax _ _ Hsd) in Hs.
           destruct f; cbn; [apply (Hzero true)|apply (Hzero false)]; auto.
        -- intros _ Ek s. cbn in Ek. rewrite (sd_fKey _ _ Hsd) in Ek. cbn. auto.
      * intros i Hi. assert (i = 0) by lia. subst.
        rewrite (sd_TableAllocated _ _ Hsd), (sd_StoreAllocated _ _ Hsd).
        apply (wf_alloc pm W). lia.
      * rewrite (sd_fKey _ _ Hsd), (sd_HashMapKeyAllocated _ _ Hsd). apply (wf_key_alloc pm W).
    + destruct (same_data_shape _ _ Hsd). constructor; auto.
    + cbn. apply (sd_Directory _ _ Hsd).
    + intros f s Hs. cbn in Hs. rewrite (sd_cHashMax _ _ Hsd) in Hs.
      destruct f; cbn; [apply (Hzero true)|apply (Hzero false)]; auto.
Qed.

(** ** The entries as a list *)

Lemma read_entries_length pm : forall n i0, length (read_entries n pm i0) = n.
Proof. induction n; intros; cbn; auto. Qed.

Lemma read_entries_nth pm d : forall n i0 j,
  (j < n)%nat -> 0 <= i0 -> i0 + Z.of_nat n < 2 ^ 32 ->
  nth j (read_entries n pm i0) d = Entry pm (i0 + Z.of_nat j).
Proof.
  induction n as [|n IH]; intros i0 j Hj Hi0 Hn; [lia|].
  cbn [read_entries]. destruct j as [|j].
  - cbn. f_equal. lia.
  - cbn [nth]. rewrite dw_small by lia. rewrite IH by lia. f_equal. lia.
Qed.

Lemma read_entries_ext pm pm' : forall n i0,
  0 <= i0 -> i0 + Z.of_nat n < 2 ^ 32 ->
  (forall i, i0 <= i < i0 + Z.of_nat n -> Entry pm' i = Entry pm i) ->
  read_entries n pm' i0 = read_entries n pm i0.
Proof.
  induction n as [|n IH]; intros i0 Hi0 Hn H; [reflexivity|].
  cbn [read_entries]. rewrite H by lia. f_equal.
  rewrite dw_small by lia. apply IH; try lia. intros i Hi. apply H. lia.
Qed.

Lemma entries_length pm : length (entries pm) = Z.to_nat (c pm - 1).
Proof. apply read_entries_length. Qed.

Lemma entries_nth pm d i :
  c pm <= 2 ^ 25 -> live pm i -> nth (Z.to_nat (i - 1)) (entries pm) d = Entry pm i.
Proof.
  intros Hc [H1 H2]. unfold entries. rewrite read_entries_nth by lia. f_equal. lia.
Qed.

Lemma entries_In pm e :
  c pm <= 2 ^ 25 -> (In e (entries pm) <-> exists i, live pm i /\ Entry pm i = e).
Proof.
  intros Hc. split.
  - intros H. apply (In_nth _ _ e) in H. destruct H as (n & Hn & E).
    rewrite entries_length in Hn.
    exists (Z.of_nat n + 1). split; [unfold live; lia|].
    rewrite <- E. rewrite <- (entries_nth pm e) by (auto; unfold live; lia).
    f_equal. lia.
  - intros (i & Hi & E). rewrite <- E, <- (entries_nth pm e i) by auto.
    apply nth_In. rewrite entries_length. unfold live in Hi. lia.
Qed.

Lemma entries_NoDup pm (f : OB_MAP_ENTRY -> Z) :
  c pm <= 2 ^ 25 ->
  (NoDup (map f (entries pm)) <->
   forall i j, live pm i -> live pm j -> f (Entry pm i) = f (Entry pm j) -> i = j).
Proof.
  intros Hc. rewrite (NoDup_nth _ (f (mkEntry 0 0))). rewrite length_map, entries_length.
  split.
  - intros H i j Hi Hj E.
    assert (Z.to_nat (i - 1) = Z.to_nat (j - 1)); [|unfold live in *; lia].
    apply H; try (unfold live in *; lia).
    rewrite !map_nth, !entries_nth by auto. exact E.
  - intros H n m Hn Hm E. rewrite !map_nth in E.
    assert (Z.of_nat n + 1 = Z.of_nat m + 1); [|lia].
    apply H; try (unfold live; lia).
    rewrite <- !(entries_nth pm (mkEntry 0 0)) by (auto; unfold live; lia).
    replace (Z.to_nat (Z.of_nat n + 1 - 1)) with n by lia.
    replace (Z.to_nat (Z.of_nat m + 1 - 1)) with m by lia. exact E.
Qed.

Lemma write_entries_spec d : forall l pm i0,
  0 <= i0 -> i0 + Z.of_nat (length l) <= OB_MAP_TABLE_MAX_CAPACITY ->
  same_shape pm (write_entries l pm i0) /\
  c (write_entries l pm i0) = c pm /\
  pHashMapKey (write_entries l pm i0) = pHashMapKey pm /\
  pHashMapValue (write_entries l pm i0) = pHashMapValue pm /\
  (forall j, 0 <= j < OB_MAP_TABLE_MAX_CAPACITY ->
             Entry (write_entries l pm i0) j =
             if (i0 <=? j) && (j <? i0 + Z.of_nat (length l))
             then nth (Z.to_nat (j - i0)) l d else Entry pm j).
Proof.
  assert (HMAX : OB_MAP_TABLE_MAX_CAPACITY = 2 ^ 25) by reflexivity.
  induction l as [|e l IH]; intros pm i0 Hi0 Hlen.
  - cbn [write_entries length]. split; [apply same_shape_refl|]. repeat split.
    intros j Hj. destruct (Z.leb_spec i0 j), (Z.ltb_spec j (i0 + Z.of_nat 0)); cbn; auto; lia.
  - cbn [write_entries]. cbn [length] in Hlen.
    rewrite dw_small by lia.
    destruct (IH (set_Entry pm i0 e) (i0 + 1)) as (Hss & Hc & Hk & Hv & Hent); try lia.
    split; [|split; [|split; [|split]]]; auto.
    + eapply same_shape_trans; [apply (set_Entry_shape pm i0 e)|exact Hss].
    + intros j Hj. rewrite Hent by auto. cbn [length].
      destruct (Z.leb_spec (i0 + 1) j), (Z.ltb_spec j (i0 + 1 + Z.of_nat (length l)));
        destruct (Z.leb_spec i0 j), (Z.ltb_spec j (i0 + Z.of_nat (S (length l))));
        cbn [andb]; try lia;
        first [ replace (Z.to_nat (j - i0)) with (S (Z.to_nat (j - (i0 + 1)))) by lia;
                reflexivity
              | assert (j = i0) by lia; subst j; rewrite Entry_set_Entry_same;
                replace (i0 - i0) with 0 by lia; reflexivity
              | rewrite Entry_set_Entry_other by lia; reflexivity ].
Qed.

(** ** Sorting *)

Lemma entries_ext pm pm' :
  c pm' = c pm -> c pm <= 2 ^ 25 ->
  (forall i, live pm i -> Entry pm' i = Entry pm i) -> entries pm' = entries pm.
Proof.
  intros Ec Hc H. unfold entries. rewrite Ec.
  apply read_entries_ext; try lia. intros i Hi. apply H. unfold live. lia.
Qed.

Lemma Sort_ok_mem qsort mem pfnSort pm :
  (forall l, Permutation l (qsort pfnSort l)) -> WF pm -> mem Alloc_pSort = true ->
  exists pm',
    _ObMap_SortEntryIndex qsort mem pm pfnSort = Some (true, pm') /\
    WF pm' /\ c pm' = c pm /\ same_shape pm pm' /\
    entries pm' = qsort pfnSort (entries pm).
Proof.
  intros Hq W Hmem.
  pose proof (WF_c_range pm W) as Hcr. pose proof (WF_hmax_ok pm W) as Hm.
  pose proof (WF_room pm W) as [_ Hroom].
  assert (HMAX : OB_MAP_TABLE_MAX_CAPACITY = 2 ^ 25) by reflexivity.
  unfold _ObMap_SortEntryIndex. rewrite Hmem. cbn [negb]. fold (entries pm).
  set (l := qsort pfnSort (entries pm)).
  assert (Hperm : Permutation (entries pm) l) by apply Hq.
  assert (Hlen : length l = Z.to_nat (c pm - 1)).
  { rewrite <- (Permutation_length Hperm). apply entries_length. }
  destruct (write_entries_spec (mkEntry 0 0) l pm 1) as (Hss1 & Hc1 & Hk1 & Hv1 & Hent1);
    try lia.
  set (pm1 := write_entries l pm 1) in *.
  assert (Hent1' : forall j, 1 <= j < c pm ->
                             Entry pm1 j = nth (Z.to_nat (j - 1)) l (mkEntry 0 0)).
  { intros j Hj. rewrite Hent1 by lia.
    destruct (Z.leb_spec 1 j); [|lia]. destruct (Z.ltb_spec j (1 + Z.of_nat (length l))); [|lia].
    reflexivity. }
  assert (Hl1 : entries pm1 = l).
  { apply (nth_ext _ _ (mkEntry 0 0) (mkEntry 0 0)).
    - rewrite entries_length, Hc1. lia.
    - intros n Hn. rewrite entries_length, Hc1 in Hn.
      unfold entries. rewrite read_entries_nth by lia.
      rewrite Hent1' by lia. f_equal. lia. }
  assert (Hm1 : hmax_ok pm1).
  { destruct Hm as (p & Hp & E). exists p. split; auto. now rewrite (ss_cHashMax _ _ Hss1). }
  (* the key array *)
  assert (Hkey : exists pm2,
    (if fKey pm1
     then for_loop (Z.to_nat (c pm1 - 1)) 1
            (fun iEntry pm0 => _ObMap_InsertHash pm0 false iEntry)
            (set_pHashMapKey pm1 (ZeroMemory (pHashMapKey pm1) (cHashMax pm1)))
     else Some pm1) = Some pm2 /\
    same_data pm1 pm2 /\
    tbl_ok pm2 false (fun j => 1 <= j < 1 + (c pm - 1)) (c pm - 1)).
  { destruct (fKey pm1) eqn:Ek.
    - destruct (rebuild_one (set_pHashMapKey pm1 (ZeroMemory (pHashMapKey pm1) (cHashMax pm1)))
                  false (c pm - 1)) as (pm2 & E2 & Hsd2 & _ & Ht2).
      + destruct Hm1 as (p & Hp & E). exists p. split; auto.
      + apply tbl_ok_zero.
        * destruct Hm1 as (p & Hp & E). exists p. split; auto.
        * intros s Hs. cbn in *. now apply ZeroMemory_in.
        * cbn. intros _ Ek'. congruence.
      + cbn. rewrite (ss_cHashMax _ _ Hss1). lia.
      + exists pm2. rewrite Hc1. split; [exact E2|]. split; [|exact Ht2].
        eapply same_data_trans; [|exact Hsd2]. constructor; reflexivity.
    - exists pm1. split; [reflexivity|]. split; [apply same_data_refl|].
      unfold tbl_ok. cbn [orb]. rewrite Ek. rewrite Hk1.
      apply WF_tbl_zero_nokey; auto. now rewrite <- (ss_fKey _ _ Hss1). }
  destruct Hkey as (pm2 & E2 & Hsd2 & Ht2).
  rewrite E2. cbn [bind].
  (* the value array *)
  destruct (rebuild_one (set_pHashMapValue pm2 (ZeroMemory (pHashMapValue pm2) (cHashMax pm2)))
              true (c pm - 1)) as (pm3 & E3 & Hsd3 & Ho3 & Ht3).
  { apply (same_data_hmax_ok pm1); auto.
    eapply same_data_trans; [exact Hsd2|]. constructor; reflexivity. }
  { apply tbl_ok_zero.
    - apply (same_data_hmax_ok pm1); auto.
      eapply same_data_trans; [exact Hsd2|]. constructor; reflexivity.
    - intros s Hs. cbn in *. now apply ZeroMemory_in.
    - discriminate. }
  { cbn. rewrite (sd_cHashMax _ _ Hsd2), (ss_cHashMax _ _ Hss1). lia. }
  rewrite (sd_c _ _ Hsd2), Hc1. rewrite E3. cbn [bind].
  exists pm3. split; [reflexivity|].
  assert (Hsd13 : same_data pm1 pm3).
  { eapply same_data_trans; [exact Hsd2|].
    eapply same_data_trans; [|exact Hsd3]. constructor; reflexivity. }
  assert (Hc3 : c pm3 = c pm) by (rewrite (sd_c _ _ Hsd13); exact Hc1).
  assert (Hss3 : same_shape pm pm3).
  { eapply same_shape_trans; [exact Hss1|]. now apply same_data_shape. }
  assert (Hl3 : entries pm3 = l).
  { rewrite <- Hl1. apply entries_ext; try lia.
    intros i _. now apply same_data_Entry. }
  split; [|split; [exact Hc3|split; [exact Hss3|exact Hl3]]].
  assert (Hin : forall i, live pm3 i -> exists i', live pm i' /\ Entry pm3 i = Entry pm i').
  { intros i Hi.
    assert (In (Entry pm3 i) (entries pm3)) by (apply entries_In; [lia|eauto]).
    rewrite Hl3 in H. apply (Permutation_in _ (Permutation_sym Hperm)) in H.
    apply entries_In in H; [|lia]. destruct H as (i' & Hi' & E). eauto. }
  constructor.
  - rewrite Hc3. apply (wf_c pm W).
  - rewrite (ss_cHashMax _ _ Hss3), (ss_cHashGrowThreshold _ _ Hss3). apply (wf_grow pm W).
  - rewrite Hc3, (ss_cHashGrowThreshold _ _ Hss3). apply (wf_thr pm W).
  - rewrite (ss_fLargeMode _ _ Hss3), (ss_cHashGrowThreshold _ _ Hss3). apply (wf_small pm W).
  - intros i Hi. destruct (Hin i Hi) as (i' & Hi' & E). rewrite E. now apply (wf_value_nz pm W).
  - apply entries_NoDup; [lia|]. rewrite Hl3.
    apply (Permutation_NoDup (Permutation_map v Hperm)).
    apply entries_NoDup; [lia|]. apply (wf_value_uniq pm W).
  - rewrite (ss_fKey _ _ Hss3). intros Hk.
    apply entries_NoDup; [lia|]. rewrite Hl3.
    apply (Permutation_NoDup (Permutation_map k Hperm)).
    apply entries_NoDup; [lia|]. now apply (wf_key_uniq pm W).
  - intros f. rewrite Hc3. destruct f.
    + apply tbl_ok_frame with (pm := pm3) (P := fun j => 1 <= j < 1 + (c pm - 1)); auto.
      intros j. unfold live. rewrite Hc3. lia.
    + apply tbl_ok_frame with (pm := pm2) (P := fun j => 1 <= j < 1 + (c pm - 1)); auto.
      * rewrite (sd_cHashMax _ _ Hsd3). reflexivity.
      * rewrite (sd_fKey _ _ Hsd3). reflexivity.
      * intros i _. rewrite (same_data_key_of _ _ _ _ Hsd3). reflexivity.
      * intros j. unfold live. rewrite Hc3. lia.
  - intros i Hi. rewrite Hc3 in Hi.
    rewrite (ss_TableAllocated _ _ Hss3), (ss_StoreAllocated _ _ Hss3). now apply (wf_alloc pm W).
  - rewrite (ss_fKey _ _ Hss3), (ss_HashMapKeyAllocated _ _ Hss3). apply (wf_key_alloc pm W).
Qed.

Lemma Sort_ok qsort pfnSort pm :
  (forall l, Permutation l (qsort pfnSort l)) -> WF pm ->
  exists pm',
    _ObMap_SortEntryIndex qsort heap_ok pm pfnSort = Some (true, pm') /\
    WF pm' /\ c pm' = c pm /\ same_shape pm pm' /\
    entries pm' = qsort pfnSort (entries pm).
Proof. intros Hq W. now apply Sort_ok_mem. Qed.

(** ** Removal by key, by value and by filter *)

Lemma RemoveOrRemoveByKey_found pm f i :
  WF pm -> f = true \/ fKey pm = true -> live pm i ->
  _ObMap_RemoveOrRemoveByKey pm f (key_of pm f i) =
  _ObMap_RetrieveAndRemoveByEntryIndex pm i.
Proof.
  intros W Hf Hi. unfold _ObMap_RemoveOrRemoveByKey.
  replace (f && (key_of pm f i =? 0)) with false.
  - now rewrite WF_lookup_found.
  - destruct f; [|reflexivity]. cbn [andb]. rewrite key_of_live by auto.
    symmetry. apply Z.eqb_neq. now apply wf_value_nz.
Qed.

Lemma RemoveOrRemoveByKey_absent pm f kv :
  WF pm -> (forall i, live pm i -> key_of pm f i <> kv) ->
  _ObMap_RemoveOrRemoveByKey pm f kv = Some (None, pm).
Proof.
  intros W Hno. unfold _ObMap_RemoveOrRemoveByKey.
  destruct (f && (kv =? 0)); [reflexivity|]. now rewrite WF_lookup_none.
Qed.

Lemma RemoveOrRemoveByKey_nokey pm kv :
  fKey pm = false -> _ObMap_RemoveOrRemoveByKey pm false kv = Some (None, pm).
Proof.
  intros Hk. unfold _ObMap_RemoveOrRemoveByKey, _ObMap_GetEntryIndexFromKeyOrValue.
  now rewrite Hk.
Qed.

Lemma RemoveOrRemoveByKey_total pm f kv :
  WF pm ->
  exists r pm', _ObMap_RemoveOrRemoveByKey pm f kv = Some (r, pm') /\ WF pm' /\
                same_shape pm pm'.
Proof.
  intros W.
  destruct (f || fKey pm) eqn:Ef.
  - assert (Hf : f = true \/ fKey pm = true) by (destruct f; auto).
    destruct (live_dec pm f kv) as [(i & Hi & Hk)|Hno].
    + rewrite <- Hk, RemoveOrRemoveByKey_found by auto.
      destruct (RetrieveAndRemove_ok pm i W Hi) as (pm' & E & W' & _ & Hss & _).
      rewrite E. eauto.
    + rewrite RemoveOrRemoveByKey_absent by auto.
      exists None, pm. split; [auto|]. split; [auto|apply same_shape_refl].
  - destruct f; [discriminate|]. rewrite RemoveOrRemoveByKey_nokey by auto.
    exists None, pm. split; [auto|]. split; [auto|apply same_shape_refl].
Qed.

Lemma RetrieveAndRemove_total pm i :
  WF pm -> 0 <= i ->
  exists r pm', _ObMap_RetrieveAndRemoveByEntryIndex pm i = Some (r, pm') /\ WF pm' /\
                same_shape pm pm'.
Proof.
  intros W Hi.
  destruct (Z.eq_dec i 0) as [->|Hn0]; [|destruct (Z_lt_ge_dec i (c pm))].
  - unfold _ObMap_RetrieveAndRemoveByEntryIndex. rewrite GetFromIndex_dead by auto.
    exists None, pm. split; [auto|]. split; [auto|apply same_shape_refl].
  - destruct (RetrieveAndRemove_ok pm i W) as (pm' & E & W' & _ & Hss & _).
    { unfold live. lia. }
    rewrite E. eauto.
  - unfold _ObMap_RetrieveAndRemoveByEntryIndex. rewrite GetFromIndex_dead by lia.
    exists None, pm. split; [auto|]. split; [auto|apply same_shape_refl].
Qed.

Lemma RemoveByFilter_loop_ok pfn : forall n pm cRemove calls,
  WF pm -> Z.of_nat n < c pm ->
  exists r pm' calls',
    RemoveByFilter_loop n pm pfn (Z.of_nat n) cRemove calls = Some (r, pm', calls') /\
    WF pm' /\ same_shape pm pm'.
Proof.
  induction n as [|n IH]; intros pm cRemove calls W Hn.
  - exists cRemove, pm, calls. split; [reflexivity|]. split; [auto|apply same_shape_refl].
  - pose proof (WF_c_range pm W) as Hcr.
    cbn [RemoveByFilter_loop].
    rewrite (dw_small (Z.of_nat (S n) - 1)) by lia.
    replace (Z.of_nat (S n) - 1) with (Z.of_nat n) by lia.
    destruct (pfn _ _).
    + destruct (RetrieveAndRemove_ok pm (Z.of_nat (S n)) W)
        as (pm' & E & W' & Hc' & Hss & _).
      { unfold live. lia. }
      rewrite E. cbn [bind fst snd].
      destruct (IH pm' (dw (cRemove + 1))
                  (calls ++ (if fObjectsOb pm' then [Ob_DECREF (removed_value
                      (Some (v (Entry pm (Z.of_nat (S n))), k (Entry pm (Z.of_nat (S n))))))]
                             else [])
                         ++ (if fObjectsLocalFree pm' then [LocalFree (removed_value
                      (Some (v (Entry pm (Z.of_nat (S n))), k (Entry pm (Z.of_nat (S n))))))]
                             else [])) W')
        as (r & pm'' & calls' & E' & W'' & Hss'); [lia|].
      exists r, pm'', calls'. split; [exact E'|]. split; [auto|].
      eapply same_shape_trans; eauto.
    + apply IH; auto. lia.
Qed.

Lemma RemoveByFilter_ok pm pfn :
  WF pm ->
  exists r pm' calls, _ObMap_RemoveByFilter pm pfn = Some (r, pm', calls) /\ WF pm' /\
                      same_shape pm pm'.
Proof.
  intros W. pose proof (WF_c_range pm W) as Hcr.
  unfold _ObMap_RemoveByFilter. rewrite (dw_small (c pm - 1)) by lia.
  pose proof (RemoveByFilter_loop_ok pfn (Z.to_nat (c pm - 1)) pm 0 [] W) as H.
  rewrite Z2Nat.id in H by lia. apply H. lia.
Qed.

(** ** The documented invariants *)

Lemma WF_data_model pm : WF pm -> data_model_inv pm.
Proof.
  intros W. pose proof (WF_c_range pm W) as Hcr.
  constructor.
  - lia.
  - intros i Hi. apply (wf_alloc pm W). lia.
  - intros i Hi. apply (wf_value_nz pm W). unfold live. lia.
  - intros Hk i j Hi Hj. apply (wf_key_uniq pm W Hk); unfold live; lia.
  - intros i j Hi Hj. apply (wf_value_uniq pm W); unfold live; lia.
  - intros i. pose proof (wf_hash pm W true) as [[HS _] _].
    unfold in_hash. split.
    + intros (Hi0 & s & Hs & E). pose proof (ts_range _ _ _ HS s Hs) as H.
      rewrite E in H. specialize (H Hi0). unfold live in H. lia.
    + intros Hi. assert (Hl : live pm i) by (unfold live; lia).
      split; [lia|]. exact (ts_compl _ _ _ HS i Hl).
  - intros i. pose proof (wf_hash pm W false) as Hok. unfold tbl_ok in Hok. cbn [orb] in Hok.
    unfold in_hash. destruct (fKey pm) eqn:Ek.
    + destruct Hok as [[HS _] _]. split.
      * intros (Hi0 & s & Hs & E). pose proof (ts_range _ _ _ HS s Hs) as H.
        rewrite E in H. specialize (H Hi0). unfold live in H. split; [lia|reflexivity].
      * intros [Hi _]. assert (Hl : live pm i) by (unfold live; lia).
        split; [lia|]. exact (ts_compl _ _ _ HS i Hl).
    + split.
      * intros (Hi0 & s & Hs & E). exfalso. apply Hi0. rewrite <- E. apply Hok.
      * intros [_ H]. discriminate.
Qed.

(** ** Lookups of the public interface *)

Lemma reach_live pm i :
  WF pm -> live pm i -> pair_reachable pm (k (Entry pm i)) (v (Entry pm i)).
Proof.
  intros W Hi. unfold pair_reachable.
  assert (Ev : key_of pm true i = v (Entry pm i)) by now rewrite key_of_live.
  assert (Ek : key_of pm false i = k (Entry pm i)) by now rewrite key_of_live.
  split; [|split].
  - unfold ObMap_Exists. rewrite <- Ev. apply Exists_true; auto.
  - unfold ObMap_GetKey, _ObMap_GetKey. rewrite <- Ev, WF_lookup_found by auto.
    cbn [bind]. now rewrite GetFromIndex_live.
  - intros Hk. split.
    + unfold ObMap_ExistsKey. rewrite <- Ek. apply Exists_true; auto.
    + unfold ObMap_GetByKey, _ObMap_GetByKey. rewrite <- Ek, WF_lookup_found by auto.
      cbn [bind option_map fst]. unfold _ObMap_GetByEntryIndex. cbn [fst].
      fold (key_of pm true i). now rewrite Ev.
Qed.

Lemma unreach_value pm val :
  WF pm -> (forall i, live pm i -> v (Entry pm i) <> val) -> value_unreachable pm val.
Proof.
  intros W Hno.
  assert (Hno' : forall i, live pm i -> key_of pm true i <> val).
  { intros i Hi. rewrite key_of_live by auto. auto. }
  split.
  - now apply Exists_false.
  - unfold ObMap_GetKey, _ObMap_GetKey. now rewrite WF_lookup_none.
Qed.

Lemma unreach_key pm key :
  WF pm -> fKey pm = false \/ (forall i, live pm i -> k (Entry pm i) <> key) ->
  key_unreachable pm key.
Proof.
  intros W H.
  assert (E : _ObMap_GetEntryIndexFromKeyOrValue pm false key = Some None).
  { destruct H as [Hk|Hno].
    - unfold _ObMap_GetEntryIndexFromKeyOrValue. now rewrite Hk.
    - apply WF_lookup_none; auto. intros i Hi. rewrite key_of_live by auto. auto. }
  split.
  - unfold ObMap_ExistsKey, _ObMap_Exists. destruct (fKey pm); cbn; [|reflexivity].
    now rewrite E.
  - unfold ObMap_GetByKey, _ObMap_GetByKey. now rewrite E.
Qed.

Lemma Push_cases pm key val : Push_blocked pm key val \/ Push_free pm key val.
Proof.
  unfold Push_blocked, Push_free.
  destruct (Z.eq_dec val 0) as [|Hv]; [auto|].
  destruct (live_dec pm true val) as [(i & Hi & E)|Hnov].
  { left. right. left. exists i. split; auto. now rewrite key_of_live in E. }
  destruct (Z.eq_dec (c pm) OB_MAP_TABLE_MAX_CAPACITY) as [|Hc]; [auto|].
  assert (Hnov' : forall i, live pm i -> v (Entry pm i) <> val).
  { intros i Hi. specialize (Hnov i Hi). now rewrite key_of_live in Hnov. }
  destruct (fKey pm) eqn:Ek.
  - destruct (live_dec pm false key) as [(i & Hi & E)|Hnok].
    + left. right. right. left. split; auto. exists i. split; auto.
      now rewrite key_of_live in E.
    + right. repeat split; auto. intros _ i Hi. specialize (Hnok i Hi).
      now rewrite key_of_live in Hnok.
  - right. repeat split; auto. discriminate.
Qed.

Lemma Push_blocked_free pm key val : Push_blocked pm key val -> Push_free pm key val -> False.
Proof.
  intros [H|[(i & Hi & E)|[(Hk & i & Hi & E)|H]]] (H1 & H2 & H3 & H4); auto.
  - now apply (H2 i).
  - now apply (H3 Hk i).
Qed.

Lemma Push_total_mem mem pm key val :
  WF pm -> Push_refused mem pm = false ->
  exists b pm' calls, _ObMap_Push mem pm key val = Some (b, pm', calls) /\ WF pm' /\
                      (b = false -> pm' = pm /\ calls = []).
Proof.
  intros W Hmem. destruct (Push_cases pm key val) as [Hb|(H1 & H2 & H3 & H4)].
  - exists false, pm, []. split; [now apply Push_fail|]. auto.
  - destruct (Push_ok_mem mem pm key val W H1 H2 H3 H4 Hmem) as (pm' & E & W' & _).
    exists true, pm', (if fObjectsOb pm then [Ob_INCREF val] else []).
    split; [auto|]. split; [auto|discriminate].
Qed.

Lemma Push_total pm key val :
  WF pm ->
  exists b pm' calls, _ObMap_Push heap_ok pm key val = Some (b, pm', calls) /\ WF pm' /\
                      (b = false -> pm' = pm /\ calls = []).
Proof. intros W. apply Push_total_mem; auto using Push_refused_heap_ok. Qed.

Lemma PushCopy_total_mem mem pm key p :
  WF pm -> Push_refused mem pm = false ->
  exists b pm' calls, _ObMap_PushCopy mem pm key p = Some (b, pm', calls) /\ WF pm' /\
                      (b = false -> pm' = pm).
Proof.
  intros W Hmem. unfold _ObMap_PushCopy.
  destruct (fObjectsLocalFree pm); cbn [negb]; [|exists false, pm, []; auto].
  destruct (p =? 0); [exists false, pm, []; auto|].
  destruct (Push_total_mem mem pm key p W Hmem) as (b & pm' & calls & E & W' & Hb).
  rewrite E. cbn [bind]. destruct b.
  - exists true, pm', calls. split; [auto|]. split; [auto|discriminate].
  - destruct Hb as [-> ->]; auto. exists false, pm, ([] ++ [LocalFree p]). auto.
Qed.

Lemma PushCopy_total pm key p :
  WF pm ->
  exists b pm' calls, _ObMap_PushCopy heap_ok pm key p = Some (b, pm', calls) /\ WF pm' /\
                      (b = false -> pm' = pm).
Proof. intros W. apply PushCopy_total_mem; auto using Push_refused_heap_ok. Qed.

(** ** Every operation keeps the map well formed *)

Lemma step_WF qsort :
  (forall pfnSort l, Permutation l (qsort pfnSort l)) ->
  forall pm o, WF pm -> exists pm', ObMap_step qsort pm o = Some pm' /\ WF pm'.
Proof.
  intros Hq pm o W. pose proof (WF_c_range pm W) as Hcr.
  destruct o as [key val|key p| | |val|key|pfn| |pfnSort| ]; cbn [ObMap_step].
  - unfold ObMap_Push. destruct (Push_total pm key val W) as (b & pm' & calls & E & W' & _).
    rewrite E. cbn. eauto.
  - unfold ObMap_PushCopy.
    destruct (PushCopy_total pm key p W) as (b & pm' & calls & E & W' & _).
    rewrite E. cbn. eauto.
  - unfold ObMap_Pop.
    destruct (RetrieveAndRemove_total pm (dw (c pm - 1)) W) as (r & pm' & E & W' & _).
    { rewrite dw_small; lia. }
    rewrite E. cbn. eauto.
  - unfold ObMap_PopWithKey.
    destruct (RetrieveAndRemove_total pm (dw (c pm - 1)) W) as (r & pm' & E & W' & _).
    { rewrite dw_small; lia. }
    rewrite E. cbn. eauto.
  - unfold ObMap_Remove.
    destruct (RemoveOrRemoveByKey_total pm true val W) as (r & pm' & E & W' & _).
    rewrite E. cbn. eauto.
  - unfold ObMap_RemoveByKey.
    destruct (RemoveOrRemoveByKey_total pm false key W) as (r & pm' & E & W' & _).
    rewrite E. cbn. eauto.
  - unfold ObMap_RemoveByFilter.
    destruct (RemoveByFilter_ok pm pfn W) as (r & pm' & calls & E & W' & _).
    rewrite E. cbn. eauto.
  - destruct (Clear_ok pm W) as (pm' & E & W' & _). rewrite E. cbn. eauto.
  - unfold ObMap_SortEntryIndex.
    destruct (Sort_ok qsort pfnSort pm (Hq pfnSort) W) as (pm' & E & W' & _).
    rewrite E. cbn. eauto.
  - unfold ObMap_SortEntryIndexByKey, ObMap_SortEntryIndex.
    destruct (Sort_ok qsort _ObMap_SortEntryIndexByKey_CmpSort pm (Hq _) W)
      as (pm' & E & W' & _).
    rewrite E. cbn. eauto.
Qed.

Lemma run_WF qsort :
  (forall pfnSort l, Permutation l (qsort pfnSort l)) ->
  forall ops pm, WF pm -> exists pm', ObMap_run qsort ops pm = Some pm' /\ WF pm'.
Proof.
  intros Hq. induction ops as [|o ops IH]; intros pm W.
  - exists pm. auto.
  - cbn [ObMap_run]. destruct (step_WF qsort Hq pm o W) as (pm1 & E & W1).
    rewrite E. cbn [bind]. now apply IH.
Qed.

(** ** Sequences of insertions *)

Lemma Push_list_WF : forall l pm,
  WF pm -> exists pm' ok, Push_list l pm = Some (pm', ok) /\ WF pm'.
Proof.
  induction l as [|[key val] l IH]; intros pm W.
  - exists pm, []. auto.
  - cbn [Push_list]. unfold ObMap_Push.
    destruct (Push_total pm key val W) as (b & pm1 & calls & E & W1 & _).
    rewrite E. cbn [bind fst snd].
    destruct (IH pm1 W1) as (pm' & ok & E' & W'). rewrite E'. cbn [bind fst snd]. eauto.
Qed.

Lemma map_of_list_WF flags l : WF (map_of_list flags l).
Proof.
  unfold map_of_list.
  destruct (Push_list_WF l (ObMap_New_init flags) (ObMap_New_init_WF flags))
    as (pm' & ok & E & W).
  now rewrite E.
Qed.

(** * The claims *)



(** C9. [ObMap_Clear] returns true and leaves an empty map: the count is
    reset to 1, both hash arrays are zero, no key and no value is found by
    any lookup, the paging blocks stay allocated with their contents, and a
    pair that the map held before can be pushed again, whatever the heap
    answers: the push into the cleared map requests no memory. *)
Theorem ObMap_Clear_correct pm :
  WF pm ->
  fst (fst (ObMap_Clear pm)) = true /\
  ObMap_Size (snd (fst (ObMap_Clear pm))) = 0 /\
  c (snd (fst (ObMap_Clear pm))) = 1 /\
  (forall s, 0 <= s < cHashMax (snd (fst (ObMap_Clear pm))) ->
             pHashMapValue (snd (fst (ObMap_Clear pm))) s = 0 /\
             pHashMapKey (snd (fst (ObMap_Clear pm))) s = 0) /\
  (forall val, value_unreachable (snd (fst (ObMap_Clear pm))) val) /\
  (forall key, key_unreachable (snd (fst (ObMap_Clear pm))) key) /\
  (TableAllocated (snd (fst (ObMap_Clear pm))) = TableAllocated pm /\
   StoreAllocated (snd (fst (ObMap_Clear pm))) = StoreAllocated pm /\
   Directory (snd (fst (ObMap_Clear pm))) = Directory pm) /\
  (forall mem i, live pm i ->
     exists pm' calls,
       ObMap_Push mem (snd (fst (ObMap_Clear pm))) (k (Entry pm i)) (v (Entry pm i))
       = Some (true, pm', calls) /\
       ObMap_Size pm' = 1 /\
       pair_reachable pm' (k (Entry pm i)) (v (Entry pm i))).
Proof.
  intros W. destruct (Clear_ok pm W) as (pm' & E & W' & Hc & Hss & Hd & Hz).
  rewrite E. cbn [fst snd].
  assert (Hnone : forall i, ~ live pm' i) by (intros i Hi; unfold live in Hi; lia).
  split; [reflexivity|]. split; [unfold ObMap_Size; now rewrite Hc|]. split; [exact Hc|].
  split; [|split; [|split; [|split]]].
  - intros s Hs. split; [apply (Hz true)|apply (Hz false)]; auto.
  - intros val. apply unreach_value; auto. intros i Hi. now apply Hnone in Hi.
  - intros key. apply unreach_key; auto. right. intros i Hi. now apply Hnone in Hi.
  - split; [apply (ss_TableAllocated _ _ Hss)|split; [apply (ss_StoreAllocated _ _ Hss)|exact Hd]].
  - intros mem i Hi.
    destruct (Push_ok_mem mem pm' (k (Entry pm i)) (v (Entry pm i)) W')
      as (pm2 & E2 & W2 & Hc2 & Hnew & _).
    + now apply (wf_value_nz pm W).
    + intros j Hj. now apply Hnone in Hj.
    + intros _ j Hj. now apply Hnone in Hj.
    + rewrite Hc. discriminate.
    + apply Push_refused_small; [exact W'|]. rewrite Hc. reflexivity.
    + exists pm2, (if fObjectsOb pm' then [Ob_INCREF (v (Entry pm i))] else []).
      split; [exact E2|]. split.
      * unfold ObMap_Size. rewrite Hc2, Hc. reflexivity.
      * assert (Hl : live pm2 (c pm')) by (unfold live; lia).
        pose proof (reach_live pm2 (c pm') W2 Hl) as Hr. now rewrite Hnew in Hr.
Qed.

Lemma ObMap_Clear_correct_witness :
  fst (fst (ObMap_Clear example_map)) = true /\
  ObMap_Size (snd (fst (ObMap_Clear example_map))) = 0.
Proof.
  pose proof (ObMap_Clear_correct example_map (map_of_list_WF _ _)) as H.
  split; [exact (proj1 H)|exact (proj1 (proj2 H))].
Defined.

(** ** Refused allocations *)

Lemma Push_alloc_refused_Directory mem pm i :
  fst (Push_alloc mem pm i) = false -> Directory (snd (Push_alloc mem pm i)) = Directory pm.
Proof.
  unfold Push_alloc.
  destruct (negb (TableAllocated pm (OB_MAP_INDEX_DIRECTORY i)) && negb (mem Alloc_Table));
    [reflexivity|].
  cbv zeta.
  destruct (negb (TableAllocated pm (OB_MAP_INDEX_DIRECTORY i)));
    match goal with |- context [if negb ?b then _ else _] => destruct b end;
    cbn [negb]; try destruct (mem Alloc_Store); cbn [fst snd];
    try discriminate; reflexivity.
Qed.

(** The two allocation steps keep a map well formed, whether they are
    granted or refused. *)
Lemma Push_alloc_WF mem pm : WF pm -> WF (snd (Push_alloc mem pm (c pm))).
Proof.
  intros W. pose proof (WF_c_range pm W) as Hcr.
  destruct (Push_alloc_fields mem pm (c pm))
    as (Ac & AN & AT & Am & Ak & Ao & Al & Ahk & Ahv & Aka).
  destruct (Push_alloc_storage mem pm (c pm)) as [Aent Aalloc].
  { intros j Hj. apply (wf_alloc pm W). lia. }
  set (pm2 := snd (Push_alloc mem pm (c pm))) in *.
  assert (Hlive : forall j, live pm2 j <-> live pm j) by (intros j; unfold live; now rewrite Ac).
  assert (Hent : forall j, live pm j -> Entry pm2 j = Entry pm j).
  { intros j [Hj1 Hj2]. apply Aent. lia. }
  constructor.
  - rewrite Ac. apply (wf_c pm W).
  - rewrite AN, AT. apply (wf_grow pm W).
  - rewrite Ac, AT. apply (wf_thr pm W).
  - rewrite Am, AT. apply (wf_small pm W).
  - intros j Hj. apply Hlive in Hj. rewrite Hent by auto. now apply (wf_value_nz pm W).
  - intros i j Hi Hj. apply Hlive in Hi, Hj. rewrite !Hent by auto.
    now apply (wf_value_uniq pm W).
  - rewrite Ak. intros Hk i j Hi Hj. apply Hlive in Hi, Hj. rewrite !Hent by auto.
    now apply (wf_key_uniq pm W).
  - intros f. rewrite Ac.
    apply tbl_ok_frame with (pm := pm) (P := live pm).
    + exact AN.
    + exact Ak.
    + destruct f; cbn; [exact Ahv|exact Ahk].
    + intros j Hj. rewrite !key_of_live by (auto; now apply Hlive). now rewrite Hent.
    + intros j. symmetry. apply Hlive.
    + apply (wf_hash pm W).
  - intros i Hi. rewrite Ac in Hi. apply Aalloc. left. exact Hi.
  - rewrite Ak, Aka. apply (wf_key_alloc pm W).
Qed.

Lemma Push_refused_true mem pm :
  Push_refused mem pm = true ->
  (c pm = cHashGrowThreshold pm /\ mem Alloc_pdwNewAllocHashMap = false) \/
  (c pm = cHashGrowThreshold pm /\ mem Alloc_pdwNewAllocHashMap = true /\
   fLargeMode pm = false /\ mem Alloc_Directory0 = false) \/
  ((c pm = cHashGrowThreshold pm ->
    mem Alloc_pdwNewAllocHashMap = true /\
    (fLargeMode pm = false -> mem Alloc_Directory0 = true)) /\
   (negb (TableAllocated pm (OB_MAP_INDEX_DIRECTORY (c pm))) && negb (mem Alloc_Table)
    || (negb (TableAllocated pm (OB_MAP_INDEX_DIRECTORY (c pm)))
        || negb (StoreAllocated pm (OB_MAP_INDEX_DIRECTORY (c pm))
                   (OB_MAP_INDEX_TABLE (c pm))))
       && negb (mem Alloc_Store)) = true).
Proof.
  unfold Push_refused. cbv zeta.
  destruct (Z.eqb_spec (c pm) (cHashGrowThreshold pm)) as [E|E]; cbn [andb].
  - destruct (mem Alloc_pdwNewAllocHashMap); cbn [negb orb]; [|auto].
    destruct (fLargeMode pm); cbn [negb andb orb].
    + intros H. right. right. split; [|exact H]. intros _. split; [reflexivity|discriminate].
    + destruct (mem Alloc_Directory0); cbn [negb orb].
      * intros H. right. right. split; [|exact H]. auto.
      * intros _. right. left. auto.
  - cbn [orb]. intros H. right. right. split; [contradiction|exact H].
Qed.

(** A push that passes the four tests and is refused an allocation returns
    FALSE without any call.  The entries, the count and the modes are those
    of before; the map is well formed unless the first table was refused,
    and in that case it is the former map with [Directory[0]] NULL. *)
Lemma Push_refused_fails mem pm key val :
  WF pm -> Push_free pm key val -> Push_refused mem pm = true ->
  exists pm',
    _ObMap_Push mem pm key val = Some (false, pm', []) /\
    c pm' = c pm /\ Directory pm' = Directory pm /\
    fKey pm' = fKey pm /\ fObjectsOb pm' = fObjectsOb pm /\
    fObjectsLocalFree pm' = fObjectsLocalFree pm /\
    (Grow_table_refused mem pm = true -> pm' = Grow_Directory0_NULL pm) /\
    (Grow_table_refused mem pm = false -> WF pm') /\
    (c pm = cHashGrowThreshold pm -> mem Alloc_pdwNewAllocHashMap = false -> pm' = pm).
Proof.
  intros W (Hv & Hnov & Hnok & Hcap) Hmem.
  pose proof (WF_c_range pm W) as Hcr.
  assert (Hcap' : c pm < OB_MAP_TABLE_MAX_CAPACITY) by (pose proof (wf_c pm W); lia).
  unfold _ObMap_Push.
  destruct (Z.eqb_spec val 0) as [|_]; [contradiction|].
  assert (Ev : _ObMap_Exists pm true val = Some false).
  { apply Exists_false; auto. intros i Hi. rewrite key_of_live by auto. auto. }
  rewrite Ev. cbn [bind].
  assert (Ek : _ObMap_Exists pm false key = Some false).
  { destruct (fKey pm) eqn:Ek; [|now apply Exists_nokey].
    apply Exists_false; auto. intros i Hi. rewrite key_of_live by auto. auto. }
  rewrite Ek. cbn [bind].
  destruct (Z.eqb_spec (c pm) OB_MAP_TABLE_MAX_CAPACITY) as [|_]; [contradiction|].
  unfold Grow_table_refused.
  destruct (Push_refused_true mem pm Hmem)
    as [(Ethr & Hh)|[(Ethr & Hh & Hl & Hd)|(Hgr & Hal)]].
  - (* the new hash arrays are refused *)
    replace (c pm =? cHashGrowThreshold pm) with true by (symmetry; now apply Z.eqb_eq).
    unfold _ObMap_Grow. rewrite Hh. cbn [negb bind fst snd].
    exists pm. do 6 (split; [reflexivity|]). split; [|split].
    + rewrite andb_false_r. cbn [andb]. discriminate.
    + intros _. exact W.
    + reflexivity.
  - (* the first table is refused *)
    replace (c pm =? cHashGrowThreshold pm) with true by (symmetry; now apply Z.eqb_eq).
    unfold _ObMap_Grow. rewrite Hh, Hl, Hd.
    cbn [negb andb bind fst snd].
    exists (Grow_Directory0_NULL pm). do 6 (split; [reflexivity|]). split; [|split].
    + reflexivity.
    + discriminate.
    + intros _ H. rewrite H in Hh. discriminate.
  - (* the table or the store of the new entry is refused *)
    assert (Hgrow : exists pm1,
      (if c pm =? cHashGrowThreshold pm then _ObMap_Grow mem pm else Some (true, pm))
      = Some (true, pm1) /\ WF pm1 /\ c pm1 = c pm /\ Directory pm1 = Directory pm /\
      fKey pm1 = fKey pm /\ fObjectsOb pm1 = fObjectsOb pm /\
      fObjectsLocalFree pm1 = fObjectsLocalFree pm /\
      fst (Push_alloc mem pm1 (c pm)) = false).
    { destruct (Z.eqb_spec (c pm) (cHashGrowThreshold pm)) as [E|E].
      - destruct (Hgr E) as [Hh Hd].
        destruct (Grow_ok_mem mem pm W E Hcap' Hh Hd)
          as (pm1 & Eg & W1 & F1 & F2 & F3 & F4 & F5 & F6 & F7 & F8).
        exists pm1. repeat (split; [assumption|]).
        destruct (Grow_next_flags mem pm pm1 W E Eg) as [Gt Gs].
        rewrite Push_alloc_result, Gt, Gs, Hal. reflexivity.
      - exists pm. repeat (split; [reflexivity || assumption|]).
        rewrite Push_alloc_result, Hal. reflexivity. }
    destruct Hgrow as (pm1 & Eg & W1 & Fc & Fd & Fk & Fo & Fl & Hal1).
    rewrite Eg. cbn [bind fst snd negb]. cbv zeta. rewrite Hal1. cbn [negb].
    destruct (Push_alloc_fields mem pm1 (c pm))
      as (Ac & AN & AT & Am & Ak & Ao & Al & Ahk & Ahv & Aka).
    exists (snd (Push_alloc mem pm1 (c pm))).
    split; [reflexivity|]. split; [congruence|].
    split; [rewrite (Push_alloc_refused_Directory _ _ _ Hal1); exact Fd|].
    split; [congruence|]. split; [congruence|]. split; [congruence|]. split; [|split].
    + intros H. exfalso.
      apply andb_true_iff in H. destruct H as [H Hd0].
      apply andb_true_iff in H. destruct H as [H Hh0].
      apply andb_true_iff in H. destruct H as [Hc0 Hl0].
      apply Z.eqb_eq in Hc0. apply negb_true_iff in Hl0, Hd0.
      destruct (Hgr Hc0) as [_ Hd1]. rewrite (Hd1 Hl0) in Hd0. discriminate.
    + intros _. rewrite <- Fc. apply Push_alloc_WF. exact W1.
    + intros Hc0 Hh0. destruct (Hgr Hc0) as [Hh1 _]. rewrite Hh1 in Hh0. discriminate.
Qed.

(** What a push answers on any heap. *)
Lemma Push_result mem pm key val :
  WF pm ->
  exists b pm' calls,
    _ObMap_Push mem pm key val = Some (b, pm', calls) /\
    (b = false <-> Push_blocked pm key val \/ Push_refused mem pm = true) /\
    (b = false -> calls = []) /\
    (Push_blocked pm key val -> pm' = pm) /\
    (b = false ->
     c pm' = c pm /\ Directory pm' = Directory pm /\ fKey pm' = fKey pm /\
     fObjectsOb pm' = fObjectsOb pm /\ fObjectsLocalFree pm' = fObjectsLocalFree pm) /\
    (Grow_table_refused mem pm = false \/ Push_blocked pm key val -> WF pm').
Proof.
  intros W. destruct (Push_cases pm key val) as [Hb|Hf].
  - exists false, pm, []. split; [now apply Push_fail|].
    split; [split; auto|]. split; [reflexivity|]. split; [reflexivity|].
    split; [intros _; repeat split; reflexivity|]. intros _. exact W.
  - destruct (Push_refused mem pm) eqn:Hr.
    + destruct (Push_refused_fails mem pm key val W Hf Hr)
        as (pm' & E & Fc & Fd & Fk & Fo & Fl & _ & HW & _).
      exists false, pm', []. split; [exact E|].
      split; [split; auto|]. split; [reflexivity|]. split; [|split].
      * intros Hb. exfalso. exact (Push_blocked_free pm key val Hb Hf).
      * intros _. auto.
      * intros [H|Hb]; [now apply HW|].
        exfalso. exact (Push_blocked_free pm key val Hb Hf).
    + destruct Hf as (H1 & H2 & H3 & H4).
      destruct (Push_ok_mem mem pm key val W H1 H2 H3 H4 Hr) as (pm' & E & W' & _).
      exists true, pm', (if fObjectsOb pm then [Ob_INCREF val] else []).
      split; [exact E|]. split; [split; [discriminate|]|].
      * intros [Hb|Hd]; [|discriminate].
        exfalso. apply (Push_blocked_free pm key val Hb). repeat split; auto.
      * split; [discriminate|]. split; [|split; [discriminate|auto]].
        intros Hb. exfalso.
        apply (Push_blocked_free pm key val Hb). repeat split; auto.
Qed.

(** A failing push whose refusal is not that of the first table leaves a
    well-formed map with the same size and the same entries, in which every
    pair is retrievable as before. *)
Lemma Push_failed_kept mem pm key val pm' calls :
  WF pm -> _ObMap_Push mem pm key val = Some (false, pm', calls) ->
  Grow_table_refused mem pm = false \/ Push_blocked pm key val ->
  calls = [] /\ WF pm' /\ ObMap_Size pm' = ObMap_Size pm /\ entries pm' = entries pm /\
  forall i, live pm i -> pair_reachable pm' (k (Entry pm i)) (v (Entry pm i)).
Proof.
  intros W E Hok. pose proof (WF_c_range pm W) as Hcr.
  destruct (Push_result mem pm key val W)
    as (b & pm1 & calls1 & E1 & _ & Hcalls & _ & Hsame & HW).
  rewrite E1 in E. inversion E; subst b pm1 calls1; clear E.
  destruct (Hsame eq_refl) as (Fc & Fd & _).
  specialize (HW Hok).
  assert (Hent : forall i, Entry pm' i = Entry pm i) by (intros i; unfold Entry; now rewrite Fd).
  split; [now apply Hcalls|]. split; [exact HW|]. split; [|split].
  - unfold ObMap_Size. now rewrite Fc.
  - apply entries_ext; auto. lia.
  - intros i Hi. rewrite <- !Hent. apply reach_live; [exact HW|].
    unfold live in *. now rewrite Fc.
Qed.


(** C7, the claim as stated.  The unkeyed map [example_nokey] holds the key
    20 at the logical index 2.  The push of the key 20 with a value that the
    map does not hold succeeds: a map created with the no-key flag does not
    compare keys. *)
Lemma duplicate_key_nokey_counterexample :
  fKey example_nokey = false /\
  live example_nokey 2 /\ k (Entry example_nokey 2) = 20 /\
  exists pm',
    ObMap_Push heap_ok example_nokey 20 0xD0 = Some (true, pm', []) /\
    ObMap_Size pm' = ObMap_Size example_nokey + 1.
Proof.
  assert (Hk : fKey example_nokey = false) by (vm_compute; reflexivity).
  assert (Ho : fObjectsOb example_nokey = false) by (vm_compute; reflexivity).
  assert (Hc : c example_nokey = 4) by (vm_compute; reflexivity).
  assert (E1 : Entry example_nokey 1 = mkEntry 10 0xA0) by (vm_compute; reflexivity).
  assert (E2 : Entry example_nokey 2 = mkEntry 20 0xB0) by (vm_compute; reflexivity).
  assert (E3 : Entry example_nokey 3 = mkEntry 30 0xC0) by (vm_compute; reflexivity).
  split; [exact Hk|]. split; [unfold live; rewrite Hc; lia|].
  split; [now rewrite E2|].
  destruct (Push_ok example_nokey 20 0xD0 (map_of_list_WF _ _)) as (pm' & E & _ & Hc' & _).
  - discriminate.
  - intros i Hi. unfold live in Hi. rewrite Hc in Hi.
    assert (Hi' : i = 1 \/ i = 2 \/ i = 3) by lia.
    destruct Hi' as [-> | [-> | ->]]; rewrite ?E1, ?E2, ?E3; discriminate.
  - rewrite Hk. discriminate.
  - rewrite Hc. discriminate.
  - exists pm'. rewrite Ho in E. split; [exact E|].
    unfold ObMap_Size. rewrite Hc', Hc. reflexivity.
Qed.

(** C7, amended.  On a well-formed map and on every heap: a push of a null
    value, of a value that the map holds, of a key that a keyed map holds,
    or at the full count [2^25] returns FALSE and the map as it was, with
    no call on behalf of the value.  [ObMap_PushCopy] returns FALSE without
    any effect on a map that is not in the heap-owned mode, and whenever
    its inner push fails, for whatever reason, it frees the copy.  A push
    that fails because a request for memory is refused leaves the size, the
    entries and every mapping as they were, the growth that is refused its
    first table set aside. *)
Theorem failing_insertion_atomic mem pm key val :
  WF pm ->
  (Push_blocked pm key val -> ObMap_Push mem pm key val = Some (false, pm, [])) /\
  (fObjectsLocalFree pm = false ->
   ObMap_PushCopy mem pm key val = Some (false, pm, [])) /\
  (fObjectsLocalFree pm = true -> Push_blocked pm key val -> val <> 0 ->
   ObMap_PushCopy mem pm key val = Some (false, pm, [LocalFree val])) /\
  (fObjectsLocalFree pm = true -> val <> 0 ->
   forall pm' calls, ObMap_Push mem pm key val = Some (false, pm', calls) ->
     ObMap_PushCopy mem pm key val = Some (false, pm', [LocalFree val])) /\
  (forall pm' calls, ObMap_Push mem pm key val = Some (false, pm', calls) ->
     Grow_table_refused mem pm = false \/ Push_blocked pm key val ->
     calls = [] /\ WF pm' /\ ObMap_Size pm' = ObMap_Size pm /\
     entries pm' = entries pm /\
     forall i, live pm i -> pair_reachable pm' (k (Entry pm i)) (v (Entry pm i))).
Proof.
  intros W. unfold ObMap_Push, ObMap_PushCopy.
  split; [now apply Push_fail|]. split; [|split; [|split]].
  - intros Hl. unfold _ObMap_PushCopy. now rewrite Hl.
  - intros Hl Hb Hv. unfold _ObMap_PushCopy. rewrite Hl. cbn [negb].
    destruct (Z.eqb_spec val 0); [contradiction|].
    rewrite (Push_fail pm key val W Hb). reflexivity.
  - intros Hl Hv pm' calls E. unfold _ObMap_PushCopy. rewrite Hl. cbn [negb].
    destruct (Z.eqb_spec val 0); [contradiction|].
    destruct (Push_result mem pm key val W) as (b & pm1 & calls1 & E1 & _ & Hcalls & _).
    rewrite E1 in E. inversion E; subst b pm1 calls1; clear E.
    rewrite E1, (Hcalls eq_refl). reflexivity.
  - intros pm' calls E Hok. now apply (Push_failed_kept mem pm key val pm' calls).
Qed.

Lemma failing_insertion_atomic_witness :
  ObMap_Push heap_no_hashmap example_map 20 0xD0 = Some (false, example_map, []).
Proof.
  apply (proj1 (failing_insertion_atomic heap_no_hashmap example_map 20 0xD0
                  (map_of_list_WF _ _))).
  right. right. left. split; [reflexivity|].
  exists 2. split; [|reflexivity]. unfold live. split; [lia|reflexivity].
Defined.

(** ** What a removal leaves *)

Lemma removal_post_ok pm pm' i :
  WF pm -> live pm i -> WF pm' -> c pm' = c pm - 1 -> same_shape pm pm' ->
  (forall j, 1 <= j < c pm - 1 ->
             Entry pm' j = if j =? i then Entry pm (c pm - 1) else Entry pm j) ->
  removal_post pm pm' i.
Proof.
  intros W Hi W' Hc Hss Hent.
  pose proof (WF_c_range pm W) as Hcr. pose proof Hi as [Hi1 Hi2].
  assert (Hsel : forall j, live pm' j ->
                           exists j', live pm j' /\ j' <> i /\ Entry pm' j = Entry pm j').
  { intros j Hj. unfold live in Hj. rewrite Hc in Hj. rewrite (Hent j Hj).
    destruct (Z.eqb_spec j i).
    - exists (c pm - 1). unfold live. repeat split; lia.
    - exists j. unfold live. repeat split; auto; lia. }
  split; [|split; [|split]].
  - unfold ObMap_Size. rewrite Hc. rewrite !dw_small by lia. reflexivity.
  - apply unreach_value; auto. intros j Hj E.
    destruct (Hsel j Hj) as (j' & Hl & Hne & E'). rewrite E' in E.
    apply Hne. now apply (wf_value_uniq pm W).
  - apply unreach_key; auto. destruct (fKey pm') eqn:Ek; [right|now left].
    rewrite (ss_fKey _ _ Hss) in Ek.
    intros j Hj E. destruct (Hsel j Hj) as (j' & Hl & Hne & E'). rewrite E' in E.
    apply Hne. now apply (wf_key_uniq pm W Ek).
  - intros j Hj Hne.
    assert (exists j', live pm' j' /\ Entry pm' j' = Entry pm j) as (j' & Hl' & E').
    { destruct Hj as [Hj1 Hj2]. destruct (Z.eq_dec j (c pm - 1)) as [->|Hlast].
      - exists i. split; [unfold live; lia|]. rewrite Hent by lia.
        now rewrite Z.eqb_refl.
      - exists j. split; [unfold live; lia|]. rewrite Hent by lia.
        destruct (Z.eqb_spec j i); [contradiction|reflexivity]. }
    rewrite <- E'. now apply reach_live.
Qed.

(** ** Popping *)

Lemma read_entries_snoc pm : forall n i0,
  0 <= i0 -> i0 + Z.of_nat n < 2 ^ 32 ->
  read_entries (S n) pm i0 = read_entries n pm i0 ++ [Entry pm (i0 + Z.of_nat n)].
Proof.
  induction n as [|n IH]; intros i0 Hi0 Hn.
  - cbn. now rewrite Z.add_0_r.
  - change (read_entries (S (S n)) pm i0)
      with (Entry pm i0 :: read_entries (S n) pm (dw (i0 + 1))).
    rewrite dw_small by lia. rewrite IH by lia.
    cbn [read_entries app]. rewrite dw_small by lia.
    replace (i0 + Z.of_nat (S n)) with (i0 + 1 + Z.of_nat n) by lia. reflexivity.
Qed.

Lemma entries_last pm :
  1 < c pm <= 2 ^ 25 ->
  entries pm = read_entries (Z.to_nat (c pm - 2)) pm 1 ++ [Entry pm (c pm - 1)].
Proof.
  intros Hc. unfold entries.
  replace (Z.to_nat (c pm - 1)) with (S (Z.to_nat (c pm - 2))) by lia.
  rewrite read_entries_snoc by lia.
  replace (1 + Z.of_nat (Z.to_nat (c pm - 2))) with (c pm - 1) by lia. reflexivity.
Qed.

Lemma Pop_ok pm :
  WF pm -> 1 < c pm ->
  exists pm',
    ObMap_Pop pm = Some (v (Entry pm (c pm - 1)), pm') /\
    ObMap_PopWithKey pm
    = Some (Some (v (Entry pm (c pm - 1)), k (Entry pm (c pm - 1))), pm') /\
    WF pm' /\ c pm' = c pm - 1 /\ Directory pm' = Directory pm /\
    entries pm' = removelast (entries pm) /\
    removal_post pm pm' (c pm - 1).
Proof.
  intros W Hc. pose proof (WF_c_range pm W) as Hcr.
  assert (Hlast : live pm (c pm - 1)) by (unfold live; lia).
  destruct (RetrieveAndRemove_ok pm (c pm - 1) W Hlast)
    as (pm' & E & W' & Hc' & Hss & Hent & Hd).
  specialize (Hd eq_refl).
  exists pm'. unfold ObMap_Pop, ObMap_PopWithKey. rewrite dw_small by lia. rewrite E.
  cbn [bind fst snd removed_value].
  do 5 (split; [auto|]). split.
  - rewrite (entries_last pm) by lia. rewrite removelast_last.
    unfold entries. rewrite Hc'. replace (c pm - 1 - 1) with (c pm - 2) by lia.
    apply read_entries_ext; try lia. intros i _. unfold Entry. now rewrite Hd.
  - now apply removal_post_ok.
Qed.

Lemma Pop_empty pm : c pm = 1 -> ObMap_Pop pm = Some (0, pm).
Proof.
  intros Hc. unfold ObMap_Pop, _ObMap_RetrieveAndRemoveByEntryIndex. rewrite Hc.
  change (dw (1 - 1)) with 0. now rewrite GetFromIndex_dead by auto.
Qed.

Lemma Pop_until_empty_ok : forall n pm,
  WF pm -> c pm - 1 = Z.of_nat n ->
  Pop_until_empty (S n) pm = Some (rev (map v (entries pm))).
Proof.
  induction n as [|n IH]; intros pm W Hn.
  - cbn [Pop_until_empty]. rewrite Pop_empty by lia. cbn [bind fst].
    unfold entries. replace (Z.to_nat (c pm - 1)) with 0%nat by lia. reflexivity.
  - pose proof (WF_c_range pm W) as Hcr.
    destruct (Pop_ok pm W) as (pm' & E & _ & W' & Hc' & _ & Hl & _); [lia|].
    change (Pop_until_empty (S (S n)) pm)
      with (r <- ObMap_Pop pm ;;
            if fst r =? 0 then Some []
            else l <- Pop_until_empty (S n) (snd r) ;; Some (fst r :: l)).
    rewrite E. cbn [bind fst snd].
    destruct (Z.eqb_spec (v (Entry pm (c pm - 1))) 0) as [Ez|_].
    { exfalso. revert Ez. apply (wf_value_nz pm W). unfold live. lia. }
    rewrite IH by (auto; lia). cbn [bind].
    rewrite Hl, (entries_last pm) by lia.
    rewrite removelast_last, map_app, rev_app_distr. reflexivity.
Qed.

(** C8. On a non-empty map [ObMap_Pop] and [ObMap_PopWithKey] remove
    exactly the entry at the last logical index: they return its value (and
    key), the map they leave is well formed and one entry smaller, neither
    the value lookup nor the key lookup reaches the popped pair any more,
    and every other pair is still retrievable; the entry storage is not
    written (no swap), and the remaining entries keep their order.  Popping
    until the map is empty yields the values in the reverse of their
    logical order, as many as the map held. *)
Theorem ObMap_Pop_correct pm :
  WF pm ->
  (1 <= ObMap_Size pm ->
   exists pm',
     ObMap_Pop pm = Some (v (Entry pm (c pm - 1)), pm') /\
     ObMap_PopWithKey pm
     = Some (Some (v (Entry pm (c pm - 1)), k (Entry pm (c pm - 1))), pm') /\
     Directory pm' = Directory pm /\
     ObMap_Size pm' = ObMap_Size pm - 1 /\
     entries pm' = removelast (entries pm) /\
     WF pm' /\
     value_unreachable pm' (v (Entry pm (c pm - 1))) /\
     key_unreachable pm' (k (Entry pm (c pm - 1))) /\
     (forall j, live pm j -> j <> c pm - 1 ->
                pair_reachable pm' (k (Entry pm j)) (v (Entry pm j)))) /\
  Pop_until_empty (S (Z.to_nat (ObMap_Size pm))) pm = Some (rev (map v (entries pm))) /\
  length (rev (map v (entries pm))) = Z.to_nat (ObMap_Size pm).
Proof.
  intros W. pose proof (WF_c_range pm W) as Hcr.
  unfold ObMap_Size. rewrite (dw_small (c pm - 1)) by lia.
  split; [|split].
  - intros Hs.
    destruct (Pop_ok pm W) as (pm' & E1 & E2 & W' & Hc' & Hd & Hl & Hpost); [lia|].
    destruct Hpost as (_ & Hv & Hk & Hrest).
    exists pm'. do 3 (split; [assumption|]).
    split; [rewrite Hc'; rewrite dw_small by lia; reflexivity|].
    split; [exact Hl|]. split; [exact W'|]. split; [exact Hv|]. split; [exact Hk|].
    exact Hrest.
  - apply Pop_until_empty_ok; auto. lia.
  - rewrite length_rev, length_map. apply entries_length.
Qed.

Lemma ObMap_Pop_correct_witness :
  Pop_until_empty (S (Z.to_nat (ObMap_Size example_map))) example_map
  = Some [0xC0; 0xB0; 0xA0].
Proof.
  rewrite (proj1 (proj2 (ObMap_Pop_correct example_map (map_of_list_WF _ _)))).
  reflexivity.
Defined.

(** ** Removal through the public interface *)

(** C1. Removing a live entry by its value ([ObMap_Remove]) or, in keyed
    mode, by its key ([ObMap_RemoveByKey]) returns its value; afterwards
    neither the value lookup nor the key lookup reaches it, the size is one
    less, and every other pair is still retrievable with its key and value.
    Removing a value or a key that the map does not hold returns the null
    handle and leaves the map as it was. *)
Theorem ObMap_Remove_correct pm :
  WF pm ->
  (forall i, live pm i ->
     (exists pm', ObMap_Remove pm (v (Entry pm i)) = Some (v (Entry pm i), pm') /\
                  removal_post pm pm' i) /\
     (fKey pm = true ->
      exists pm', ObMap_RemoveByKey pm (k (Entry pm i)) = Some (v (Entry pm i), pm') /\
                  removal_post pm pm' i)) /\
  (forall val, (forall i, live pm i -> v (Entry pm i) <> val) ->
               ObMap_Remove pm val = Some (0, pm)) /\
  (forall key, fKey pm = false \/ (forall i, live pm i -> k (Entry pm i) <> key) ->
               ObMap_RemoveByKey pm key = Some (0, pm)).
Proof.
  intros W. split; [|split].
  - intros i Hi.
    destruct (RetrieveAndRemove_ok pm i W Hi) as (pm' & E & W' & Hc & Hss & Hent & _).
    assert (Hpost : removal_post pm pm' i) by now apply removal_post_ok.
    split.
    + exists pm'. split; [|exact Hpost]. unfold ObMap_Remove.
      rewrite <- (key_of_live pm true i Hi) at 1.
      rewrite RemoveOrRemoveByKey_found, E by auto. reflexivity.
    + intros Hk. exists pm'. split; [|exact Hpost]. unfold ObMap_RemoveByKey.
      rewrite <- (key_of_live pm false i Hi).
      rewrite RemoveOrRemoveByKey_found, E by auto. reflexivity.
  - intros val Hno. unfold ObMap_Remove.
    rewrite RemoveOrRemoveByKey_absent; auto.
    intros i Hi. rewrite key_of_live by auto. auto.
  - intros key [Hk|Hno]; unfold ObMap_RemoveByKey.
    + now rewrite RemoveOrRemoveByKey_nokey.
    + rewrite RemoveOrRemoveByKey_absent; auto.
      intros i Hi. rewrite key_of_live by auto. auto.
Qed.

Lemma ObMap_Remove_correct_witness :
  exists pm', ObMap_RemoveByKey example_map 20 = Some (0xB0, pm') /\
              removal_post example_map pm' 2.
Proof.
  assert (Hl : live example_map 2) by (unfold live; split; [lia|reflexivity]).
  exact (proj2 (proj1 (ObMap_Remove_correct example_map (map_of_list_WF _ _)) 2 Hl)
               eq_refl).
Defined.

(** ** Pushes and the list of entries *)

Lemma Push_entries pm key val pm' :
  WF pm -> c pm' = c pm + 1 -> c pm < 2 ^ 25 ->
  Entry pm' (c pm) = mkEntry key val ->
  (forall j, live pm j -> Entry pm' j = Entry pm j) ->
  entries pm' = entries pm ++ [mkEntry key val].
Proof.
  intros W Hc Hcap Hnew Hold. pose proof (WF_c_range pm W) as Hcr.
  rewrite (entries_last pm') by lia.
  rewrite Hc. replace (c pm + 1 - 2) with (c pm - 1) by lia.
  replace (c pm + 1 - 1) with (c pm) by lia. rewrite Hnew. f_equal.
  unfold entries. apply read_entries_ext; try lia.
  intros i Hi. apply Hold. unfold live. lia.
Qed.

Lemma Push_list_ok : forall l pm,
  WF pm ->
  exists pm' ok,
    Push_list l pm = Some (pm', ok) /\ WF pm' /\ fKey pm' = fKey pm /\
    entries pm' = entries pm ++ map entry_of ok.
Proof.
  induction l as [|[key val] l IH]; intros pm W.
  - exists pm, []. cbn. rewrite app_nil_r. auto.
  - cbn [Push_list]. unfold ObMap_Push.
    destruct (Push_cases pm key val) as [Hb|(H1 & H2 & H3 & H4)].
    + rewrite (Push_fail pm key val W Hb). cbn [bind fst snd].
      destruct (IH pm W) as (pm' & ok & E & W' & Hk & Hl).
      rewrite E. cbn [bind fst snd]. exists pm', ok. auto.
    + destruct (Push_ok pm key val W H1 H2 H3 H4)
        as (pm1 & E1 & W1 & Hc1 & Hnew & Hold & Hk1 & _).
      rewrite E1. cbn [bind fst snd].
      destruct (IH pm1 W1) as (pm' & ok & E & W' & Hk & Hl).
      rewrite E. cbn [bind fst snd]. exists pm', ((key, val) :: ok).
      split; [reflexivity|]. split; [auto|]. split; [congruence|].
      rewrite Hl, (Push_entries pm key val pm1); auto.
      * rewrite <- app_assoc. reflexivity.
      * pose proof (wf_c pm W). change OB_MAP_TABLE_MAX_CAPACITY with (2 ^ 25) in *. lia.
Qed.

Lemma In_entries_reachable pm key val :
  WF pm -> In (mkEntry key val) (entries pm) -> pair_reachable pm key val.
Proof.
  intros W H. pose proof (WF_c_range pm W) as Hcr.
  apply entries_In in H; [|lia]. destruct H as (i & Hi & E).
  pose proof (reach_live pm i W Hi) as Hr. now rewrite E in Hr.
Qed.

Lemma Size_entries pm : WF pm -> ObMap_Size pm = Z.of_nat (length (entries pm)).
Proof.
  intros W. pose proof (WF_c_range pm W) as Hcr.
  unfold ObMap_Size. rewrite dw_small by lia. rewrite entries_length. lia.
Qed.

(** Pairs with distinct non-null values and, in keyed mode, distinct keys,
    none of them in the map, are all pushed while there is room. *)
Lemma Push_list_distinct : forall l pm,
  WF pm -> NoDup (map snd l) ->
  (forall p, In p l -> snd p <> 0 /\ forall i, live pm i -> v (Entry pm i) <> snd p) ->
  (fKey pm = true ->
   NoDup (map fst l) /\
   forall p, In p l -> forall i, live pm i -> k (Entry pm i) <> fst p) ->
  c pm + Z.of_nat (length l) <= 2 ^ 25 ->
  exists pm', Push_list l pm = Some (pm', l).
Proof.
  induction l as [|[key val] l IH]; intros pm W Hnd Hv Hk Hroom.
  - exists pm. reflexivity.
  - cbn [Push_list]. unfold ObMap_Push. cbn [length] in Hroom.
    destruct (Hv (key, val)) as [Hv0 Hvn]; [now left|]. cbn [snd] in *.
    destruct (Push_ok pm key val W Hv0 Hvn)
      as (pm1 & E1 & W1 & Hc1 & Hnew & Hold & Hk1 & _).
    { intros Hkey i Hi. destruct (Hk Hkey) as [_ Hkn]. apply (Hkn (key, val)); auto.
      now left. }
    { change OB_MAP_TABLE_MAX_CAPACITY with (2 ^ 25). lia. }
    rewrite E1. cbn [bind fst snd].
    assert (Hsel : forall i, live pm1 i ->
              (live pm i /\ Entry pm1 i = Entry pm i) \/ Entry pm1 i = mkEntry key val).
    { intros i Hi. unfold live in Hi. rewrite Hc1 in Hi.
      destruct (Z.eq_dec i (c pm)) as [->|]; [right; auto|].
      left. assert (live pm i) by (unfold live; lia). auto. }
    inversion Hnd as [|? ? Hnin Hnd']; subst.
    destruct (IH pm1 W1 Hnd') as (pm' & E); try lia.
    + intros p Hp. destruct (Hv p) as [Hp0 Hpn]; [now right|]. split; [auto|].
      intros i Hi. destruct (Hsel i Hi) as [[Hl ->]| ->]; [auto|]. cbn.
      intros ->. apply Hnin. now apply in_map.
    + rewrite Hk1. intros Hkey. destruct (Hk Hkey) as [Hndk Hkn].
      inversion Hndk as [|? ? Hnink Hndk']; subst. split; [auto|].
      intros p Hp i Hi. destruct (Hsel i Hi) as [[Hl ->]| ->].
      * apply Hkn; auto. now right.
      * cbn. intros ->. apply Hnink. now apply in_map.
    + rewrite E. cbn [bind fst snd]. eauto.
Qed.

(** ** The largest map *)

Lemma Push_range_ok : forall n from pm,
  WF pm -> c pm = from ->
  (forall i, live pm i -> Entry pm i = mkEntry i i) ->
  from + Z.of_nat n <= 2 ^ 25 ->
  exists pm', Push_range n from pm = Some pm' /\ WF pm' /\
              c pm' = from + Z.of_nat n /\ fKey pm' = fKey pm /\
              (forall i, live pm' i -> Entry pm' i = mkEntry i i).
Proof.
  induction n as [|n IH]; intros from pm W Hc Hent Hroom.
  - exists pm. split; [reflexivity|]. split; [auto|]. split; [lia|]. auto.
  - cbn [Push_range]. unfold ObMap_Push. pose proof (WF_c_range pm W) as Hcr.
    destruct (Push_ok pm from from W)
      as (pm1 & E1 & W1 & Hc1 & Hnew & Hold & Hk1 & _).
    { lia. }
    { intros i Hi. rewrite Hent by auto. cbn. unfold live in Hi. lia. }
    { intros _ i Hi. rewrite Hent by auto. cbn. unfold live in Hi. lia. }
    { change OB_MAP_TABLE_MAX_CAPACITY with (2 ^ 25). lia. }
    rewrite E1. cbn [bind fst snd].
    destruct (IH (from + 1) pm1 W1) as (pm' & E & W' & Hc' & Hk' & Hent'); try lia.
    + intros i Hi. unfold live in Hi. rewrite Hc1 in Hi.
      destruct (Z.eq_dec i (c pm)) as [->|]; [now rewrite Hnew, Hc|].
      rewrite Hold by (unfold live; lia). apply Hent. unfold live. lia.
    + exists pm'. split; [exact E|]. split; [auto|]. split; [lia|]. split; [congruence|auto].
Qed.

Lemma full_map_spec :
  WF full_map /\ c full_map = 2 ^ 25 /\ fKey full_map = true /\
  (forall i, live full_map i -> Entry full_map i = mkEntry i i).
Proof.
  destruct (Push_range_ok (Z.to_nat (2 ^ 25 - 1)) 1 (ObMap_New_init 0)
              (ObMap_New_init_WF 0))
    as (pm' & E & W' & Hc' & Hk' & Hent').
  - reflexivity.
  - intros i Hi. unfold live in Hi. cbn in Hi. lia.
  - rewrite Z2Nat.id by lia. lia.
  - unfold full_map. rewrite E. cbn [map_or]. rewrite Z2Nat.id in Hc' by lia.
    split; [auto|]. split; [rewrite Hc'; lia|]. split; [rewrite Hk'; reflexivity|auto].
Qed.


(** ** Insertion through the public interface *)

Lemma Push_success_mem mem pm key val :
  WF pm -> Push_free pm key val -> Push_refused mem pm = false ->
  exists pm' calls,
    ObMap_Push mem pm key val = Some (true, pm', calls) /\ WF pm' /\
    ObMap_Size pm' = ObMap_Size pm + 1 /\ pair_reachable pm' key val.
Proof.
  intros W (H1 & H2 & H3 & H4) Hmem. pose proof (WF_c_range pm W) as Hcr.
  assert (HMAX : OB_MAP_TABLE_MAX_CAPACITY = 2 ^ 25) by reflexivity.
  destruct (Push_ok_mem mem pm key val W H1 H2 H3 H4 Hmem) as (pm' & E & W' & Hc & Hnew & _).
  exists pm', (if fObjectsOb pm then [Ob_INCREF val] else []).
  split; [exact E|]. split; [exact W'|]. split.
  - unfold ObMap_Size. rewrite Hc, !dw_small by lia. lia.
  - assert (Hl : live pm' (c pm)) by (unfold live; lia).
    pose proof (reach_live pm' (c pm) W' Hl) as Hr. now rewrite Hnew in Hr.
Qed.

Lemma Push_success pm key val :
  WF pm -> Push_free pm key val ->
  exists pm' calls,
    ObMap_Push heap_ok pm key val = Some (true, pm', calls) /\ WF pm' /\
    ObMap_Size pm' = ObMap_Size pm + 1 /\ pair_reachable pm' key val.
Proof. intros W Hf. apply Push_success_mem; auto using Push_refused_heap_ok. Qed.

(** The refusals that a heap answers at the grow threshold. *)
Lemma Push_refused_hashmap mem pm :
  c pm = cHashGrowThreshold pm -> mem Alloc_pdwNewAllocHashMap = false ->
  Push_refused mem pm = true.
Proof.
  intros Hc Hh. unfold Push_refused. rewrite Hh.
  apply Z.eqb_eq in Hc. rewrite Hc. reflexivity.
Qed.

Lemma Push_refused_table0 mem pm :
  c pm = cHashGrowThreshold pm -> fLargeMode pm = false ->
  mem Alloc_pdwNewAllocHashMap = true -> mem Alloc_Directory0 = false ->
  Grow_table_refused mem pm = true /\ Push_refused mem pm = true.
Proof.
  intros Hc Hl Hh Hd. unfold Grow_table_refused, Push_refused. rewrite Hh, Hd, Hl.
  apply Z.eqb_eq in Hc. rewrite Hc. split; reflexivity.
Qed.

Lemma forallb_entries pm (f : OB_MAP_ENTRY -> bool) :
  c pm <= 2 ^ 25 -> forallb f (entries pm) = true ->
  forall i, live pm i -> f (Entry pm i) = true.
Proof.
  intros Hc Hall i Hi. apply (proj1 (forallb_forall f (entries pm)) Hall).
  apply entries_In; [exact Hc|]. exists i. auto.
Qed.

(** The map at the threshold, and a pair that it can take. *)
Lemma example_threshold_free :
  WF example_threshold /\ c example_threshold = 192 /\
  cHashGrowThreshold example_threshold = 192 /\ fLargeMode example_threshold = false /\
  Push_free example_threshold 1000 1000.
Proof.
  assert (W : WF example_threshold) by apply map_of_list_WF.
  assert (Hc : c example_threshold = 192) by (vm_compute; reflexivity).
  assert (Ht : cHashGrowThreshold example_threshold = 192) by (vm_compute; reflexivity).
  assert (Hl : fLargeMode example_threshold = false) by (vm_compute; reflexivity).
  assert (Hall : forallb (fun e => negb (v e =? 1000) && negb (k e =? 1000))
                         (entries example_threshold) = true) by (vm_compute; reflexivity).
  assert (Hle : c example_threshold <= 2 ^ 25) by (rewrite Hc; lia).
  assert (Hno : forall i, live example_threshold i ->
                          v (Entry example_threshold i) <> 1000 /\
                          k (Entry example_threshold i) <> 1000).
  { intros i Hi.
    pose proof (forallb_entries example_threshold _ Hle Hall i Hi) as H.
    revert H. generalize (Entry example_threshold i). intros e H.
    apply andb_true_iff in H. destruct H as [H1 H2].
    apply negb_true_iff in H1, H2. split; apply Z.eqb_neq; assumption. }
  split; [exact W|]. split; [exact Hc|]. split; [exact Ht|]. split; [exact Hl|].
  unfold Push_free.
  split; [discriminate|]. split; [|split].
  - intros i Hi. exact (proj1 (Hno i Hi)).
  - intros _ i Hi. exact (proj2 (Hno i Hi)).
  - rewrite Hc. discriminate.
Qed.

Lemma entries_empty pm : c pm = 1 -> entries pm = [].
Proof. intros H. unfold entries. rewrite H. reflexivity. Qed.

Lemma Push_list_from_empty l pm :
  WF pm -> c pm = 1 ->
  exists pm' ok,
    Push_list l pm = Some (pm', ok) /\ WF pm' /\
    ObMap_Size pm' = Z.of_nat (length ok) /\
    (forall key val, In (key, val) ok -> pair_reachable pm' key val) /\
    (forall key val, pair_reachable pm' key val -> In (key, val) ok).
Proof.
  intros W Hc.
  destruct (Push_list_ok l pm W) as (pm' & ok & E & W' & _ & Hent).
  rewrite (entries_empty pm Hc) in Hent. cbn [app] in Hent.
  exists pm', ok. split; [exact E|]. split; [exact W'|]. split; [|split].
  - rewrite (Size_entries pm' W'), Hent. now rewrite length_map.
  - intros key val Hin. apply In_entries_reachable; auto. rewrite Hent.
    apply in_map_iff. exists (key, val). auto.
  - intros key val (Hex & Hkey & _).
    pose proof (WF_c_range pm' W') as Hcr.
    destruct (live_dec pm' true val) as [(i & Hi & Ei)|Hno].
    + rewrite key_of_live in Ei by auto.
      pose proof (reach_live pm' i W' Hi) as (_ & Hk' & _).
      rewrite Ei, Hkey in Hk'. inversion Hk' as [Hk2].
      assert (Hin : In (Entry pm' i) (entries pm')).
      { apply entries_In; [lia|]. exists i. auto. }
      rewrite Hent in Hin. apply in_map_iff in Hin. destruct Hin as ([k1 v1] & E1 & Hin).
      unfold entry_of in E1. cbn [fst snd] in E1.
      destruct (Entry pm' i) as [k2 v2] eqn:Ee. cbn [k v] in *.
      inversion E1; subst. exact Hin.
    + assert (Hf : ObMap_Exists pm' val = Some false).
      { apply Exists_false; auto. }
      rewrite Hf in Hex. discriminate.
Qed.


(** C2, the claim as stated.  The map [full_map] holds [2^25 - 1] live
    entries, so its live-entry count has not reached [2^25]; the value
    [2^25] is not null and neither it nor the key [2^25] is in the map;
    yet the push fails, because the logical count [c] equals [2^25].  The
    map [example_threshold] holds 191 entries, none with the key or the
    value 1000; yet the push of that pair fails when the request for the
    new hash arrays is refused. *)
Lemma ObMap_Push_fails_counterexample :
  (ObMap_Size full_map = 2 ^ 25 - 1 /\
   ObMap_Push heap_ok full_map (2 ^ 25) (2 ^ 25) = Some (false, full_map, []) /\
   ~ Push_blocked_by_size full_map (2 ^ 25) (2 ^ 25)) /\
  (ObMap_Size example_threshold = 191 /\
   ObMap_Push heap_no_hashmap example_threshold 1000 1000
   = Some (false, example_threshold, []) /\
   ~ Push_blocked_by_size example_threshold 1000 1000).
Proof.
  split.
  - destruct full_map_spec as (W & Hc & Hk & Hent).
    assert (Hs : ObMap_Size full_map = 2 ^ 25 - 1).
    { unfold ObMap_Size. rewrite Hc. reflexivity. }
    split; [exact Hs|]. split.
    + apply Push_fail; [exact W|]. right. right. right. exact Hc.
    + intros [H|[(_ & i & Hi & E)|[(i & Hi & E)|H]]].
      * discriminate H.
      * rewrite (Hent i Hi) in E. cbn [k] in E. unfold live in Hi. rewrite Hc in Hi. lia.
      * rewrite (Hent i Hi) in E. cbn [v] in E. unfold live in Hi. rewrite Hc in Hi. lia.
      * rewrite Hs in H. lia.
  - destruct example_threshold_free as (W & Hc & Ht & Hl & Hf).
    assert (Hs : ObMap_Size example_threshold = 191).
    { unfold ObMap_Size. rewrite Hc. reflexivity. }
    assert (Hthr : c example_threshold = cHashGrowThreshold example_threshold)
      by (rewrite Hc, Ht; reflexivity).
    split; [exact Hs|]. split.
    + destruct (Push_refused_fails heap_no_hashmap example_threshold 1000 1000 W Hf)
        as (pm' & E & _ & _ & _ & _ & _ & _ & _ & Hsame).
      { exact (Push_refused_hashmap heap_no_hashmap example_threshold Hthr eq_refl). }
      rewrite (Hsame Hthr eq_refl) in E. exact E.
    + destruct Hf as (_ & Hv & Hk & _).
      intros [H|[(Ek & i & Hi & E)|[(i & Hi & E)|H]]].
      * discriminate H.
      * exact (Hk Ek i Hi E).
      * exact (Hv i Hi E).
      * rewrite Hs in H. lia.
Qed.

(** C2, amended.  On a well-formed map and on every heap [ObMap_Push] fails
    exactly when the value is null, or the value is present, or the map is
    keyed and the key is present, or the logical count [c] (one more than
    the number of live entries) equals [2^25], or an allocation that the
    push requests is refused; in the first four cases it returns the map
    unchanged.  Otherwise it succeeds, the size grows by one and the new
    pair is retrievable by value and, in keyed mode, by key.  For every
    sequence of pushes into an empty map with every allocation granted, the
    size equals the number of successful pushes and exactly the pairs
    pushed with success are retrievable; when the values are distinct and
    not null, the keys are distinct in keyed mode and the sequence has
    fewer than [2^25] pairs, every push succeeds. *)
Theorem ObMap_Push_correct mem pm key val :
  WF pm ->
  (Push_blocked pm key val \/ Push_refused mem pm = true <->
   exists pm' calls, ObMap_Push mem pm key val = Some (false, pm', calls)) /\
  (Push_blocked pm key val -> ObMap_Push mem pm key val = Some (false, pm, [])) /\
  (~ Push_blocked pm key val -> Push_refused mem pm = false ->
   exists pm' calls,
     ObMap_Push mem pm key val = Some (true, pm', calls) /\
     ObMap_Size pm' = ObMap_Size pm + 1 /\ pair_reachable pm' key val) /\
  (c pm = 1 ->
   forall l, exists pm' ok,
     Push_list l pm = Some (pm', ok) /\
     ObMap_Size pm' = Z.of_nat (length ok) /\
     (forall key' val', In (key', val') ok <-> pair_reachable pm' key' val') /\
     (NoDup (map snd l) -> (forall p, In p l -> snd p <> 0) ->
      (fKey pm = true -> NoDup (map fst l)) ->
      Z.of_nat (length l) < 2 ^ 25 -> ok = l)).
Proof.
  intros W.
  split; [|split; [|split]].
  - unfold ObMap_Push.
    destruct (Push_result mem pm key val W) as (b & pm1 & calls1 & E1 & Hiff & _).
    split.
    + intros H. apply Hiff in H. subst b. exists pm1, calls1. exact E1.
    + intros (pm' & calls & E). rewrite E1 in E. inversion E; subst. now apply Hiff.
  - intros Hb. now apply Push_fail.
  - intros Hnb Hmem. destruct (Push_cases pm key val) as [Hb|Hf]; [contradiction|].
    destruct (Push_success_mem mem pm key val W Hf Hmem) as (pm' & calls & E & _ & Hs & Hr).
    exists pm', calls. auto.
  - intros Hc l.
    destruct (Push_list_from_empty l pm W Hc) as (pm' & ok & E & W' & Hs & Hin & Hout).
    exists pm', ok. split; [exact E|]. split; [exact Hs|]. split.
    + intros key' val'. split; [apply Hin|apply Hout].
    + intros Hnd Hnz Hndk Hlen.
      assert (Hnone : forall i, ~ live pm i) by (intros i Hi; unfold live in Hi; lia).
      destruct (Push_list_distinct l pm W Hnd) as (pm2 & E2).
      * intros p Hp. split; [now apply Hnz|]. intros i Hi. now apply Hnone in Hi.
      * intros Hk. split; [now apply Hndk|]. intros p Hp i Hi. now apply Hnone in Hi.
      * lia.
      * rewrite E2 in E. now inversion E.
Qed.

Lemma ObMap_Push_correct_witness :
  exists pm' calls,
    ObMap_Push heap_no_table0 example_map 40 0xD0 = Some (true, pm', calls) /\
    ObMap_Size pm' = ObMap_Size example_map + 1 /\ pair_reachable pm' 40 0xD0.
Proof.
  assert (Hc : c example_map = 4) by (vm_compute; reflexivity).
  assert (Hr : Push_refused heap_no_table0 example_map = false)
    by (vm_compute; reflexivity).
  apply (proj1 (proj2 (proj2 (ObMap_Push_correct heap_no_table0 example_map 40 0xD0
                                (map_of_list_WF _ _))))); [|exact Hr].
  intros Hb. apply (Push_blocked_free _ _ _ Hb). unfold Push_free.
  assert (Hl : forall i, live example_map i -> i = 1 \/ i = 2 \/ i = 3).
  { intros i Hi. unfold live in Hi. rewrite Hc in Hi. lia. }
  assert (E1 : Entry example_map 1 = mkEntry 10 0xA0) by (vm_compute; reflexivity).
  assert (E2 : Entry example_map 2 = mkEntry 20 0xB0) by (vm_compute; reflexivity).
  assert (E3 : Entry example_map 3 = mkEntry 30 0xC0) by (vm_compute; reflexivity).
  split; [discriminate|]. split; [|split].
  - intros i Hi. destruct (Hl i Hi) as [-> | [-> | ->]]; rewrite ?E1, ?E2, ?E3; discriminate.
  - intros _ i Hi. destruct (Hl i Hi) as [-> | [-> | ->]]; rewrite ?E1, ?E2, ?E3; discriminate.
  - rewrite Hc. discriminate.
Defined.


(** ** Growth through the public interface *)

Lemma threshold_below_capacity pm :
  WF pm -> c pm = cHashGrowThreshold pm -> c pm < OB_MAP_TABLE_MAX_CAPACITY.
Proof.
  intros W Hthr. pose proof (wf_c pm W) as Hc.
  destruct (wf_grow pm W) as (g & Hg & _ & ET).
  assert (Hp : 0 < 2 ^ g) by (apply Z.pow_pos_nonneg; lia).
  assert (H3 : (0xc0 * 2 ^ g) mod 3 = 0).
  { replace (0xc0 * 2 ^ g) with (64 * 2 ^ g * 3) by lia. apply Z.mod_mul. lia. }
  destruct (Z.eq_dec (c pm) OB_MAP_TABLE_MAX_CAPACITY) as [E|]; [|lia].
  rewrite <- ET, <- Hthr, E in H3. discriminate H3.
Qed.

Lemma Grow_fresh_zero pm :
  WF pm -> forall f s, HashMap (Grow_NewHashMap (Grow_LargeMode pm)) f s = 0.
Proof.
  intros W f s. destruct f.
  - unfold Grow_LargeMode. destruct (fLargeMode pm); reflexivity.
  - destruct (fKey pm) eqn:Hk.
    + unfold Grow_LargeMode. destruct (fLargeMode pm); cbn; rewrite Hk; reflexivity.
    + pose proof (WF_tbl_zero_nokey pm W Hk s) as Hz.
      unfold Grow_LargeMode. destruct (fLargeMode pm); cbn; rewrite Hk; exact Hz.
Qed.

Lemma WF_hash_ratio pm : WF pm -> 3 * cHashMax pm = 4 * cHashGrowThreshold pm.
Proof. intros W. destruct (wf_grow pm W) as (g & _ & -> & ->). lia. Qed.

Lemma Push_hash_mono pm key val b pm' calls :
  WF pm -> _ObMap_Push heap_ok pm key val = Some (b, pm', calls) -> cHashMax pm <= cHashMax pm'.
Proof.
  intros W E. destruct (Push_cases pm key val) as [Hb|(H1 & H2 & H3 & H4)].
  - rewrite (Push_fail pm key val W Hb) in E. inversion E; subst. lia.
  - destruct (Push_ok pm key val W H1 H2 H3 H4)
      as (pm2 & E2 & _ & _ & _ & _ & _ & _ & _ & Hg & Hng).
    rewrite E2 in E. inversion E; subst.
    destruct (wf_grow pm W) as (g & Hg0 & EN & _).
    assert (Hp : 0 < 2 ^ g) by (apply Z.pow_pos_nonneg; lia).
    destruct (Z.eq_dec (c pm) (cHashGrowThreshold pm)) as [Et|Et].
    + destruct (Hg Et) as [-> _]. lia.
    + destruct (Hng Et) as [-> _]. lia.
Qed.

Lemma Push_list_hash_mono : forall l pm pm' ok,
  WF pm -> Push_list l pm = Some (pm', ok) -> cHashMax pm <= cHashMax pm'.
Proof.
  induction l as [|[key val] l IH]; intros pm pm' ok W E.
  - cbn in E. inversion E; subst. lia.
  - cbn [Push_list] in E. unfold ObMap_Push in E.
    destruct (Push_total pm key val W) as (b & pm1 & calls & E1 & W1 & _).
    rewrite E1 in E. cbn [bind fst snd] in E.
    destruct (Push_list l pm1) as [[pm2 ok2]|] eqn:E2; cbn [bind fst snd] in E; [|discriminate].
    inversion E; subst.
    pose proof (Push_hash_mono pm key val b pm1 calls W E1).
    pose proof (IH pm1 pm' ok2 W1 E2). lia.
Qed.

Lemma Push_list_grown l pm :
  WF pm -> exists pm' ok, Push_list l pm = Some (pm', ok) /\ WF pm' /\ grown_from pm pm' ok.
Proof.
  intros W. pose proof (WF_c_range pm W) as Hcr.
  destruct (Push_list_ok l pm W) as (pm' & ok & E & W' & _ & Hent).
  pose proof (WF_c_range pm' W') as Hcr'.
  exists pm', ok. split; [exact E|]. split; [exact W'|].
  unfold grown_from. split; [|split; [|split; [|split; [|split]]]].
  - rewrite (Size_entries pm' W'), (Size_entries pm W), Hent, length_app, length_map. lia.
  - pose proof (wf_thr pm' W'). unfold ObMap_Size. rewrite dw_small by lia. lia.
  - now apply WF_hash_ratio.
  - now apply (Push_list_hash_mono l pm pm' ok).
  - intros i Hi. apply In_entries_reachable; auto. rewrite Hent. apply in_or_app. left.
    assert (Hin : In (Entry pm i) (entries pm)) by (apply entries_In; [lia|]; exists i; auto).
    destruct (Entry pm i); exact Hin.
  - intros key val Hin. apply In_entries_reachable; auto. rewrite Hent. apply in_or_app. right.
    apply in_map_iff. exists (key, val). auto.
Qed.


(** C4. On a well-formed map whose count has reached the grow threshold,
    the grow step starts from fresh hash arrays that are all zero and, on
    every heap that grants the blocks it requests, doubles [cHashMax] and
    the threshold, leaves the entry storage and the count as they are, and
    puts exactly the live logical indices into the value array and (in keyed
    mode) into the key array, so that every pair is still retrievable.  A
    push at the threshold that the heap does not refuse succeeds through
    this step: the number of live entries becomes the old threshold, the
    sizes are doubled and both the new pair and the earlier pairs are
    retrievable.  After any sequence of pushes with their allocations
    granted, across any number of thresholds, every pair the map held before
    and every pair pushed with success is retrievable, and the hash arrays
    have followed the count. *)
Theorem ObMap_Grow_correct mem pm :
  WF pm ->
  (c pm = cHashGrowThreshold pm ->
   (forall f s, HashMap (Grow_NewHashMap (Grow_LargeMode pm)) f s = 0) /\
   (mem Alloc_pdwNewAllocHashMap = true ->
    (fLargeMode pm = false -> mem Alloc_Directory0 = true) ->
    exists pmg,
     _ObMap_Grow mem pm = Some (true, pmg) /\
     cHashMax pmg = 2 * cHashMax pm /\
     cHashGrowThreshold pmg = 2 * cHashGrowThreshold pm /\
     Directory pmg = Directory pm /\ c pmg = c pm /\
     (forall i, in_hash pmg true i <-> live pm i) /\
     (forall i, in_hash pmg false i <-> live pm i /\ fKey pm = true) /\
     (forall i, live pm i -> pair_reachable pmg (k (Entry pm i)) (v (Entry pm i))))) /\
  (forall key val,
     c pm = cHashGrowThreshold pm -> Push_free pm key val ->
     Push_refused mem pm = false ->
     exists pm' calls,
       ObMap_Push mem pm key val = Some (true, pm', calls) /\
       ObMap_Size pm' = cHashGrowThreshold pm /\
       cHashMax pm' = 2 * cHashMax pm /\
       cHashGrowThreshold pm' = 2 * cHashGrowThreshold pm /\
       pair_reachable pm' key val /\
       (forall i, live pm i -> pair_reachable pm' (k (Entry pm i)) (v (Entry pm i)))) /\
  (forall l, exists pm' ok, Push_list l pm = Some (pm', ok) /\ grown_from pm pm' ok).
Proof.
  intros W. pose proof (WF_c_range pm W) as Hcr.
  split; [|split].
  - intros Hthr. split; [now apply Grow_fresh_zero|]. intros Hm1 Hm2.
    destruct (Grow_ok_mem mem pm W Hthr (threshold_below_capacity pm W Hthr) Hm1 Hm2)
      as (pmg & E & Wg & Hc & Hd & HN & HT & Hk & _).
    pose proof (WF_data_model pmg Wg) as Hdm.
    assert (Hent : forall i, Entry pmg i = Entry pm i) by (intros i; unfold Entry; now rewrite Hd).
    exists pmg. split; [exact E|]. split; [exact HN|]. split; [exact HT|].
    split; [exact Hd|]. split; [exact Hc|]. split; [|split].
    + intros i. rewrite (dm_hash_value pmg Hdm). unfold live. rewrite Hc. lia.
    + intros i. rewrite (dm_hash_key pmg Hdm), Hk. unfold live. rewrite Hc.
      split; intros [H1 H2]; split; auto; lia.
    + intros i Hi. rewrite <- Hent. apply reach_live; auto. unfold live in *. now rewrite Hc.
  - intros key val Hthr (H1 & H2 & H3 & H4) Hmem.
    destruct (Push_ok_mem mem pm key val W H1 H2 H3 H4 Hmem)
      as (pm' & E & W' & Hc & Hnew & Hold & _ & _ & _ & Hg & _).
    destruct (Hg Hthr) as [HN HT].
    exists pm', (if fObjectsOb pm then [Ob_INCREF val] else []).
    split; [exact E|]. split; [|split; [exact HN|split; [exact HT|split]]].
    + unfold ObMap_Size. rewrite Hc, dw_small by lia. lia.
    + assert (Hl : live pm' (c pm)) by (unfold live; lia).
      pose proof (reach_live pm' (c pm) W' Hl) as Hr. now rewrite Hnew in Hr.
    + intros i Hi. rewrite <- (Hold i Hi). apply reach_live; auto. unfold live in *. lia.
  - intros l. destruct (Push_list_grown l pm W) as (pm' & ok & E & _ & Hg).
    exists pm', ok. auto.
Qed.

(** Three hundred pushes into a new map, with its hash arrays of 256
    slots. *)
Lemma ObMap_Grow_correct_witness :
  exists pm' ok,
    Push_list (pairs_from 300 1) (ObMap_New_init 0) = Some (pm', ok) /\
    grown_from (ObMap_New_init 0) pm' ok.
Proof.
  exact (proj2 (proj2 (ObMap_Grow_correct heap_ok (ObMap_New_init 0) (ObMap_New_init_WF 0)))
           (pairs_from 300 1)).
Defined.

Example Push_300_grows :
  cHashMax (ObMap_New_init 0) = 0x100 /\
  option_map snd (Push_list (pairs_from 300 1) (ObMap_New_init 0)) = Some (pairs_from 300 1) /\
  cHashMax (map_of_list 0 (pairs_from 300 1)) = 0x200 /\
  cHashGrowThreshold (map_of_list 0 (pairs_from 300 1)) = 0x180 /\
  ObMap_Size (map_of_list 0 (pairs_from 300 1)) = 300.
Proof. vm_compute. repeat split; reflexivity. Qed.


(** ** Sorting by key *)

Lemma CmpSort_le a b : _ObMap_SortEntryIndexByKey_CmpSort a b <= 0 <-> k a <= k b.
Proof.
  unfold _ObMap_SortEntryIndexByKey_CmpSort.
  destruct (Z.ltb_spec (k a) (k b)); [lia|].
  destruct (Z.gtb_spec (k a) (k b)); lia.
Qed.

Lemma ordered_by_key l :
  ordered_by _ObMap_SortEntryIndexByKey_CmpSort l <-> keys_ascend l.
Proof.
  unfold ordered_by, keys_ascend. split; intros H.
  - induction H as [|a l _ IH Hall]; constructor; auto.
    eapply Forall_impl; [|exact Hall]. intros b. apply CmpSort_le.
  - induction H as [|a l _ IH Hall]; constructor; auto.
    eapply Forall_impl; [|exact Hall]. intros b. apply CmpSort_le.
Qed.

Lemma sort_insert_perm cmp e : forall l, Permutation (e :: l) (sort_insert cmp e l).
Proof.
  induction l as [|x r IH]; cbn [sort_insert]; [reflexivity|].
  destruct (cmp e x <=? 0); [reflexivity|].
  rewrite perm_swap. now apply perm_skip.
Qed.

Lemma insertion_sort_perm cmp : forall l, Permutation l (insertion_sort cmp l).
Proof.
  induction l as [|x r IH]; cbn; [reflexivity|].
  rewrite <- sort_insert_perm. now apply perm_skip.
Qed.

Lemma sort_insert_ascend e : forall l,
  keys_ascend l -> keys_ascend (sort_insert _ObMap_SortEntryIndexByKey_CmpSort e l).
Proof.
  unfold keys_ascend. induction l as [|x r IH]; intros H; cbn [sort_insert].
  - constructor; constructor.
  - inversion H as [|? ? Hr Hall]; subst.
    destruct (Z.leb_spec (_ObMap_SortEntryIndexByKey_CmpSort e x) 0) as [Hle|Hgt].
    + apply CmpSort_le in Hle. constructor; [exact H|].
      constructor; [exact Hle|].
      eapply Forall_impl; [|exact Hall]. cbn. intros b Hb. lia.
    + assert (Hxe : k x <= k e).
      { destruct (Z.le_gt_cases (k e) (k x)) as [Hc|Hc]; [|lia].
        apply CmpSort_le in Hc. lia. }
      constructor; [now apply IH|].
      eapply Permutation_Forall; [apply sort_insert_perm|].
      constructor; auto.
Qed.

Lemma insertion_sort_ordered l :
  ordered_by _ObMap_SortEntryIndexByKey_CmpSort
    (insertion_sort _ObMap_SortEntryIndexByKey_CmpSort l).
Proof.
  apply ordered_by_key. induction l as [|x r IH]; cbn.
  - constructor.
  - now apply sort_insert_ascend.
Qed.

Lemma keys_ascend_nth : forall l, keys_ascend l ->
  forall d i j, (i <= j < length l)%nat -> k (nth i l d) <= k (nth j l d).
Proof.
  unfold keys_ascend. induction l as [|a l IH]; intros H d i j Hij; [cbn in Hij; lia|].
  inversion H as [|? ? Hl Hall]; subst. cbn [length] in Hij.
  destruct i as [|i], j as [|j]; cbn [nth]; try lia.
  - rewrite Forall_forall in Hall. apply Hall. apply nth_In. lia.
  - apply IH; auto. lia.
Qed.

Lemma keys_ascend_sorted pm :
  WF pm -> keys_ascend (entries pm) -> sorted_by_key pm.
Proof.
  intros W H i j Hi Hij Hj. pose proof (WF_c_range pm W) as Hcr.
  rewrite <- (entries_nth pm (mkEntry 0 0) i), <- (entries_nth pm (mkEntry 0 0) j)
    by (unfold live; lia).
  apply keys_ascend_nth; auto. rewrite entries_length. lia.
Qed.

Lemma entries_GetByIndex pm n :
  WF pm -> (n < length (entries pm))%nat ->
  fst (ObMap_GetByIndex pm (Z.of_nat n)) = v (nth n (entries pm) (mkEntry 0 0)).
Proof.
  intros W Hn. pose proof (WF_c_range pm W) as Hcr. rewrite entries_length in Hn.
  assert (Hl : live pm (Z.of_nat n + 1)) by (unfold live; lia).
  unfold ObMap_GetByIndex, _ObMap_GetByEntryIndex, _ObMap_GetFromEntryIndex. cbn [fst].
  rewrite dw_small by lia. rewrite GetFromIndex_live by exact Hl.
  rewrite <- (entries_nth pm (mkEntry 0 0) (Z.of_nat n + 1)) by (auto; lia).
  do 2 f_equal. lia.
Qed.


(** C5. Let the library sort permute its array and order it by the
    comparison function by key.  On a well-formed map, whenever the heap
    grants the scratch array, [ObMap_SortEntryIndexByKey] returns true; the
    entries that a forward
    iteration by index then visits are a permutation of the entries before
    (the same multiset of pairs) with non-decreasing keys, the size is
    unchanged, both hash arrays hold exactly the live indices, and every
    pair of the map is retrievable by value and (in keyed mode) by key. *)
Theorem ObMap_SortEntryIndexByKey_correct qsort mem pm :
  (forall l, Permutation l (qsort _ObMap_SortEntryIndexByKey_CmpSort l)) ->
  (forall l, ordered_by _ObMap_SortEntryIndexByKey_CmpSort
               (qsort _ObMap_SortEntryIndexByKey_CmpSort l)) ->
  WF pm -> mem Alloc_pSort = true ->
  exists pm',
    ObMap_SortEntryIndexByKey qsort mem pm = Some (true, pm') /\
    ObMap_Size pm' = ObMap_Size pm /\
    Permutation (entries pm) (entries pm') /\
    keys_ascend (entries pm') /\
    sorted_by_key pm' /\
    (forall n, (n < length (entries pm'))%nat ->
               fst (ObMap_GetByIndex pm' (Z.of_nat n)) = v (nth n (entries pm') (mkEntry 0 0))) /\
    (forall i, in_hash pm' true i <-> live pm' i) /\
    (forall i, in_hash pm' false i <-> live pm' i /\ fKey pm' = true) /\
    (forall i, live pm i -> pair_reachable pm' (k (Entry pm i)) (v (Entry pm i))) /\
    (forall key val, pair_reachable pm' key val -> pair_reachable pm key val).
Proof.
  intros Hperm Hord W Hmem. pose proof (WF_c_range pm W) as Hcr.
  destruct (Sort_ok_mem qsort mem _ObMap_SortEntryIndexByKey_CmpSort pm Hperm W Hmem)
    as (pm' & E & W' & Hc & Hss & Hent).
  pose proof (WF_c_range pm' W') as Hcr'.
  pose proof (WF_data_model pm' W') as Hdm.
  assert (Hp : Permutation (entries pm) (entries pm')) by (rewrite Hent; apply Hperm).
  assert (Hasc : keys_ascend (entries pm')).
  { rewrite Hent. apply ordered_by_key. apply Hord. }
  exists pm'. split; [exact E|]. split; [unfold ObMap_Size; now rewrite Hc|].
  split; [exact Hp|]. split; [exact Hasc|]. split; [now apply keys_ascend_sorted|].
  split; [intros n Hn; now apply entries_GetByIndex|].
  split; [|split; [|split]].
  - intros i. rewrite (dm_hash_value pm' Hdm). unfold live. lia.
  - intros i. rewrite (dm_hash_key pm' Hdm). unfold live.
    split; intros [H1 H2]; split; auto; lia.
  - intros i Hi.
    assert (Hin : In (Entry pm i) (entries pm)) by (apply entries_In; [lia|]; exists i; auto).
    apply (Permutation_in _ Hp) in Hin.
    apply In_entries_reachable; auto. destruct (Entry pm i); exact Hin.
  - intros key val Hr.
    assert (Hex : ObMap_Exists pm' val = Some true) by apply Hr.
    destruct (live_dec pm' true val) as [(i & Hi & Ei)|Hno].
    + rewrite key_of_live in Ei by auto.
      pose proof (reach_live pm' i W' Hi) as (_ & Hk' & _).
      destruct Hr as (_ & Hkey & _). rewrite Ei, Hkey in Hk'. inversion Hk' as [Hk2].
      assert (Hin : In (Entry pm' i) (entries pm')) by (apply entries_In; [lia|]; exists i; auto).
      apply (Permutation_in _ (Permutation_sym Hp)) in Hin.
      apply In_entries_reachable; auto.
      destruct (Entry pm' i) as [k2 v2]. cbn [k v] in *. now subst.
    + assert (Hf : ObMap_Exists pm' val = Some false) by (apply Exists_false; auto).
      rewrite Hf in Hex. discriminate.
Qed.

Lemma ObMap_SortEntryIndexByKey_correct_witness :
  exists pm',
    ObMap_SortEntryIndexByKey insertion_sort heap_ok example_unsorted = Some (true, pm') /\
    ObMap_Size pm' = ObMap_Size example_unsorted /\
    Permutation (entries example_unsorted) (entries pm') /\
    keys_ascend (entries pm').
Proof.
  destruct (ObMap_SortEntryIndexByKey_correct insertion_sort heap_ok example_unsorted
              (insertion_sort_perm _) insertion_sort_ordered (map_of_list_WF _ _)
              eq_refl)
    as (pm' & E & Hs & Hp & Ha & _).
  exists pm'. auto.
Defined.

Example Sort_example :
  entries example_unsorted = [mkEntry 30 0xC0; mkEntry 10 0xA0; mkEntry 20 0xB0] /\
  option_map (fun r => entries (snd r))
    (ObMap_SortEntryIndexByKey insertion_sort heap_ok example_unsorted)
  = Some [mkEntry 10 0xA0; mkEntry 20 0xB0; mkEntry 30 0xC0].
Proof. vm_compute. split; reflexivity. Qed.


(** What the refused first table leaves. *)
Lemma Directory0_NULL_lost pm i :
  0 <= i < 256 ->
  TableAllocated (Grow_Directory0_NULL pm) (OB_MAP_INDEX_DIRECTORY i) = false.
Proof.
  intros Hi. destruct (index_small i Hi) as [-> _]. reflexivity.
Qed.

Lemma Directory0_NULL_breaks pm :
  1 < c pm -> ~ data_model_inv (Grow_Directory0_NULL pm) /\ ~ WF (Grow_Directory0_NULL pm).
Proof.
  intros Hc.
  assert (Hlost : TableAllocated (Grow_Directory0_NULL pm) (OB_MAP_INDEX_DIRECTORY 1) = false)
    by (apply Directory0_NULL_lost; lia).
  split.
  - intros H. destruct (dm_stored _ H 1) as [Ht _].
    + change (c (Grow_Directory0_NULL pm)) with (c pm). lia.
    + congruence.
  - intros H. destruct (wf_alloc _ H 1) as [Ht _].
    + change (c (Grow_Directory0_NULL pm)) with (c pm). lia.
    + congruence.
Qed.

(** C6 at a failing input.  The map [example_threshold] is well formed and
    satisfies the invariants of the data model; it is in small mode and its
    count stands at the grow threshold.  The push of a new pair on a heap
    that grants the new hash arrays and refuses the first table returns
    FALSE and leaves the map with [Directory[0]] overwritten by NULL: the
    count still tells of 191 live entries, but their logical indices lie in
    no table any more, so the live range is lost and the invariants do not
    hold of the map that the operation leaves. *)
Theorem invariants_lost_at_refused_table :
  WF example_threshold /\ data_model_inv example_threshold /\
  fLargeMode example_threshold = false /\
  c example_threshold = cHashGrowThreshold example_threshold /\
  exists pm',
    ObMap_Push heap_no_table0 example_threshold 1000 1000 = Some (false, pm', []) /\
    pm' = Grow_Directory0_NULL example_threshold /\
    ObMap_Size pm' = 191 /\
    TableAllocated pm' (OB_MAP_INDEX_DIRECTORY 1) = false /\
    ~ data_model_inv pm' /\ ~ WF pm'.
Proof.
  destruct example_threshold_free as (W & Hc & Ht & Hl & Hf).
  assert (Hthr : c example_threshold = cHashGrowThreshold example_threshold)
    by (rewrite Hc, Ht; reflexivity).
  split; [exact W|]. split; [exact (WF_data_model example_threshold W)|].
  split; [exact Hl|]. split; [exact Hthr|].
  destruct (Push_refused_table0 heap_no_table0 example_threshold Hthr Hl eq_refl eq_refl)
    as [Hg Hr].
  destruct (Push_refused_fails heap_no_table0 example_threshold 1000 1000 W Hf Hr)
    as (pm' & E & Fc & _ & _ & _ & _ & Hnull & _).
  specialize (Hnull Hg).
  exists pm'. split; [exact E|]. split; [exact Hnull|]. split; [|split].
  - unfold ObMap_Size. rewrite Fc, Hc. reflexivity.
  - rewrite Hnull. apply Directory0_NULL_lost. lia.
  - rewrite Hnull. apply Directory0_NULL_breaks. rewrite Hc. lia.
Qed.

(** Let the library sort permute its array.  A map as [ObMap_New] creates
    it is well formed, and a well-formed map satisfies the invariants of
    the data model: the count is at least one, the logical indices from 1
    to [c - 1] lie in allocated stores, their values are not null and
    pairwise distinct, their keys are pairwise distinct in keyed mode, the
    value hash array holds exactly the live indices and the key hash array
    holds them exactly in keyed mode.  Every operation that changes a map
    returns on a well-formed map, whatever the heap answers, and leaves a
    well-formed map; the one exception is the push (with or without copy)
    of an admissible pair whose growth is refused the first table.  So the
    invariants hold after every sequence of operations on a new map in
    which every allocation is granted. *)
Theorem invariants_preserved qsort :
  (forall pfnSort l, Permutation l (qsort pfnSort l)) ->
  (forall mem flags pm, ObMap_New mem flags = Some pm -> WF pm) /\
  (forall pm, WF pm -> data_model_inv pm) /\
  (forall mem pm key val, WF pm ->
     exists b pm' calls,
       ObMap_Push mem pm key val = Some (b, pm', calls) /\
       (Grow_table_refused mem pm = false \/ Push_blocked pm key val -> WF pm')) /\
  (forall mem pm key p, WF pm ->
     exists b pm' calls,
       ObMap_PushCopy mem pm key p = Some (b, pm', calls) /\
       (Grow_table_refused mem pm = false \/ Push_blocked pm key p -> WF pm')) /\
  (forall mem pm pfnSort, WF pm ->
     exists b pm',
       ObMap_SortEntryIndex qsort mem pm pfnSort = Some (b, pm') /\ WF pm' /\
       (b = false -> pm' = pm)) /\
  (forall pm o, WF pm -> exists pm', ObMap_step qsort pm o = Some pm' /\ WF pm') /\
  (forall mem flags pm0 ops, ObMap_New mem flags = Some pm0 ->
     exists pm, ObMap_run qsort ops pm0 = Some pm /\ WF pm /\ data_model_inv pm).
Proof.
  intros Hq.
  assert (Hpush : forall mem pm key val, WF pm ->
     exists b pm' calls,
       _ObMap_Push mem pm key val = Some (b, pm', calls) /\
       (Grow_table_refused mem pm = false \/ Push_blocked pm key val -> WF pm')).
  { intros mem pm key val W.
    destruct (Push_result mem pm key val W) as (b & pm' & calls & E & _ & _ & _ & _ & HW).
    exists b, pm', calls. auto. }
  split; [|split; [|split; [|split; [|split; [|split]]]]].
  - intros mem flags pm E. exact (ObMap_New_WF flags pm E).
  - exact WF_data_model.
  - exact Hpush.
  - intros mem pm key p W. unfold ObMap_PushCopy, _ObMap_PushCopy.
    destruct (fObjectsLocalFree pm); cbn [negb]; [|exists false, pm, []; auto].
    destruct (p =? 0); [exists false, pm, []; auto|].
    destruct (Hpush mem pm key p W) as (b & pm' & calls & E & HW).
    rewrite E. cbn [bind]. destruct b.
    + exists true, pm', calls. auto.
    + exists false, pm', (calls ++ [LocalFree p]). auto.
  - intros mem pm pfnSort W. unfold ObMap_SortEntryIndex.
    destruct (mem Alloc_pSort) eqn:Em.
    + destruct (Sort_ok_mem qsort mem pfnSort pm (Hq pfnSort) W Em) as (pm' & E & W' & _).
      exists true, pm'. split; [exact E|]. split; [exact W'|discriminate].
    + exists false, pm. unfold _ObMap_SortEntryIndex. rewrite Em. auto.
  - intros pm o W. exact (step_WF qsort Hq pm o W).
  - intros mem flags pm0 ops E. pose proof (ObMap_New_WF flags pm0 E) as W.
    destruct (run_WF qsort Hq ops pm0 W) as (pm & E' & W').
    exists pm. split; [exact E'|]. split; [exact W'|now apply WF_data_model].
Qed.

Lemma invariants_preserved_witness :
  exists pm,
    ObMap_run insertion_sort
      [OpPush 30 0xC0; OpPush 10 0xA0; OpPush 20 0xB0; OpPush 20 0xD0;
       OpSortEntryIndexByKey; OpRemoveByKey 10; OpPop; OpRemove 0xB0; OpClear;
       OpPush 10 0xA0]
      (ObMap_New_init 0) = Some pm /\
    WF pm /\ data_model_inv pm.
Proof.
  apply (proj2 (proj2 (proj2 (proj2 (proj2 (proj2
           (invariants_preserved insertion_sort insertion_sort_perm)))))) heap_ok 0).
  reflexivity.
Defined.


(** ** Sorted search and sorted iteration *)

Lemma QFind_answer_ok pm K :
  1 <= c pm <= 2 ^ 25 -> sorted_by_key pm ->
  exists r, _ObMap_QFind pm K = Some r /\ QFind_post pm K r /\ QFind_answer pm K r.
Proof.
  intros Hc Hsorted. destruct (QFind_ok pm K Hc Hsorted) as (r & E & Hpost).
  exists r. split; [exact E|]. split; [exact Hpost|].
  unfold QFind_answer. split; [|split].
  - intros i Hi Hk. destruct r as [j|]; cbn [QFind_post] in Hpost.
    + exists j. split; [reflexivity|]. split; [apply Hpost|].
      now apply (QFind_hit_present pm K j i).
    + specialize (Hpost i Hi). lia.
  - intros Hno j ->. cbn [QFind_post] in Hpost.
    destruct (QFind_hit_absent pm K j Hsorted Hpost Hno) as (H1 & H2 & _).
    split; [apply Hpost|]. split; [exact H1|exact H2].
  - split.
    + intros ->. exact Hpost.
    + intros Hall. destruct r as [j|]; [|reflexivity]. cbn [QFind_post] in Hpost.
      destruct Hpost as [Hj Hk]. specialize (Hall j Hj). lia.
Qed.

Lemma value_at_live pm j : live pm j -> value_at pm j = v (Entry pm j).
Proof.
  intros Hj. unfold value_at, _ObMap_GetFromEntryIndex. now rewrite GetFromIndex_live.
Qed.

Lemma value_at_dead pm j : j = 0 \/ c pm <= j -> value_at pm j = 0.
Proof.
  intros Hj. unfold value_at, _ObMap_GetFromEntryIndex. now rewrite GetFromIndex_dead.
Qed.

Lemma sorted_next_zero pm pvObject : sorted_next pm 0 pvObject = Some (value_at pm 1).
Proof. reflexivity. Qed.

Lemma sorted_next_found pm K pvObject i :
  K <> 0 -> c pm <= 2 ^ 25 ->
  _ObMap_GetEntryIndexFromKeyOrValue pm false K = Some (Some i) -> live pm i ->
  sorted_next pm K pvObject = Some (value_at pm (i + 1)).
Proof.
  intros HK Hc E Hi. unfold sorted_next, ObMap_GetNextByKeySorted, _ObMap_GetNextByKeySorted.
  destruct (Z.eqb_spec K 0); [contradiction|]. rewrite E. cbn [bind option_map].
  unfold with_calls, _ObMap_GetByEntryIndex. cbn [fst]. unfold live in Hi.
  rewrite dw_small by lia. reflexivity.
Qed.

Lemma sorted_next_search pm K pvObject r :
  K <> 0 ->
  _ObMap_GetEntryIndexFromKeyOrValue pm false K = Some None ->
  _ObMap_QFind pm K = Some r ->
  sorted_next pm K pvObject = Some (match r with Some j => value_at pm j | None => 0 end).
Proof.
  intros HK E Eq. unfold sorted_next, ObMap_GetNextByKeySorted, _ObMap_GetNextByKeySorted.
  destruct (Z.eqb_spec K 0); [contradiction|]. rewrite E. cbn [bind]. rewrite Eq. cbn [bind].
  destruct r; reflexivity.
Qed.


Lemma example_map_sorted : sorted_by_key example_map.
Proof.
  assert (Hc : c example_map = 4) by (vm_compute; reflexivity).
  assert (E1 : k (Entry example_map 1) = 10) by (vm_compute; reflexivity).
  assert (E2 : k (Entry example_map 2) = 20) by (vm_compute; reflexivity).
  assert (E3 : k (Entry example_map 3) = 30) by (vm_compute; reflexivity).
  intros i j Hi Hij Hj. rewrite Hc in Hj.
  assert (Hi' : i = 1 \/ i = 2 \/ i = 3) by lia.
  assert (Hj' : j = 1 \/ j = 2 \/ j = 3) by lia.
  destruct Hi' as [-> | [-> | ->]], Hj' as [-> | [-> | ->]];
    rewrite ?E1, ?E2, ?E3; lia.
Qed.

Lemma example_nokey_sorted : sorted_by_key example_nokey.
Proof.
  assert (Hc : c example_nokey = 4) by (vm_compute; reflexivity).
  assert (E1 : k (Entry example_nokey 1) = 10) by (vm_compute; reflexivity).
  assert (E2 : k (Entry example_nokey 2) = 20) by (vm_compute; reflexivity).
  assert (E3 : k (Entry example_nokey 3) = 30) by (vm_compute; reflexivity).
  intros i j Hi Hij Hj. rewrite Hc in Hj.
  assert (Hi' : i = 1 \/ i = 2 \/ i = 3) by lia.
  assert (Hj' : j = 1 \/ j = 2 \/ j = 3) by lia.
  destruct Hi' as [-> | [-> | ->]], Hj' as [-> | [-> | ->]];
    rewrite ?E1, ?E2, ?E3; lia.
Qed.

Lemma Sorted_iterate_step fuel pm K p r key :
  ObMap_GetNextByKeySorted pm K p = Some r -> fst r <> 0 ->
  ObMap_GetKey pm (fst r) = Some key ->
  Sorted_iterate (S fuel) pm K p
  = (l <- Sorted_iterate fuel pm key (fst r) ;; Some ((key, fst r) :: l)).
Proof.
  intros E Hnz Ek. cbn [Sorted_iterate]. rewrite E. cbn [bind].
  destruct (Z.eqb_spec (fst r) 0); [contradiction|]. rewrite Ek. reflexivity.
Qed.

(** C3 at a failing input.  The unkeyed map [example_nokey] holds the keys
    10, 20, 30 in ascending order.  The key 20 is at the logical index 2
    and the entry after it holds the value [0xC0]; the sorted iteration
    with the previous key 20 returns [0xB0], the entry of the key itself:
    the key lookup finds nothing in a map without keys, and the sorted
    search answers with the exact match.  The caller's loop, which passes
    the key of every returned object back, therefore gets the first object
    again and again: no fuel lets it end. *)
Theorem GetNextByKeySorted_nokey_stalls :
  WF example_nokey /\ sorted_by_key example_nokey /\
  fKey example_nokey = false /\
  k (Entry example_nokey 2) = 20 /\
  value_at example_nokey (2 + 1) = 0xC0 /\
  sorted_next example_nokey 20 0 = Some 0xB0 /\
  ~ next_after_present example_nokey 20 /\
  forall fuel, Sorted_iterate fuel example_nokey 0 0 = None.
Proof.
  split; [apply map_of_list_WF|]. split; [exact example_nokey_sorted|].
  split; [vm_compute; reflexivity|]. split; [vm_compute; reflexivity|].
  split; [vm_compute; reflexivity|]. split; [vm_compute; reflexivity|].
  split.
  - intros H.
    assert (Hc : c example_nokey = 4) by (vm_compute; reflexivity).
    assert (Hl : live example_nokey 2) by (unfold live; rewrite Hc; lia).
    assert (Hk : k (Entry example_nokey 2) = 20) by (vm_compute; reflexivity).
    assert (HK : 20 <> 0) by discriminate.
    specialize (H HK 2 Hl Hk). vm_compute in H. discriminate H.
  - assert (E0 : ObMap_GetNextByKeySorted example_nokey 0 0 = Some (0xA0, []))
      by (vm_compute; reflexivity).
    assert (E1 : ObMap_GetNextByKeySorted example_nokey 10 0xA0 = Some (0xA0, []))
      by (vm_compute; reflexivity).
    assert (Ek : ObMap_GetKey example_nokey 0xA0 = Some 10) by (vm_compute; reflexivity).
    assert (Hnz : fst (0xA0, @nil ob_call) <> 0) by (cbn [fst]; discriminate).
    assert (Hloop : forall fuel, Sorted_iterate fuel example_nokey 10 0xA0 = None).
    { induction fuel as [|n IH]; [reflexivity|].
      rewrite (Sorted_iterate_step n example_nokey 10 0xA0 (0xA0, []) 10 E1 Hnz Ek).
      cbn [fst]. rewrite IH. reflexivity. }
    intros [|n]; [reflexivity|].
    rewrite (Sorted_iterate_step n example_nokey 0 0 (0xA0, []) 10 E0 Hnz Ek).
    cbn [fst]. rewrite Hloop. reflexivity.
Qed.


(** On a well-formed, non-empty map whose live entries are sorted ascending
    by key, for every key [K]: the sorted search returns the index of an
    exact match when [K] is present, otherwise the index of the smallest
    key greater than [K], and it fails exactly when every live key is
    smaller than [K].  [ObMap_GetNextByKeySorted] with [K = 0] returns the
    first entry.  With a previous key [K <> 0]: in keyed mode, when [K] is
    present it returns the entry after the index of [K], which is the first
    entry with a greater key, and null when [K] is the last key; when [K]
    is absent, in either mode, it returns the first entry with a key
    greater than [K], and null when there is none; in unkeyed mode, when
    [K] is present, the key lookup finds nothing and the function returns
    what the sorted search finds, an entry whose key is [K]. *)
Theorem ObMap_GetNextByKeySorted_correct pm K :
  WF pm -> 1 < c pm -> sorted_by_key pm ->
  (exists r, _ObMap_QFind pm K = Some r /\ QFind_answer pm K r) /\
  (forall pvObject,
     (K = 0 -> sorted_next pm K pvObject = Some (v (Entry pm 1))) /\
     (K <> 0 -> fKey pm = true ->
      forall i, live pm i -> k (Entry pm i) = K ->
        sorted_next pm K pvObject = Some (value_at pm (i + 1)) /\
        (forall j, live pm j -> K < k (Entry pm j) -> i + 1 <= j) /\
        (live pm (i + 1) -> K < k (Entry pm (i + 1)))) /\
     (K <> 0 -> fKey pm = false ->
      (exists i, live pm i /\ k (Entry pm i) = K) ->
      exists j, live pm j /\ k (Entry pm j) = K /\
                sorted_next pm K pvObject = Some (v (Entry pm j))) /\
     (K <> 0 -> (forall i, live pm i -> k (Entry pm i) <> K) ->
      (exists j, live pm j /\ K < k (Entry pm j) /\
                 (forall j', live pm j' -> K < k (Entry pm j') -> j <= j') /\
                 sorted_next pm K pvObject = Some (v (Entry pm j))) \/
      ((forall j, live pm j -> k (Entry pm j) < K) /\
       sorted_next pm K pvObject = Some 0))) /\
  (forall j, live pm j -> value_at pm j = v (Entry pm j)) /\
  value_at pm (c pm) = 0.
Proof.
  intros W Hne Hsorted. pose proof (WF_c_range pm W) as Hcr.
  destruct (QFind_answer_ok pm K Hcr Hsorted) as (r & Eq & Hpost & Hans).
  split; [exists r; auto|]. split; [|split].
  - intros pvObject. split; [|split; [|split]].
    + intros ->. rewrite sorted_next_zero, value_at_live by (unfold live; lia). reflexivity.
    + intros HK Hk i Hi Ei. split; [|split].
      * apply sorted_next_found; auto; [lia|].
        rewrite <- Ei, <- (key_of_live pm false i Hi). apply WF_lookup_found; auto.
      * intros j Hj Hgt. destruct (Z_lt_ge_dec j (i + 1)) as [Hlt|]; [|lia].
        pose proof (Hsorted j i). unfold live in Hi, Hj. lia.
      * intros Hi1. pose proof (Hsorted i (i + 1)) as Hle. unfold live in Hi, Hi1.
        assert (Hneq : k (Entry pm i) <> k (Entry pm (i + 1))).
        { intros Heq. apply (wf_key_uniq pm W Hk i (i + 1)) in Heq; unfold live; lia. }
        lia.
    + intros HK Hk (i & Hi & Ei).
      destruct (proj1 Hans i Hi Ei) as (j & -> & Hj & Ej).
      exists j. split; [exact Hj|]. split; [exact Ej|].
      rewrite (sorted_next_search pm K pvObject (Some j)); auto.
      * now rewrite value_at_live.
      * unfold _ObMap_GetEntryIndexFromKeyOrValue. now rewrite Hk.
    + intros HK Hno.
      assert (El : _ObMap_GetEntryIndexFromKeyOrValue pm false K = Some None).
      { apply WF_lookup_none; auto. intros i Hi. rewrite key_of_live by auto. auto. }
      rewrite (sorted_next_search pm K pvObject r HK El Eq).
      destruct r as [j|].
      * left. destruct (proj1 (proj2 Hans) Hno j eq_refl) as (Hj & Hgt & Hmin).
        exists j. split; [exact Hj|]. split; [exact Hgt|]. split; [exact Hmin|].
        now rewrite value_at_live.
      * right. split; [|reflexivity]. now apply (proj2 (proj2 Hans)).
  - intros j Hj. now apply value_at_live.
  - apply value_at_dead. right. lia.
Qed.

Lemma ObMap_GetNextByKeySorted_correct_witness :
  sorted_next example_map 20 0 = Some (value_at example_map (2 + 1)) /\
  value_at example_map (2 + 1) = 0xC0.
Proof.
  assert (Hc : c example_map = 4) by (vm_compute; reflexivity).
  assert (Hne : 1 < c example_map) by (rewrite Hc; lia).
  assert (Hl : live example_map 2) by (unfold live; rewrite Hc; lia).
  assert (Hk : k (Entry example_map 2) = 20) by (vm_compute; reflexivity).
  assert (HK : 20 <> 0) by discriminate.
  pose proof (ObMap_GetNextByKeySorted_correct example_map 20 (map_of_list_WF _ _) Hne
                example_map_sorted) as (_ & H & _).
  destruct (H 0) as (_ & Hkeyed & _).
  split; [|vm_compute; reflexivity].
  exact (proj1 (Hkeyed HK eq_refl 2 Hl Hk)).
Defined.


(** * Further properties of the map

    ** Membership tests and lookups *)

(** [ObMap_Exists] and [ObMap_ExistsKey] always return on a well-formed
    map and are exact membership tests: the first answers true exactly for
    the values of the live entries (never for NULL), the second exactly for
    their keys when the map is keyed, and false for every key when it is
    not. *)
Theorem ObMap_Exists_exact pm :
  WF pm ->
  (forall val, exists b, ObMap_Exists pm val = Some b /\
                         (b = true <-> exists i, live pm i /\ v (Entry pm i) = val)) /\
  ObMap_Exists pm 0 = Some false /\
  (forall key, exists b, ObMap_ExistsKey pm key = Some b /\
                         (b = true <->
                          fKey pm = true /\ exists i, live pm i /\ k (Entry pm i) = key)).
Proof.
  intros W. split; [|split].
  - intros val. destruct (live_dec pm true val) as [(i & Hi & E)|Hno].
    + exists true. split.
      * unfold ObMap_Exists. rewrite <- E. apply Exists_true; auto.
      * split; [|reflexivity]. intros _. exists i. split; [auto|].
        now rewrite key_of_live in E.
    + exists false. split.
      * now apply Exists_false.
      * split; [discriminate|]. intros (i & Hi & E). exfalso. apply (Hno i Hi).
        now rewrite key_of_live.
  - reflexivity.
  - intros key. destruct (fKey pm) eqn:Hk.
    + destruct (live_dec pm false key) as [(i & Hi & E)|Hno].
      * exists true. split.
        -- unfold ObMap_ExistsKey. rewrite <- E. apply Exists_true; auto.
        -- split; [|reflexivity]. intros _. split; [reflexivity|]. exists i.
           split; [auto|]. now rewrite key_of_live in E.
      * exists false. split.
        -- now apply Exists_false.
        -- split; [discriminate|]. intros (_ & i & Hi & E). exfalso. apply (Hno i Hi).
           now rewrite key_of_live.
    + exists false. split.
      * now apply Exists_nokey.
      * split; [discriminate|]. intros [H _]. discriminate.
Qed.

Lemma ObMap_Exists_exact_witness :
  ObMap_Exists example_map 0 = Some false.
Proof.
  exact (proj1 (proj2 (ObMap_Exists_exact example_map (map_of_list_WF _ _)))).
Defined.

(** Lookup by key and lookup of the key are inverse to each other on a
    well-formed keyed map: [ObMap_GetByKey] returns the value stored with a
    live key (handing it out with one [Ob_INCREF] in the reference-counted
    mode) and [ObMap_GetKey] returns the key stored with a live value.  A key
    that no live entry has, and every key of an unkeyed map, gives NULL with
    no call; a value that no live entry has gives the key 0. *)
Theorem ObMap_GetByKey_GetKey pm :
  WF pm ->
  (fKey pm = true ->
   forall i, live pm i ->
     ObMap_GetByKey pm (k (Entry pm i))
     = Some (v (Entry pm i), incref_if_ob pm (v (Entry pm i)))) /\
  (forall key, fKey pm = false \/ (forall i, live pm i -> k (Entry pm i) <> key) ->
               ObMap_GetByKey pm key = Some (0, [])) /\
  (forall i, live pm i -> ObMap_GetKey pm (v (Entry pm i)) = Some (k (Entry pm i))) /\
  (forall val, (forall i, live pm i -> v (Entry pm i) <> val) ->
               ObMap_GetKey pm val = Some 0).
Proof.
  intros W. split; [|split; [|split]].
  - intros Hk i Hi. unfold ObMap_GetByKey, _ObMap_GetByKey.
    rewrite <- (key_of_live pm false i Hi), WF_lookup_found by auto.
    cbn [bind]. unfold _ObMap_GetByEntryIndex, incref_if_ob.
    fold (key_of pm true i). now rewrite (key_of_live pm true i Hi).
  - intros key H. now apply unreach_key.
  - intros i Hi. now apply reach_live.
  - intros val H. now apply unreach_value.
Qed.

Lemma ObMap_GetByKey_GetKey_witness :
  ObMap_GetKey example_map 0xB0 = Some 20.
Proof.
  assert (Hc : c example_map = 4) by (vm_compute; reflexivity).
  assert (Hl : live example_map 2) by (unfold live; rewrite Hc; lia).
  exact (proj1 (proj2 (proj2 (ObMap_GetByKey_GetKey example_map (map_of_list_WF _ _)))) 2 Hl).
Defined.


(** ** Forward iteration *)

Lemma GetNext_start pm :
  ObMap_GetNext pm 0 = Some (value_at pm 1, incref_if_ob pm (value_at pm 1)).
Proof. reflexivity. Qed.

Lemma GetNext_live pm i :
  WF pm -> live pm i ->
  ObMap_GetNext pm (v (Entry pm i))
  = Some (value_at pm (i + 1),
          decref_if_ob pm (v (Entry pm i)) ++ incref_if_ob pm (value_at pm (i + 1))).
Proof.
  intros W Hi. pose proof (WF_c_range pm W) as Hcr.
  unfold ObMap_GetNext, _ObMap_GetNext.
  destruct (Z.eqb_spec (v (Entry pm i)) 0) as [E|_].
  { exfalso. revert E. now apply (wf_value_nz pm W). }
  rewrite <- (key_of_live pm true i Hi) at 1. rewrite WF_lookup_found by auto.
  cbn [bind]. unfold with_calls, _ObMap_GetByEntryIndex, incref_if_ob, value_at. cbn [fst snd].
  unfold live in Hi. rewrite dw_small by lia. reflexivity.
Qed.

Lemma GetNext_absent pm val :
  WF pm -> val <> 0 -> (forall i, live pm i -> v (Entry pm i) <> val) ->
  ObMap_GetNext pm val = Some (0, decref_if_ob pm val).
Proof.
  intros W Hv Hno. unfold ObMap_GetNext, _ObMap_GetNext.
  destruct (Z.eqb_spec val 0); [contradiction|].
  rewrite WF_lookup_none.
  - cbn [bind]. unfold with_calls. cbn [fst snd]. now rewrite app_nil_r.
  - auto.
  - intros i Hi. rewrite key_of_live by auto. auto.
Qed.

Lemma GetNext_iterate_from pm :
  WF pm ->
  forall n i prev,
    1 <= i -> i + Z.of_nat n = c pm ->
    option_map fst (ObMap_GetNext pm prev) = Some (value_at pm i) ->
    GetNext_iterate (S n) pm prev = Some (map v (read_entries n pm i)).
Proof.
  intros W. pose proof (WF_c_range pm W) as Hcr.
  induction n as [|n IH]; intros i prev Hi Hn Hprev.
  - cbn [GetNext_iterate]. destruct (ObMap_GetNext pm prev) as [r|]; [|discriminate].
    cbn [option_map] in Hprev. inversion Hprev as [Hr]. cbn [bind]. rewrite Hr.
    rewrite value_at_dead by lia. reflexivity.
  - assert (Hl : live pm i) by (unfold live; lia).
    change (GetNext_iterate (S (S n)) pm prev)
      with (r <- ObMap_GetNext pm prev ;;
            if fst r =? 0 then Some []
            else l <- GetNext_iterate (S n) pm (fst r) ;; Some (fst r :: l)).
    destruct (ObMap_GetNext pm prev) as [r|]; [|discriminate].
    cbn [option_map] in Hprev. inversion Hprev as [Hr]. cbn [bind]. rewrite Hr.
    rewrite (value_at_live pm i Hl).
    destruct (Z.eqb_spec (v (Entry pm i)) 0) as [E|_].
    { exfalso. revert E. now apply (wf_value_nz pm W). }
    rewrite (IH (i + 1) (v (Entry pm i))); [| lia | lia |].
    + cbn [bind read_entries map]. rewrite dw_small by lia. reflexivity.
    + rewrite (GetNext_live pm i W Hl). reflexivity.
Qed.

(** A forward iteration with [ObMap_GetNext] that starts from NULL visits
    the values of all live entries once, in their logical order, and ends
    with NULL after as many steps as the map has entries.  Each step on the
    value of the entry [i] returns the value of the entry [i + 1] (NULL after
    the last one); in the reference-counted mode it releases the object
    passed in and acquires the one returned.  An object that is not in the
    map ends the iteration with NULL. *)
Theorem ObMap_GetNext_iteration pm :
  WF pm ->
  GetNext_iterate (S (Z.to_nat (ObMap_Size pm))) pm 0 = Some (map v (entries pm)) /\
  (forall i, live pm i ->
     ObMap_GetNext pm (v (Entry pm i))
     = Some (value_at pm (i + 1),
             decref_if_ob pm (v (Entry pm i)) ++ incref_if_ob pm (value_at pm (i + 1)))) /\
  (forall val, val <> 0 -> (forall i, live pm i -> v (Entry pm i) <> val) ->
               ObMap_GetNext pm val = Some (0, decref_if_ob pm val)) /\
  (forall i, live pm i -> value_at pm i = v (Entry pm i)) /\
  value_at pm (c pm) = 0.
Proof.
  intros W. pose proof (WF_c_range pm W) as Hcr.
  split; [|split; [|split; [|split]]].
  - unfold ObMap_Size. rewrite dw_small by lia. unfold entries.
    apply GetNext_iterate_from; [exact W|lia|lia|].
    rewrite GetNext_start. reflexivity.
  - intros i Hi. now apply GetNext_live.
  - intros val Hv Hno. now apply GetNext_absent.
  - intros i Hi. now apply value_at_live.
  - apply value_at_dead. right. lia.
Qed.

Lemma ObMap_GetNext_iteration_witness :
  GetNext_iterate (S (Z.to_nat (ObMap_Size example_map))) example_map 0
  = Some (map v (entries example_map)) /\
  map v (entries example_map) = [0xA0; 0xB0; 0xC0].
Proof.
  split.
  - exact (proj1 (ObMap_GetNext_iteration example_map (map_of_list_WF _ _))).
  - vm_compute. reflexivity.
Defined.

(** [ObMap_GetNextByKey] on a well-formed map looks only at whether the
    object passed in is NULL and at the key: with NULL it returns the first
    entry whatever the key is; otherwise, in keyed mode, the key of the live
    entry [i] gives the value of the entry [i + 1] (NULL after the last
    one), and a key that no live entry has gives NULL; in unkeyed mode every
    key gives NULL. *)
Theorem ObMap_GetNextByKey_step pm :
  WF pm ->
  (forall key, option_map fst (ObMap_GetNextByKey pm key 0) = Some (value_at pm 1)) /\
  (fKey pm = true ->
   forall i pvObject, live pm i -> pvObject <> 0 ->
     ObMap_GetNextByKey pm (k (Entry pm i)) pvObject
     = Some (value_at pm (i + 1),
             decref_if_ob pm pvObject ++ incref_if_ob pm (value_at pm (i + 1)))) /\
  (forall key pvObject,
     pvObject <> 0 ->
     fKey pm = false \/ (forall i, live pm i -> k (Entry pm i) <> key) ->
     ObMap_GetNextByKey pm key pvObject = Some (0, decref_if_ob pm pvObject)).
Proof.
  intros W. pose proof (WF_c_range pm W) as Hcr. split; [|split].
  - intros key. reflexivity.
  - intros Hk i pvObject Hi Hp. unfold ObMap_GetNextByKey, _ObMap_GetNextByKey.
    destruct (Z.eqb_spec pvObject 0); [contradiction|].
    rewrite <- (key_of_live pm false i Hi), WF_lookup_found by auto.
    cbn [bind]. unfold with_calls, _ObMap_GetByEntryIndex, incref_if_ob, value_at. cbn [fst snd].
    unfold live in Hi. rewrite dw_small by lia. reflexivity.
  - intros key pvObject Hp H. unfold ObMap_GetNextByKey, _ObMap_GetNextByKey.
    destruct (Z.eqb_spec pvObject 0); [contradiction|].
    assert (E : _ObMap_GetEntryIndexFromKeyOrValue pm false key = Some None).
    { destruct H as [Hk|Hno].
      - unfold _ObMap_GetEntryIndexFromKeyOrValue. now rewrite Hk.
      - apply WF_lookup_none; auto. intros i Hi. rewrite key_of_live by auto. auto. }
    rewrite E. cbn [bind]. unfold with_calls. cbn [fst snd]. now rewrite app_nil_r.
Qed.

Lemma ObMap_GetNextByKey_step_witness :
  option_map fst (ObMap_GetNextByKey example_map 10 0xA0) = Some 0xB0.
Proof.
  assert (Hc : c example_map = 4) by (vm_compute; reflexivity).
  assert (Hl : live example_map 1) by (unfold live; rewrite Hc; lia).
  assert (Hp : 0xA0 <> 0) by discriminate.
  pose proof (proj1 (proj2 (ObMap_GetNextByKey_step example_map (map_of_list_WF _ _)))
                eq_refl 1 0xA0 Hl Hp) as H.
  assert (Hk : k (Entry example_map 1) = 10) by (vm_compute; reflexivity).
  rewrite Hk in H. rewrite H. vm_compute. reflexivity.
Defined.


(** ** The entries and the lookups *)

Lemma entries_values_NoDup pm : WF pm -> NoDup (map v (entries pm)).
Proof.
  intros W. pose proof (WF_c_range pm W) as Hcr.
  apply entries_NoDup; [lia|]. apply (wf_value_uniq pm W).
Qed.

Lemma entries_values_nonzero pm : WF pm -> ~ In 0 (map v (entries pm)).
Proof.
  intros W H. pose proof (WF_c_range pm W) as Hcr.
  apply in_map_iff in H. destruct H as (e & Ev & Hin).
  apply entries_In in Hin; [|lia]. destruct Hin as (i & Hi & <-).
  revert Ev. now apply (wf_value_nz pm W).
Qed.

Lemma reachable_In_entries pm key val :
  WF pm -> pair_reachable pm key val -> In (mkEntry key val) (entries pm).
Proof.
  intros W (Hex & Hkey & _). pose proof (WF_c_range pm W) as Hcr.
  destruct (live_dec pm true val) as [(i & Hi & Ei)|Hno].
  - rewrite key_of_live in Ei by auto.
    pose proof (reach_live pm i W Hi) as (_ & Hk' & _).
    rewrite Ei, Hkey in Hk'. inversion Hk' as [Hk2].
    apply entries_In; [lia|]. exists i. split; [auto|].
    destruct (Entry pm i) as [k2 v2]. cbn [k v] in *. now subst.
  - assert (Hf : ObMap_Exists pm val = Some false) by (apply Exists_false; auto).
    rewrite Hf in Hex. discriminate.
Qed.

Lemma In_entries_iff pm key val :
  WF pm -> (In (mkEntry key val) (entries pm) <-> pair_reachable pm key val).
Proof.
  intros W. split; [now apply In_entries_reachable|now apply reachable_In_entries].
Qed.

(** ** Visiting every entry *)

Lemma Filter_loop_entries pm : forall n i,
  Filter_loop n pm i = map pair_of (read_entries n pm i).
Proof.
  induction n as [|n IH]; intros i; cbn [Filter_loop read_entries map]; [reflexivity|].
  now rewrite IH.
Qed.

(** [ObMap_Filter] returns true after invoking the callback once on every
    pair that the lookups of a well-formed map retrieve, and on nothing
    else: the pairs come in the logical order of the entries, as many as the
    map holds, and no value comes twice. *)
Theorem ObMap_Filter_visits pm :
  WF pm ->
  exists visited,
    ObMap_Filter pm = (true, visited) /\
    visited = map pair_of (entries pm) /\
    Z.of_nat (length visited) = ObMap_Size pm /\
    NoDup (map snd visited) /\
    (forall key val, In (key, val) visited <-> pair_reachable pm key val).
Proof.
  intros W. pose proof (WF_c_range pm W) as Hcr.
  exists (map pair_of (entries pm)).
  split; [unfold ObMap_Filter, _ObMap_Filter; now rewrite Filter_loop_entries|].
  split; [reflexivity|]. split; [|split].
  - rewrite length_map. symmetry. now apply Size_entries.
  - rewrite map_map. cbn [pair_of snd]. now apply entries_values_NoDup.
  - intros key val. rewrite <- In_entries_iff by auto. split.
    + intros H. apply in_map_iff in H. destruct H as ([k1 v1] & E & Hin).
      unfold pair_of in E. cbn [k v] in E. now inversion E; subst.
    + intros H. apply in_map_iff. exists (mkEntry key val). auto.
Qed.

Lemma ObMap_Filter_visits_witness :
  exists visited,
    ObMap_Filter example_map = (true, visited) /\
    visited = [(10, 0xA0); (20, 0xB0); (30, 0xC0)].
Proof.
  destruct (ObMap_Filter_visits example_map (map_of_list_WF _ _)) as (l & E & El & _).
  exists l. split; [exact E|]. rewrite El. vm_compute. reflexivity.
Defined.

(** ** Peeking *)

(** On a well-formed map [ObMap_Peek] and [ObMap_PeekKey] return the value
    and the key of the last entry, the pair that [ObMap_PopWithKey] would
    remove, and this pair is retrievable.  On an empty map both peeks and
    both pops return the null results and the pops leave the map as it
    is. *)
Theorem ObMap_Peek_last pm :
  WF pm ->
  (c pm = 1 ->
   fst (ObMap_Peek pm) = 0 /\ ObMap_PeekKey pm = 0 /\
   ObMap_Pop pm = Some (0, pm) /\ ObMap_PopWithKey pm = Some (None, pm)) /\
  (1 < c pm ->
   fst (ObMap_Peek pm) = v (Entry pm (c pm - 1)) /\
   ObMap_PeekKey pm = k (Entry pm (c pm - 1)) /\
   fst (ObMap_Peek pm) <> 0 /\
   pair_reachable pm (ObMap_PeekKey pm) (fst (ObMap_Peek pm)) /\
   exists pm', ObMap_PopWithKey pm = Some (Some (fst (ObMap_Peek pm), ObMap_PeekKey pm), pm') /\
               ObMap_Pop pm = Some (fst (ObMap_Peek pm), pm')).
Proof.
  intros W. pose proof (WF_c_range pm W) as Hcr. split.
  - intros Hc.
    assert (Hd : _ObMap_GetFromIndex pm (dw (c pm - 1)) = None).
    { rewrite Hc. reflexivity. }
    unfold ObMap_Peek, ObMap_PeekKey, _ObMap_GetByEntryIndex, _ObMap_GetFromEntryIndex,
      ObMap_Pop, ObMap_PopWithKey, _ObMap_RetrieveAndRemoveByEntryIndex.
    rewrite Hd. cbn. auto.
  - intros Hc.
    assert (Hl : live pm (c pm - 1)) by (unfold live; lia).
    assert (Ev : fst (ObMap_Peek pm) = v (Entry pm (c pm - 1))).
    { unfold ObMap_Peek, _ObMap_GetByEntryIndex, _ObMap_GetFromEntryIndex. cbn [fst].
      rewrite dw_small by lia. now rewrite GetFromIndex_live. }
    assert (Ek : ObMap_PeekKey pm = k (Entry pm (c pm - 1))).
    { unfold ObMap_PeekKey, _ObMap_GetFromEntryIndex.
      rewrite dw_small by lia. now rewrite GetFromIndex_live. }
    rewrite Ev, Ek. split; [reflexivity|]. split; [reflexivity|].
    split; [now apply (wf_value_nz pm W)|]. split; [now apply reach_live|].
    destruct (Pop_ok pm W Hc) as (pm' & E1 & E2 & _).
    exists pm'. auto.
Qed.

Lemma ObMap_Peek_last_witness :
  fst (ObMap_Peek example_map) = v (Entry example_map (c example_map - 1)) /\
  v (Entry example_map (c example_map - 1)) = 0xC0.
Proof.
  assert (Hc : c example_map = 4) by (vm_compute; reflexivity).
  assert (H1 : 1 < c example_map) by (rewrite Hc; lia).
  split.
  - exact (proj1 (proj2 (ObMap_Peek_last example_map (map_of_list_WF _ _)) H1)).
  - vm_compute. reflexivity.
Defined.


(** ** Giving up the stored objects *)

Lemma FreeAllObjects_loop_entries pm call : forall n i,
  FreeAllObjects_loop n pm i call = map call (map v (read_entries n pm i)).
Proof.
  induction n as [|n IH]; intros i; cbn [FreeAllObjects_loop read_entries map]; [reflexivity|].
  now rewrite IH.
Qed.

Lemma FreeAllObjects_release pm :
  _ObMap_ObFreeAllObjects pm = release_all pm (map v (entries pm)).
Proof.
  unfold _ObMap_ObFreeAllObjects, release_all, release_call, entries.
  destruct (fObjectsOb pm); [apply FreeAllObjects_loop_entries|].
  destruct (fObjectsLocalFree pm); [apply FreeAllObjects_loop_entries|reflexivity].
Qed.

(** [ObMap_Clear] on a well-formed map gives up every stored object exactly
    once: in the reference-counted mode it makes one [Ob_DECREF] per live
    value, in the heap-owned mode one [LocalFree] per live value, in the
    logical order of the entries, and in neither mode no call at all.  The
    values are pairwise distinct and none is NULL, so nothing is released
    twice and NULL is never released; an empty map is left untouched with
    no call. *)
Theorem ObMap_Clear_releases pm :
  WF pm ->
  snd (ObMap_Clear pm) = release_all pm (map v (entries pm)) /\
  _ObMap_ObFreeAllObjects pm = release_all pm (map v (entries pm)) /\
  NoDup (map v (entries pm)) /\ ~ In 0 (map v (entries pm)) /\
  (fObjectsOb pm = false -> fObjectsLocalFree pm = false -> snd (ObMap_Clear pm) = []) /\
  (c pm = 1 -> ObMap_Clear pm = (true, pm, [])).
Proof.
  intros W. pose proof (WF_c_range pm W) as Hcr.
  split; [|split; [|split; [|split; [|split]]]].
  - unfold ObMap_Clear. destruct (Z.leb_spec (c pm) 1) as [Hle|Hgt]; cbn [snd].
    + assert (E : entries pm = []).
      { unfold entries. replace (Z.to_nat (c pm - 1)) with 0%nat by lia. reflexivity. }
      rewrite E. unfold release_all. destruct (release_call pm); reflexivity.
    + apply FreeAllObjects_release.
  - apply FreeAllObjects_release.
  - now apply entries_values_NoDup.
  - now apply entries_values_nonzero.
  - intros H1 H2. unfold ObMap_Clear.
    destruct (c pm <=? 1); cbn [snd]; [reflexivity|].
    unfold _ObMap_ObFreeAllObjects. now rewrite H1, H2.
  - intros Hc. unfold ObMap_Clear. rewrite Hc. reflexivity.
Qed.

Lemma ObMap_Clear_releases_witness :
  snd (ObMap_Clear (map_of_list OB_MAP_FLAGS_OBJECT_OB [(10, 0xA0); (20, 0xB0)]))
  = [Ob_DECREF 0xA0; Ob_DECREF 0xB0].
Proof.
  rewrite (proj1 (ObMap_Clear_releases _ (map_of_list_WF _ _))).
  vm_compute. reflexivity.
Defined.

(** ** Creation *)

(** [ObMap_New] returns NULL exactly when both ownership flags are given or
    the allocator refuses the object.  Otherwise it returns a well-formed
    empty map in small mode with hash arrays of 256 slots: its size is 0, it
    is keyed unless the no-key flag is given, it owns its objects by
    reference count or by heap block as the flags say and never by both, and
    no lookup finds anything in it. *)
Theorem ObMap_New_empty mem flags :
  (ObMap_New mem flags = None <->
   (flag_set flags OB_MAP_FLAGS_OBJECT_OB = true /\
    flag_set flags OB_MAP_FLAGS_OBJECT_LOCALFREE = true) \/
   mem Alloc_pObMap = false) /\
  (forall pm, ObMap_New mem flags = Some pm ->
     WF pm /\ ObMap_Size pm = 0 /\ entries pm = [] /\
     fKey pm = negb (flag_set flags OB_MAP_FLAGS_NOKEY) /\
     fObjectsOb pm = flag_set flags OB_MAP_FLAGS_OBJECT_OB /\
     fObjectsLocalFree pm = flag_set flags OB_MAP_FLAGS_OBJECT_LOCALFREE /\
     (fObjectsOb pm = true -> fObjectsLocalFree pm = false) /\
     fLargeMode pm = false /\ cHashMax pm = 0x100 /\ cHashGrowThreshold pm = 0xc0 /\
     (forall val, value_unreachable pm val) /\
     (forall key, key_unreachable pm key) /\
     fst (ObMap_Peek pm) = 0 /\ ObMap_Pop pm = Some (0, pm)).
Proof.
  split.
  - unfold ObMap_New.
    destruct (flag_set flags OB_MAP_FLAGS_OBJECT_OB),
             (flag_set flags OB_MAP_FLAGS_OBJECT_LOCALFREE),
             (mem Alloc_pObMap); cbn [andb negb];
      split; try discriminate; auto; intros [[H1 H2]|H]; discriminate.
  - intros pm E. pose proof (ObMap_New_WF flags pm E) as W.
    apply ObMap_New_Some in E. destruct E as [-> E].
    destruct (flag_set flags OB_MAP_FLAGS_OBJECT_OB) eqn:Eo,
             (flag_set flags OB_MAP_FLAGS_OBJECT_LOCALFREE) eqn:El; cbn [andb] in E;
      try discriminate; clear E.
    all: assert (Hnone : forall i, ~ live (ObMap_New_init flags) i)
           by (intros i Hi; unfold live in Hi; cbn in Hi; lia).
    all: split; [exact W|]; split; [reflexivity|]; split; [reflexivity|];
         split; [reflexivity|]; split; [exact Eo|]; split; [exact El|];
         split; [cbn [ObMap_New_init fObjectsOb fObjectsLocalFree]; rewrite ?Eo, ?El;
                 try discriminate; auto|];
         split; [reflexivity|]; split; [reflexivity|]; split; [reflexivity|];
         split; [intros val; apply unreach_value; auto; intros i Hi; now apply Hnone in Hi|];
         split; [intros key; apply unreach_key; auto; right; intros i Hi; now apply Hnone in Hi|];
         split; reflexivity.
Qed.

Lemma ObMap_New_empty_witness :
  ObMap_New heap_ok (Z.lor OB_MAP_FLAGS_OBJECT_OB OB_MAP_FLAGS_OBJECT_LOCALFREE) = None /\
  ObMap_New (fun _ => false) OB_MAP_FLAGS_NOKEY = None /\
  ObMap_Size (ObMap_New_init OB_MAP_FLAGS_NOKEY) = 0.
Proof.
  split; [|split].
  - apply (proj1 (ObMap_New_empty _ _)). left. split; reflexivity.
  - apply (proj1 (ObMap_New_empty _ _)). right. reflexivity.
  - exact (proj1 (proj2 (proj2 (ObMap_New_empty heap_ok OB_MAP_FLAGS_NOKEY) _ eq_refl))).
Defined.


(** ** Paged storage *)

Lemma index_ranges i :
  0 <= i ->
  0 <= OB_MAP_INDEX_DIRECTORY i < OB_MAP_ENTRIES_DIRECTORY /\
  0 <= OB_MAP_INDEX_TABLE i < OB_MAP_ENTRIES_TABLE /\
  0 <= OB_MAP_INDEX_STORE i < OB_MAP_ENTRIES_STORE.
Proof.
  intros Hi.
  unfold OB_MAP_INDEX_DIRECTORY, OB_MAP_INDEX_TABLE, OB_MAP_INDEX_STORE,
    OB_MAP_ENTRIES_DIRECTORY, OB_MAP_ENTRIES_TABLE, OB_MAP_ENTRIES_STORE.
  change (256 - 1) with (Z.ones 8). change (512 - 1) with (Z.ones 9).
  rewrite !Z.land_ones by lia.
  change (2 ^ 8) with 256. change (2 ^ 9) with 512.
  pose proof (Z.mod_pos_bound (Z.shiftr i 17) 256).
  pose proof (Z.mod_pos_bound (Z.shiftr i 8) 512).
  pose proof (Z.mod_pos_bound i 256). lia.
Qed.

Lemma index_compose d t s :
  0 <= d < OB_MAP_ENTRIES_DIRECTORY -> 0 <= t < OB_MAP_ENTRIES_TABLE ->
  0 <= s < OB_MAP_ENTRIES_STORE ->
  0 <= d * 2 ^ 17 + t * 2 ^ 8 + s < OB_MAP_TABLE_MAX_CAPACITY /\
  OB_MAP_INDEX_DIRECTORY (d * 2 ^ 17 + t * 2 ^ 8 + s) = d /\
  OB_MAP_INDEX_TABLE (d * 2 ^ 17 + t * 2 ^ 8 + s) = t /\
  OB_MAP_INDEX_STORE (d * 2 ^ 17 + t * 2 ^ 8 + s) = s.
Proof.
  change OB_MAP_TABLE_MAX_CAPACITY with 33554432.
  unfold OB_MAP_INDEX_DIRECTORY, OB_MAP_INDEX_TABLE, OB_MAP_INDEX_STORE,
    OB_MAP_ENTRIES_DIRECTORY, OB_MAP_ENTRIES_TABLE, OB_MAP_ENTRIES_STORE.
  intros Hd Ht Hs.
  change (256 - 1) with (Z.ones 8). change (512 - 1) with (Z.ones 9).
  rewrite !Z.land_ones, !Z.shiftr_div_pow2 by lia.
  change (2 ^ 17) with 131072. change (2 ^ 8) with 256. change (2 ^ 9) with 512.
  remember (d * 131072 + t * 256 + s) as i eqn:Ei.
  assert (E17 : i / 131072 = d) by (symmetry; apply (Z.div_unique i 131072 d (t * 256 + s)); lia).
  assert (E8 : i / 256 = d * 512 + t) by (symmetry; apply (Z.div_unique i 256 _ s); lia).
  split; [lia|]. split; [|split].
  - rewrite E17. apply Z.mod_small. lia.
  - rewrite E8. symmetry. apply (Z.mod_unique _ 512 d t); lia.
  - symmetry. apply (Z.mod_unique i 256 (d * 512 + t) s); lia.
Qed.

Lemma index_alias i :
  0 <= i ->
  OB_MAP_INDEX_DIRECTORY (i + OB_MAP_TABLE_MAX_CAPACITY) = OB_MAP_INDEX_DIRECTORY i /\
  OB_MAP_INDEX_TABLE (i + OB_MAP_TABLE_MAX_CAPACITY) = OB_MAP_INDEX_TABLE i /\
  OB_MAP_INDEX_STORE (i + OB_MAP_TABLE_MAX_CAPACITY) = OB_MAP_INDEX_STORE i.
Proof.
  change OB_MAP_TABLE_MAX_CAPACITY with 33554432.
  unfold OB_MAP_INDEX_DIRECTORY, OB_MAP_INDEX_TABLE, OB_MAP_INDEX_STORE,
    OB_MAP_ENTRIES_DIRECTORY, OB_MAP_ENTRIES_TABLE, OB_MAP_ENTRIES_STORE.
  intros Hi.
  change (256 - 1) with (Z.ones 8). change (512 - 1) with (Z.ones 9).
  rewrite !Z.land_ones, !Z.shiftr_div_pow2 by lia.
  change (2 ^ 17) with 131072. change (2 ^ 8) with 256. change (2 ^ 9) with 512.
  split; [|split].
  - replace (i + 33554432) with (i + 256 * 131072) by lia.
    rewrite Z.div_add by lia.
    replace (i / 131072 + 256) with (i / 131072 + 1 * 256) by lia. apply Z_mod_plus_full.
  - replace (i + 33554432) with (i + 131072 * 256) by lia.
    rewrite Z.div_add by lia.
    replace (i / 256 + 131072) with (i / 256 + 256 * 512) by lia. apply Z_mod_plus_full.
  - replace (i + 33554432) with (i + 131072 * 256) by lia. apply Z_mod_plus_full.
Qed.

(** The three offsets that the index macros compute address the paged
    storage soundly: they always lie within the directory, the table and the
    store; below the capacity [2^25] they determine the logical index, so
    distinct indices have distinct cells and writing the entry of one index
    changes no other; every cell is the cell of one index below the
    capacity; and an index at or above the capacity has the cell of the
    index [2^25] below it, which is why the count may not reach it. *)
Theorem paged_index_sound :
  (forall i, 0 <= i ->
     0 <= OB_MAP_INDEX_DIRECTORY i < OB_MAP_ENTRIES_DIRECTORY /\
     0 <= OB_MAP_INDEX_TABLE i < OB_MAP_ENTRIES_TABLE /\
     0 <= OB_MAP_INDEX_STORE i < OB_MAP_ENTRIES_STORE) /\
  (forall i j,
     0 <= i < OB_MAP_TABLE_MAX_CAPACITY -> 0 <= j < OB_MAP_TABLE_MAX_CAPACITY ->
     OB_MAP_INDEX_DIRECTORY i = OB_MAP_INDEX_DIRECTORY j ->
     OB_MAP_INDEX_TABLE i = OB_MAP_INDEX_TABLE j ->
     OB_MAP_INDEX_STORE i = OB_MAP_INDEX_STORE j -> i = j) /\
  (forall d t s,
     0 <= d < OB_MAP_ENTRIES_DIRECTORY -> 0 <= t < OB_MAP_ENTRIES_TABLE ->
     0 <= s < OB_MAP_ENTRIES_STORE ->
     0 <= d * 2 ^ 17 + t * 2 ^ 8 + s < OB_MAP_TABLE_MAX_CAPACITY /\
     OB_MAP_INDEX_DIRECTORY (d * 2 ^ 17 + t * 2 ^ 8 + s) = d /\
     OB_MAP_INDEX_TABLE (d * 2 ^ 17 + t * 2 ^ 8 + s) = t /\
     OB_MAP_INDEX_STORE (d * 2 ^ 17 + t * 2 ^ 8 + s) = s) /\
  (forall pm i j e,
     0 <= i < OB_MAP_TABLE_MAX_CAPACITY -> 0 <= j < OB_MAP_TABLE_MAX_CAPACITY ->
     Entry (set_Entry pm i e) j = if j =? i then e else Entry pm j) /\
  (forall pm i, 0 <= i -> Entry pm (i + OB_MAP_TABLE_MAX_CAPACITY) = Entry pm i).
Proof.
  split; [exact index_ranges|]. split; [exact index_inj|]. split; [exact index_compose|].
  split.
  - intros pm i j e Hi Hj. destruct (Z.eqb_spec j i) as [->|Hne].
    + apply Entry_set_Entry_same.
    + now apply Entry_set_Entry_other.
  - intros pm i Hi. unfold Entry. destruct (index_alias i Hi) as (-> & -> & ->). reflexivity.
Qed.

Lemma paged_index_sound_witness :
  OB_MAP_INDEX_DIRECTORY (1 * 2 ^ 17 + 2 * 2 ^ 8 + 3) = 1 /\
  OB_MAP_INDEX_TABLE (1 * 2 ^ 17 + 2 * 2 ^ 8 + 3) = 2 /\
  OB_MAP_INDEX_STORE (1 * 2 ^ 17 + 2 * 2 ^ 8 + 3) = 3.
Proof.
  apply (proj1 (proj2 (proj2 paged_index_sound)) 1 2 3);
    unfold OB_MAP_ENTRIES_DIRECTORY, OB_MAP_ENTRIES_TABLE, OB_MAP_ENTRIES_STORE; lia.
Defined.


(** ** Removal by filter *)

Lemma RemoveByFilter_loop_spec pfn : forall n pm cRemove calls,
  WF pm -> Z.of_nat n < c pm -> 0 <= cRemove -> cRemove + Z.of_nat n < 2 ^ 32 ->
  (forall j, Z.of_nat n < j < c pm -> filter_match pfn (Entry pm j) = false) ->
  exists pm',
    RemoveByFilter_loop n pm pfn (Z.of_nat n) cRemove calls
    = Some (cRemove + Z.of_nat (length (filter (filter_match pfn) (read_entries n pm 1))),
            pm',
            calls ++ flat_map (removed_calls pm)
                       (rev (map v (filter (filter_match pfn) (read_entries n pm 1))))) /\
    WF pm' /\ same_shape pm pm' /\
    (forall e, In e (entries pm') <-> In e (entries pm) /\ filter_match pfn e = false).
Proof.
  induction n as [|n IH]; intros pm cRemove calls W Hn Hr0 Hr Hkept.
  - pose proof (WF_c_range pm W) as Hcr.
    exists pm. cbn [RemoveByFilter_loop read_entries filter map rev flat_map length].
    rewrite Z.add_0_r, app_nil_r. split; [reflexivity|]. split; [exact W|].
    split; [apply same_shape_refl|].
    intros e. split.
    + intros Hin. split; [exact Hin|].
      apply entries_In in Hin; [|lia]. destruct Hin as (j & Hj & <-).
      apply Hkept. unfold live in Hj. lia.
    + tauto.
  - pose proof (WF_c_range pm W) as Hcr.
    assert (Hsnoc : read_entries (S n) pm 1
                    = read_entries n pm 1 ++ [Entry pm (Z.of_nat (S n))]).
    { rewrite read_entries_snoc by lia.
      replace (1 + Z.of_nat n) with (Z.of_nat (S n)) by lia. reflexivity. }
    cbn [RemoveByFilter_loop].
    rewrite (dw_small (Z.of_nat (S n) - 1)) by lia.
    replace (Z.of_nat (S n) - 1) with (Z.of_nat n) by lia.
    fold (filter_match pfn (Entry pm (Z.of_nat (S n)))).
    rewrite Hsnoc, filter_app. cbn [filter].
    destruct (filter_match pfn (Entry pm (Z.of_nat (S n)))) eqn:Em.
    + destruct (RetrieveAndRemove_ok pm (Z.of_nat (S n)) W)
        as (pm1 & E & W1 & Hc1 & Hss & Hent & _).
      { unfold live. lia. }
      rewrite E. cbn [bind fst snd removed_value].
      rewrite (dw_small (cRemove + 1)) by lia.
      assert (Hpre : read_entries n pm1 1 = read_entries n pm 1).
      { apply read_entries_ext; [lia|lia|]. intros i Hi. rewrite Hent by lia.
        destruct (Z.eqb_spec i (Z.of_nat (S n))); [lia|reflexivity]. }
      assert (Hrc : removed_calls pm1 = removed_calls pm).
      { unfold removed_calls.
        now rewrite (ss_fObjectsOb _ _ Hss), (ss_fObjectsLocalFree _ _ Hss). }
      destruct (IH pm1 (cRemove + 1)
                  (calls ++ (if fObjectsOb pm1 then [Ob_DECREF (v (Entry pm (Z.of_nat (S n))))]
                             else [])
                         ++ (if fObjectsLocalFree pm1
                             then [LocalFree (v (Entry pm (Z.of_nat (S n))))] else [])) W1)
        as (pm' & E' & W' & Hss' & Hin'); [lia|lia|lia| |].
      { intros j Hj. rewrite Hent by lia.
        destruct (Z.eqb_spec j (Z.of_nat (S n))) as [->|Hne]; apply Hkept; lia. }
      exists pm'. split; [|split; [exact W'|split]].
      * rewrite E', Hpre, Hrc. f_equal. f_equal; [f_equal|].
        -- rewrite length_app. cbn [length]. lia.
        -- rewrite map_app, rev_app_distr. cbn [map rev app flat_map].
           rewrite (ss_fObjectsOb _ _ Hss), (ss_fObjectsLocalFree _ _ Hss).
           set (F := flat_map _ _). unfold removed_calls.
           rewrite <- !app_assoc. reflexivity.
      * eapply same_shape_trans; eauto.
      * intros e. rewrite Hin'. split.
        -- intros [Hin Hk]. split; [|exact Hk].
           apply entries_In in Hin; [|lia]. destruct Hin as (j & Hj & <-).
           unfold live in Hj. rewrite Hent by lia. apply entries_In; [lia|].
           destruct (Z.eqb_spec j (Z.of_nat (S n))).
           ++ exists (c pm - 1). split; [unfold live; lia|reflexivity].
           ++ exists j. split; [unfold live; lia|reflexivity].
        -- intros [Hin Hk]. split; [|exact Hk].
           apply entries_In in Hin; [|lia]. destruct Hin as (j & Hj & <-).
           unfold live in Hj.
           assert (Hjm : j <> Z.of_nat (S n)).
           { intros ->. rewrite Em in Hk. discriminate. }
           apply entries_In; [lia|].
           destruct (Z.eq_dec j (c pm - 1)) as [->|Hlast].
           ++ exists (Z.of_nat (S n)). split; [unfold live; lia|].
              rewrite Hent by lia. now rewrite Z.eqb_refl.
           ++ exists j. split; [unfold live; lia|]. rewrite Hent by lia.
              destruct (Z.eqb_spec j (Z.of_nat (S n))); [contradiction|reflexivity].
    + destruct (IH pm cRemove calls W) as (pm' & E' & W' & Hss' & Hin'); [lia|lia|lia| |].
      { intros j Hj. destruct (Z.eq_dec j (Z.of_nat (S n))) as [->|Hne]; [exact Em|].
        apply Hkept. lia. }
      exists pm'. rewrite app_nil_r. auto.
Qed.


Lemma entries_NoDup_list pm : WF pm -> NoDup (entries pm).
Proof. intros W. apply (NoDup_map_inv v). now apply entries_values_NoDup. Qed.

Lemma entries_same_value pm e1 e2 :
  WF pm -> In e1 (entries pm) -> In e2 (entries pm) -> v e1 = v e2 -> e1 = e2.
Proof.
  intros W H1 H2 E. pose proof (WF_c_range pm W) as Hcr.
  apply entries_In in H1; [|lia]. apply entries_In in H2; [|lia].
  destruct H1 as (i & Hi & <-), H2 as (j & Hj & <-).
  now rewrite (wf_value_uniq pm W i j Hi Hj E).
Qed.

(** [ObMap_RemoveByFilter] on a well-formed map invokes the callback once on
    every entry and removes exactly the entries on which it answers true: it
    returns their number, the entries that remain are those on which it
    answers false (their order may change), the size falls by the number
    returned, a pair is retrievable afterwards exactly when it was
    retrievable before and the callback keeps it, and the value of a removed
    pair is found by no lookup.  Every removed object is given up once (by
    [Ob_DECREF] in the reference-counted mode, by [LocalFree] in the
    heap-owned mode), from the last entry to the first. *)
Theorem ObMap_RemoveByFilter_correct pm pfn :
  WF pm ->
  exists pm',
    ObMap_RemoveByFilter pm pfn
    = Some (Z.of_nat (length (filter (filter_match pfn) (entries pm))), pm',
            flat_map (removed_calls pm)
              (rev (map v (filter (filter_match pfn) (entries pm))))) /\
    WF pm' /\
    Permutation (entries pm') (filter (filter_keep pfn) (entries pm)) /\
    ObMap_Size pm'
    = ObMap_Size pm - Z.of_nat (length (filter (filter_match pfn) (entries pm))) /\
    (forall key val,
       pair_reachable pm' key val <-> pair_reachable pm key val /\ pfn key val = false) /\
    (forall key val,
       pair_reachable pm key val -> pfn key val = true -> value_unreachable pm' val).
Proof.
  intros W. pose proof (WF_c_range pm W) as Hcr.
  destruct (RemoveByFilter_loop_spec pfn (Z.to_nat (c pm - 1)) pm 0 [] W)
    as (pm' & E & W' & Hss & Hin); [lia|lia|lia| |].
  { intros j Hj. lia. }
  rewrite Z2Nat.id in E by lia. fold (entries pm) in E.
  pose proof (WF_c_range pm' W') as Hcr'.
  assert (Hmem : forall e, In e (entries pm') <-> In e (filter (filter_keep pfn) (entries pm))).
  { intros e. rewrite Hin, filter_In. unfold filter_keep, filter_match.
    destruct (pfn (k e) (v e)); cbn [negb]; intuition congruence. }
  assert (Hperm : Permutation (entries pm') (filter (filter_keep pfn) (entries pm))).
  { apply NoDup_Permutation; auto.
    - now apply entries_NoDup_list.
    - apply NoDup_filter. now apply entries_NoDup_list. }
  exists pm'. split; [|split; [exact W'|split; [exact Hperm|split; [|split]]]].
  - unfold ObMap_RemoveByFilter, _ObMap_RemoveByFilter.
    rewrite (dw_small (c pm - 1)) by lia. exact E.
  - rewrite (Size_entries pm' W'), (Size_entries pm W), (Permutation_length Hperm).
    pose proof (filter_length (filter_match pfn) (entries pm)) as Hl.
    fold (filter_keep pfn) in Hl.
    change (fun x => negb (filter_match pfn x)) with (filter_keep pfn) in Hl. lia.
  - intros key val. rewrite <- !In_entries_iff by auto. rewrite Hin. reflexivity.
  - intros key val Hr Hm. apply unreach_value; [exact W'|].
    intros i Hi Ev.
    assert (Hin' : In (Entry pm' i) (entries pm')) by (apply entries_In; [lia|]; exists i; auto).
    apply Hin in Hin'. destruct Hin' as [Hin' Hk].
    apply reachable_In_entries in Hr; [|exact W].
    assert (Ee : Entry pm' i = mkEntry key val).
    { apply (entries_same_value pm); auto. }
    rewrite Ee in Hk. unfold filter_match in Hk. cbn [k v] in Hk. congruence.
Qed.

Lemma ObMap_RemoveByFilter_correct_witness :
  exists pm',
    ObMap_RemoveByFilter example_map (fun key _ => key <=? 20)
    = Some (2, pm', []) /\
    ObMap_Size pm' = 1.
Proof.
  destruct (ObMap_RemoveByFilter_correct example_map (fun key _ => key <=? 20)
              (map_of_list_WF _ _)) as (pm' & E & _ & _ & Hs & _).
  exists pm'. split.
  - rewrite E. vm_compute. reflexivity.
  - rewrite Hs. vm_compute. reflexivity.
Defined.


(** ** Sorting with a comparison function of the caller *)

(** Whatever comparison function the caller gives, [ObMap_SortEntryIndex] on
    a well-formed map, whenever the heap grants the scratch array, returns
    true and only reorders the map: the entries at
    the logical indices afterwards are the array that the library sort
    produced from the entries before, hence a permutation of them; the size,
    the modes, the hash capacity and the allocated blocks are unchanged, and
    exactly the pairs retrievable before are retrievable afterwards. *)
Theorem ObMap_SortEntryIndex_reorders qsort mem pfnSort pm :
  (forall l, Permutation l (qsort pfnSort l)) ->
  WF pm -> mem Alloc_pSort = true ->
  exists pm',
    ObMap_SortEntryIndex qsort mem pm pfnSort = Some (true, pm') /\
    WF pm' /\
    entries pm' = qsort pfnSort (entries pm) /\
    Permutation (entries pm) (entries pm') /\
    ObMap_Size pm' = ObMap_Size pm /\
    same_shape pm pm' /\
    (forall key val, pair_reachable pm' key val <-> pair_reachable pm key val).
Proof.
  intros Hperm W Hmem.
  destruct (Sort_ok_mem qsort mem pfnSort pm Hperm W Hmem)
    as (pm' & E & W' & Hc & Hss & Hent).
  assert (Hp : Permutation (entries pm) (entries pm')) by (rewrite Hent; apply Hperm).
  exists pm'. split; [exact E|]. split; [exact W'|]. split; [exact Hent|].
  split; [exact Hp|]. split; [unfold ObMap_Size; now rewrite Hc|]. split; [exact Hss|].
  intros key val. rewrite <- !In_entries_iff by auto. split.
  - apply Permutation_in. now apply Permutation_sym.
  - now apply Permutation_in.
Qed.

Lemma ObMap_SortEntryIndex_reorders_witness :
  exists pm',
    ObMap_SortEntryIndex insertion_sort heap_ok example_map
      (fun p1 p2 => _ObMap_SortEntryIndexByKey_CmpSort p2 p1) = Some (true, pm') /\
    entries pm' = [mkEntry 30 0xC0; mkEntry 20 0xB0; mkEntry 10 0xA0].
Proof.
  destruct (ObMap_SortEntryIndex_reorders insertion_sort heap_ok
              (fun p1 p2 => _ObMap_SortEntryIndexByKey_CmpSort p2 p1) example_map
              (insertion_sort_perm _) (map_of_list_WF _ _) eq_refl)
    as (pm' & E & _ & Hent & _).
  exists pm'. split; [exact E|]. rewrite Hent. vm_compute. reflexivity.
Defined.

(** ** Insertion followed by removal *)

(** A push that the map can take and the heap does not refuse succeeds and
    puts the pair at the end of the map: the peeks return it, and popping it, or removing it by its value, returns it and restores
    the entries of the map as they were before the push, so that exactly the
    pairs retrievable before are retrievable again. *)
Theorem ObMap_Push_Pop_inverse mem pm key val :
  WF pm -> Push_free pm key val -> Push_refused mem pm = false ->
  exists pm1 calls pm2,
    ObMap_Push mem pm key val = Some (true, pm1, calls) /\
    entries pm1 = entries pm ++ [mkEntry key val] /\
    fst (ObMap_Peek pm1) = val /\ ObMap_PeekKey pm1 = key /\
    ObMap_PopWithKey pm1 = Some (Some (val, key), pm2) /\
    ObMap_Pop pm1 = Some (val, pm2) /\
    ObMap_Remove pm1 val = Some (val, pm2) /\
    WF pm2 /\ entries pm2 = entries pm /\ ObMap_Size pm2 = ObMap_Size pm /\
    (forall key' val', pair_reachable pm2 key' val' <-> pair_reachable pm key' val').
Proof.
  intros W (H1 & H2 & H3 & H4) Hmem. pose proof (WF_c_range pm W) as Hcr.
  assert (HMAX : OB_MAP_TABLE_MAX_CAPACITY = 2 ^ 25) by reflexivity.
  destruct (Push_ok_mem mem pm key val W H1 H2 H3 H4 Hmem)
    as (pm1 & E & W1 & Hc1 & Hnew & Hold & _).
  assert (Hent1 : entries pm1 = entries pm ++ [mkEntry key val]).
  { apply (Push_entries pm key val pm1); auto. lia. }
  assert (Hlast : Entry pm1 (c pm1 - 1) = mkEntry key val).
  { rewrite Hc1. replace (c pm + 1 - 1) with (c pm) by lia. exact Hnew. }
  assert (Hl1 : live pm1 (c pm1 - 1)) by (unfold live; lia).
  destruct (Pop_ok pm1 W1) as (pm2 & Ep & Epk & W2 & Hc2 & _ & Hent2 & _); [lia|].
  rewrite Hlast in Ep, Epk. cbn [k v] in Ep, Epk.
  assert (Hent : entries pm2 = entries pm).
  { rewrite Hent2, Hent1. apply removelast_last. }
  exists pm1, (if fObjectsOb pm then [Ob_INCREF val] else []), pm2.
  split; [exact E|]. split; [exact Hent1|].
  split; [|split; [|split; [exact Epk|split; [exact Ep|split; [|split; [exact W2|split;
    [exact Hent|split]]]]]]].
  - unfold ObMap_Peek, _ObMap_GetByEntryIndex, _ObMap_GetFromEntryIndex. cbn [fst].
    rewrite dw_small by lia. rewrite GetFromIndex_live by exact Hl1. now rewrite Hlast.
  - unfold ObMap_PeekKey, _ObMap_GetFromEntryIndex.
    rewrite dw_small by lia. rewrite GetFromIndex_live by exact Hl1. now rewrite Hlast.
  - unfold ObMap_Remove.
    replace val with (key_of pm1 true (c pm1 - 1)) at 1
      by (rewrite key_of_live by exact Hl1; now rewrite Hlast).
    rewrite RemoveOrRemoveByKey_found by auto.
    unfold ObMap_Pop in Ep. rewrite dw_small in Ep by lia. exact Ep.
  - rewrite (Size_entries pm2 W2), (Size_entries pm W). now rewrite Hent.
  - intros key' val'. rewrite <- !In_entries_iff by auto. now rewrite Hent.
Qed.

Lemma ObMap_Push_Pop_inverse_witness :
  exists pm1 calls pm2,
    ObMap_Push heap_ok (ObMap_New_init 0) 7 0x70 = Some (true, pm1, calls) /\
    ObMap_Pop pm1 = Some (0x70, pm2) /\ entries pm2 = [].
Proof.
  destruct (ObMap_Push_Pop_inverse heap_ok (ObMap_New_init 0) 7 0x70 (ObMap_New_init_WF 0))
    as (pm1 & calls & pm2 & E & _ & _ & _ & _ & Ep & _ & _ & Hent & _).
  - split; [discriminate|]. split; [|split].
    + intros i Hi. unfold live in Hi. cbn in Hi. lia.
    + intros _ i Hi. unfold live in Hi. cbn in Hi. lia.
    + discriminate.
  - reflexivity.
  - exists pm1, calls, pm2. auto.
Defined.


(** ** The position of the entries after a removal *)

(** Removing the live entry [i] of a well-formed map by its value (or, in
    keyed mode, by its key) moves at most one other entry: the last entry
    takes the logical index [i], every other entry keeps its index, and when
    [i] is the last index the entry storage is not written at all.  The
    modes, the hash capacity and the allocated blocks stay as they are. *)
Theorem ObMap_Remove_moves_last pm i :
  WF pm -> live pm i ->
  exists pm',
    ObMap_Remove pm (v (Entry pm i)) = Some (v (Entry pm i), pm') /\
    (fKey pm = true -> ObMap_RemoveByKey pm (k (Entry pm i)) = Some (v (Entry pm i), pm')) /\
    WF pm' /\ c pm' = c pm - 1 /\
    (forall j, live pm' j ->
               Entry pm' j = if j =? i then Entry pm (c pm - 1) else Entry pm j) /\
    (i = c pm - 1 -> Directory pm' = Directory pm /\ entries pm' = removelast (entries pm)) /\
    same_shape pm pm'.
Proof.
  intros W Hi. pose proof (WF_c_range pm W) as Hcr.
  destruct (RetrieveAndRemove_ok pm i W Hi) as (pm' & E & W' & Hc & Hss & Hent & Hd).
  exists pm'. split; [|split; [|split; [exact W'|split; [exact Hc|split; [|split;
    [|exact Hss]]]]]].
  - unfold ObMap_Remove. rewrite <- (key_of_live pm true i Hi) at 1.
    rewrite RemoveOrRemoveByKey_found, E by auto. reflexivity.
  - intros Hk. unfold ObMap_RemoveByKey. rewrite <- (key_of_live pm false i Hi).
    rewrite RemoveOrRemoveByKey_found, E by auto. reflexivity.
  - intros j Hj. apply Hent. unfold live in Hj. lia.
  - intros Hlast. split; [now apply Hd|].
    unfold live in Hi.
    rewrite (entries_last pm) by lia. rewrite removelast_last.
    unfold entries. rewrite Hc. replace (c pm - 1 - 1) with (c pm - 2) by lia.
    apply read_entries_ext; [lia|lia|].
    intros j Hj. rewrite Hent by lia. destruct (Z.eqb_spec j i); [lia|reflexivity].
Qed.

Lemma ObMap_Remove_moves_last_witness :
  exists pm',
    ObMap_Remove example_map 0xA0 = Some (0xA0, pm') /\
    Entry pm' 1 = mkEntry 30 0xC0 /\ Entry pm' 2 = mkEntry 20 0xB0.
Proof.
  assert (Hc : c example_map = 4) by (vm_compute; reflexivity).
  assert (Hl : live example_map 1) by (unfold live; rewrite Hc; lia).
  assert (E1 : Entry example_map 1 = mkEntry 10 0xA0) by (vm_compute; reflexivity).
  assert (E2 : Entry example_map 2 = mkEntry 20 0xB0) by (vm_compute; reflexivity).
  assert (E3 : Entry example_map 3 = mkEntry 30 0xC0) by (vm_compute; reflexivity).
  destruct (ObMap_Remove_moves_last example_map 1 (map_of_list_WF _ _) Hl)
    as (pm' & E & _ & _ & Hc' & Hent & _).
  rewrite E1 in E. cbn [v] in E.
  exists pm'. split; [exact E|]. rewrite Hc in Hc'.
  split.
  - rewrite (Hent 1) by (unfold live; lia). rewrite Hc. exact E3.
  - rewrite (Hent 2) by (unfold live; lia). exact E2.
Defined.


(** ** The order of the entries is the order of insertion *)

(** After any sequence of pushes, with their allocations granted, into an
    empty well-formed map, the entries are the pairs pushed with success in
    the order of their pushes:
    [ObMap_GetByIndex] returns the value of the [n]-th successful push at
    the index [n], and a forward iteration with [ObMap_GetNext] visits the
    values in the order in which they were pushed. *)
Theorem ObMap_insertion_order pm l :
  WF pm -> c pm = 1 ->
  exists pm' ok,
    Push_list l pm = Some (pm', ok) /\
    entries pm' = map entry_of ok /\
    (forall n, (n < length ok)%nat ->
               fst (ObMap_GetByIndex pm' (Z.of_nat n)) = snd (nth n ok (0, 0))) /\
    GetNext_iterate (S (length ok)) pm' 0 = Some (map snd ok).
Proof.
  intros W Hc.
  destruct (Push_list_ok l pm W) as (pm' & ok & E & W' & _ & Hent).
  rewrite (entries_empty pm Hc) in Hent. cbn [app] in Hent.
  pose proof (WF_c_range pm' W') as Hcr'.
  assert (Hlen : length ok = Z.to_nat (c pm' - 1)).
  { rewrite <- entries_length, Hent. now rewrite length_map. }
  exists pm', ok. split; [exact E|]. split; [exact Hent|]. split.
  - intros n Hn. rewrite entries_GetByIndex by (auto; rewrite Hent, length_map; exact Hn).
    rewrite Hent. change (mkEntry 0 0) with (entry_of (0, 0)). rewrite map_nth.
    reflexivity.
  - rewrite Hlen.
    rewrite (GetNext_iterate_from pm' W' (Z.to_nat (c pm' - 1)) 1 0); [| lia | lia |].
    + fold (entries pm'). rewrite Hent, map_map. reflexivity.
    + rewrite GetNext_start. reflexivity.
Qed.

Lemma ObMap_insertion_order_witness :
  exists pm' ok,
    Push_list [(30, 0xC0); (10, 0xA0); (30, 0xD0); (20, 0xB0)] (ObMap_New_init 0)
    = Some (pm', ok) /\
    entries pm' = map entry_of ok.
Proof.
  destruct (ObMap_insertion_order (ObMap_New_init 0)
              [(30, 0xC0); (10, 0xA0); (30, 0xD0); (20, 0xB0)]
              (ObMap_New_init_WF 0) eq_refl) as (pm' & ok & E & Hent & _).
  exists pm', ok. auto.
Defined.

(** ** Copies pushed into a heap-owned map *)

(** On a well-formed map in the heap-owned mode (and not reference-counted),
    [ObMap_PushCopy] of a pair that the map can take and the heap does not
    refuse, with a copy that was allocated, succeeds without any call on the
    copy: the map stores the
    address of the copy as the value, retrievable under the key, and owns
    it from then on, so that a later [ObMap_Clear] frees it, once, after
    the values that were in the map before. *)
Theorem ObMap_PushCopy_owned mem pm key p :
  WF pm -> fObjectsLocalFree pm = true -> fObjectsOb pm = false ->
  Push_free pm key p -> Push_refused mem pm = false ->
  exists pm',
    ObMap_PushCopy mem pm key p = Some (true, pm', []) /\
    WF pm' /\ ObMap_Size pm' = ObMap_Size pm + 1 /\
    pair_reachable pm' key p /\
    snd (ObMap_Clear pm') = map LocalFree (map v (entries pm)) ++ [LocalFree p] /\
    ~ In p (map v (entries pm)).
Proof.
  intros W Hl Ho Hfree Hmem. pose proof (WF_c_range pm W) as Hcr.
  assert (HMAX : OB_MAP_TABLE_MAX_CAPACITY = 2 ^ 25) by reflexivity.
  pose proof Hfree as (H1 & H2 & H3 & H4).
  destruct (Push_ok_mem mem pm key p W H1 H2 H3 H4 Hmem)
    as (pm' & E & W' & Hc & Hnew & Hold & _ & Ho' & Hl' & _).
  rewrite Ho in E.
  assert (Hent : entries pm' = entries pm ++ [mkEntry key p]).
  { apply (Push_entries pm key p pm'); auto. lia. }
  exists pm'. split; [|split; [exact W'|split; [|split; [|split]]]].
  - unfold ObMap_PushCopy, _ObMap_PushCopy. rewrite Hl. cbn [negb].
    destruct (Z.eqb_spec p 0); [contradiction|]. rewrite E. reflexivity.
  - unfold ObMap_Size. rewrite Hc, !dw_small by lia. lia.
  - assert (Hlv : live pm' (c pm)) by (unfold live; lia).
    pose proof (reach_live pm' (c pm) W' Hlv) as Hr. now rewrite Hnew in Hr.
  - unfold ObMap_Clear. destruct (Z.leb_spec (c pm') 1); [lia|]. cbn [snd].
    rewrite FreeAllObjects_release. unfold release_all, release_call.
    rewrite Ho', Ho, Hl', Hl, Hent, !map_app. reflexivity.
  - intros Hin. apply in_map_iff in Hin. destruct Hin as (e & Ev & Hin).
    apply entries_In in Hin; [|lia]. destruct Hin as (i & Hi & <-).
    now apply (H2 i Hi).
Qed.

Lemma ObMap_PushCopy_owned_witness :
  exists pm',
    ObMap_PushCopy heap_ok (ObMap_New_init OB_MAP_FLAGS_OBJECT_LOCALFREE) 7 0x7000
    = Some (true, pm', []) /\
    snd (ObMap_Clear pm') = [LocalFree 0x7000].
Proof.
  destruct (ObMap_PushCopy_owned heap_ok (ObMap_New_init OB_MAP_FLAGS_OBJECT_LOCALFREE)
              7 0x7000 (ObMap_New_init_WF _) eq_refl eq_refl)
    as (pm' & E & _ & _ & _ & Hcl & _).
  - split; [discriminate|]. split; [|split].
    + intros i Hi. unfold live in Hi. cbn in Hi. lia.
    + intros _ i Hi. unfold live in Hi. cbn in Hi. lia.
    + discriminate.
  - reflexivity.
  - exists pm'. split; [exact E|]. rewrite Hcl. reflexivity.
Defined.


(** ** The modes of a map never change *)

Lemma same_modes_refl pm : same_modes pm pm.
Proof. unfold same_modes. repeat split; lia. Qed.

Lemma same_modes_trans pm1 pm2 pm3 :
  same_modes pm1 pm2 -> same_modes pm2 pm3 -> same_modes pm1 pm3.
Proof.
  intros (A1 & A2 & A3 & A4) (B1 & B2 & B3 & B4). unfold same_modes.
  repeat split; try congruence. lia.
Qed.

Lemma same_shape_modes pm pm' : same_shape pm pm' -> same_modes pm pm'.
Proof.
  intros H. unfold same_modes.
  rewrite (ss_fKey _ _ H), (ss_fObjectsOb _ _ H), (ss_fObjectsLocalFree _ _ H),
    (ss_cHashMax _ _ H).
  repeat split; lia.
Qed.

Lemma Push_modes pm key val b pm' calls :
  WF pm -> _ObMap_Push heap_ok pm key val = Some (b, pm', calls) -> same_modes pm pm'.
Proof.
  intros W E. pose proof (Push_hash_mono pm key val b pm' calls W E) as Hm.
  destruct (Push_cases pm key val) as [Hb|(H1 & H2 & H3 & H4)].
  - rewrite (Push_fail pm key val W Hb) in E. inversion E; subst. apply same_modes_refl.
  - destruct (Push_ok pm key val W H1 H2 H3 H4)
      as (pm2 & E2 & _ & _ & _ & _ & Fk & Fo & Fl & _).
    rewrite E2 in E. inversion E; subst. unfold same_modes. auto.
Qed.

Lemma PushCopy_modes pm key p b pm' calls :
  WF pm -> _ObMap_PushCopy heap_ok pm key p = Some (b, pm', calls) -> same_modes pm pm'.
Proof.
  intros W E. unfold _ObMap_PushCopy in E.
  destruct (fObjectsLocalFree pm); cbn [negb] in E;
    [|inversion E; subst; apply same_modes_refl].
  destruct (p =? 0); [inversion E; subst; apply same_modes_refl|].
  destruct (_ObMap_Push heap_ok pm key p) as [[[b1 pm1] calls1]|] eqn:E1; cbn [bind] in E;
    [|discriminate].
  pose proof (Push_modes pm key p b1 pm1 calls1 W E1) as Hm.
  destruct b1; inversion E; subst; exact Hm.
Qed.

Lemma step_modes qsort :
  (forall pfnSort l, Permutation l (qsort pfnSort l)) ->
  forall pm o pm', WF pm -> ObMap_step qsort pm o = Some pm' -> same_modes pm pm'.
Proof.
  intros Hq pm o pm' W E. pose proof (WF_c_range pm W) as Hcr.
  destruct o as [key val|key p| | |val|key|pfn| |pfnSort| ]; cbn [ObMap_step] in E.
  - unfold ObMap_Push in E.
    destruct (_ObMap_Push heap_ok pm key val) as [[[b pm1] calls]|] eqn:E1; cbn in E; [|discriminate].
    inversion E; subst. now apply (Push_modes pm key val b pm' calls).
  - unfold ObMap_PushCopy in E.
    destruct (_ObMap_PushCopy heap_ok pm key p) as [[[b pm1] calls]|] eqn:E1; cbn in E; [|discriminate].
    inversion E; subst. now apply (PushCopy_modes pm key p b pm' calls).
  - unfold ObMap_Pop in E.
    destruct (RetrieveAndRemove_total pm (dw (c pm - 1)) W) as (r & pm1 & E1 & _ & Hss).
    { rewrite dw_small; lia. }
    rewrite E1 in E. cbn in E. inversion E; subst. now apply same_shape_modes.
  - unfold ObMap_PopWithKey in E.
    destruct (RetrieveAndRemove_total pm (dw (c pm - 1)) W) as (r & pm1 & E1 & _ & Hss).
    { rewrite dw_small; lia. }
    rewrite E1 in E. cbn in E. inversion E; subst. now apply same_shape_modes.
  - unfold ObMap_Remove in E.
    destruct (RemoveOrRemoveByKey_total pm true val W) as (r & pm1 & E1 & _ & Hss).
    rewrite E1 in E. cbn in E. inversion E; subst. now apply same_shape_modes.
  - unfold ObMap_RemoveByKey in E.
    destruct (RemoveOrRemoveByKey_total pm false key W) as (r & pm1 & E1 & _ & Hss).
    rewrite E1 in E. cbn in E. inversion E; subst. now apply same_shape_modes.
  - unfold ObMap_RemoveByFilter in E.
    destruct (RemoveByFilter_ok pm pfn W) as (r & pm1 & calls & E1 & _ & Hss).
    rewrite E1 in E. cbn in E. inversion E; subst. now apply same_shape_modes.
  - destruct (Clear_ok pm W) as (pm1 & E1 & _ & _ & Hss & _).
    rewrite E1 in E. cbn in E. inversion E; subst. now apply same_shape_modes.
  - unfold ObMap_SortEntryIndex in E.
    destruct (Sort_ok qsort pfnSort pm (Hq pfnSort) W) as (pm1 & E1 & _ & _ & Hss & _).
    rewrite E1 in E. cbn in E. inversion E; subst. now apply same_shape_modes.
  - unfold ObMap_SortEntryIndexByKey, ObMap_SortEntryIndex in E.
    destruct (Sort_ok qsort _ObMap_SortEntryIndexByKey_CmpSort pm (Hq _) W)
      as (pm1 & E1 & _ & _ & Hss & _).
    rewrite E1 in E. cbn in E. inversion E; subst. now apply same_shape_modes.
Qed.

Lemma run_modes qsort :
  (forall pfnSort l, Permutation l (qsort pfnSort l)) ->
  forall ops pm pm', WF pm -> ObMap_run qsort ops pm = Some pm' ->
                     WF pm' /\ same_modes pm pm'.
Proof.
  intros Hq. induction ops as [|o ops IH]; intros pm pm' W E.
  - cbn in E. inversion E; subst. split; [exact W|apply same_modes_refl].
  - cbn [ObMap_run] in E.
    destruct (step_WF qsort Hq pm o W) as (pm1 & E1 & W1).
    rewrite E1 in E. cbn [bind] in E.
    destruct (IH pm1 pm' W1 E) as [W' Hm]. split; [exact W'|].
    eapply same_modes_trans; [|exact Hm]. now apply (step_modes qsort Hq pm o).
Qed.

(** Let the library sort permute its array.  Whatever operations are
    applied, with their allocations granted, to a map made by [ObMap_New],
    its modes stay those that the creation flags chose: it is keyed unless the no-key flag was given, it is
    reference-counted or heap-owned as the flags said and never both, so the
    release of an object by [ObMap_RemoveByFilter] and by [ObMap_Clear] is the
    same single call; and its hash arrays never become shorter than the 256
    slots they start with. *)
Theorem ObMap_modes_fixed qsort mem flags pm0 ops pm :
  (forall pfnSort l, Permutation l (qsort pfnSort l)) ->
  ObMap_New mem flags = Some pm0 -> ObMap_run qsort ops pm0 = Some pm ->
  fKey pm = negb (flag_set flags OB_MAP_FLAGS_NOKEY) /\
  fObjectsOb pm = flag_set flags OB_MAP_FLAGS_OBJECT_OB /\
  fObjectsLocalFree pm = flag_set flags OB_MAP_FLAGS_OBJECT_LOCALFREE /\
  (fObjectsOb pm = true -> fObjectsLocalFree pm = false) /\
  0x100 <= cHashMax pm /\
  (forall pv, removed_calls pm pv = release_all pm [pv]).
Proof.
  intros Hq E0 Er.
  pose proof (ObMap_New_WF flags pm0 E0) as W0.
  destruct (run_modes qsort Hq ops pm0 pm W0 Er) as [W (Fk & Fo & Fl & Fm)].
  assert (E0' : pm0 = ObMap_New_init flags /\
                flag_set flags OB_MAP_FLAGS_OBJECT_OB
                && flag_set flags OB_MAP_FLAGS_OBJECT_LOCALFREE = false).
  { now apply ObMap_New_Some in E0. }
  destruct E0' as [-> Hex].
  cbn [ObMap_New_init fKey fObjectsOb fObjectsLocalFree cHashMax] in Fk, Fo, Fl, Fm.
  split; [exact Fk|]. split; [exact Fo|]. split; [exact Fl|]. split; [|split; [exact Fm|]].
  - rewrite Fo, Fl. intros H. rewrite H in Hex. exact Hex.
  - intros pv. unfold removed_calls, release_all, release_call. rewrite Fo, Fl.
    destruct (flag_set flags OB_MAP_FLAGS_OBJECT_OB),
             (flag_set flags OB_MAP_FLAGS_OBJECT_LOCALFREE);
      try reflexivity; discriminate.
Qed.

Lemma ObMap_modes_fixed_witness :
  exists pm,
    ObMap_run insertion_sort [OpPush 1 0x10; OpPush 2 0x20; OpRemoveByKey 1; OpClear]
      (ObMap_New_init OB_MAP_FLAGS_OBJECT_OB) = Some pm /\
    fObjectsOb pm = true /\ fObjectsLocalFree pm = false.
Proof.
  destruct (run_WF insertion_sort insertion_sort_perm
              [OpPush 1 0x10; OpPush 2 0x20; OpRemoveByKey 1; OpClear]
              (ObMap_New_init OB_MAP_FLAGS_OBJECT_OB) (ObMap_New_init_WF _)) as (pm & E & _).
  exists pm. split; [exact E|].
  destruct (ObMap_modes_fixed insertion_sort heap_ok OB_MAP_FLAGS_OBJECT_OB
              (ObMap_New_init OB_MAP_FLAGS_OBJECT_OB) _ pm insertion_sort_perm eq_refl E)
    as (_ & Fo & Fl & _).
  split; [exact Fo|exact Fl].
Defined.


(** ** The load of the hash arrays *)

(** In a well-formed map each maintained hash array (the value array, and
    the key array in keyed mode) holds every live entry index in exactly one
    slot and nothing else: the number of occupied slots is the size of the
    map, no deleted entry leaves a mark behind, and fewer than three
    quarters of the slots are occupied.  An empty slot therefore exists, and
    the probing loop of every lookup, for a key or value that is present or
    not, comes to an end.  The key array of an unkeyed map holds nothing. *)
Theorem hash_arrays_load pm :
  WF pm ->
  (forall f, f = true \/ fKey pm = true ->
     occ (cHashMax pm) (HashMap pm f) = ObMap_Size pm /\
     (forall s, 0 <= s < cHashMax pm -> HashMap pm f s <> 0 -> live pm (HashMap pm f s)) /\
     (forall i, live pm i -> exists s, 0 <= s < cHashMax pm /\ HashMap pm f s = i) /\
     (forall s s', 0 <= s < cHashMax pm -> 0 <= s' < cHashMax pm ->
                   HashMap pm f s <> 0 -> HashMap pm f s = HashMap pm f s' -> s = s') /\
     (exists s, 0 <= s < cHashMax pm /\ HashMap pm f s = 0) /\
     (forall kv, exists r, _ObMap_GetEntryIndexFromKeyOrValue pm f kv = Some r /\
                           match r with
                           | Some i => live pm i /\ key_of pm f i = kv
                           | None => forall i, live pm i -> key_of pm f i <> kv
                           end)) /\
  4 * ObMap_Size pm < 3 * cHashMax pm /\
  (fKey pm = false -> forall s, pHashMapKey pm s = 0).
Proof.
  intros W. pose proof (WF_c_range pm W) as Hcr.
  pose proof (WF_room pm W) as [Hroom _].
  assert (Hs : ObMap_Size pm = c pm - 1) by (unfold ObMap_Size; rewrite dw_small; lia).
  split; [|split].
  - intros f Hf.
    pose proof (wf_hash pm W f) as Hok. unfold tbl_ok in Hok.
    replace (f || fKey pm) with true in Hok
      by (destruct Hf as [-> | ->]; [reflexivity|now rewrite orb_true_r]).
    destruct Hok as [[HS _] Hocc].
    split; [now rewrite Hs|]. split; [exact (ts_range _ _ _ HS)|].
    split; [exact (ts_compl _ _ _ HS)|]. split; [exact (ts_inj _ _ _ HS)|]. split.
    + apply occ_free; lia.
    + intros kv. destruct (WF_lookup_total pm f kv W Hf) as [(i & Hi & Hk & E)|[Hno E]].
      * exists (Some i). auto.
      * exists None. auto.
  - rewrite Hs. destruct (wf_grow pm W) as (g & Hg & EN & ET).
    pose proof (wf_thr pm W). lia.
  - now apply WF_tbl_zero_nokey.
Qed.

Lemma hash_arrays_load_witness :
  occ (cHashMax example_map) (HashMap example_map false) = ObMap_Size example_map /\
  ObMap_Size example_map = 3.
Proof.
  split.
  - exact (proj1 (proj1 (hash_arrays_load example_map (map_of_list_WF _ _))
                    false (or_intror eq_refl))).
  - vm_compute. reflexivity.
Defined.


(** ** Iteration by key over a keyed map *)

Lemma Sorted_iterate_from pm :
  WF pm -> fKey pm = true -> (forall i, live pm i -> k (Entry pm i) <> 0) ->
  forall n i K pv,
    1 <= i -> i + Z.of_nat n = c pm ->
    sorted_next pm K pv = Some (value_at pm i) ->
    Sorted_iterate (S n) pm K pv = Some (map pair_of (read_entries n pm i)).
Proof.
  intros W Hk Hnz. pose proof (WF_c_range pm W) as Hcr.
  induction n as [|n IH]; intros i K pv Hi Hn Hprev; unfold sorted_next in Hprev.
  - cbn [Sorted_iterate].
    destruct (ObMap_GetNextByKeySorted pm K pv) as [r|]; [|discriminate].
    cbn [option_map] in Hprev. inversion Hprev as [Hr]. cbn [bind]. rewrite Hr.
    rewrite value_at_dead by lia. reflexivity.
  - assert (Hl : live pm i) by (unfold live; lia).
    change (Sorted_iterate (S (S n)) pm K pv)
      with (r <- ObMap_GetNextByKeySorted pm K pv ;;
            if fst r =? 0 then Some []
            else key <- ObMap_GetKey pm (fst r) ;;
                 l <- Sorted_iterate (S n) pm key (fst r) ;;
                 Some ((key, fst r) :: l)).
    destruct (ObMap_GetNextByKeySorted pm K pv) as [r|]; [|discriminate].
    cbn [option_map] in Hprev. inversion Hprev as [Hr]. cbn [bind]. rewrite Hr.
    rewrite (value_at_live pm i Hl).
    destruct (Z.eqb_spec (v (Entry pm i)) 0) as [E|_].
    { exfalso. revert E. now apply (wf_value_nz pm W). }
    destruct (reach_live pm i W Hl) as (_ & Hkey & _). rewrite Hkey. cbn [bind].
    rewrite (IH (i + 1) (k (Entry pm i)) (v (Entry pm i))); [| lia | lia |].
    + cbn [bind read_entries map]. rewrite dw_small by lia. reflexivity.
    + apply sorted_next_found; auto; [lia|].
      rewrite <- (key_of_live pm false i Hl). apply WF_lookup_found; auto.
Qed.

(** On a well-formed keyed map none of whose keys is 0, an iteration with
    [ObMap_GetNextByKeySorted] that starts with the key 0 and continues with
    the key of each returned object visits every entry once, in logical
    order, and ends with NULL after as many steps as the map has entries;
    when the map is sorted by key the keys of the visit ascend.  (The key 0
    is the request to start, which is why no entry may have it.) *)
Theorem ObMap_GetNextByKeySorted_iteration pm :
  WF pm -> fKey pm = true -> (forall i, live pm i -> k (Entry pm i) <> 0) ->
  Sorted_iterate (S (Z.to_nat (ObMap_Size pm))) pm 0 0 = Some (map pair_of (entries pm)) /\
  (sorted_by_key pm ->
   forall a b d, (a <= b < length (entries pm))%nat ->
                 fst (nth a (map pair_of (entries pm)) d)
                 <= fst (nth b (map pair_of (entries pm)) d)).
Proof.
  intros W Hk Hnz. pose proof (WF_c_range pm W) as Hcr.
  split.
  - unfold ObMap_Size. rewrite dw_small by lia. unfold entries.
    apply Sorted_iterate_from; [exact W|exact Hk|exact Hnz|lia|lia|]. apply sorted_next_zero.
  - intros Hsorted a b d Hab.
    rewrite !(nth_indep (map pair_of (entries pm)) d (pair_of (mkEntry 0 0)))
      by (rewrite length_map; lia).
    rewrite !map_nth. cbn [pair_of fst].
    rewrite entries_length in Hab.
    replace a with (Z.to_nat (Z.of_nat a + 1 - 1)) by lia.
    replace b with (Z.to_nat (Z.of_nat b + 1 - 1)) by lia.
    rewrite !entries_nth by (try lia; unfold live; lia).
    apply Hsorted; lia.
Qed.

Lemma ObMap_GetNextByKeySorted_iteration_witness :
  Sorted_iterate (S (Z.to_nat (ObMap_Size example_map))) example_map 0 0
  = Some [(10, 0xA0); (20, 0xB0); (30, 0xC0)].
Proof.
  assert (Hc : c example_map = 4) by (vm_compute; reflexivity).
  assert (E1 : k (Entry example_map 1) = 10) by (vm_compute; reflexivity).
  assert (E2 : k (Entry example_map 2) = 20) by (vm_compute; reflexivity).
  assert (E3 : k (Entry example_map 3) = 30) by (vm_compute; reflexivity).
  rewrite (proj1 (ObMap_GetNextByKeySorted_iteration example_map (map_of_list_WF _ _) eq_refl
                    (fun i Hi =>
                       ltac:(unfold live in Hi; rewrite Hc in Hi;
                             assert (Hi' : i = 1 \/ i = 2 \/ i = 3) by lia;
                             destruct Hi' as [-> | [-> | ->]];
                             rewrite ?E1, ?E2, ?E3; discriminate)))).
  vm_compute. reflexivity.
Defined.


(** ** The allocated blocks *)

Lemma same_shape_alloc pm pm' : same_shape pm pm' -> same_alloc pm pm'.
Proof.
  intros H. unfold same_alloc.
  rewrite (ss_TableAllocated _ _ H), (ss_StoreAllocated _ _ H), (ss_fLargeMode _ _ H). auto.
Qed.

Lemma same_alloc_prefix pm pm' : same_alloc pm pm' -> alloc_prefix pm -> alloc_prefix pm'.
Proof. intros (E1 & E2 & _). unfold alloc_prefix. now rewrite E1, E2. Qed.

Lemma Grow_LargeMode_prefix pm : alloc_prefix pm -> alloc_prefix (Grow_LargeMode pm).
Proof.
  intros Hp. unfold Grow_LargeMode. destruct (fLargeMode pm); cbn [negb]; [exact Hp|].
  unfold alloc_prefix. cbn. split.
  - intros d d' Hd E. apply Z.eqb_eq in E. apply Z.eqb_eq. lia.
  - intros d t t' Ht Ed Es. apply Z.eqb_eq in Ed. subst d. cbn in *.
    apply Z.eqb_eq in Es. apply Z.eqb_eq. lia.
Qed.


Lemma index_of_table i d' :
  0 <= i < OB_MAP_TABLE_MAX_CAPACITY -> 0 <= d' < OB_MAP_INDEX_DIRECTORY i ->
  0 <= d' * 2 ^ 17 < i /\ OB_MAP_INDEX_DIRECTORY (d' * 2 ^ 17) = d'.
Proof.
  intros Hi Hd. pose proof (index_split i Hi) as Es.
  destruct (index_ranges i) as (H1 & H2 & H3); [lia|].
  unfold OB_MAP_ENTRIES_DIRECTORY, OB_MAP_ENTRIES_TABLE, OB_MAP_ENTRIES_STORE in *.
  destruct (index_compose d' 0 0) as (_ & E & _);
    try (unfold OB_MAP_ENTRIES_DIRECTORY, OB_MAP_ENTRIES_TABLE, OB_MAP_ENTRIES_STORE; lia).
  replace (d' * 2 ^ 17 + 0 * 2 ^ 8 + 0) with (d' * 2 ^ 17) in E by lia.
  split; [|exact E].
  change (2 ^ 17) with 131072 in *. change (2 ^ 8) with 256 in *. lia.
Qed.

Lemma index_of_store i t' :
  0 <= i < OB_MAP_TABLE_MAX_CAPACITY -> 0 <= t' < OB_MAP_INDEX_TABLE i ->
  0 <= OB_MAP_INDEX_DIRECTORY i * 2 ^ 17 + t' * 2 ^ 8 < i /\
  OB_MAP_INDEX_DIRECTORY (OB_MAP_INDEX_DIRECTORY i * 2 ^ 17 + t' * 2 ^ 8)
  = OB_MAP_INDEX_DIRECTORY i /\
  OB_MAP_INDEX_TABLE (OB_MAP_INDEX_DIRECTORY i * 2 ^ 17 + t' * 2 ^ 8) = t'.
Proof.
  intros Hi Ht. pose proof (index_split i Hi) as Es.
  destruct (index_ranges i) as (H1 & H2 & H3); [lia|].
  unfold OB_MAP_ENTRIES_DIRECTORY, OB_MAP_ENTRIES_TABLE, OB_MAP_ENTRIES_STORE in *.
  destruct (index_compose (OB_MAP_INDEX_DIRECTORY i) t' 0) as (_ & E1 & E2 & _);
    try (unfold OB_MAP_ENTRIES_DIRECTORY, OB_MAP_ENTRIES_TABLE, OB_MAP_ENTRIES_STORE; lia).
  replace (OB_MAP_INDEX_DIRECTORY i * 2 ^ 17 + t' * 2 ^ 8 + 0)
    with (OB_MAP_INDEX_DIRECTORY i * 2 ^ 17 + t' * 2 ^ 8) in E1, E2 by lia.
  split; [|split; [exact E1|exact E2]].
  change (2 ^ 17) with 131072 in *. change (2 ^ 8) with 256 in *. lia.
Qed.

Lemma Push_alloc_prefix pm i :
  0 <= i < OB_MAP_TABLE_MAX_CAPACITY ->
  (forall j, 0 <= j < i ->
             TableAllocated pm (OB_MAP_INDEX_DIRECTORY j) = true /\
             StoreAllocated pm (OB_MAP_INDEX_DIRECTORY j) (OB_MAP_INDEX_TABLE j) = true) ->
  alloc_prefix pm -> alloc_prefix (snd (Push_alloc heap_ok pm i)).
Proof.
  intros Hi Ha [HA HB].
  assert (Htab : forall d', 0 <= d' < OB_MAP_INDEX_DIRECTORY i -> TableAllocated pm d' = true).
  { intros d' Hd. destruct (index_of_table i d' Hi Hd) as [Hj Ej].
    destruct (Ha (d' * 2 ^ 17)) as [H _]; [lia|]. now rewrite Ej in H. }
  assert (Hsto : forall t', 0 <= t' < OB_MAP_INDEX_TABLE i ->
                 TableAllocated pm (OB_MAP_INDEX_DIRECTORY i) = true /\
                 StoreAllocated pm (OB_MAP_INDEX_DIRECTORY i) t' = true).
  { intros t' Ht. destruct (index_of_store i t' Hi Ht) as (Hj & Ej1 & Ej2).
    destruct (Ha (OB_MAP_INDEX_DIRECTORY i * 2 ^ 17 + t' * 2 ^ 8)) as [H1 H2]; [lia|].
    rewrite Ej1 in H1, H2. rewrite Ej2 in H2. auto. }
  set (d := OB_MAP_INDEX_DIRECTORY i) in *. set (t0 := OB_MAP_INDEX_TABLE i) in *.
  rewrite Push_alloc_granted. cbn [snd]. fold d t0.
  destruct (TableAllocated pm d) eqn:Et; cbn [negb]; cbv zeta.
  - destruct (StoreAllocated pm d t0) eqn:Es; cbn [negb]; [split; assumption|].
    unfold alloc_prefix, alloc_store. cbn. split; [exact HA|].
    intros d1 t t' Ht Ed1 Es1.
    destruct (Z.eqb_spec d1 d) as [->|Hd1]; cbn [andb] in *.
    + destruct (Z.eqb_spec t' t0) as [|Ht']; [reflexivity|].
      destruct (Z.eqb_spec t t0) as [->|Ht0].
      * apply Hsto. lia.
      * now apply (HB d t t').
    + now apply (HB d1 t t').
  - assert (Hzero : t0 = 0).
    { destruct (Z.eq_dec t0 0) as [|Hne]; auto. exfalso.
      destruct (index_ranges i) as (_ & H2 & _); [lia|]. fold t0 in H2.
      destruct (Hsto 0) as [H _]; [lia|]. congruence. }
    assert (Es : StoreAllocated (alloc_table pm d) d t0 = false).
    { unfold alloc_table. cbn. now rewrite Z.eqb_refl. }
    rewrite Es. cbn [negb].
    unfold alloc_prefix, alloc_store, alloc_table, upd. cbn. split.
    + intros d1 d' Hd Ed1.
      destruct (Z.eqb_spec d' d) as [|Hd']; [reflexivity|].
      destruct (Z.eqb_spec d1 d) as [->|Hd1].
      * apply Htab. lia.
      * now apply (HA d1 d').
    + intros d1 t t' Ht Ed1 Es1.
      destruct (Z.eqb_spec d1 d) as [->|Hd1]; cbn [andb] in *.
      * destruct (Z.eqb_spec t' t0) as [|Ht']; [reflexivity|].
        destruct (Z.eqb_spec t t0) as [->|Ht0]; [lia|discriminate].
      * now apply (HB d1 t t').
Qed.

Lemma Push_frame pm key val b pm' calls :
  _ObMap_Push heap_ok pm key val = Some (b, pm', calls) ->
  (b = false /\ pm' = pm) \/
  (b = true /\
   exists pmg,
     ((c pm <> cHashGrowThreshold pm /\ pmg = pm) \/
      (c pm = cHashGrowThreshold pm /\ fLargeMode pmg = true /\
       TableAllocated pmg = TableAllocated (Grow_LargeMode pm) /\
       StoreAllocated pmg = StoreAllocated (Grow_LargeMode pm))) /\
     same_alloc (snd (Push_alloc heap_ok pmg (c pm))) pm').
Proof.
  unfold _ObMap_Push. cbv zeta.
  destruct (val =? 0); [intros E; inversion E; auto|].
  destruct (_ObMap_Exists pm true val) as [[|]|]; cbn [bind];
    [intros E; inversion E; auto| |discriminate].
  destruct (_ObMap_Exists pm false key) as [[|]|]; cbn [bind];
    [intros E; inversion E; auto| |discriminate].
  destruct (c pm =? OB_MAP_TABLE_MAX_CAPACITY); [intros E; inversion E; auto|].
  destruct (Z.eqb_spec (c pm) (cHashGrowThreshold pm)) as [Ethr|Ethr].
  - destruct (_ObMap_Grow heap_ok pm) as [[bg pmg]|] eqn:Eg; cbn [bind]; [|discriminate].
    destruct (Grow_alloc_ok pm bg pmg Eg) as (-> & Gl & Gt & Gs). cbn [fst snd negb].
    replace (fst (Push_alloc heap_ok pmg (c pm))) with true
      by (now rewrite Push_alloc_granted).
    cbn [negb].
    destruct (_ObMap_GetFromIndex _ _) as [pe|]; cbn [bind]; [|discriminate].
    destruct (_ObMap_InsertHash _ true _) as [pm1|] eqn:E1; cbn [bind]; [|discriminate].
    destruct (_ObMap_InsertHash pm1 false _) as [pm2|] eqn:E2; cbn [bind]; [|discriminate].
    intros E. inversion E; subst b pm2 calls; clear E. right. split; [reflexivity|].
    exists pmg. split; [right; auto|].
    apply InsertHash_alloc in E1, E2.
    eapply same_alloc_trans; [|exact E2]. eapply same_alloc_trans; [|exact E1].
    unfold same_alloc. auto.
  - cbn [bind fst snd negb].
    replace (fst (Push_alloc heap_ok pm (c pm))) with true
      by (now rewrite Push_alloc_granted).
    cbn [negb].
    destruct (_ObMap_GetFromIndex _ _) as [pe|]; cbn [bind]; [|discriminate].
    destruct (_ObMap_InsertHash _ true _) as [pm1|] eqn:E1; cbn [bind]; [|discriminate].
    destruct (_ObMap_InsertHash pm1 false _) as [pm2|] eqn:E2; cbn [bind]; [|discriminate].
    intros E. inversion E; subst b pm2 calls; clear E. right. split; [reflexivity|].
    exists pm. split; [left; auto|].
    apply InsertHash_alloc in E1, E2.
    eapply same_alloc_trans; [|exact E2]. eapply same_alloc_trans; [|exact E1].
    unfold same_alloc. auto.
Qed.


(** ** The loops of the cleanup *)

Lemma Close_tables_In pm d b : forall n t0,
  In b (Close_tables n pm d t0) <->
  exists t, b = BlockStore d t /\ t0 <= t < t0 + Z.of_nat n /\
            (forall t', t0 <= t' <= t -> StoreAllocated pm d t' = true) /\
            (d <> 0 \/ t <> 0).
Proof.
  induction n as [|n IH]; intros t0.
  - cbn. split; [tauto|]. intros (t & _ & Ht & _). lia.
  - cbn [Close_tables]. destruct (StoreAllocated pm d t0) eqn:Es; cbn [negb].
    + rewrite in_app_iff, IH. split.
      * intros [H|(t & -> & Ht & Hall & Hne)].
        -- exists t0.
           destruct (Z.eqb_spec d 0), (Z.eqb_spec t0 0); cbn in H;
             try (destruct H as [<-|[]]); try contradiction;
             (split; [reflexivity|]; split; [lia|]; split;
              [intros t' Ht'; replace t' with t0 by lia; exact Es|auto]).
        -- exists t. split; [reflexivity|]. split; [lia|]. split; [|exact Hne].
           intros t' Ht'. destruct (Z.eq_dec t' t0) as [->|]; [exact Es|apply Hall; lia].
      * intros (t & -> & Ht & Hall & Hne).
        destruct (Z.eq_dec t t0) as [->|Hne0].
        -- left. destruct (Z.eqb_spec d 0), (Z.eqb_spec t0 0); cbn; auto. lia.
        -- right. exists t. split; [reflexivity|]. split; [lia|]. split; [|exact Hne].
           intros t' Ht'. apply Hall. lia.
    + split; [intros []|]. intros (t & _ & Ht & Hall & _).
      rewrite Hall in Es by lia. discriminate.
Qed.

Lemma Close_tables_NoDup pm d : forall n t0, NoDup (Close_tables n pm d t0).
Proof.
  induction n as [|n IH]; intros t0; cbn [Close_tables]; [constructor|].
  destruct (StoreAllocated pm d t0); cbn [negb]; [|constructor].
  apply NoDup_app; [| apply IH |].
  - destruct (negb (d =? 0) || negb (t0 =? 0)); [|constructor].
    constructor; [intros []|constructor].
  - intros a Ha Hin. apply Close_tables_In in Hin. destruct Hin as (t & -> & Ht & _).
    destruct (negb (d =? 0) || negb (t0 =? 0)); cbn in Ha; [|contradiction].
    destruct Ha as [Ha|[]]. inversion Ha. lia.
Qed.

Lemma Close_directory_In_store pm d t : forall n d0,
  In (BlockStore d t) (Close_directory n pm d0) <->
  d0 <= d < d0 + Z.of_nat n /\
  (forall d', d0 <= d' <= d -> TableAllocated pm d' = true) /\
  0 <= t < OB_MAP_ENTRIES_TABLE /\
  (forall t', 0 <= t' <= t -> StoreAllocated pm d t' = true) /\
  (d <> 0 \/ t <> 0).
Proof.
  induction n as [|n IH]; intros d0.
  - cbn. split; [tauto|]. intros (Hd & _). lia.
  - cbn [Close_directory]. destruct (TableAllocated pm d0) eqn:Et; cbn [negb].
    + rewrite !in_app_iff, Close_tables_In, IH. cbn [In]. split.
      * intros [(t1 & E & Ht & Hall & Hne)|[[E|[]]|(Hd & Htab & Ht & Hall & Hne)]].
        -- inversion E; subst d0 t1. split; [lia|]. split.
           ++ intros d' Hd'. replace d' with d by lia. exact Et.
           ++ split; [unfold OB_MAP_ENTRIES_TABLE in *; lia|]. split; [|exact Hne].
              intros t' Ht'. apply Hall. lia.
        -- discriminate E.
        -- split; [lia|]. split; [|auto].
           intros d' Hd'. destruct (Z.eq_dec d' d0) as [->|]; [exact Et|apply Htab; lia].
      * intros (Hd & Htab & Ht & Hall & Hne).
        destruct (Z.eq_dec d d0) as [->|Hne0].
        -- left. exists t. split; [reflexivity|].
           split; [unfold OB_MAP_ENTRIES_TABLE in *; lia|]. split; [|exact Hne].
           intros t' Ht'. apply Hall. lia.
        -- right. right. split; [lia|]. split; [|auto]. intros d' Hd'. apply Htab. lia.
    + split; [intros []|]. intros (Hd & Htab & _). rewrite Htab in Et by lia. discriminate.
Qed.

Lemma Close_directory_In_table pm d : forall n d0,
  In (BlockTable d) (Close_directory n pm d0) <->
  d0 <= d < d0 + Z.of_nat n /\
  (forall d', d0 <= d' <= d -> TableAllocated pm d' = true).
Proof.
  induction n as [|n IH]; intros d0.
  - cbn. split; [tauto|]. intros (Hd & _). lia.
  - cbn [Close_directory]. destruct (TableAllocated pm d0) eqn:Et; cbn [negb].
    + rewrite !in_app_iff, Close_tables_In, IH. cbn [In]. split.
      * intros [(t1 & E & _)|[[E|[]]|(Hd & Htab)]].
        -- discriminate E.
        -- inversion E; subst d0. split; [lia|].
           intros d' Hd'. replace d' with d by lia. exact Et.
        -- split; [lia|].
           intros d' Hd'. destruct (Z.eq_dec d' d0) as [->|]; [exact Et|apply Htab; lia].
      * intros (Hd & Htab).
        destruct (Z.eq_dec d d0) as [->|Hne0].
        -- right. left. left. reflexivity.
        -- right. right. split; [lia|]. intros d' Hd'. apply Htab. lia.
    + split; [intros []|]. intros (Hd & Htab). rewrite Htab in Et by lia. discriminate.
Qed.

Lemma Close_directory_no_hash pm : forall n d0, ~ In BlockHashMap (Close_directory n pm d0).
Proof.
  induction n as [|n IH]; intros d0; cbn [Close_directory]; [intros []|].
  destruct (TableAllocated pm d0); cbn [negb]; [|intros []].
  rewrite !in_app_iff, Close_tables_In. cbn [In].
  intros [(t & E & _)|[[E|[]]|H]]; try discriminate. now apply IH in H.
Qed.

Lemma Close_directory_NoDup pm : forall n d0, NoDup (Close_directory n pm d0).
Proof.
  induction n as [|n IH]; intros d0; cbn [Close_directory]; [constructor|].
  destruct (TableAllocated pm d0); cbn [negb]; [|constructor].
  apply NoDup_app; [apply Close_tables_NoDup| |].
  - cbn [app]. constructor; [|apply IH].
    intros Hin. apply Close_directory_In_table in Hin. lia.
  - intros a Ha Hin. apply Close_tables_In in Ha. destruct Ha as (t & -> & _).
    cbn [app In] in Hin. destruct Hin as [E|Hin]; [discriminate|].
    apply Close_directory_In_store in Hin. lia.
Qed.


(** ** The allocated blocks of a reachable map *)

Lemma alloc_prefix_flags pm pm' :
  TableAllocated pm' = TableAllocated pm -> StoreAllocated pm' = StoreAllocated pm ->
  alloc_prefix pm -> alloc_prefix pm'.
Proof. intros E1 E2. unfold alloc_prefix. now rewrite E1, E2. Qed.

Lemma New_init_prefix flags : alloc_prefix (ObMap_New_init flags).
Proof.
  unfold alloc_prefix. cbn. split.
  - intros d d' Hd E. apply Z.eqb_eq in E. apply Z.eqb_eq. lia.
  - intros d t t' Ht Ed Es. apply Z.eqb_eq in Ed. subst d. cbn in *.
    apply Z.eqb_eq in Es. apply Z.eqb_eq. lia.
Qed.

Lemma Push_prefix pm key val b pm' calls :
  WF pm -> alloc_prefix pm -> _ObMap_Push heap_ok pm key val = Some (b, pm', calls) ->
  alloc_prefix pm'.
Proof.
  intros W Hp E. pose proof (WF_c_range pm W) as Hcr.
  assert (HMAX : OB_MAP_TABLE_MAX_CAPACITY = 2 ^ 25) by reflexivity.
  destruct (Push_frame pm key val b pm' calls E) as [[_ ->]|(-> & pmg & Hg & Hsa)];
    [exact Hp|].
  assert (Hcap : c pm < OB_MAP_TABLE_MAX_CAPACITY).
  { destruct (Z.eq_dec (c pm) OB_MAP_TABLE_MAX_CAPACITY) as [Ec|]; [|lia].
    rewrite (Push_fail pm key val W) in E by auto. discriminate. }
  apply (same_alloc_prefix _ _ Hsa). apply Push_alloc_prefix; [lia| |].
  - intros j Hj. destruct Hg as [[_ ->]|(Ethr & _ & Gt & Gs)].
    + apply (wf_alloc pm W). lia.
    + rewrite Gt, Gs. unfold Grow_LargeMode.
      destruct (fLargeMode pm) eqn:El; cbn [negb].
      * apply (wf_alloc pm W). lia.
      * pose proof (wf_small pm W El) as Hs.
        destruct (index_small j) as [-> ->]; [lia|]. cbn. auto.
  - destruct Hg as [[_ ->]|(_ & _ & Gt & Gs)]; [exact Hp|].
    apply (alloc_prefix_flags (Grow_LargeMode pm)); auto.
    now apply Grow_LargeMode_prefix.
Qed.

Lemma step_prefix qsort :
  (forall pfnSort l, Permutation l (qsort pfnSort l)) ->
  forall pm o pm', WF pm -> alloc_prefix pm -> ObMap_step qsort pm o = Some pm' ->
                   alloc_prefix pm'.
Proof.
  intros Hq pm o pm' W Hp E. pose proof (WF_c_range pm W) as Hcr.
  destruct o as [key val|key p| | |val|key|pfn| |pfnSort| ]; cbn [ObMap_step] in E.
  - unfold ObMap_Push in E.
    destruct (_ObMap_Push heap_ok pm key val) as [[[b pm1] calls]|] eqn:E1; cbn in E; [|discriminate].
    inversion E; subst. now apply (Push_prefix pm key val b pm' calls).
  - unfold ObMap_PushCopy, _ObMap_PushCopy in E.
    destruct (fObjectsLocalFree pm); cbn [negb] in E;
      [|cbn in E; inversion E; subst; exact Hp].
    destruct (p =? 0); [cbn in E; inversion E; subst; exact Hp|].
    destruct (_ObMap_Push heap_ok pm key p) as [[[b1 pm1] calls1]|] eqn:E1; cbn [bind] in E;
      [|discriminate].
    pose proof (Push_prefix pm key p b1 pm1 calls1 W Hp E1) as H1.
    destruct b1; cbn in E; inversion E; subst; exact H1.
  - unfold ObMap_Pop in E.
    destruct (RetrieveAndRemove_total pm (dw (c pm - 1)) W) as (r & pm1 & E1 & _ & Hss).
    { rewrite dw_small; lia. }
    rewrite E1 in E. cbn in E. inversion E; subst.
    apply (same_alloc_prefix pm); auto. now apply same_shape_alloc.
  - unfold ObMap_PopWithKey in E.
    destruct (RetrieveAndRemove_total pm (dw (c pm - 1)) W) as (r & pm1 & E1 & _ & Hss).
    { rewrite dw_small; lia. }
    rewrite E1 in E. cbn in E. inversion E; subst.
    apply (same_alloc_prefix pm); auto. now apply same_shape_alloc.
  - unfold ObMap_Remove in E.
    destruct (RemoveOrRemoveByKey_total pm true val W) as (r & pm1 & E1 & _ & Hss).
    rewrite E1 in E. cbn in E. inversion E; subst.
    apply (same_alloc_prefix pm); auto. now apply same_shape_alloc.
  - unfold ObMap_RemoveByKey in E.
    destruct (RemoveOrRemoveByKey_total pm false key W) as (r & pm1 & E1 & _ & Hss).
    rewrite E1 in E. cbn in E. inversion E; subst.
    apply (same_alloc_prefix pm); auto. now apply same_shape_alloc.
  - unfold ObMap_RemoveByFilter in E.
    destruct (RemoveByFilter_ok pm pfn W) as (r & pm1 & calls & E1 & _ & Hss).
    rewrite E1 in E. cbn in E. inversion E; subst.
    apply (same_alloc_prefix pm); auto. now apply same_shape_alloc.
  - destruct (Clear_ok pm W) as (pm1 & E1 & _ & _ & Hss & _).
    rewrite E1 in E. cbn in E. inversion E; subst.
    apply (same_alloc_prefix pm); auto. now apply same_shape_alloc.
  - unfold ObMap_SortEntryIndex in E.
    destruct (Sort_ok qsort pfnSort pm (Hq pfnSort) W) as (pm1 & E1 & _ & _ & Hss & _).
    rewrite E1 in E. cbn in E. inversion E; subst.
    apply (same_alloc_prefix pm); auto. now apply same_shape_alloc.
  - unfold ObMap_SortEntryIndexByKey, ObMap_SortEntryIndex in E.
    destruct (Sort_ok qsort _ObMap_SortEntryIndexByKey_CmpSort pm (Hq _) W)
      as (pm1 & E1 & _ & _ & Hss & _).
    rewrite E1 in E. cbn in E. inversion E; subst.
    apply (same_alloc_prefix pm); auto. now apply same_shape_alloc.
Qed.

Lemma run_prefix qsort :
  (forall pfnSort l, Permutation l (qsort pfnSort l)) ->
  forall ops pm pm', WF pm -> alloc_prefix pm -> ObMap_run qsort ops pm = Some pm' ->
                     WF pm' /\ alloc_prefix pm'.
Proof.
  intros Hq. induction ops as [|o ops IH]; intros pm pm' W Hp E.
  - cbn in E. inversion E; subst. auto.
  - cbn [ObMap_run] in E.
    destruct (step_WF qsort Hq pm o W) as (pm1 & E1 & W1).
    rewrite E1 in E. cbn [bind] in E.
    apply (IH pm1 pm' W1); auto. now apply (step_prefix qsort Hq pm o).
Qed.


(** ** Cleanup *)

(** Let the library sort permute its array.  For a map made by [ObMap_New]
    and changed by any operations, with their allocations granted, the
    cleanup callback gives up every
    stored object once, like [ObMap_Clear], and frees no block twice.  In
    small mode it frees no block.  In large mode it frees the allocation of
    the hash arrays, every allocated table and every allocated store of the
    directory except the embedded first store, which it never frees; in
    particular the table and the store of every live entry from the logical
    index 256 on are freed. *)
Theorem ObMap_ObCloseCallback_frees qsort mem flags pm0 ops pm :
  (forall pfnSort l, Permutation l (qsort pfnSort l)) ->
  ObMap_New mem flags = Some pm0 -> ObMap_run qsort ops pm0 = Some pm ->
  fst (_ObMap_ObCloseCallback pm) = release_all pm (map v (entries pm)) /\
  NoDup (map v (entries pm)) /\
  NoDup (snd (_ObMap_ObCloseCallback pm)) /\
  ~ In (BlockStore 0 0) (snd (_ObMap_ObCloseCallback pm)) /\
  (fLargeMode pm = false -> snd (_ObMap_ObCloseCallback pm) = []) /\
  (fLargeMode pm = true ->
   In BlockHashMap (snd (_ObMap_ObCloseCallback pm)) /\
   (forall d, 0 <= d < OB_MAP_ENTRIES_DIRECTORY ->
      (In (BlockTable d) (snd (_ObMap_ObCloseCallback pm)) <-> TableAllocated pm d = true)) /\
   (forall d t, 0 <= d < OB_MAP_ENTRIES_DIRECTORY -> 0 <= t < OB_MAP_ENTRIES_TABLE ->
      (In (BlockStore d t) (snd (_ObMap_ObCloseCallback pm)) <->
       TableAllocated pm d = true /\ StoreAllocated pm d t = true /\ (d <> 0 \/ t <> 0)))) /\
  (forall i, live pm i -> OB_MAP_ENTRIES_STORE <= i ->
     In (BlockStore (OB_MAP_INDEX_DIRECTORY i) (OB_MAP_INDEX_TABLE i))
        (snd (_ObMap_ObCloseCallback pm)) /\
     In (BlockTable (OB_MAP_INDEX_DIRECTORY i)) (snd (_ObMap_ObCloseCallback pm))).
Proof.
  intros Hq E0 Er.
  pose proof (ObMap_New_WF flags pm0 E0) as W0.
  assert (Hp0 : alloc_prefix pm0).
  { apply ObMap_New_Some in E0. destruct E0 as [-> _]. apply New_init_prefix. }
  destruct (run_prefix qsort Hq ops pm0 pm W0 Hp0 Er) as [W [HA HB]].
  pose proof (WF_c_range pm W) as Hcr.
  assert (HD : Z.of_nat (Z.to_nat OB_MAP_ENTRIES_DIRECTORY) = OB_MAP_ENTRIES_DIRECTORY)
    by reflexivity.
  assert (Htab : forall d, 0 <= d < OB_MAP_ENTRIES_DIRECTORY ->
            (In (BlockTable d) (Close_directory (Z.to_nat OB_MAP_ENTRIES_DIRECTORY) pm 0)
             <-> TableAllocated pm d = true)).
  { intros d Hd. rewrite Close_directory_In_table, HD. split.
    - intros [_ H]. apply H. lia.
    - intros H. split; [lia|]. intros d' Hd'. now apply (HA d d'). }
  assert (Hsto : forall d t, 0 <= d < OB_MAP_ENTRIES_DIRECTORY ->
            0 <= t < OB_MAP_ENTRIES_TABLE ->
            (In (BlockStore d t) (Close_directory (Z.to_nat OB_MAP_ENTRIES_DIRECTORY) pm 0)
             <-> TableAllocated pm d = true /\ StoreAllocated pm d t = true /\
                 (d <> 0 \/ t <> 0))).
  { intros d t Hd Ht. rewrite Close_directory_In_store, HD. split.
    - intros (_ & H1 & _ & H2 & H3). split; [apply H1; lia|]. split; [apply H2; lia|exact H3].
    - intros (H1 & H2 & H3). split; [lia|]. split; [|split; [exact Ht|split; [|exact H3]]].
      + intros d' Hd'. now apply (HA d d').
      + intros t' Ht'. now apply (HB d t t'). }
  assert (Hlarge : fLargeMode pm = true ->
            snd (_ObMap_ObCloseCallback pm)
            = Close_directory (Z.to_nat OB_MAP_ENTRIES_DIRECTORY) pm 0 ++ [BlockHashMap]).
  { intros El. unfold _ObMap_ObCloseCallback. cbn [snd]. now rewrite El. }
  split; [apply FreeAllObjects_release|]. split; [now apply entries_values_NoDup|].
  split; [|split; [|split; [|split]]].
  - unfold _ObMap_ObCloseCallback. cbn [snd]. destruct (fLargeMode pm); [|constructor].
    apply NoDup_app; [apply Close_directory_NoDup|constructor; [intros []|constructor]|].
    intros a Ha [<-|[]]. revert Ha. apply Close_directory_no_hash.
  - unfold _ObMap_ObCloseCallback. cbn [snd]. destruct (fLargeMode pm); [|intros []].
    rewrite in_app_iff. intros [H|[H|[]]]; [|discriminate].
    apply Close_directory_In_store in H. destruct H as (_ & _ & _ & _ & [H|H]); now apply H.
  - intros El. unfold _ObMap_ObCloseCallback. cbn [snd]. now rewrite El.
  - intros El. rewrite (Hlarge El). split; [|split].
    + apply in_or_app. right. now left.
    + intros d Hd. rewrite in_app_iff, Htab by exact Hd. cbn [In]. split; [|auto].
      intros [H|[H|[]]]; [exact H|discriminate].
    + intros d t Hd Ht. rewrite in_app_iff, Hsto by assumption. cbn [In]. split; [|auto].
      intros [H|[H|[]]]; [exact H|discriminate].
  - intros i Hi H256. unfold live in Hi. unfold OB_MAP_ENTRIES_STORE in H256.
    assert (El : fLargeMode pm = true).
    { destruct (fLargeMode pm) eqn:El; [reflexivity|].
      pose proof (wf_small pm W El). pose proof (wf_thr pm W). lia. }
    assert (HMAX : OB_MAP_TABLE_MAX_CAPACITY = 2 ^ 25) by reflexivity.
    destruct (wf_alloc pm W i) as [Ht Hs]; [lia|].
    destruct (index_ranges i) as (R1 & R2 & R3); [lia|].
    assert (Hne : OB_MAP_INDEX_DIRECTORY i <> 0 \/ OB_MAP_INDEX_TABLE i <> 0).
    { pose proof (index_split i) as Es. unfold OB_MAP_ENTRIES_STORE in R3.
      destruct (Z.eq_dec (OB_MAP_INDEX_DIRECTORY i) 0) as [E1|]; [|auto].
      destruct (Z.eq_dec (OB_MAP_INDEX_TABLE i) 0) as [E2|]; [|auto].
      rewrite E1, E2 in Es. lia. }
    rewrite (Hlarge El), !in_app_iff, Htab, Hsto by assumption. auto.
Qed.

Lemma ObMap_ObCloseCallback_frees_witness :
  exists pm,
    ObMap_run insertion_sort [OpPush 1 0x10; OpPush 2 0x20; OpPop]
      (ObMap_New_init OB_MAP_FLAGS_OBJECT_LOCALFREE) = Some pm /\
    fst (_ObMap_ObCloseCallback pm) = release_all pm (map v (entries pm)) /\
    NoDup (snd (_ObMap_ObCloseCallback pm)).
Proof.
  destruct (run_WF insertion_sort insertion_sort_perm
              [OpPush 1 0x10; OpPush 2 0x20; OpPop]
              (ObMap_New_init OB_MAP_FLAGS_OBJECT_LOCALFREE) (ObMap_New_init_WF _))
    as (pm & E & _).
  exists pm. split; [exact E|].
  destruct (ObMap_ObCloseCallback_frees insertion_sort heap_ok OB_MAP_FLAGS_OBJECT_LOCALFREE
              (ObMap_New_init OB_MAP_FLAGS_OBJECT_LOCALFREE) _ pm
              insertion_sort_perm eq_refl E) as (H1 & _ & H2 & _).
  split; [exact H1|exact H2].
Defined.

Example Close_large_mode :
  snd (_ObMap_ObCloseCallback (map_of_list 0 (pairs_from 300 1)))
  = [BlockStore 0 1; BlockTable 0; BlockHashMap].
Proof. vm_compute. reflexivity. Qed.


(** ** The storage mode *)

Lemma Push_mode pm key val b pm' calls :
  WF pm -> _ObMap_Push heap_ok pm key val = Some (b, pm', calls) ->
  (fLargeMode pm' = fLargeMode pm /\ cHashMax pm' = cHashMax pm) \/
  (c pm = cHashGrowThreshold pm /\ fLargeMode pm' = true /\ cHashMax pm' = 2 * cHashMax pm).
Proof.
  intros W E.
  destruct (Push_frame pm key val b pm' calls E) as [[_ ->]|(-> & pmg & Hg & Hsa)]; [auto|].
  destruct (Push_cases pm key val) as [Hb|(H1 & H2 & H3 & H4)].
  { rewrite (Push_fail pm key val W Hb) in E. discriminate. }
  destruct (Push_ok pm key val W H1 H2 H3 H4)
    as (pm2 & E2 & _ & _ & _ & _ & _ & _ & _ & Hgrow & Hsame).
  rewrite E2 in E. inversion E; subst pm2; clear E.
  destruct Hsa as (_ & _ & Fl).
  destruct (Push_alloc_fields heap_ok pmg (c pm)) as (_ & _ & _ & Am & _).
  rewrite Am in Fl.
  destruct Hg as [[Hne ->]|(Ethr & Gl & _)].
  - left. split; [exact Fl|]. now apply Hsame.
  - right. split; [exact Ethr|]. split; [congruence|]. now apply Hgrow.
Qed.

Lemma same_shape_mode pm pm' :
  same_shape pm pm' -> fLargeMode pm' = fLargeMode pm /\ cHashMax pm' = cHashMax pm.
Proof. intros H. now rewrite (ss_fLargeMode _ _ H), (ss_cHashMax _ _ H). Qed.

Lemma step_mode qsort :
  (forall pfnSort l, Permutation l (qsort pfnSort l)) ->
  forall pm o pm', WF pm -> ObMap_step qsort pm o = Some pm' ->
    (fLargeMode pm' = fLargeMode pm /\ cHashMax pm' = cHashMax pm) \/
    (c pm = cHashGrowThreshold pm /\ fLargeMode pm' = true /\ cHashMax pm' = 2 * cHashMax pm).
Proof.
  intros Hq pm o pm' W E. pose proof (WF_c_range pm W) as Hcr.
  destruct o as [key val|key p| | |val|key|pfn| |pfnSort| ]; cbn [ObMap_step] in E.
  - unfold ObMap_Push in E.
    destruct (_ObMap_Push heap_ok pm key val) as [[[b pm1] calls]|] eqn:E1; cbn in E; [|discriminate].
    inversion E; subst. now apply (Push_mode pm key val b pm' calls).
  - unfold ObMap_PushCopy, _ObMap_PushCopy in E.
    destruct (fObjectsLocalFree pm); cbn [negb] in E;
      [|cbn in E; inversion E; subst; auto].
    destruct (p =? 0); [cbn in E; inversion E; subst; auto|].
    destruct (_ObMap_Push heap_ok pm key p) as [[[b1 pm1] calls1]|] eqn:E1; cbn [bind] in E;
      [|discriminate].
    pose proof (Push_mode pm key p b1 pm1 calls1 W E1) as H1.
    destruct b1; cbn in E; inversion E; subst; exact H1.
  - unfold ObMap_Pop in E.
    destruct (RetrieveAndRemove_total pm (dw (c pm - 1)) W) as (r & pm1 & E1 & _ & Hss).
    { rewrite dw_small; lia. }
    rewrite E1 in E. cbn in E. inversion E; subst. left. now apply same_shape_mode.
  - unfold ObMap_PopWithKey in E.
    destruct (RetrieveAndRemove_total pm (dw (c pm - 1)) W) as (r & pm1 & E1 & _ & Hss).
    { rewrite dw_small; lia. }
    rewrite E1 in E. cbn in E. inversion E; subst. left. now apply same_shape_mode.
  - unfold ObMap_Remove in E.
    destruct (RemoveOrRemoveByKey_total pm true val W) as (r & pm1 & E1 & _ & Hss).
    rewrite E1 in E. cbn in E. inversion E; subst. left. now apply same_shape_mode.
  - unfold ObMap_RemoveByKey in E.
    destruct (RemoveOrRemoveByKey_total pm false key W) as (r & pm1 & E1 & _ & Hss).
    rewrite E1 in E. cbn in E. inversion E; subst. left. now apply same_shape_mode.
  - unfold ObMap_RemoveByFilter in E.
    destruct (RemoveByFilter_ok pm pfn W) as (r & pm1 & calls & E1 & _ & Hss).
    rewrite E1 in E. cbn in E. inversion E; subst. left. now apply same_shape_mode.
  - destruct (Clear_ok pm W) as (pm1 & E1 & _ & _ & Hss & _).
    rewrite E1 in E. cbn in E. inversion E; subst. left. now apply same_shape_mode.
  - unfold ObMap_SortEntryIndex in E.
    destruct (Sort_ok qsort pfnSort pm (Hq pfnSort) W) as (pm1 & E1 & _ & _ & Hss & _).
    rewrite E1 in E. cbn in E. inversion E; subst. left. now apply same_shape_mode.
  - unfold ObMap_SortEntryIndexByKey, ObMap_SortEntryIndex in E.
    destruct (Sort_ok qsort _ObMap_SortEntryIndexByKey_CmpSort pm (Hq _) W)
      as (pm1 & E1 & _ & _ & Hss & _).
    rewrite E1 in E. cbn in E. inversion E; subst. left. now apply same_shape_mode.
Qed.

Lemma WF_hmax_min pm : WF pm -> 0x100 <= cHashMax pm.
Proof.
  intros W. destruct (wf_grow pm W) as (g & Hg & -> & _).
  assert (0 < 2 ^ g) by (apply Z.pow_pos_nonneg; lia). lia.
Qed.

Lemma run_mode qsort :
  (forall pfnSort l, Permutation l (qsort pfnSort l)) ->
  forall ops pm pm', WF pm -> ObMap_run qsort ops pm = Some pm' ->
    WF pm' /\ mode_after pm pm' /\ (mode_by_size pm -> mode_by_size pm').
Proof.
  intros Hq. induction ops as [|o ops IH]; intros pm pm' W E.
  - cbn in E. inversion E; subst. split; [exact W|]. split; [|auto].
    unfold mode_after. split; [auto|lia].
  - cbn [ObMap_run] in E.
    destruct (step_WF qsort Hq pm o W) as (pm1 & E1 & W1).
    rewrite E1 in E. cbn [bind] in E.
    destruct (IH pm1 pm' W1 E) as (W' & [Ha1 Ha2] & Hm).
    pose proof (WF_hmax_min pm W) as Hmin.
    split; [exact W'|].
    destruct (step_mode qsort Hq pm o pm1 W E1) as [[Fl FN]|(_ & Fl & FN)].
    + split; [split; [intros H; apply Ha1; congruence|lia]|].
      intros HJ. apply Hm. unfold mode_by_size in *. rewrite Fl, FN. exact HJ.
    + split; [split; [intros _; now apply Ha1|lia]|].
      intros _. apply Hm. right. split; [exact Fl|lia].
Qed.

(** Let the library sort permute its array.  A map made by [ObMap_New] is
    in small mode exactly as long as its hash arrays have the 256 embedded
    slots; then it holds fewer than 192 entries, all of them in the embedded
    store.  The change to large mode is made by the push of the entry 192
    and is never undone: whatever operations follow, removals and
    [ObMap_Clear] included, a map in large mode stays in large mode and the
    hash arrays never become shorter.  The operations run with their
    allocations granted. *)
Theorem ObMap_storage_mode qsort mem flags pm0 ops pm :
  (forall pfnSort l, Permutation l (qsort pfnSort l)) ->
  ObMap_New mem flags = Some pm0 -> ObMap_run qsort ops pm0 = Some pm ->
  (fLargeMode pm = false <-> cHashMax pm = 0x100) /\
  (fLargeMode pm = false ->
   ObMap_Size pm < 0xc0 /\
   forall i, live pm i -> OB_MAP_INDEX_DIRECTORY i = 0 /\ OB_MAP_INDEX_TABLE i = 0) /\
  (forall o pm1, ObMap_step qsort pm o = Some pm1 ->
     fLargeMode pm = false -> fLargeMode pm1 = true ->
     ObMap_Size pm = 0xc0 - 1 /\ ObMap_Size pm1 = 0xc0 /\ cHashMax pm1 = 0x200) /\
  (forall ops' pm', ObMap_run qsort ops' pm = Some pm' ->
     (fLargeMode pm = true -> fLargeMode pm' = true) /\ cHashMax pm <= cHashMax pm').
Proof.
  intros Hq E0 Er.
  pose proof (ObMap_New_WF flags pm0 E0) as W0.
  assert (HJ0 : mode_by_size pm0).
  { apply ObMap_New_Some in E0. destruct E0 as [-> _]. left. split; reflexivity. }
  destruct (run_mode qsort Hq ops pm0 pm W0 Er) as (W & _ & HJ). specialize (HJ HJ0).
  pose proof (WF_c_range pm W) as Hcr.
  assert (Hs : ObMap_Size pm = c pm - 1) by (unfold ObMap_Size; rewrite dw_small; lia).
  split; [|split; [|split]].
  - destruct HJ as [[H1 H2]|[H1 H2]]; split; intros H; auto; try congruence; lia.
  - intros El. pose proof (wf_small pm W El) as Ht. pose proof (wf_thr pm W) as Hc.
    split; [lia|]. intros i Hi. unfold live in Hi. apply index_small. lia.
  - intros o pm1 E1 El El1.
    pose proof (wf_small pm W El) as Ht.
    destruct (step_mode qsort Hq pm o pm1 W E1) as [[Fl FN]|(Ethr & Fl & FN)];
      [congruence|].
    destruct HJ as [[_ HN]|[H _]]; [|congruence].
    destruct (step_WF qsort Hq pm o W) as (pm2 & E2 & W2).
    rewrite E1 in E2. inversion E2; subst pm2.
    pose proof (WF_c_range pm1 W2) as Hcr1.
    split; [lia|]. split; [|lia].
    unfold ObMap_Size. rewrite dw_small by lia.
    pose proof (wf_thr pm1 W2) as Hc1.
    destruct o as [key val|key p| | |val|key|pfn| |pfnSort| ]; cbn [ObMap_step] in E1.
    all: try (exfalso;
              match type of E1 with
              | context [ObMap_Pop] => unfold ObMap_Pop in E1;
                  destruct (RetrieveAndRemove_total pm (dw (c pm - 1)) W)
                    as (r & pmx & Ex & _ & Hss); [rewrite dw_small; lia|]
              | context [ObMap_PopWithKey] => unfold ObMap_PopWithKey in E1;
                  destruct (RetrieveAndRemove_total pm (dw (c pm - 1)) W)
                    as (r & pmx & Ex & _ & Hss); [rewrite dw_small; lia|]
              | context [ObMap_Remove] => unfold ObMap_Remove in E1;
                  destruct (RemoveOrRemoveByKey_total pm true val W)
                    as (r & pmx & Ex & _ & Hss)
              | context [ObMap_RemoveByKey] => unfold ObMap_RemoveByKey in E1;
                  destruct (RemoveOrRemoveByKey_total pm false key W)
                    as (r & pmx & Ex & _ & Hss)
              | context [ObMap_RemoveByFilter] => unfold ObMap_RemoveByFilter in E1;
                  destruct (RemoveByFilter_ok pm pfn W) as (r & pmx & calls & Ex & _ & Hss)
              | context [ObMap_Clear] =>
                  destruct (Clear_ok pm W) as (pmx & Ex & _ & _ & Hss & _)
              | context [ObMap_SortEntryIndexByKey] =>
                  unfold ObMap_SortEntryIndexByKey, ObMap_SortEntryIndex in E1;
                  destruct (Sort_ok qsort _ObMap_SortEntryIndexByKey_CmpSort pm (Hq _) W)
                    as (pmx & Ex & _ & _ & Hss & _)
              | context [ObMap_SortEntryIndex] => unfold ObMap_SortEntryIndex in E1;
                  destruct (Sort_ok qsort pfnSort pm (Hq pfnSort) W)
                    as (pmx & Ex & _ & _ & Hss & _)
              end;
              rewrite Ex in E1; cbn in E1; inversion E1; subst pmx;
              rewrite (ss_fLargeMode _ _ Hss) in El1; congruence).
    + unfold ObMap_Push in E1.
      destruct (_ObMap_Push heap_ok pm key val) as [[[b pmx] calls]|] eqn:Ep; cbn in E1;
        [|discriminate].
      inversion E1; subst pmx.
      destruct (Push_cases pm key val) as [Hb|(H1 & H2 & H3 & H4)].
      { rewrite (Push_fail pm key val W Hb) in Ep. inversion Ep; subst. congruence. }
      destruct (Push_ok pm key val W H1 H2 H3 H4) as (pm2 & E2' & _ & Hc2 & _).
      rewrite E2' in Ep. inversion Ep; subst. lia.
    + unfold ObMap_PushCopy, _ObMap_PushCopy in E1.
      destruct (fObjectsLocalFree pm); cbn [negb] in E1;
        [|cbn in E1; inversion E1; subst; congruence].
      destruct (p =? 0); [cbn in E1; inversion E1; subst; congruence|].
      destruct (_ObMap_Push heap_ok pm key p) as [[[b pmx] calls]|] eqn:Ep; cbn [bind] in E1;
        [|discriminate].
      destruct (Push_cases pm key p) as [Hb|(H1 & H2 & H3 & H4)].
      { rewrite (Push_fail pm key p W Hb) in Ep. inversion Ep; subst.
        cbn in E1. inversion E1; subst. congruence. }
      destruct (Push_ok pm key p W H1 H2 H3 H4) as (pm2 & E2' & _ & Hc2 & _).
      rewrite E2' in Ep. inversion Ep; subst. cbn in E1. inversion E1; subst. lia.
  - intros ops' pm' Er'. destruct (run_mode qsort Hq ops' pm pm' W Er') as (_ & Ha & _).
    exact Ha.
Qed.


Lemma ObMap_storage_mode_witness :
  exists pm,
    ObMap_run insertion_sort [OpPush 1 0x10; OpPush 2 0x20; OpClear] (ObMap_New_init 0)
    = Some pm /\
    (fLargeMode pm = false <-> cHashMax pm = 0x100).
Proof.
  destruct (run_WF insertion_sort insertion_sort_perm
              [OpPush 1 0x10; OpPush 2 0x20; OpClear]
              (ObMap_New_init 0) (ObMap_New_init_WF _)) as (pm & E & _).
  exists pm. split; [exact E|].
  exact (proj1 (ObMap_storage_mode insertion_sort heap_ok 0 (ObMap_New_init 0) _ pm
                  insertion_sort_perm eq_refl E)).
Defined.

Example storage_mode_300 :
  fLargeMode (map_of_list 0 (pairs_from 191 1)) = false /\
  fLargeMode (map_of_list 0 (pairs_from 192 1)) = true /\
  cHashMax (map_of_list 0 (pairs_from 192 1)) = 0x200.
Proof. vm_compute. repeat split; reflexivity. Qed.


(** ** The lookups see the entries only *)

Lemma same_entries_c pm1 pm2 : WF pm1 -> WF pm2 -> same_entries pm1 pm2 -> c pm1 = c pm2.
Proof.
  intros W1 W2 (E & _). pose proof (WF_c_range pm1 W1). pose proof (WF_c_range pm2 W2).
  pose proof (entries_length pm1) as L1. pose proof (entries_length pm2) as L2.
  rewrite E in L1. lia.
Qed.

Lemma same_entries_Entry pm1 pm2 i :
  WF pm1 -> WF pm2 -> same_entries pm1 pm2 -> live pm1 i -> Entry pm1 i = Entry pm2 i.
Proof.
  intros W1 W2 Hs Hi. pose proof (same_entries_c pm1 pm2 W1 W2 Hs) as Hc.
  pose proof (WF_c_range pm1 W1). pose proof (WF_c_range pm2 W2).
  destruct Hs as (E & _).
  rewrite <- (entries_nth pm1 (mkEntry 0 0) i), <- (entries_nth pm2 (mkEntry 0 0) i);
    auto; try lia.
  - now rewrite E.
  - unfold live in *. lia.
Qed.

Lemma same_entries_GetFromIndex pm1 pm2 i :
  WF pm1 -> WF pm2 -> same_entries pm1 pm2 -> 0 <= i ->
  _ObMap_GetFromIndex pm1 i = _ObMap_GetFromIndex pm2 i.
Proof.
  intros W1 W2 Hs Hi. pose proof (same_entries_c pm1 pm2 W1 W2 Hs) as Hc.
  destruct (Z.eq_dec i 0) as [->|Hne]; [reflexivity|].
  destruct (Z_lt_ge_dec i (c pm1)) as [Hlt|Hge].
  - rewrite !GetFromIndex_live by (unfold live; lia).
    f_equal. apply same_entries_Entry; auto. unfold live. lia.
  - rewrite !GetFromIndex_dead by lia. reflexivity.
Qed.

Lemma same_entries_key_of pm1 pm2 f i :
  WF pm1 -> WF pm2 -> same_entries pm1 pm2 -> 0 <= i -> key_of pm1 f i = key_of pm2 f i.
Proof.
  intros W1 W2 Hs Hi. unfold key_of, _ObMap_GetFromEntryIndex.
  now rewrite (same_entries_GetFromIndex pm1 pm2 i W1 W2 Hs Hi).
Qed.

Lemma same_entries_lookup pm1 pm2 f kv :
  WF pm1 -> WF pm2 -> same_entries pm1 pm2 ->
  _ObMap_GetEntryIndexFromKeyOrValue pm1 f kv = _ObMap_GetEntryIndexFromKeyOrValue pm2 f kv.
Proof.
  intros W1 W2 Hs. pose proof (same_entries_c pm1 pm2 W1 W2 Hs) as Hc.
  pose proof Hs as (_ & Hk & _).
  destruct (f || fKey pm1) eqn:Ef.
  - assert (Hf1 : f = true \/ fKey pm1 = true) by (destruct f; auto).
    assert (Hf2 : f = true \/ fKey pm2 = true) by (rewrite <- Hk; exact Hf1).
    destruct (WF_lookup_total pm1 f kv W1 Hf1) as [(i & Hi & Ekv & E)|[Hno E]]; rewrite E.
    + rewrite <- Ekv, (same_entries_key_of pm1 pm2 f i) by (auto; unfold live in Hi; lia).
      symmetry. apply WF_lookup_found; auto. unfold live in *. lia.
    + symmetry. apply WF_lookup_none; auto. intros i Hi.
      rewrite <- (same_entries_key_of pm1 pm2 f i) by (auto; unfold live in Hi; lia).
      apply Hno. unfold live in *. lia.
  - destruct f; [discriminate|]. cbn [orb] in Ef.
    unfold _ObMap_GetEntryIndexFromKeyOrValue. rewrite <- Hk, Ef. reflexivity.
Qed.

Lemma same_entries_GetByEntryIndex pm1 pm2 i :
  WF pm1 -> WF pm2 -> same_entries pm1 pm2 -> 0 <= i ->
  _ObMap_GetByEntryIndex pm1 i = _ObMap_GetByEntryIndex pm2 i.
Proof.
  intros W1 W2 Hs Hi. pose proof Hs as (_ & _ & Ho).
  unfold _ObMap_GetByEntryIndex, _ObMap_GetFromEntryIndex.
  now rewrite (same_entries_GetFromIndex pm1 pm2 i W1 W2 Hs Hi), Ho.
Qed.

Lemma dw_nonneg x : 0 <= dw x.
Proof. unfold dw. apply Z.mod_pos_bound. lia. Qed.

(** What the retrieval functions return depends on the entries of a
    well-formed map only, not on how its hash arrays came about: two maps
    with the same entries in the same order (and the same key mode and
    reference counting), whatever pushes, removals, growth or sorting
    produced them, give the same results for the size, the membership
    tests, the lookups by key and of the key, the access by index, the
    peeks, the forward iterations and the filter. *)
Theorem lookups_see_entries_only pm1 pm2 :
  WF pm1 -> WF pm2 -> same_entries pm1 pm2 ->
  ObMap_Size pm1 = ObMap_Size pm2 /\
  (forall val, ObMap_Exists pm1 val = ObMap_Exists pm2 val) /\
  (forall key, ObMap_ExistsKey pm1 key = ObMap_ExistsKey pm2 key) /\
  (forall key, ObMap_GetByKey pm1 key = ObMap_GetByKey pm2 key) /\
  (forall val, ObMap_GetKey pm1 val = ObMap_GetKey pm2 val) /\
  (forall index, ObMap_GetByIndex pm1 index = ObMap_GetByIndex pm2 index) /\
  ObMap_Peek pm1 = ObMap_Peek pm2 /\ ObMap_PeekKey pm1 = ObMap_PeekKey pm2 /\
  (forall val, ObMap_GetNext pm1 val = ObMap_GetNext pm2 val) /\
  (forall key val, ObMap_GetNextByKey pm1 key val = ObMap_GetNextByKey pm2 key val) /\
  ObMap_Filter pm1 = ObMap_Filter pm2.
Proof.
  intros W1 W2 Hs. pose proof (same_entries_c pm1 pm2 W1 W2 Hs) as Hc.
  pose proof Hs as (He & Hk & Ho).
  pose proof (WF_c_range pm1 W1) as Hcr1.
  assert (Hg : forall i, 0 <= i -> _ObMap_GetByEntryIndex pm1 i = _ObMap_GetByEntryIndex pm2 i).
  { intros i Hi. now apply same_entries_GetByEntryIndex. }
  assert (Hl : forall f kv, _ObMap_GetEntryIndexFromKeyOrValue pm1 f kv
                            = _ObMap_GetEntryIndexFromKeyOrValue pm2 f kv).
  { intros f kv. now apply same_entries_lookup. }
  assert (Hlr : forall f kv i, _ObMap_GetEntryIndexFromKeyOrValue pm2 f kv = Some (Some i) ->
                               0 <= i).
  { intros f kv i E. destruct (f || fKey pm2) eqn:Ef.
    - assert (Hf2 : f = true \/ fKey pm2 = true) by (destruct f; auto).
      destruct (WF_lookup_total pm2 f kv W2 Hf2) as [(j & Hj & _ & E')|[_ E']];
        rewrite E' in E; inversion E; subst. unfold live in Hj. lia.
    - destruct f; [discriminate|]. cbn [orb] in Ef.
      unfold _ObMap_GetEntryIndexFromKeyOrValue in E. rewrite Ef in E. discriminate. }
  assert (Hd : decref_if_ob pm1 = decref_if_ob pm2).
  { unfold decref_if_ob. now rewrite Ho. }
  split; [unfold ObMap_Size; now rewrite Hc|].
  split; [intros val; unfold ObMap_Exists, _ObMap_Exists; now rewrite Hk, Hl|].
  split; [intros key; unfold ObMap_ExistsKey, _ObMap_Exists; now rewrite Hk, Hl|].
  split.
  { intros key. unfold ObMap_GetByKey, _ObMap_GetByKey. rewrite Hl.
    destruct (_ObMap_GetEntryIndexFromKeyOrValue pm2 false key) as [[i|]|] eqn:E;
      cbn [bind]; try reflexivity.
    rewrite Hg by (apply (Hlr false key i E)). reflexivity. }
  split.
  { intros val. unfold ObMap_GetKey, _ObMap_GetKey. rewrite Hl.
    destruct (_ObMap_GetEntryIndexFromKeyOrValue pm2 true val) as [[i|]|] eqn:E;
      cbn [bind]; try reflexivity.
    rewrite (same_entries_GetFromIndex pm1 pm2 i) by (auto; apply (Hlr true val i E)).
    reflexivity. }
  split; [intros index; unfold ObMap_GetByIndex; apply Hg, dw_nonneg|].
  split; [unfold ObMap_Peek; rewrite Hc; apply Hg, dw_nonneg|].
  split.
  { unfold ObMap_PeekKey, _ObMap_GetFromEntryIndex. rewrite Hc.
    now rewrite (same_entries_GetFromIndex pm1 pm2 _ W1 W2 Hs (dw_nonneg _)). }
  split.
  { intros val. unfold ObMap_GetNext, _ObMap_GetNext. rewrite Hl, Hd.
    destruct (val =? 0); [now rewrite Hg by lia|].
    destruct (_ObMap_GetEntryIndexFromKeyOrValue pm2 true val) as [[i|]|] eqn:E;
      cbn [bind]; try reflexivity.
    now rewrite Hg by apply dw_nonneg. }
  split.
  { intros key val. unfold ObMap_GetNextByKey, _ObMap_GetNextByKey. rewrite Hl, Hd.
    destruct (val =? 0); [now rewrite Hg by lia|].
    destruct (_ObMap_GetEntryIndexFromKeyOrValue pm2 false key) as [[i|]|] eqn:E;
      cbn [bind]; try reflexivity.
    now rewrite Hg by apply dw_nonneg. }
  unfold ObMap_Filter, _ObMap_Filter. rewrite !Filter_loop_entries.
  fold (entries pm1). fold (entries pm2). now rewrite He.
Qed.

Lemma example_regrown_WF : WF example_regrown.
Proof.
  unfold example_regrown.
  destruct (run_WF insertion_sort insertion_sort_perm
              (map (fun p => OpPush (fst p) (snd p))
                   ([(10, 0xA0); (20, 0xB0); (30, 0xC0)] ++ pairs_from 200 1000)
               ++ repeat OpPop 200)
              (ObMap_New_init 0) (ObMap_New_init_WF 0)) as (pm & E & W).
  rewrite E. exact W.
Qed.

Lemma lookups_see_entries_only_witness :
  cHashMax example_regrown = 0x200 /\ cHashMax example_map = 0x100 /\
  ObMap_GetByKey example_regrown 20 = ObMap_GetByKey example_map 20.
Proof.
  assert (H1 : cHashMax example_regrown = 0x200) by (vm_compute; reflexivity).
  assert (H2 : cHashMax example_map = 0x100) by (vm_compute; reflexivity).
  assert (He : entries example_regrown = entries example_map) by (vm_compute; reflexivity).
  assert (Hk : fKey example_regrown = fKey example_map) by (vm_compute; reflexivity).
  assert (Ho : fObjectsOb example_regrown = fObjectsOb example_map)
    by (vm_compute; reflexivity).
  pose proof (lookups_see_entries_only example_regrown example_map
                example_regrown_WF (map_of_list_WF _ _) (conj He (conj Hk Ho)))
    as (_ & _ & _ & H & _).
  split; [exact H1|]. split; [exact H2|]. exact (H 20).
Defined.

(** ** Iteration by index *)

Lemma Index_iterate_from pm :
  WF pm ->
  forall n, Z.of_nat n < c pm ->
    Index_iterate (S n) pm (Z.of_nat n + 1) = Some (rev (map v (read_entries n pm 1))).
Proof.
  intros W. pose proof (WF_c_range pm W) as Hcr.
  induction n as [|n IH]; intros Hn.
  - cbn [Index_iterate ObMap_GetNextByIndex _ObMap_GetNextByIndex with_calls
         _ObMap_GetByEntryIndex fst snd Z.eqb negb Z.of_nat Z.add].
    change (_ObMap_GetFromEntryIndex pm true) with (value_at pm).
    rewrite value_at_dead by (left; reflexivity). reflexivity.
  - change (Index_iterate (S (S n)) pm (Z.of_nat (S n) + 1))
      with (let r := ObMap_GetNextByIndex pm (Z.of_nat (S n) + 1) 0 in
            if fst (snd r) =? 0 then Some []
            else l <- Index_iterate (S n) pm (fst r) ;; Some (fst (snd r) :: l)).
    cbn [ObMap_GetNextByIndex _ObMap_GetNextByIndex with_calls _ObMap_GetByEntryIndex
         fst snd Z.eqb negb].
    change (_ObMap_GetFromEntryIndex pm true) with (value_at pm).
    replace (dw (Z.of_nat (S n) + 1 - 1)) with (Z.of_nat n + 1)
      by (rewrite dw_small; lia).
    assert (Hl : live pm (Z.of_nat n + 1)) by (unfold live; lia).
    rewrite (value_at_live pm _ Hl).
    destruct (Z.eqb_spec (v (Entry pm (Z.of_nat n + 1))) 0) as [E|_].
    { now apply (wf_value_nz pm W) in E. }
    rewrite IH by lia. cbn [bind].
    rewrite read_entries_snoc by lia. rewrite map_app, rev_app_distr. cbn [map rev app].
    now rewrite (Z.add_comm 1).
Qed.

(** [ObMap_GetNextByIndex] with NULL for the previous object steps the
    index down by one and returns the object at the new index.  On a
    well-formed map the loop that keeps passing NULL and starts with the
    index one above the size returns every object once, in reverse index
    order, and then NULL; started with the index 0 it returns NULL at
    once.  With a previous object that is not NULL the call ignores the
    index it is given: it sets the index to the size and returns the last
    object, which is not NULL unless the map is empty. *)
Theorem ObMap_GetNextByIndex_reverse pm :
  WF pm ->
  Index_iterate (S (Z.to_nat (ObMap_Size pm))) pm (dw (ObMap_Size pm + 1))
  = Some (rev (map v (entries pm))) /\
  Index_iterate 1 pm 0 = Some [] /\
  (forall dwIndex pvObject,
     pvObject <> 0 ->
     fst (ObMap_GetNextByIndex pm dwIndex pvObject) = ObMap_Size pm /\
     fst (snd (ObMap_GetNextByIndex pm dwIndex pvObject)) = fst (ObMap_Peek pm) /\
     (ObMap_Size pm <> 0 -> fst (ObMap_Peek pm) <> 0)).
Proof.
  intros W. pose proof (WF_c_range pm W) as Hcr.
  assert (Hs : ObMap_Size pm = c pm - 1) by (unfold ObMap_Size; rewrite dw_small; lia).
  split; [|split].
  - rewrite Hs. rewrite dw_small by lia.
    replace (c pm - 1 + 1) with (Z.of_nat (Z.to_nat (c pm - 1)) + 1) by lia.
    unfold entries. apply Index_iterate_from; [exact W|lia].
  - cbn [Index_iterate ObMap_GetNextByIndex _ObMap_GetNextByIndex with_calls
         _ObMap_GetByEntryIndex fst snd Z.eqb negb].
    change (_ObMap_GetFromEntryIndex pm true) with (value_at pm).
    rewrite value_at_dead; [reflexivity|].
    right. change (dw (0 - 1)) with (2 ^ 32 - 1). lia.
  - intros dwIndex pvObject Hpv.
    unfold ObMap_GetNextByIndex, _ObMap_GetNextByIndex, ObMap_Peek, with_calls.
    destruct (Z.eqb_spec pvObject 0) as [E|_]; [contradiction|].
    cbn [negb fst snd]. split; [reflexivity|]. split; [reflexivity|].
    intros Hne. unfold _ObMap_GetByEntryIndex. cbn [fst].
    change (_ObMap_GetFromEntryIndex pm true) with (value_at pm).
    fold (ObMap_Size pm). rewrite Hs.
    rewrite value_at_live by (unfold live; lia).
    apply (wf_value_nz pm W). unfold live. lia.
Qed.

Lemma ObMap_GetNextByIndex_reverse_witness :
  Index_iterate 4 example_map 4 = Some [0xC0; 0xB0; 0xA0].
Proof.
  assert (Hs : ObMap_Size example_map = 3) by (vm_compute; reflexivity).
  assert (He : map v (entries example_map) = [0xA0; 0xB0; 0xC0]) by (vm_compute; reflexivity).
  pose proof (proj1 (ObMap_GetNextByIndex_reverse example_map (map_of_list_WF _ _))) as H.
  rewrite Hs, He in H. exact H.
Defined.
